(* ===== verification/_CoqProject ===== *)
-Q . S2P
Prelude.v
Libc.v
UnixAbi.v
Sockaddr.v
Batch.v
Backend.v
Fallback.v
LinuxSend.v
LinuxRecv.v
LinuxArrays.v
Macos.v
Windows.v
F64.v
Adaptive.v
Metrics.v
Bufs.v
Socket.v
Network.v
Tests.v
Examples.v
