(* ===== verification/Prelude.v ===== *)
(** * Verification of binger-udp: batch-native UDP I/O

    ** The program

    binger-udp sends and receives UDP datagrams in batches. A caller fills a [SendBatch] with
    datagrams (payload pointer, optional destination) or provides a [RecvBatch] of empty slots, and
    hands it to a [BingerUdp] socket. The socket passes the batch to the platform backend chosen at
    compile time ([sendmmsg]/[recvmmsg] on Linux, [sendmsg_x]/[recvmsg_x] on macOS, [WSASendMsg] and
    [WSARecvMsg] on Windows, one plain call per datagram elsewhere), waits for
    readiness through tokio when the call would block, adapts its recommended batch size to the rate
    of such calls and counts what it did in atomic counters. A buffer pool is offered beside it.

    ** Files

    In dependency order; [src/] paths are those of the crate.

    - [Prelude.v] (this file): outcomes of Rust code, the state monad [M] with its notations
      [let!] / [let?], weakest preconditions [wp], widths and byte orders of integers, list and buffer
      lemmas, tactics.
    - [Libc.v]: what the code calls. [SocketAddr] and [io_error] of std; the class [Libc] for the
      libc crate and [LibcLaws] for what is relied on of it; [Kernel] and [KernelLaws] for the
      operating system and the tokio reactor. The state of an [IO] computation is the history of
      calls made so far: a kernel answers each call as an arbitrary function of that history, so
      theorems hold for every environment, and what reached the network is read off the history.
    - [UnixAbi.v]: instances of these classes: the byte-level layouts of Linux, macOS and WinSock on either
      byte order and a kernel that answers from a script. The witnesses evaluate on them.
    - [Sockaddr.v]: [sockaddr/unix.rs]. [encode_sockaddr], [decode_sockaddr], the [raw_*] wrappers.
    - [Batch.v]: [batch.rs], [error.rs]. Modules [SendBatchRaw], [SendBatch], [RecvBatchRaw],
      [RecvBatch]; a send slot holds a pointer into the caller's memory, as the code does, and reading
      a pointer whose memory is gone is [UB].
    - [Backend.v]: [platform/mod.rs]. [imp], the backend each target and feature set selects, the
      interface [Backend] and its contract [BackendLaws].
    - [Fallback.v]: [platform/fallback.rs]. One [sendto]/[recvfrom] per datagram; proves
      [BackendLaws]. The receive loop [recv_each] is proved for any call that receives one datagram.
    - [LinuxSend.v]: [platform/linux.rs], sending. The header, iovec and address arrays and the
      pointers between them, on the stack for at most 64 entries and on the heap for more; GSO.
    - [LinuxRecv.v]: [platform/linux.rs], receiving. [retry_eintr], [recvmmsg], the walk over control
      messages, splitting of coalesced (GRO) messages; proves [BackendLaws] for builds without GRO
      (with GRO the code breaks them, see below). This file works on the slots directly.
    - [LinuxArrays.v]: the same receive with its header, iovec, address and control arrays, on the
      stack for at most 64 slots and in vectors for more, and the kernel's writes through them.
    - [Macos.v]: [platform/macos.rs]. The private calls, found with [dlsym], are the class [Xnu]; proves
      [BackendLaws].
    - [Windows.v]: [platform/windows.rs], [sockaddr/windows_impl.rs]. WinSock is the class [WinSock]; the
      static [OnceLock] with the loaded function is read off the history; proves [BackendLaws] and
      that the wrappers agree with the Unix ones.
    - [F64.v]: what a double-precision division of counters and its comparison with a literal decide.
    - [Adaptive.v]: [socket.rs], [AdaptiveState].
    - [Metrics.v]: [metrics.rs]. Operations as programs of atomic steps, threads as interleavings.
    - [Bufs.v]: [bufs.rs]. The queue and buffer crates are the classes [ArrayQueue] and [BytesMut].
    - [Socket.v]: [socket.rs]. [Config], [PlatformCaps], and the Module [BingerUdp] with every
      operation of the socket over an arbitrary [Backend].
    - [Network.v]: a host on which datagrams are queued at the socket they are addressed to
      ([Network], [NetworkLaws]), the stack composed over it, and the executable host [loop_kernel].
    - [Tests.v]: the unit tests of [batch.rs], [bufs.rs], [metrics.rs] and [sockaddr/unix.rs].
    - [Examples.v]: the programs of [examples/].

    ** What the theorems show

    - Delivery. [send_batch] over any lawful backend hands the kernel exactly the prefix of the batch
      it reports, in order and once, across all its waits and retries ([send_batch_exactly_once]);
      [recv_batch] returns as soon as something arrives, never with zero packets
      ([recv_batch_correct]); [recv_from], [send_to], [from_std] and the counters likewise. These are
      proved against [BackendLaws], which every backend discharges ([fallback_laws], [linux_laws],
      [macos_lawful], [windows_lawful]; the Linux one for builds without GRO, those with [retry_eintr]
      for a bounded number of signals in a row, [few_signals]).
    - End to end. On a host that neither loses nor reorders, what [send_batch] sends is what
      [recv_batch] on the other socket returns, for any mix of the Linux and the portable backend
      with explicit destinations or on a connected socket ([send_batch_recv_batch]); the datagrams have
      a legal size, both sockets are open and the sender reaches the receiver. All four examples print
      what they should on every such host ([batch_main_any_host], [basic_and_config_any_host],
      [select_main_any_host]).
    - Backends, branch by branch. What is offered to the kernel, what is returned, what is in the
      batch afterwards, for every answer of the kernel: [fallback_send_correct],
      [fallback_recv_correct], [linux_send_correct], [linux_recv_correct], [linux_recv_gro_correct],
      [linux_recv_errors], [retry_eintr_spec], [send_gso_correct], [macos_send_correct],
      [macos_recv_correct], [win_send_correct], [win_recv_correct]. The Linux receive over its arrays,
      both copies, computes what the one over the slots does ([linux_recv_arrays_equiv]).
    - Defects of the code, as theorems about the same definitions: the address fix-up of large Linux
      batches ([linux_heap_misaddresses]), a coalesced message that is not the last one
      ([linux_recv_gro_loses_next], [linux_recv_gro_panics]), stale control data
      ([linux_recv_stale_timestamp]), a batch size that never recovers ([adaptive_stuck_at_one],
      [adaptive_needs_would_block]), unsent datagrams reported as sent ([send_to_unsent]), torn
      snapshots ([snapshot_torn]). The predicate [send_supported] of a backend marks the batches the
      first of these does not affect.
    - Data. Address round trip on both byte orders ([decode_encode_sockaddr]) and the bytes of an address
      block, decoded and encoded ([sockaddr_layout]); the send batch refines
      a bounded list ([send_batch_refines_bounded_list]), the pool a bounded first-in first-out queue
      ([pool_refines_queue]); reads give back what was written, up to the 16 bits a length is stored
      in ([push_then_entry], [iter_packets], [set_recv_len_data], [clear_resets],
      [as_duration_spec]).
    - Adaptation and counting. The thresholds of 30% and 10% are met exactly despite rounding, for
      counts below 2^50 ([maybe_adjust_decision]); bounds and rate limit ([adaptive_bounds],
      [adaptive_rate_limit]); no update of the socket's counters is lost in any interleaving of threads
      ([metrics_no_lost_update]); a successful call counts what was sent or received, a failed one only
      the error, not the datagrams before it ([send_metrics], [recv_metrics]).
    - Validation. The unit tests of the crate, evaluated on the definitions, pass ([unit_tests_pass]):
      the model agrees with what the authors expect of the code on these inputs.

    ** Conventions, bounds and fuel

    Machine integers are [Z] with their width written out ([as_u16], [as_u32], [as_u64]); lengths and
    indices ([usize]) are [nat], since they count elements that exist in memory. Integer [+=] follows
    the build [Profile]: it panics with overflow checks and wraps without. A Rust panic is [Panic],
    undefined behaviour [UB]; correctness theorems state that the result is [Ret], so they exclude
    both. The loops that have no bound in the code take fuel: [retry_eintr] needs one unit more than
    the number of interrupted calls, the loops of the asynchronous operations one unit more than the
    number of times the socket blocks; the theorems about them state that this much is enough and what
    is returned then. The GRO loop's fuel is the message length plus one, and as every turn consumes at
    least a byte it is never exhausted.

    On the hosts of [Network.v] nothing blocks, so any positive fuel is enough for the asynchronous
    operations of the examples; five turns are enough for the [select!] loop, and more do not matter.
    [from_std] of a tokio build panics outside a runtime, as tokio documents ([k_runtime],
    [from_std_spec]).

    ** Not modelled

    The header array of the macOS receive, whose pointers all lead to the slot of the same index;
    memory orderings weaker than interleaving; tokio's scheduler beyond the readiness calls; raw-handle
    conversions, formatting of errors and debug strings; the benches, and the tests under [tests/],
    which run against the real operating system. *)
From Stdlib Require Export ZArith Lia.
From stdpp Require Export base list numbers gmap tactics.

#[global] Set Default Goal Selector "!".
#[global] Open Scope Z_scope.

(** ** Outcomes of Rust code

    [Panic] is a Rust panic (index out of range, [expect] on an error, arithmetic overflow with
    overflow checks); [UB] is undefined behaviour reached through an [unsafe] block; [NoFuel] is the
    fuel of a modelled loop running out. *)
Inductive outcome (A : Type) : Type :=
| Ret (a : A)
| Panic
| UB
| NoFuel.
Arguments Ret {A} a.
Arguments Panic {A}.
Arguments UB {A}.
Arguments NoFuel {A}.

Definition obind {A B} (o : outcome A) (k : A → outcome B) : outcome B :=
  match o with
  | Ret a => k a
  | Panic => Panic
  | UB => UB
  | NoFuel => NoFuel
  end.

(** Rust's [Result]. *)
Inductive result (A E : Type) : Type :=
| Ok (a : A)
| Err (e : E).
Arguments Ok {A E} a.
Arguments Err {A E} e.

Declare Scope rust_scope.
Delimit Scope rust_scope with rust.
#[global] Open Scope rust_scope.

Notation "'let?' x := o 'in' k" := (obind o (λ x, k))
  (at level 10, x name, o at level 100, k at level 200) : rust_scope.
Notation "'let?' ' p := o 'in' k" := (obind o (λ x, match x with p => k end))
  (at level 10, p pattern, o at level 100, k at level 200) : rust_scope.

(** Vec / slice indexing: an index out of range panics. *)
Definition oindex {A} (l : list A) (i : nat) : outcome A :=
  match l !! i with Some x => Ret x | None => Panic end.

Definition ostore {A} (l : list A) (i : nat) (x : A) : outcome (list A) :=
  match l !! i with Some _ => Ret (<[i := x]> l) | None => Panic end.

Lemma obind_Ret_inv {A B} (o : outcome A) (k : A → outcome B) b :
  obind o k = Ret b → ∃ a, o = Ret a ∧ k a = Ret b.
Proof. destruct o; naive_solver. Qed.

Lemma oindex_Ret {A} (l : list A) i x : l !! i = Some x → oindex l i = Ret x.
Proof. unfold oindex. by intros ->. Qed.

Lemma oindex_lt {A} (l : list A) i : (i < length l)%nat → ∃ x, l !! i = Some x ∧ oindex l i = Ret x.
Proof. intros [x Hx]%lookup_lt_is_Some. exists x. split; [done|by apply oindex_Ret]. Qed.

Lemma oindex_ge {A} (l : list A) i : (length l ≤ i)%nat → oindex l i = Panic.
Proof. intros H%lookup_ge_None. unfold oindex. by rewrite H. Qed.

Lemma ostore_lt {A} (l : list A) i x : (i < length l)%nat → ostore l i x = Ret (<[i := x]> l).
Proof. intros [y Hy]%lookup_lt_is_Some. unfold ostore. by rewrite Hy. Qed.

Lemma ostore_ge {A} (l : list A) i x : (length l ≤ i)%nat → ostore l i x = Panic.
Proof. intros H%lookup_ge_None. unfold ostore. by rewrite H. Qed.

Lemma ostore_inv {A} (l : list A) i x l' :
  ostore l i x = Ret l' → (i < length l)%nat ∧ l' = <[i := x]> l.
Proof.
  unfold ostore. destruct (l !! i) eqn:E; intros [= <-].
  split; [by eapply lookup_lt_Some|done].
Qed.

(** ** The state monad of code that makes system calls

    [H] is the history of system calls made so far (see [Libc.v]); a computation may panic, reach
    undefined behaviour or run out of fuel. *)
Definition M (H A : Type) : Type := H → outcome (A * H).

Definition mret {H A} (a : A) : M H A := λ h, Ret (a, h).

Definition mbind {H A B} (m : M H A) (k : A → M H B) : M H B := λ h,
  match m h with
  | Ret (a, h') => k a h'
  | Panic => Panic
  | UB => UB
  | NoFuel => NoFuel
  end.

(** Pure code that may panic, run inside the monad. *)
Definition lift {H A} (o : outcome A) : M H A := λ h,
  match o with
  | Ret a => Ret (a, h)
  | Panic => Panic
  | UB => UB
  | NoFuel => NoFuel
  end.

Notation "'let!' x := m 'in' k" := (mbind m (λ x, k))
  (at level 10, x name, m at level 100, k at level 200) : rust_scope.
Notation "'let!' ' p := m 'in' k" := (mbind m (λ x, match x with p => k end))
  (at level 10, p pattern, m at level 100, k at level 200) : rust_scope.

(** [wp m Q h]: run from history [h], [m] returns (no panic, no undefined behaviour, fuel left)
    and its result and final history satisfy [Q]. *)
Definition wp {H A} (m : M H A) (Q : A → H → Prop) (h : H) : Prop :=
  match m h with Ret (a, h') => Q a h' | _ => False end.

(** The value a run returns, if it returns. *)
Definition ret_val {H A} (o : outcome (A * H)) : option A :=
  match o with Ret (a, _) => Some a | _ => None end.

Section wp.
Context {H : Type}.
Implicit Types h : H.

Lemma wp_intro {A} (m : M H A) (Q : A → H → Prop) h a h' : m h = Ret (a, h') → Q a h' → wp m Q h.
Proof. unfold wp. by intros ->. Qed.

Lemma wp_elim {A} (m : M H A) (Q : A → H → Prop) h : wp m Q h → ∃ a h', m h = Ret (a, h') ∧ Q a h'.
Proof. unfold wp. destruct (m h) as [[a h']| | |]; naive_solver. Qed.

Lemma wp_mono {A} (m : M H A) (P Q : A → H → Prop) h :
  wp m P h → (∀ a h', P a h' → Q a h') → wp m Q h.
Proof. unfold wp. destruct (m h) as [[a h']| | |]; naive_solver. Qed.

Lemma wp_ret {A} (a : A) (Q : A → H → Prop) h : Q a h → wp (mret a) Q h.
Proof. done. Qed.

Lemma wp_lift {A} (o : outcome A) (Q : A → H → Prop) h a : o = Ret a → Q a h → wp (lift o) Q h.
Proof. unfold wp, lift. by intros ->. Qed.

Lemma wp_bind {A B} (m : M H A) (k : A → M H B) (Q : B → H → Prop) h :
  wp m (λ a h', wp (k a) Q h') h → wp (mbind m k) Q h.
Proof. unfold wp, mbind. destruct (m h) as [[a h']| | |]; naive_solver. Qed.

Lemma mbind_inv {A B} (m : M H A) (k : A → M H B) h b h'' :
  mbind m k h = Ret (b, h'') → ∃ a h', m h = Ret (a, h') ∧ k a h' = Ret (b, h'').
Proof. unfold mbind. destruct (m h) as [[a h']| | |]; naive_solver. Qed.

(** Equal computations followed by continuations that agree on what they return. *)
Lemma mbind_cong {A B} (m m' : M H A) (k k' : A → M H B) h :
  m h = m' h → (∀ a h', m' h = Ret (a, h') → k a h' = k' a h') → mbind m k h = mbind m' k' h.
Proof. unfold mbind. intros -> Hk. destruct (m' h) as [[a h']| | |]; [by apply Hk|done..]. Qed.

Lemma mbind_Ret {A B} (m : M H A) (k : A → M H B) h a h' :
  m h = Ret (a, h') → mbind m k h = k a h'.
Proof. unfold mbind. by intros ->. Qed.
End wp.

(** ** Machine integers

    A [w]-bit integer is a [Z] with its wrap-around written out. [usize] is 64 bits wide. *)
Definition as_u16 (z : Z) : Z := z mod 2 ^ 16.
Definition as_u32 (z : Z) : Z := z mod 2 ^ 32.
Definition as_u64 (z : Z) : Z := z mod 2 ^ 64.
Definition as_i32 (z : Z) : Z :=
  let m := z mod 2 ^ 32 in if m <? 2 ^ 31 then m else m - 2 ^ 32.

Lemma as_u16_small z : 0 ≤ z < 2 ^ 16 → as_u16 z = z.
Proof. apply Z.mod_small. Qed.

Lemma as_u16_range z : 0 ≤ as_u16 z < 2 ^ 16.
Proof. apply Z.mod_pos_bound. lia. Qed.

Lemma as_u32_small z : 0 ≤ z < 2 ^ 32 → as_u32 z = z.
Proof. apply Z.mod_small. Qed.

Lemma as_u64_small z : 0 ≤ z < 2 ^ 64 → as_u64 z = z.
Proof. apply Z.mod_small. Qed.

Lemma as_i32_small z : - 2 ^ 31 ≤ z < 2 ^ 31 → as_i32 z = z.
Proof.
  intros Hz. unfold as_i32. destruct (Z_lt_le_dec z 0).
  - rewrite <- (Z.mod_unique z (2 ^ 32) (-1) (z + 2 ^ 32)) by lia.
    destruct (Z.ltb_spec (z + 2 ^ 32) (2 ^ 31)); lia.
  - rewrite Z.mod_small by lia. destruct (Z.ltb_spec z (2 ^ 31)); lia.
Qed.

(** ** Bytes and byte order *)
Definition byte_ok (b : Z) : Prop := 0 ≤ b < 256.
Definition bytes_ok (l : list Z) : Prop := Forall byte_ok l.

Fixpoint le_combine (l : list Z) : Z :=
  match l with
  | [] => 0
  | b :: l => b + 256 * le_combine l
  end.

Fixpoint le_split (n : nat) (z : Z) : list Z :=
  match n with
  | O => []
  | S n => z mod 256 :: le_split n (z / 256)
  end.

(** [uN::from_ne_bytes] / [to_ne_bytes] on a target of the given endianness. *)
Definition from_ne_bytes (little : bool) (l : list Z) : Z :=
  le_combine (if little then l else reverse l).
Definition to_ne_bytes (little : bool) (n : nat) (z : Z) : list Z :=
  if little then le_split n z else reverse (le_split n z).

(** [uN::to_be] and [uN::from_be] (the same byte swap, or the identity on a big-endian target). *)
Definition swap_bytes (n : nat) (z : Z) : Z := le_combine (reverse (le_split n z)).
Definition to_be (little : bool) (n : nat) (z : Z) : Z := if little then swap_bytes n z else z.
Definition from_be := to_be.

Lemma length_le_split n z : length (le_split n z) = n.
Proof. revert z. induction n; intros z; simpl; auto. Qed.

Lemma le_split_ok n z : bytes_ok (le_split n z).
Proof.
  revert z. induction n as [|n IH]; intros z; simpl; constructor; [|apply IH].
  apply Z.mod_pos_bound. lia.
Qed.

Lemma le_split_combine l : bytes_ok l → le_split (length l) (le_combine l) = l.
Proof.
  induction 1 as [|b l Hb _ IH]; simpl; [done|]. unfold byte_ok in Hb.
  rewrite (Z.mul_comm 256), Z.mod_add, Z.mod_small, Z.div_add, Z.div_small by lia.
  by rewrite Z.add_0_l, IH.
Qed.

Lemma le_combine_bound l : bytes_ok l → 0 ≤ le_combine l < 256 ^ Z.of_nat (length l).
Proof.
  induction 1 as [|b l Hb _ IH]; simpl; [lia|]. unfold byte_ok in Hb.
  rewrite Nat2Z.inj_succ, Z.pow_succ_r by lia. lia.
Qed.

Lemma le_combine_split n z : 0 ≤ z < 256 ^ Z.of_nat n → le_combine (le_split n z) = z.
Proof.
  revert z. induction n as [|n IH]; intros z Hz; simpl; [simpl in Hz; lia|].
  rewrite Nat2Z.inj_succ, Z.pow_succ_r in Hz by lia.
  rewrite IH.
  - pose proof (Z_div_mod_eq_full z 256). lia.
  - split; [apply Z.div_pos; lia|apply Z.div_lt_upper_bound; lia].
Qed.

Lemma bytes_ok_reverse l : bytes_ok l → bytes_ok (reverse l).
Proof. unfold bytes_ok. by rewrite Forall_reverse. Qed.

Lemma swap_bytes_involutive n z : 0 ≤ z < 256 ^ Z.of_nat n → swap_bytes n (swap_bytes n z) = z.
Proof.
  intros Hz. unfold swap_bytes.
  pose proof (le_split_combine (reverse (le_split n z))) as E.
  rewrite length_reverse, length_le_split in E. rewrite E.
  - by rewrite reverse_involutive, le_combine_split.
  - apply bytes_ok_reverse, le_split_ok.
Qed.

Lemma swap_bytes_bound n z : 0 ≤ swap_bytes n z < 256 ^ Z.of_nat n.
Proof.
  unfold swap_bytes.
  pose proof (le_combine_bound (reverse (le_split n z))) as B.
  rewrite length_reverse, length_le_split in B. apply B, bytes_ok_reverse, le_split_ok.
Qed.

Lemma from_be_to_be little n z : 0 ≤ z < 256 ^ Z.of_nat n → from_be little n (to_be little n z) = z.
Proof. destruct little; [apply swap_bytes_involutive|done]. Qed.

Lemma to_be_bound little n z :
  0 ≤ z < 256 ^ Z.of_nat n → 0 ≤ to_be little n z < 256 ^ Z.of_nat n.
Proof. destruct little; [intros; apply swap_bytes_bound|done]. Qed.

Lemma to_ne_bytes_from_ne_bytes little l :
  bytes_ok l → to_ne_bytes little (length l) (from_ne_bytes little l) = l.
Proof.
  intros Hl. destruct little; [by apply le_split_combine|]. unfold to_ne_bytes, from_ne_bytes.
  rewrite <- (length_reverse l), le_split_combine by by apply bytes_ok_reverse.
  apply reverse_involutive.
Qed.

Lemma from_ne_bytes_to_ne_bytes little n z :
  0 ≤ z < 256 ^ Z.of_nat n → from_ne_bytes little (to_ne_bytes little n z) = z.
Proof.
  intros Hz. destruct little; [by apply le_combine_split|]. unfold to_ne_bytes, from_ne_bytes.
  by rewrite reverse_involutive, le_combine_split.
Qed.

Lemma length_to_ne_bytes little n z : length (to_ne_bytes little n z) = n.
Proof. destruct little; unfold to_ne_bytes; by rewrite ?length_reverse, length_le_split. Qed.

Lemma from_ne_bytes_bound little l :
  bytes_ok l → 0 ≤ from_ne_bytes little l < 256 ^ Z.of_nat (length l).
Proof.
  intros Hl. destruct little; [by apply le_combine_bound|]. unfold from_ne_bytes.
  rewrite <- (length_reverse l). by apply le_combine_bound, bytes_ok_reverse.
Qed.

(** The octets of [u32::from_be (u32::from_ne_bytes octets)], big-endian: what
    [Ipv4Addr::from(u32::from_be(s_addr))] stores. *)
Lemma be_octets_of_ne_bytes little l :
  bytes_ok l →
  reverse (le_split (length l) (from_be little (length l) (from_ne_bytes little l))) = l.
Proof.
  intros Hl. destruct little; unfold from_be, to_be, from_ne_bytes.
  - unfold swap_bytes. rewrite le_split_combine by done.
    rewrite <- (length_reverse l) at 1. rewrite le_split_combine by by apply bytes_ok_reverse.
    apply reverse_involutive.
  - rewrite <- (length_reverse l) at 1. rewrite le_split_combine by by apply bytes_ok_reverse.
    apply reverse_involutive.
Qed.

(** ** Writing into a buffer

    [blit src dst] writes [src] over the front of [dst]; the buffer keeps its length. *)
Definition blit (src dst : list Z) : list Z := take (length dst) src ++ drop (length src) dst.

Lemma length_blit src dst : length (blit src dst) = length dst.
Proof. unfold blit. rewrite length_app, length_take, length_drop. lia. Qed.

Lemma take_blit src dst : (length src ≤ length dst)%nat → take (length src) (blit src dst) = src.
Proof.
  intros Hle. unfold blit. rewrite take_app_le by (rewrite length_take; lia).
  rewrite take_take, Nat.min_l by lia. apply firstn_all.
Qed.

Lemma take_blit_le n src dst :
  (n ≤ length src ≤ length dst)%nat → take n (blit src dst) = take n src.
Proof.
  intros Hle. rewrite <- (take_blit src dst) at 2 by lia. by rewrite take_take, Nat.min_l by lia.
Qed.

Lemma blit_nil dst : blit [] dst = dst.
Proof. unfold blit. by rewrite take_nil. Qed.

(** ** Automation shared by the development *)
Create HintDb binger.
Create Rewrite HintDb lens.
#[export] Hint Rewrite @length_app @length_insert @length_replicate @length_take @length_drop
  @length_fmap @length_reverse length_blit length_le_split length_to_ne_bytes : lens.

Ltac len := autorewrite with lens in *; simpl in *; try lia.

(** Split a successful [obind] chain in the hypotheses into its steps. *)
Ltac obind_inv :=
  repeat match goal with
  | H : obind _ _ = Ret _ |- _ => apply obind_Ret_inv in H as (? & ? & ?); simplify_eq/=
  | H : Ret _ = Ret _ |- _ => injection H as H; simplify_eq/=
  | H : Panic = Ret _ |- _ => discriminate H
  | H : UB = Ret _ |- _ => discriminate H
  | H : NoFuel = Ret _ |- _ => discriminate H
  end.

(** Turn the boolean tests of the code into propositions. *)
Ltac reflect_bools :=
  repeat match goal with
  | H : (_ && _)%bool = true |- _ => apply andb_true_iff in H as [? ?]
  | H : (_ <? _)%nat = true |- _ => apply Nat.ltb_lt in H
  | H : (_ <? _)%nat = false |- _ => apply Nat.ltb_ge in H
  | H : (_ <=? _)%nat = true |- _ => apply Nat.leb_le in H
  | H : (_ <=? _)%nat = false |- _ => apply Nat.leb_gt in H
  | H : (_ =? _)%nat = true |- _ => apply Nat.eqb_eq in H
  | H : (_ =? _)%nat = false |- _ => apply Nat.eqb_neq in H
  | H : (_ <? _) = true |- _ => apply Z.ltb_lt in H
  | H : (_ <? _) = false |- _ => apply Z.ltb_ge in H
  | H : (_ <=? _) = true |- _ => apply Z.leb_le in H
  | H : (_ <=? _) = false |- _ => apply Z.leb_gt in H
  | H : (_ =? _) = true |- _ => apply Z.eqb_eq in H
  | H : (_ =? _) = false |- _ => apply Z.eqb_neq in H
  end.

#[export] Hint Resolve le_split_ok bytes_ok_reverse : binger.
