(* ===== verification/Libc.v ===== *)
(** * What the code calls: std::net, io::Error, libc and the operating system

    [SocketAddr] and [io_error] model the parts of the standard library the source uses.
    The [libc] crate and the kernel are not part of the repository: [Libc] is the interface the code
    uses of the crate (constants, struct layouts, endianness of the target), [LibcLaws] what the code
    relies on of it, [Kernel] the system calls as functions of the history of earlier calls, and
    [KernelLaws] the documented behaviour of those calls. [UnixAbi.v] has concrete instances. *)
From S2P Require Import Prelude.
From stdpp Require Import strings.
#[local] Open Scope Z_scope.

(** ** std::net::SocketAddr

    An IP address is its octets in network order. *)
Record SocketAddrV4 := MkV4 { v4_ip : list Z; v4_port : Z }.
Record SocketAddrV6 := MkV6
  { v6_ip : list Z; v6_port : Z; v6_flowinfo : Z; v6_scope_id : Z }.
Inductive SocketAddr :=
| V4 (a : SocketAddrV4)
| V6 (a : SocketAddrV6).

#[export] Instance SocketAddrV4_eq_dec : EqDecision SocketAddrV4.
Proof. solve_decision. Defined.
#[export] Instance SocketAddrV6_eq_dec : EqDecision SocketAddrV6.
Proof. solve_decision. Defined.
#[export] Instance SocketAddr_eq_dec : EqDecision SocketAddr.
Proof. solve_decision. Defined.

(** [SocketAddr::V4(SocketAddrV4::new(Ipv4Addr::UNSPECIFIED, 0))]. *)
Definition unspecified : SocketAddr := V4 (MkV4 [0; 0; 0; 0] 0).

(** The values a Rust [SocketAddr] can have: octets are bytes, fields fit their widths. *)
Definition addr_ok (a : SocketAddr) : Prop :=
  match a with
  | V4 a => length (v4_ip a) = 4%nat ∧ bytes_ok (v4_ip a) ∧ 0 ≤ v4_port a < 2 ^ 16
  | V6 a => length (v6_ip a) = 16%nat ∧ bytes_ok (v6_ip a) ∧ 0 ≤ v6_port a < 2 ^ 16
            ∧ 0 ≤ v6_flowinfo a < 2 ^ 32 ∧ 0 ≤ v6_scope_id a < 2 ^ 32
  end.

(** [Ipv4Addr::from(u32)]: the octets of a host-order integer, most significant first. *)
Definition Ipv4Addr_from_u32 (x : Z) : list Z := reverse (le_split 4 x).

(** ** The libc crate *)
Record sockaddr_in := MkSin { sin_family : Z; sin_port : Z; sin_addr : Z }.
Record sockaddr_in6 := MkSin6
  { sin6_family : Z; sin6_port : Z; sin6_flowinfo : Z; sin6_addr : list Z; sin6_scope_id : Z }.

(** A control message as [CMSG_FIRSTHDR] / [CMSG_NXTHDR] enumerate them: level, type and the
    bytes at [CMSG_DATA]. *)
Record cmsghdr := MkCmsg { cmsg_level : Z; cmsg_type : Z; cmsg_data : list Z }.

Class Libc := {
  little_endian : bool;
  (** [sockaddr_storage]: an opaque block of memory, and its reads and writes as a
      [sockaddr_in] / [sockaddr_in6]. *)
  storage : Type;
  storage_zeroed : storage;
  write_sockaddr_in : sockaddr_in → storage → storage;
  write_sockaddr_in6 : sockaddr_in6 → storage → storage;
  read_sockaddr_in : storage → sockaddr_in;
  read_sockaddr_in6 : storage → sockaddr_in6;
  ss_family : storage → Z;
  SIZEOF_SOCKADDR_IN : Z;
  SIZEOF_SOCKADDR_IN6 : Z;
  SIZEOF_STORAGE : Z;
  AF_INET : Z;
  AF_INET6 : Z;
  (** error codes *)
  EAGAIN : Z;
  EINTR : Z;
  ENOSYS : Z;
  (** socket option levels and names *)
  SOL_SOCKET : Z;
  SO_SNDBUF : Z;
  SO_RCVBUF : Z;
  SO_TIMESTAMPNS : Z;
  SCM_TIMESTAMPNS : Z;
  IPPROTO_IP : Z;
  IP_TTL : Z;
  IP_PKTINFO : Z;
  IPPROTO_IPV6 : Z;
  IPV6_PKTINFO : Z;
  IPV6_RECVPKTINFO : Z;
  IPPROTO_UDP : Z;
  UDP_SEGMENT : Z;
  UDP_GRO : Z;
  SIZEOF_CMSGHDR : Z;
  (** typed reads of [CMSG_DATA]: as a [u16]; as a [timespec] (tv_sec, tv_nsec); the
      [ipi_addr.s_addr] of an [in_pktinfo]; the [ipi6_addr.s6_addr] of an [in6_pktinfo] *)
  cmsg_u16 : list Z → Z;
  cmsg_timespec : list Z → Z * Z;
  cmsg_in_pktinfo_addr : list Z → Z;
  cmsg_in6_pktinfo_addr : list Z → list Z;
  (** typed write of [CMSG_DATA]: the bytes of a [u16] *)
  cmsg_of_u16 : Z → list Z;
}.

(** The values [libc]'s [sockaddr_in] fields can have. *)
Definition sin_ok (s : sockaddr_in) : Prop :=
  0 ≤ sin_family s < 2 ^ 8 ∧ 0 ≤ sin_port s < 2 ^ 16 ∧ 0 ≤ sin_addr s < 2 ^ 32.
Definition sin6_ok (s : sockaddr_in6) : Prop :=
  0 ≤ sin6_family s < 2 ^ 8 ∧ 0 ≤ sin6_port s < 2 ^ 16 ∧ 0 ≤ sin6_flowinfo s < 2 ^ 32
  ∧ length (sin6_addr s) = 16%nat ∧ bytes_ok (sin6_addr s) ∧ 0 ≤ sin6_scope_id s < 2 ^ 32.

Class LibcLaws {L : Libc} : Prop := {
  read_write_in : ∀ s st, sin_ok s → read_sockaddr_in (write_sockaddr_in s st) = s;
  read_write_in6 : ∀ s st, sin6_ok s → read_sockaddr_in6 (write_sockaddr_in6 s st) = s;
  family_write_in : ∀ s st, sin_ok s → ss_family (write_sockaddr_in s st) = sin_family s;
  family_write_in6 : ∀ s st, sin6_ok s → ss_family (write_sockaddr_in6 s st) = sin6_family s;
  sizeof_in_pos : 0 < SIZEOF_SOCKADDR_IN;
  sizeof_in6_pos : 0 < SIZEOF_SOCKADDR_IN6;
  AF_INET_ok : 0 ≤ AF_INET < 2 ^ 8;
  AF_INET6_ok : 0 ≤ AF_INET6 < 2 ^ 8;
  AF_distinct : AF_INET ≠ AF_INET6;
  EAGAIN_EINTR : EAGAIN ≠ EINTR;
  EAGAIN_ENOSYS : EAGAIN ≠ ENOSYS;
  EINTR_ENOSYS : EINTR ≠ ENOSYS;
}.

(** ** std::io::Error *)
Inductive ErrorKind :=
| WouldBlock
| Interrupted
| OtherKind.   (** any other kind of std's enumeration *)

Inductive io_error :=
| OsError (code : Z)              (** [io::Error::last_os_error()] *)
| CustomError (msg : string).     (** [io::Error::other(msg)], [io::Error::new(ErrorKind::Other, msg)] *)

#[export] Instance ErrorKind_eq_dec : EqDecision ErrorKind.
Proof. solve_decision. Defined.
#[export] Instance io_error_eq_dec : EqDecision io_error.
Proof. solve_decision. Defined.

Abbreviation io_result A := (result A io_error).

Section io_error.
Context {L : Libc}.

(** [io::Error::kind]: std's [decode_error_kind]. *)
Definition kind (e : io_error) : ErrorKind :=
  match e with
  | OsError c => if c =? EAGAIN then WouldBlock else if c =? EINTR then Interrupted else OtherKind
  | CustomError _ => OtherKind
  end.

Definition raw_os_error (e : io_error) : option Z :=
  match e with OsError c => Some c | CustomError _ => None end.

Definition is_would_block (e : io_error) : bool := bool_decide (kind e = WouldBlock).
Definition is_interrupted (e : io_error) : bool := bool_decide (kind e = Interrupted).
Definition is_enosys (e : io_error) : bool := bool_decide (raw_os_error e = Some ENOSYS).
End io_error.

(** ** The operating system

    A file descriptor is an integer; user memory is a map from allocation identifiers to the bytes
    of live allocations. *)
Abbreviation Fd := Z (only parsing).
Abbreviation memory := (gmap N (list Z)).

(** A raw pointer is an allocation and an offset into it; a [&[u8]] is a pointer and a length. *)
Record ptr := MkPtr { p_block : N; p_off : nat }.
Record slice := MkSlice { s_ptr : ptr; s_len : nat }.

(** The bytes behind a slice: [None] when the allocation is gone or too short. The empty slice
    reads no memory. *)
Definition slice_bytes (m : memory) (s : slice) : option (list Z) :=
  if (s_len s =? 0)%nat then Some []
  else match m !! p_block (s_ptr s) with
       | Some bs =>
           if (p_off (s_ptr s) + s_len s <=? length bs)%nat
           then Some (take (s_len s) (drop (p_off (s_ptr s)) bs)) else None
       | None => None
       end.

(** One message of [sendmmsg] / [sendmsg_x] as the kernel reads it through the pointers of its
    header: payload and, when [msg_name] is not null, the address block and its length. *)
Section wire.
Context {L : Libc}.
Record wire_msg := MkWire { wm_data : list Z; wm_name : option (storage * Z) }.

(** What [recvfrom] produces: return value, bytes written to the buffer, source address block
    and its length. *)
Record recv_out := MkRecvOut { ro_ret : Z; ro_data : list Z; ro_name : storage; ro_namelen : Z }.

(** What [recvmmsg] / [recvmsg_x] write for one message. *)
Record mmsg_out := MkMmsgOut
  { mo_len : Z; mo_data : list Z; mo_name : storage; mo_namelen : Z; mo_cmsgs : list cmsghdr }.

(** What [WSARecvMsg] produces: return value, [bytes_recv], bytes written to the buffer, source
    address block and [namelen]. *)
Record wsa_out := MkWsaOut
  { wo_rc : Z; wo_bytes : Z; wo_data : list Z; wo_name : storage; wo_namelen : Z }.

(** A system call with its arguments and its answer. *)
Inductive event :=
| EvSend (fd : Fd) (data : list Z) (ret : Z)
| EvSendto (fd : Fd) (data : list Z) (name : storage) (namelen ret : Z)
| EvSendmmsg (fd : Fd) (msgs : list wire_msg) (ret : Z)
| EvSendmsg (fd : Fd) (data : list Z) (cmsgs : list cmsghdr) (controllen ret : Z)
| EvRecvfrom (fd : Fd) (buflen : nat) (out : recv_out)
| EvRecvmmsg (fd : Fd) (buflens : list nat) (ret : Z) (outs : list mmsg_out)
| EvSendmsgX (fd : Fd) (msgs : list wire_msg) (ret : Z)
| EvRecvmsgX (fd : Fd) (buflens : list nat) (ret : Z) (outs : list mmsg_out)
| EvWSASendMsg (fd : Fd) (msg : wire_msg) (rc : Z)
| EvWSARecvMsg (fd : Fd) (buflen : nat) (out : wsa_out)
| EvSocket (ret : Z)
| EvWSAIoctl (fd : Fd) (rc : Z) (func_ptr : option Z)
| EvGetpeername (fd : Fd) (ret : Z)
| EvGetsockname (fd : Fd) (ret : Z)
| EvConnect (fd : Fd) (name : storage) (namelen ret : Z)
| EvSetsockopt (fd : Fd) (level optname val ret : Z)
| EvGetsockopt (fd : Fd) (level optname ret : Z)
| EvClose (fd : Fd)
| EvNonblocking (fd : Fd) (r : io_result unit)   (** [UdpSocket::set_nonblocking(true)] *)
| EvRegister (fd : Fd) (r : io_result unit)      (** [tokio::net::UdpSocket::from_std] *)
| EvWritable (fd : Fd) (r : io_result unit)   (** [tokio::net::UdpSocket::writable().await] *)
| EvReadable (fd : Fd) (r : io_result unit)
| EvNow (t : Z)                               (** [Instant::now()], in nanoseconds *)
| EvOnceLock (func_ptr : option Z).           (** the static [WSARECVMSG_PTR] is initialised *)

Definition history := list event.

Class Kernel := {
  k_send : history → Fd → list Z → Z;
  k_sendto : history → Fd → list Z → storage → Z → Z;
  k_sendmmsg : history → Fd → list wire_msg → Z;
  k_sendmsg : history → Fd → list Z → list cmsghdr → Z → Z;
  k_recvfrom : history → Fd → nat → recv_out;
  k_recvmmsg : history → Fd → list nat → Z * list mmsg_out;
  k_getpeername : history → Fd → Z;
  k_getsockname : history → Fd → Z * (storage * Z);
  k_connect : history → Fd → storage → Z → Z;
  k_setsockopt : history → Fd → Z → Z → Z → Z;
  k_getsockopt : history → Fd → Z → Z → Z * Z;
  k_nonblocking : history → Fd → io_result unit;
  k_register : history → Fd → io_result unit;
  (** whether the calling thread runs inside a tokio runtime *)
  k_runtime : bool;
  k_writable : history → Fd → io_result unit;
  k_readable : history → Fd → io_result unit;
  k_now : history → Z;
  (** the thread's [errno] after the calls so far *)
  k_errno : history → Z;
  (** the caller's memory after the calls so far *)
  k_mem : history → memory;
}.
End wire.

Abbreviation IO := (M history).

(** Documented behaviour of the system calls that the code relies on. *)
Class KernelLaws {L : Libc} {K : Kernel} : Prop := {
  (** [sendmmsg] returns how many of the messages were sent, or a negative value *)
  sendmmsg_le : ∀ h fd msgs, k_sendmmsg h fd msgs ≤ Z.of_nat (length msgs);
  (** [recvfrom] without [MSG_TRUNC] returns the number of bytes it wrote into the buffer, which
      is at most the buffer's length and at most the size of a UDP datagram *)
  recvfrom_len : ∀ h fd n, 0 ≤ ro_ret (k_recvfrom h fd n) →
    ro_ret (k_recvfrom h fd n) = Z.of_nat (length (ro_data (k_recvfrom h fd n)));
  recvfrom_fits : ∀ h fd n, (length (ro_data (k_recvfrom h fd n)) ≤ n)%nat;
  recvfrom_udp : ∀ h fd n, Z.of_nat (length (ro_data (k_recvfrom h fd n))) < 2 ^ 16;
  (** [recvmmsg] returns the number of messages it filled in, at most [vlen] *)
  recvmmsg_count : ∀ h fd lens ret outs, k_recvmmsg h fd lens = (ret, outs) → 0 ≤ ret →
    ret = Z.of_nat (length outs) ∧ (length outs ≤ length lens)%nat;
  recvmmsg_none : ∀ h fd lens ret outs, k_recvmmsg h fd lens = (ret, outs) → ret < 0 → outs = [];
  (** the [msg_len] of each message is the number of bytes written into its buffer *)
  recvmmsg_fits : ∀ h fd lens ret outs i m n, k_recvmmsg h fd lens = (ret, outs) →
    outs !! i = Some m → lens !! i = Some n →
    mo_len m = Z.of_nat (length (mo_data m)) ∧ (length (mo_data m) ≤ n)%nat ∧ mo_len m < 2 ^ 16;
}.

Section calls.
Context {L : Libc} {K : Kernel}.

(** [std::slice::from_raw_parts] followed by a read: undefined behaviour when the memory is not
    there. *)
Definition read_slice (s : slice) : IO (list Z) := λ h,
  match slice_bytes (k_mem h) s with Some bs => Ret (bs, h) | None => UB end.

Definition last_os_error : IO io_error := λ h, Ret (OsError (k_errno h), h).

Definition sys_send (fd : Fd) (data : list Z) : IO Z := λ h,
  let r := k_send h fd data in Ret (r, h ++ [EvSend fd data r]).
Definition sys_sendto (fd : Fd) (data : list Z) (name : storage) (namelen : Z) : IO Z := λ h,
  let r := k_sendto h fd data name namelen in Ret (r, h ++ [EvSendto fd data name namelen r]).
Definition sys_sendmmsg (fd : Fd) (msgs : list wire_msg) : IO Z := λ h,
  let r := k_sendmmsg h fd msgs in Ret (r, h ++ [EvSendmmsg fd msgs r]).
(** [sendmsg] with a zeroed control buffer of [controllen] bytes in which [cmsgs] were written. *)
Definition sys_sendmsg (fd : Fd) (data : list Z) (cmsgs : list cmsghdr) (controllen : Z) : IO Z := λ h,
  let r := k_sendmsg h fd data cmsgs controllen in
  Ret (r, h ++ [EvSendmsg fd data cmsgs controllen r]).
Definition sys_recvfrom (fd : Fd) (buflen : nat) : IO recv_out := λ h,
  let r := k_recvfrom h fd buflen in Ret (r, h ++ [EvRecvfrom fd buflen r]).
Definition sys_recvmmsg (fd : Fd) (buflens : list nat) : IO (Z * list mmsg_out) := λ h,
  let '(r, outs) := k_recvmmsg h fd buflens in
  Ret ((r, outs), h ++ [EvRecvmmsg fd buflens r outs]).
Definition sys_getpeername (fd : Fd) : IO Z := λ h,
  let r := k_getpeername h fd in Ret (r, h ++ [EvGetpeername fd r]).
Definition sys_getsockname (fd : Fd) : IO (Z * (storage * Z)) := λ h,
  let r := k_getsockname h fd in Ret (r, h ++ [EvGetsockname fd r.1]).
Definition sys_connect (fd : Fd) (name : storage) (namelen : Z) : IO Z := λ h,
  let r := k_connect h fd name namelen in Ret (r, h ++ [EvConnect fd name namelen r]).
Definition sys_setsockopt (fd : Fd) (level optname val : Z) : IO Z := λ h,
  let r := k_setsockopt h fd level optname val in
  Ret (r, h ++ [EvSetsockopt fd level optname val r]).
Definition sys_getsockopt (fd : Fd) (level optname : Z) : IO (Z * Z) := λ h,
  let r := k_getsockopt h fd level optname in
  Ret (r, h ++ [EvGetsockopt fd level optname r.1]).
Definition sys_close (fd : Fd) : IO unit := λ h, Ret (tt, h ++ [EvClose fd]).

Definition sys_nonblocking (fd : Fd) : IO (io_result unit) := λ h,
  let r := k_nonblocking h fd in Ret (r, h ++ [EvNonblocking fd r]).
(** [tokio::net::UdpSocket::from_std] panics outside a runtime, as its documentation says. *)
Definition sys_register (fd : Fd) : IO (io_result unit) := λ h,
  if k_runtime then let r := k_register h fd in Ret (r, h ++ [EvRegister fd r]) else Panic.

(** [Instant::now()], and tokio's readiness futures once they are ready. *)
Definition sys_now : IO Z := λ h, let t := k_now h in Ret (t, h ++ [EvNow t]).
Definition sys_writable (fd : Fd) : IO (io_result unit) := λ h,
  let r := k_writable h fd in Ret (r, h ++ [EvWritable fd r]).
Definition sys_readable (fd : Fd) : IO (io_result unit) := λ h,
  let r := k_readable h fd in Ret (r, h ++ [EvReadable fd r]).
End calls.

(** The caller keeps the bytes behind [s] unchanged from history [h] on: the lifetime contract of
    the raw pointers a send batch stores. *)
Definition stable_from {L : Libc} {K : Kernel} (h : history) (s : slice) (bs : list Z) : Prop :=
  ∀ evs, slice_bytes (k_mem (h ++ evs)) s = Some bs.
