(* ===== verification/UnixAbi.v ===== *)
(** * Concrete instances of the libc and kernel interfaces

    [unix_libc] lays the address structures out byte by byte as the C headers of Linux, macOS and
    WinSock do (on either byte order) and proves [LibcLaws]; [script_kernel] answers the n-th system call from
    a script and proves [KernelLaws]. The other files are proved against the interfaces; these
    instances show that the interfaces can be met and make the definitions executable. *)
From S2P Require Import Prelude Libc.
#[local] Open Scope Z_scope.

(** On Windows the constants are those of WinSock: [EAGAIN] is WSAEWOULDBLOCK and [EINTR] WSAEINTR, which
    std decodes to the same error kinds; names that WinSock does not have, and the code for Windows does
    not use, are 0. *)
Inductive target_abi := Linux | MacOS | Windows.

Section layout.
Context (os : target_abi) (little : bool).

(** [sa_family_t]: 16 bits on Linux and Windows; an 8-bit length followed by 8 bits on macOS (the code
    stores 0 in the length). *)
Definition family_bytes (f : Z) : list Z :=
  match os with Linux | Windows => to_ne_bytes little 2 f | MacOS => [0; f] end.
Definition family_of_bytes (bs : list Z) : Z :=
  match os with Linux | Windows => from_ne_bytes little (take 2 bs) | MacOS => nth 1 bs 0 end.

Definition sockaddr_in_bytes (s : sockaddr_in) : list Z :=
  family_bytes (sin_family s) ++ to_ne_bytes little 2 (sin_port s)
  ++ to_ne_bytes little 4 (sin_addr s) ++ replicate 8 0.
Definition sockaddr_in6_bytes (s : sockaddr_in6) : list Z :=
  family_bytes (sin6_family s) ++ to_ne_bytes little 2 (sin6_port s)
  ++ to_ne_bytes little 4 (sin6_flowinfo s) ++ sin6_addr s
  ++ to_ne_bytes little 4 (sin6_scope_id s).

Definition field (off n : nat) (bs : list Z) : list Z := take n (drop off bs).

Definition sockaddr_in_of_bytes (bs : list Z) : sockaddr_in :=
  MkSin (family_of_bytes bs) (from_ne_bytes little (field 2 2 bs))
    (from_ne_bytes little (field 4 4 bs)).
Definition sockaddr_in6_of_bytes (bs : list Z) : sockaddr_in6 :=
  MkSin6 (family_of_bytes bs) (from_ne_bytes little (field 2 2 bs))
    (from_ne_bytes little (field 4 4 bs)) (field 8 16 bs) (from_ne_bytes little (field 24 4 bs)).

(** Store the bytes of a structure at the start of a block. *)
Definition put_bytes (bs st : list Z) : list Z := bs ++ drop (length bs) st.

(** Sign of a 64-bit field ([time_t], [long]). *)
Definition as_i64 (z : Z) : Z := if z <? 2 ^ 63 then z else z - 2 ^ 64.

Definition unix_libc : Libc := {|
  little_endian := little;
  storage := list Z;
  storage_zeroed := replicate 128 0;
  write_sockaddr_in s st := put_bytes (sockaddr_in_bytes s) st;
  write_sockaddr_in6 s st := put_bytes (sockaddr_in6_bytes s) st;
  read_sockaddr_in := sockaddr_in_of_bytes;
  read_sockaddr_in6 := sockaddr_in6_of_bytes;
  ss_family := family_of_bytes;
  SIZEOF_SOCKADDR_IN := 16;
  SIZEOF_SOCKADDR_IN6 := 28;
  SIZEOF_STORAGE := 128;
  AF_INET := 2;
  AF_INET6 := match os with Linux => 10 | MacOS => 30 | Windows => 23 end;
  EAGAIN := match os with Linux => 11 | MacOS => 35 | Windows => 10035 end;
  EINTR := match os with Linux | MacOS => 4 | Windows => 10004 end;
  ENOSYS := match os with Linux => 38 | MacOS => 78 | Windows => 0 end;
  SOL_SOCKET := match os with Linux => 1 | MacOS => 65535 | Windows => 65535 end;
  SO_SNDBUF := match os with Linux => 7 | MacOS => 4097 | Windows => 4097 end;
  SO_RCVBUF := match os with Linux => 8 | MacOS => 4098 | Windows => 4098 end;
  SO_TIMESTAMPNS := 35;
  SCM_TIMESTAMPNS := 35;
  IPPROTO_IP := 0;
  IP_TTL := match os with Linux => 2 | MacOS => 4 | Windows => 4 end;
  IP_PKTINFO := match os with Linux => 8 | MacOS => 26 | Windows => 19 end;
  IPPROTO_IPV6 := 41;
  IPV6_PKTINFO := match os with Linux => 50 | MacOS => 46 | Windows => 19 end;
  IPV6_RECVPKTINFO := match os with Linux => 49 | MacOS => 61 | Windows => 0 end;
  IPPROTO_UDP := 17;
  UDP_SEGMENT := 103;
  UDP_GRO := 104;
  SIZEOF_CMSGHDR := match os with Linux => 16 | MacOS => 12 | Windows => 16 end;
  cmsg_u16 bs := from_ne_bytes little (take 2 bs);
  cmsg_timespec bs := (as_i64 (from_ne_bytes little (field 0 8 bs)),
                       as_i64 (from_ne_bytes little (field 8 8 bs)));
  cmsg_in_pktinfo_addr bs := from_ne_bytes little (field 8 4 bs);
  cmsg_in6_pktinfo_addr bs := field 0 16 bs;
  cmsg_of_u16 v := to_ne_bytes little 2 v;
|}.

Lemma length_family_bytes f : length (family_bytes f) = 2%nat.
Proof. unfold family_bytes. destruct os; try apply length_to_ne_bytes. done. Qed.

Lemma family_round f rest : 0 ≤ f < 2 ^ 8 → family_of_bytes (family_bytes f ++ rest) = f.
Proof.
  intros Hf. unfold family_of_bytes, family_bytes. destruct os; [|done|];
  rewrite take_app_length' by (symmetry; apply length_to_ne_bytes);
  apply from_ne_bytes_to_ne_bytes; lia.
Qed.

(** Reading a field back out of a concatenation of fields. *)
Lemma field_skip off n a rest :
  (length a ≤ off)%nat → field off n (a ++ rest) = field (off - length a) n rest.
Proof. intros H. unfold field. by rewrite drop_app_ge. Qed.

Lemma field_here n a rest : length a = n → field 0 n (a ++ rest) = a.
Proof. intros H. unfold field. rewrite drop_0. by apply take_app_length'. Qed.

Lemma ne_bytes_round n z rest :
  0 ≤ z < 256 ^ Z.of_nat n →
  from_ne_bytes little (field 0 n (to_ne_bytes little n z ++ rest)) = z.
Proof. intros H. rewrite field_here by apply length_to_ne_bytes. by apply from_ne_bytes_to_ne_bytes. Qed.
End layout.

Ltac skip_fields :=
  repeat match goal with
  | |- context [field ?o ?n (?a ++ ?r)] =>
      lazymatch o with
      | O => fail
      | _ => rewrite (field_skip o n a r)
               by (rewrite ?length_family_bytes, ?length_to_ne_bytes; lia);
             rewrite ?length_family_bytes, ?length_to_ne_bytes; cbn [Nat.sub]
      end
  end.

#[export] Instance unix_libc_laws os little : @LibcLaws (unix_libc os little).
Proof.
  split; simpl.
  - intros [f p a] st (Hf & Hp & Ha); simpl in *.
    unfold sockaddr_in_of_bytes, put_bytes, sockaddr_in_bytes; simpl. rewrite <- !(assoc_L (++)).
    rewrite family_round by done. skip_fields.
    by rewrite !ne_bytes_round by (simpl; lia).
  - intros [f p fl a sc] st (Hf & Hp & Hfl & Ha & Hb & Hs); simpl in *.
    unfold sockaddr_in6_of_bytes, put_bytes, sockaddr_in6_bytes; simpl. rewrite <- !(assoc_L (++)).
    rewrite family_round by done. skip_fields.
    rewrite !(ne_bytes_round little 2), !(ne_bytes_round little 4) by (simpl; lia).
    rewrite (field_here 16 a) by done.
    rewrite Ha. cbn [Nat.sub].
    by rewrite ne_bytes_round by (simpl; lia).
  - intros [f p a] st (Hf & Hp & Ha); simpl in *.
    unfold put_bytes, sockaddr_in_bytes; simpl. rewrite <- !(assoc_L (++)). by apply family_round.
  - intros [f p fl a sc] st (Hf & _); simpl in *.
    unfold put_bytes, sockaddr_in6_bytes; simpl. rewrite <- !(assoc_L (++)). by apply family_round.
  - lia.
  - lia.
  - lia.
  - destruct os; lia.
  - destruct os; lia.
  - destruct os; lia.
  - destruct os; lia.
  - destruct os; lia.
Qed.

(** ** A scripted kernel *)
Section script.
Context {L : Libc}.

Inductive answer :=
| ARet (ret errno : Z)                                                (** calls that return a number *)
| ARecv (data : list Z) (name : storage) (namelen : Z)                (** [recvfrom] *)
| ARecvMM (msgs : list (list Z * storage * Z * list cmsghdr))         (** [recvmmsg] *)
| AReady (r : io_result unit)                                         (** tokio readiness *)
| ATime (t : Z).                                                      (** the clock *)

Context (mem : memory) (script : list answer).

Definition answer_at (h : history) : answer := default (ARet (-1) 0) (script !! length h).
Definition ret_at (h : history) : Z := match answer_at h with ARet r _ => r | _ => -1 end.
Definition ready_at (h : history) : io_result unit :=
  match answer_at h with AReady r => r | _ => Ok tt end.

(** At most [n] bytes; no datagram of 2^16 bytes or more exists. *)
Definition udp_bytes (n : nat) (data : list Z) : list Z :=
  let d := take n data in if Z.of_nat (length d) <? 2 ^ 16 then d else [].

Lemma udp_bytes_le n data : (length (udp_bytes n data) ≤ n)%nat.
Proof. unfold udp_bytes. case_match; [rewrite length_take|simpl]; lia. Qed.

Lemma udp_bytes_udp n data : Z.of_nat (length (udp_bytes n data)) < 2 ^ 16.
Proof. unfold udp_bytes. case_match eqn:E; [by apply Z.ltb_lt|simpl; lia]. Qed.

Definition script_recvfrom (h : history) (n : nat) : recv_out :=
  match answer_at h with
  | ARecv data name namelen =>
      let d := udp_bytes n data in MkRecvOut (Z.of_nat (length d)) d name namelen
  | ARet r _ => MkRecvOut (Z.min r (-1)) [] storage_zeroed 0
  | _ => MkRecvOut (-1) [] storage_zeroed 0
  end.

Definition mmsg_of (n : nat) (m : list Z * storage * Z * list cmsghdr) : mmsg_out :=
  let '(data, name, namelen, cmsgs) := m in
  let d := udp_bytes n data in
  MkMmsgOut (Z.of_nat (length d)) d name namelen cmsgs.

Definition script_recvmmsg (h : history) (lens : list nat) : Z * list mmsg_out :=
  match answer_at h with
  | ARecvMM msgs => let outs := zip_with mmsg_of lens msgs in (Z.of_nat (length outs), outs)
  | ARet r _ => (Z.min r (-1), [])
  | _ => (-1, [])
  end.

Definition script_kernel : Kernel := {|
  k_send h _ _ := ret_at h;
  k_sendto h _ _ _ _ := ret_at h;
  k_sendmmsg h _ msgs := Z.min (ret_at h) (Z.of_nat (length msgs));
  k_sendmsg h _ _ _ _ := ret_at h;
  k_recvfrom h _ n := script_recvfrom h n;
  k_recvmmsg h _ lens := script_recvmmsg h lens;
  k_getpeername h _ := ret_at h;
  k_getsockname h _ :=
    match answer_at h with
    | ARecv _ name namelen => (0, (name, namelen))
    | _ => (ret_at h, (storage_zeroed, 0))
    end;
  k_connect h _ _ _ := ret_at h;
  k_setsockopt h _ _ _ _ := ret_at h;
  k_getsockopt h _ _ _ := (Z.min 0 (ret_at h), ret_at h);
  k_nonblocking h _ := ready_at h;
  k_register h _ := ready_at h;
  k_runtime := true;
  k_writable h _ := ready_at h;
  k_readable h _ := ready_at h;
  k_now h := match answer_at h with ATime t => t | _ => 0 end;
  k_errno h := match script !! pred (length h) with Some (ARet _ e) => e | _ => 0 end;
  k_mem _ := mem;
|}.

Lemma script_kernel_laws : @KernelLaws L script_kernel.
Proof.
  split; simpl; unfold script_recvfrom, script_recvmmsg.
  - intros. lia.
  - intros h fd n. destruct (answer_at h); simpl; lia.
  - intros h fd n. destruct (answer_at h); simpl; try apply udp_bytes_le; lia.
  - intros h fd n. destruct (answer_at h); simpl; try apply udp_bytes_udp; lia.
  - intros h fd lens ret outs. destruct (answer_at h); intros [= <- <-] ?; simpl in *; try lia.
    split; [done|]. rewrite length_zip_with. lia.
  - intros h fd lens ret outs. destruct (answer_at h); intros [= <- <-] ?; simpl in *; try lia; done.
  - intros h fd lens ret outs i m n Hk Hm Hn.
    destruct (answer_at h); injection Hk as _ <-; try done.
    apply lookup_zip_with_Some in Hm as (n' & [[[d nm] nl] cs] & -> & Hn' & _).
    simplify_eq; simpl. split; [done|]. split; [apply udp_bytes_le|apply udp_bytes_udp].
Qed.
End script.

(** A kernel with another clock. *)
Definition with_clock {L : Libc} (K : Kernel) (clock : history → Z) : Kernel := {|
  k_send := k_send; k_sendto := k_sendto; k_sendmmsg := k_sendmmsg; k_sendmsg := k_sendmsg;
  k_recvfrom := k_recvfrom; k_recvmmsg := k_recvmmsg; k_getpeername := k_getpeername;
  k_getsockname := k_getsockname; k_connect := k_connect; k_setsockopt := k_setsockopt;
  k_getsockopt := k_getsockopt; k_nonblocking := k_nonblocking; k_register := k_register;
  k_runtime := k_runtime;
  k_writable := k_writable; k_readable := k_readable;
  k_now := clock; k_errno := k_errno; k_mem := k_mem;
|}.

(** ** Sample values for the examples of the other files *)
Definition linux_le : Libc := unix_libc Linux true.

(** Two live buffers. *)
Definition sample_mem : memory := {[ 1%N := [104; 101; 108; 108; 111]; 2%N := [1; 2; 3] ]}.
Definition hello : slice := MkSlice (MkPtr 1 0) 5.
Definition bytes12 : slice := MkSlice (MkPtr 2 0) 2.
Definition localhost (port : Z) : SocketAddr := V4 (MkV4 [127; 0; 0; 1] port).

Definition sample_kernel (script : list (@answer linux_le)) : @Kernel linux_le :=
  @script_kernel linux_le sample_mem script.

(** The address block of [localhost port] as the kernel fills it in. *)
Definition localhost_name (port : Z) : @storage linux_le :=
  put_bytes (sockaddr_in_bytes Linux true (MkSin 2 (to_be true 2 port) 16777343)) (replicate 128 0).
