(* ===== verification/Sockaddr.v ===== *)
(** * Socket addresses and raw system-call wrappers (src/sockaddr/unix.rs)

    [encode_sockaddr] and [decode_sockaddr] translate between [SocketAddr] and the C address block;
    the [raw_*] functions wrap one system call each. *)
From S2P Require Import Prelude Libc UnixAbi.
#[local] Open Scope Z_scope.

Section sockaddr.
Context {L : Libc} {K : Kernel}.

(** The new contents of [storage] and the returned [socklen_t]. *)
Definition encode_sockaddr (addr : SocketAddr) (st : storage) : Z * storage :=
  match addr with
  | V4 v4 =>
      let raw := {| sin_family := AF_INET;
                    sin_port := to_be little_endian 2 (v4_port v4);
                    sin_addr := from_ne_bytes little_endian (v4_ip v4) |} in
      (SIZEOF_SOCKADDR_IN, write_sockaddr_in raw st)
  | V6 v6 =>
      let raw := {| sin6_family := AF_INET6;
                    sin6_port := to_be little_endian 2 (v6_port v6);
                    sin6_flowinfo := v6_flowinfo v6;
                    sin6_addr := v6_ip v6;
                    sin6_scope_id := v6_scope_id v6 |} in
      (SIZEOF_SOCKADDR_IN6, write_sockaddr_in6 raw st)
  end.

Definition decode_sockaddr (st : storage) (len : Z) : SocketAddr :=
  if len =? 0 then unspecified
  else if ss_family st =? AF_INET then
    let sin := read_sockaddr_in st in
    let ip := Ipv4Addr_from_u32 (from_be little_endian 4 (sin_addr sin)) in
    let port := from_be little_endian 2 (sin_port sin) in
    V4 (MkV4 ip port)
  else if ss_family st =? AF_INET6 then
    let sin6 := read_sockaddr_in6 st in
    let port := from_be little_endian 2 (sin6_port sin6) in
    V6 (MkV6 (sin6_addr sin6) port (sin6_flowinfo sin6) (sin6_scope_id sin6))
  else unspecified.

Definition raw_sendto (fd : Fd) (data : slice) (addr : SocketAddr) : IO (io_result Z) :=
  let '(addr_len, st) := encode_sockaddr addr storage_zeroed in
  let! bytes := read_slice data in
  let! ret := sys_sendto fd bytes st addr_len in
  if 0 <=? ret then mret (Ok ret)
  else let! e := last_os_error in mret (Err e).

Definition raw_send (fd : Fd) (data : slice) : IO (io_result Z) :=
  let! bytes := read_slice data in
  let! ret := sys_send fd bytes in
  if 0 <=? ret then mret (Ok ret)
  else let! e := last_os_error in mret (Err e).

(** Also returns the buffer as the call leaves it. *)
Definition raw_recvfrom (fd : Fd) (buf : list Z) : IO (io_result (Z * SocketAddr) * list Z) :=
  let! out := sys_recvfrom fd (length buf) in
  let buf := blit (ro_data out) buf in
  if 0 <=? ro_ret out then
    mret (Ok (ro_ret out, decode_sockaddr (ro_name out) (ro_namelen out)), buf)
  else let! e := last_os_error in mret (Err e, buf).

Definition is_connected (fd : Fd) : IO bool :=
  let! ret := sys_getpeername fd in mret (ret =? 0).

Definition raw_getsockname (fd : Fd) : IO (io_result SocketAddr) :=
  let! '(ret, (st, len)) := sys_getsockname fd in
  if ret <? 0 then let! e := last_os_error in mret (Err e)
  else mret (Ok (decode_sockaddr st len)).

Definition raw_connect (fd : Fd) (addr : SocketAddr) : IO (io_result unit) :=
  let '(addr_len, st) := encode_sockaddr addr storage_zeroed in
  let! ret := sys_connect fd st addr_len in
  if ret <? 0 then let! e := last_os_error in mret (Err e) else mret (Ok tt).

Definition raw_setsockopt (fd : Fd) (level optname val : Z) : IO (io_result unit) :=
  let! ret := sys_setsockopt fd level optname val in
  if ret <? 0 then let! e := last_os_error in mret (Err e) else mret (Ok tt).

(** The same call with a [u32] value. *)
Definition raw_setsockopt_u32 (fd : Fd) (level optname val : Z) : IO (io_result unit) :=
  let! ret := sys_setsockopt fd level optname val in
  if ret <? 0 then let! e := last_os_error in mret (Err e) else mret (Ok tt).

Definition raw_getsockopt (fd : Fd) (level optname : Z) : IO (io_result Z) :=
  let! '(ret, val) := sys_getsockopt fd level optname in
  if ret <? 0 then let! e := last_os_error in mret (Err e) else mret (Ok val).
End sockaddr.

(** ** Round trip *)
Section roundtrip.
Context {L : Libc} {LL : LibcLaws}.

Lemma sin_ok_encode v4 : addr_ok (V4 v4) →
  sin_ok (MkSin AF_INET (to_be little_endian 2 (v4_port v4)) (from_ne_bytes little_endian (v4_ip v4))).
Proof.
  intros (Hlen & Hb & Hp). pose proof AF_INET_ok.
  pose proof (to_be_bound little_endian 2 (v4_port v4) Hp).
  pose proof (from_ne_bytes_bound little_endian (v4_ip v4) Hb) as Hip. rewrite Hlen in Hip.
  repeat split; simpl; try lia; apply Hip.
Qed.

Lemma sin6_ok_encode v6 : addr_ok (V6 v6) →
  sin6_ok (MkSin6 AF_INET6 (to_be little_endian 2 (v6_port v6)) (v6_flowinfo v6) (v6_ip v6)
             (v6_scope_id v6)).
Proof.
  intros (Hlen & Hb & Hp & Hf & Hs). pose proof AF_INET6_ok.
  pose proof (to_be_bound little_endian 2 (v6_port v6) Hp).
  repeat split; simpl; try lia; done.
Qed.

Lemma encode_len_nonzero a st : (encode_sockaddr a st).1 ≠ 0.
Proof. pose proof sizeof_in_pos. pose proof sizeof_in6_pos. destruct a; simpl; lia. Qed.

Lemma decode_encode a st : addr_ok a →
  decode_sockaddr (encode_sockaddr a st).2 (encode_sockaddr a st).1 = a.
Proof.
  intros Ha. pose proof (encode_len_nonzero a st) as Hnz. unfold decode_sockaddr.
  apply Z.eqb_neq in Hnz as ->. destruct a as [v4|v6]; simpl in *.
  - pose proof (sin_ok_encode v4 Ha) as Hok. rewrite family_write_in, read_write_in by done.
    simpl. rewrite Z.eqb_refl. destruct v4 as [ip port], Ha as (Hlen & Hb & Hp); simpl in *.
    unfold Ipv4Addr_from_u32. rewrite <- Hlen, be_octets_of_ne_bytes by done.
    by rewrite from_be_to_be.
  - pose proof (sin6_ok_encode v6 Ha) as Hok. rewrite family_write_in6, read_write_in6 by done.
    simpl. pose proof AF_distinct as Hne. rewrite (proj2 (Z.eqb_neq AF_INET6 AF_INET)) by done.
    rewrite Z.eqb_refl. destruct v6, Ha as (Hlen & Hb & Hp & _); simpl in *.
    by rewrite from_be_to_be.
Qed.
End roundtrip.

(** ** Layout on the wire *)

(** The port field read in the host's order and converted is the big-endian number of its two bytes. *)
Lemma from_be_port little x y : byte_ok x → byte_ok y →
  from_be little 2 (from_ne_bytes little [x; y]) = 256 * x + y.
Proof.
  unfold byte_ok. intros Hx Hy. destruct little; unfold from_be, to_be, from_ne_bytes; simpl; [|lia].
  unfold swap_bytes. simpl. Z.to_euclidean_division_equations; lia.
Qed.

Lemma to_be_port little p : 0 ≤ p < 2 ^ 16 →
  to_ne_bytes little 2 (to_be little 2 p) = [p / 256; p mod 256].
Proof.
  intros Hp. assert (byte_ok (p / 256) ∧ byte_ok (p mod 256)) as [H1 H2]
    by (unfold byte_ok; Z.to_euclidean_division_equations; lia).
  assert (Hb : bytes_ok [p / 256; p mod 256]) by (apply Forall_cons_2; [done|by apply Forall_singleton]).
  rewrite <- (to_ne_bytes_from_ne_bytes little [p / 256; p mod 256]) by done. simpl length. f_equal.
  pose proof (from_be_to_be little 2 _ (from_ne_bytes_bound little _ Hb)) as E. unfold from_be in E.
  pose proof (from_be_port little _ _ H1 H2) as E2. unfold from_be in E2. rewrite E2 in E.
  rewrite <- E. f_equal. Z.to_euclidean_division_equations; lia.
Qed.

(** Two bytes of a block. *)
Lemma field_two off (st : list Z) : (S off < length st)%nat →
  field off 2 st = [nth off st 0; nth (S off) st 0].
Proof.
  revert st. induction off as [|off IH]; intros [|x [|y st]] Hl; simpl in *; try lia; [done|].
  unfold field in *. simpl. rewrite (IH (y :: st)) by (simpl; lia). done.
Qed.

Lemma field_bytes_ok off n st : bytes_ok st → bytes_ok (field off n st).
Proof. intros H. by apply Forall_take, Forall_drop. Qed.

(** C16: the layout of addresses. On every supported ABI and on both byte orders, any address block of
    the kernel decodes by its bytes: length 0 or an unknown family give the unspecified address 0.0.0.0:0;
    otherwise the port is the big-endian number in bytes 2 and 3, the octets of an IPv4 address are bytes
    4 to 7 in order, those of an IPv6 address bytes 8 to 23, with the flow label in bytes 4 to 7 and the
    scope in bytes 24 to 27 in the host's order. Encoding writes exactly that layout over the start of the
    block and keeps the rest. *)
Theorem sockaddr_layout (os : target_abi) (little : bool) (st : list Z) (len : Z) (a : SocketAddr) :
  length st = 128%nat → bytes_ok st → addr_ok a →
  let port := 256 * nth 2 st 0 + nth 3 st 0 in
  let family := family_of_bytes os little st in
  let af_inet6 := match os with Linux => 10 | MacOS => 30 | Windows => 23 end in
  @decode_sockaddr (unix_libc os little) st len =
    (if (len =? 0) || negb ((family =? 2) || (family =? af_inet6)) then V4 (MkV4 [0; 0; 0; 0] 0)
     else if family =? 2 then V4 (MkV4 (field 4 4 st) port)
     else V6 (MkV6 (field 8 16 st) port (from_ne_bytes little (field 4 4 st))
                (from_ne_bytes little (field 24 4 st)))) ∧
  @encode_sockaddr (unix_libc os little) a st =
    match a with
    | V4 (MkV4 ip p) =>
        (16, family_bytes os little 2 ++ [p / 256; p mod 256] ++ ip ++ replicate 8 0 ++ drop 16 st)
    | V6 (MkV6 ip p flowinfo scope_id) =>
        (28, family_bytes os little af_inet6 ++ [p / 256; p mod 256] ++ to_ne_bytes little 4 flowinfo
             ++ ip ++ to_ne_bytes little 4 scope_id ++ drop 28 st)
    end.
Proof.
  intros Hl Hb Ha port family af. split.
  - assert (Hport : from_be little 2 (from_ne_bytes little (field 2 2 st)) = port).
    { rewrite field_two by lia. apply from_be_port; apply Forall_nth; (done || lia). }
    assert (Hip : Ipv4Addr_from_u32 (from_be little 4 (from_ne_bytes little (field 4 4 st))) = field 4 4 st).
    { pose proof (be_octets_of_ne_bytes little (field 4 4 st) (field_bytes_ok 4 4 st Hb)) as E.
      unfold field in *. rewrite length_take, length_drop, Hl in E. exact E. }
    unfold decode_sockaddr. cbn [ss_family unix_libc AF_INET AF_INET6 read_sockaddr_in read_sockaddr_in6
      sockaddr_in_of_bytes sockaddr_in6_of_bytes sin_addr sin_port sin6_addr sin6_port sin6_flowinfo
      sin6_scope_id little_endian]. fold af family. rewrite Hport, Hip.
    destruct (len =? 0), (family =? 2), (family =? af); done.
  - destruct a as [[ip p]|[ip p fl sc]].
    + destruct Ha as (Hlen & Hbs & Hp); simpl in *. unfold put_bytes, sockaddr_in_bytes; simpl.
      pose proof (to_ne_bytes_from_ne_bytes little ip Hbs) as E. rewrite Hlen in E.
      rewrite to_be_port, E by done. f_equal. rewrite !length_app, length_family_bytes, Hlen, <- !(assoc_L (++)). done.
    + destruct Ha as (Hlen & Hbs & Hp & Hf & Hs); simpl in *. unfold put_bytes, sockaddr_in6_bytes; simpl.
      rewrite to_be_port by done.
      f_equal. rewrite !length_app, length_family_bytes, !length_to_ne_bytes, Hlen, <- !(assoc_L (++)). done.
Qed.

(** A big-endian host reads the block a little-endian one would write, but for the family. *)
Lemma sockaddr_layout_witness :
  @decode_sockaddr (unix_libc Linux false) ([0; 2; 31; 144; 127; 0; 0; 1] ++ replicate 120 0) 16 =
    V4 (MkV4 [127; 0; 0; 1] 8080) ∧
  @encode_sockaddr (unix_libc Linux false) (localhost 8080) ([0; 2; 31; 144; 127; 0; 0; 1] ++ replicate 120 0) =
    (16, [0; 2; 31; 144; 127; 0; 0; 1] ++ replicate 120 0).
Proof.
  apply (sockaddr_layout Linux false ([0; 2; 31; 144; 127; 0; 0; 1] ++ replicate 120 0) 16 (localhost 8080)).
  - reflexivity.
  - repeat (apply Forall_cons_2; [unfold byte_ok; lia|]). apply Forall_nil_2.
  - split_and!; [done|by repeat constructor|simpl; lia|simpl; lia].
Defined.

(** C9: every address the standard library can build survives encoding into the C address block and
    decoding back, on both byte orders, whatever the block held before. *)
Theorem decode_encode_sockaddr {L : Libc} {LL : LibcLaws} (a : SocketAddr) (st : storage) :
  addr_ok a →
  decode_sockaddr (encode_sockaddr a st).2 (encode_sockaddr a st).1 = a.
Proof. apply decode_encode. Qed.

Lemma decode_encode_sockaddr_witness :
  @decode_sockaddr linux_le
    (@encode_sockaddr linux_le (V6 (MkV6 (replicate 15 0 ++ [1]) 8080 7 42)) (replicate 128 255)).2
    (@encode_sockaddr linux_le (V6 (MkV6 (replicate 15 0 ++ [1]) 8080 7 42)) (replicate 128 255)).1
  = V6 (MkV6 (replicate 15 0 ++ [1]) 8080 7 42).
Proof.
  apply (@decode_encode_sockaddr linux_le (unix_libc_laws Linux true)).
  split_and!; [reflexivity| |simpl; lia|simpl; lia|simpl; lia|simpl; lia|simpl; lia|simpl; lia].
  repeat constructor; lia.
Defined.
