(* ===== verification/Batch.v ===== *)
(** * Batch containers (src/batch.rs, src/error.rs)

    [SendBatchRaw] / [SendBatch]: outgoing datagrams as raw pointers with optional destinations;
    [RecvBatchRaw] / [RecvBatch]: receive slots that own their buffers; [Timestamp]. *)
From S2P Require Import Prelude Libc UnixAbi.
#[local] Open Scope Z_scope.

(** [BingerError] (src/error.rs). *)
Inductive BingerError :=
| BatchFull (capacity : nat)
| Io (e : io_error).

(** ** Vec with its capacity

    std promises a capacity of at least what was asked for; [vec_grow] is the growth policy of
    [Vec::push] on a full vector. *)
Class Alloc := {
  vec_alloc : nat → nat;
  vec_grow : nat → nat;
  vec_alloc_ge : ∀ n, (n ≤ vec_alloc n)%nat;
}.

Record vec (A : Type) := MkVec { v_elems : list A; v_cap : nat }.
Arguments MkVec {A} _ _.
Arguments v_elems {A} _.
Arguments v_cap {A} _.

Definition vec_with_capacity `{Alloc} {A} (n : nat) : vec A := MkVec [] (vec_alloc n).
Definition vec_push `{Alloc} {A} (v : vec A) (x : A) : vec A :=
  MkVec (v_elems v ++ [x])
    (if (length (v_elems v) <? v_cap v)%nat then v_cap v else vec_grow (v_cap v)).

(** An allocator that hands out exactly what is asked for. *)
#[export] Instance exact_alloc : Alloc := {|
  vec_alloc n := n; vec_grow n := (2 * n + 4)%nat; vec_alloc_ge := Nat.le_refl |}.

(** ** Timestamp *)
Record Timestamp := MkTimestamp { tv_sec : Z; tv_nsec : Z }.

(** [Duration] as seconds and nanoseconds; [Duration::new] carries whole seconds out of the
    nanoseconds and panics when the seconds overflow. *)
Definition Duration_new (secs nanos : Z) : outcome (Z * Z) :=
  if nanos <? 1000000000 then Ret (secs, nanos)
  else let s := secs + nanos / 1000000000 in
       if s <? 2 ^ 64 then Ret (s, nanos mod 1000000000) else Panic.

Definition as_duration (ts : Timestamp) : outcome (Z * Z) :=
  Duration_new (as_u64 (tv_sec ts)) (as_u32 (tv_nsec ts)).

(** ** SendBatchRaw *)
Record SendSlot := MkSendSlot { data_ptr : ptr; data_len : nat; slot_addr : option SocketAddr }.

Definition slot_slice (s : SendSlot) : slice := MkSlice (data_ptr s) (data_len s).

Module SendBatchRaw.
Record t := Mk { slots : vec SendSlot; len : nat }.

Definition with_capacity `{Alloc} (capacity : nat) : t := Mk (vec_with_capacity capacity) 0.

Definition push `{Alloc} (b : t) (data : slice) (addr : option SocketAddr)
    : result unit BingerError * t :=
  if (v_cap (slots b) <=? len b)%nat then (Err (BatchFull (v_cap (slots b))), b)
  else
    let slot := MkSendSlot (s_ptr data) (s_len data) addr in
    let slots' :=
      if (length (v_elems (slots b)) <=? len b)%nat then vec_push (slots b) slot
      else MkVec (<[len b := slot]> (v_elems (slots b))) (v_cap (slots b)) in
    (Ok tt, Mk slots' (S (len b))).

Definition is_empty (b : t) : bool := (len b =? 0)%nat.

(** The slice of slot [idx], which [from_raw_parts] requires to be readable now, and its
    destination. *)
Definition entry {L : Libc} {K : Kernel} (b : t) (idx : nat) : IO (slice * option SocketAddr) :=
  let! slot := lift (oindex (v_elems (slots b)) idx) in
  let! _ := read_slice (slot_slice slot) in
  mret (slot_slice slot, slot_addr slot).

Definition clear (b : t) : t := Mk (slots b) 0.
End SendBatchRaw.

(** [SendBatch<N>] delegates to [SendBatchRaw]. *)
Module SendBatch.
Record t (N : nat) := Mk { raw : SendBatchRaw.t }.
Arguments Mk {N} _.
Arguments raw {N} _.

Definition new `{Alloc} (N : nat) : t N := Mk (SendBatchRaw.with_capacity N).
Definition push `{Alloc} {N} (b : t N) (buf : slice) (addr : SocketAddr)
    : result unit BingerError * t N :=
  let '(r, raw') := SendBatchRaw.push (raw b) buf (Some addr) in (r, Mk raw').
Definition push_connected `{Alloc} {N} (b : t N) (buf : slice) : result unit BingerError * t N :=
  let '(r, raw') := SendBatchRaw.push (raw b) buf None in (r, Mk raw').
Definition len {N} (b : t N) : nat := SendBatchRaw.len (raw b).
Definition is_empty {N} (b : t N) : bool := (len b =? 0)%nat.
Definition capacity {N} (_ : t N) : nat := N.
Definition clear {N} (b : t N) : t N := Mk (SendBatchRaw.clear (raw b)).
End SendBatch.

(** ** RecvBatchRaw *)
Record RecvSlot := MkRecvSlot
  { buf : list Z; addr : SocketAddr; recv_len : Z;
    timestamp : option Timestamp; dst_addr : option SocketAddr }.

Definition set_slot_buf (s : RecvSlot) (b : list Z) : RecvSlot :=
  MkRecvSlot b (addr s) (recv_len s) (timestamp s) (dst_addr s).
Definition set_slot_addr (s : RecvSlot) (a : SocketAddr) : RecvSlot :=
  MkRecvSlot (buf s) a (recv_len s) (timestamp s) (dst_addr s).
Definition set_slot_recv_len (s : RecvSlot) (n : Z) : RecvSlot :=
  MkRecvSlot (buf s) (addr s) n (timestamp s) (dst_addr s).
Definition set_slot_timestamp (s : RecvSlot) (ts : option Timestamp) : RecvSlot :=
  MkRecvSlot (buf s) (addr s) (recv_len s) ts (dst_addr s).
Definition set_slot_dst_addr (s : RecvSlot) (a : option SocketAddr) : RecvSlot :=
  MkRecvSlot (buf s) (addr s) (recv_len s) (timestamp s) a.

(** The payload of a slot, when [recv_len] is in range. *)
Definition slot_data (s : RecvSlot) : list Z := take (Z.to_nat (recv_len s)) (buf s).

Module RecvBatchRaw.
Record t := Mk { slots : list RecvSlot; len : nat }.

Definition with_capacity (capacity buf_size : nat) : t :=
  Mk (replicate capacity (MkRecvSlot (replicate buf_size 0) unspecified 0 None None)) 0.

Definition capacity (b : t) : nat := length (slots b).
Definition is_empty (b : t) : bool := (len b =? 0)%nat.
Definition set_len (b : t) (n : nat) : t := Mk (slots b) n.

(** [self.slots[idx].f = v] for one field. *)
Definition update (b : t) (idx : nat) (f : RecvSlot → RecvSlot) : outcome t :=
  let? s := oindex (slots b) idx in
  Ret (Mk (<[idx := f s]> (slots b)) (len b)).

Definition set_recv_len (b : t) (idx : nat) (n : Z) : outcome t :=
  update b idx (λ s, set_slot_recv_len s (as_u16 n)).

(** [buffer_mut] hands out references to the buffer and the address of a slot; the reads and
    writes made through them. *)
Definition buffer (b : t) (idx : nat) : outcome (list Z) :=
  let? s := oindex (slots b) idx in Ret (buf s).
Definition set_buffer (b : t) (idx : nat) (bs : list Z) : outcome t :=
  update b idx (λ s, set_slot_buf s bs).
Definition set_addr (b : t) (idx : nat) (a : SocketAddr) : outcome t :=
  update b idx (λ s, set_slot_addr s a).

(** [&slot.buf[..slot.recv_len as usize]] *)
Definition data (b : t) (idx : nat) : outcome (list Z) :=
  let? s := oindex (slots b) idx in
  if recv_len s <=? Z.of_nat (length (buf s)) then Ret (slot_data s) else Panic.

Definition addr (b : t) (idx : nat) : outcome SocketAddr :=
  let? s := oindex (slots b) idx in Ret (addr s).

Definition clear (b : t) : t :=
  Mk ((λ s, MkRecvSlot (buf s) (Batch.addr s) 0 None None) <$> slots b) 0.

Definition timestamp (b : t) (idx : nat) : outcome (option Timestamp) :=
  let? s := oindex (slots b) idx in Ret (timestamp s).
Definition set_timestamp (b : t) (idx : nat) (ts : option Timestamp) : outcome t :=
  update b idx (λ s, set_slot_timestamp s ts).
Definition dst_addr (b : t) (idx : nat) : outcome (option SocketAddr) :=
  let? s := oindex (slots b) idx in Ret (dst_addr s).
Definition set_dst_addr (b : t) (idx : nat) (a : option SocketAddr) : outcome t :=
  update b idx (λ s, set_slot_dst_addr s a).
End RecvBatchRaw.

(** [RecvBatch<N>] delegates to [RecvBatchRaw]. *)
Module RecvBatch.
Record t (N : nat) := Mk { raw : RecvBatchRaw.t }.
Arguments Mk {N} _.
Arguments raw {N} _.

Definition new (N buf_size : nat) : t N := Mk (RecvBatchRaw.with_capacity N buf_size).
Definition len {N} (b : t N) : nat := RecvBatchRaw.len (raw b).
Definition is_empty {N} (b : t N) : bool := (len b =? 0)%nat.
Definition capacity {N} (_ : t N) : nat := N.
Definition data {N} (b : t N) (idx : nat) : outcome (list Z) := RecvBatchRaw.data (raw b) idx.
Definition addr {N} (b : t N) (idx : nat) : outcome SocketAddr := RecvBatchRaw.addr (raw b) idx.
Definition clear {N} (b : t N) : t N := Mk (RecvBatchRaw.clear (raw b)).
Definition timestamp {N} (b : t N) (idx : nat) := RecvBatchRaw.timestamp (raw b) idx.
Definition dst_addr {N} (b : t N) (idx : nat) := RecvBatchRaw.dst_addr (raw b) idx.

(** [(0..self.len()).map(|i| (self.data(i), self.addr(i)))], collected. *)
Fixpoint iter_from {N} (b : t N) (i n : nat) : outcome (list (list Z * SocketAddr)) :=
  match n with
  | O => Ret []
  | S n =>
      let? d := data b i in
      let? a := addr b i in
      let? rest := iter_from b (S i) n in
      Ret ((d, a) :: rest)
  end.
Definition iter {N} (b : t N) : outcome (list (list Z * SocketAddr)) := iter_from b 0 (len b).
End RecvBatch.

(** ** Specification of the send batch: a bounded list of datagrams *)
Section send_spec.
Context `{Alloc}.
Implicit Types (b : SendBatchRaw.t) (q : list (slice * option SocketAddr)).

Inductive send_op :=
| OpPush (data : slice) (a : option SocketAddr)
| OpClear.

(** The abstract operations on a list of at most [cap] entries. *)
Definition spec_step (cap : nat) q (o : send_op)
    : result unit BingerError * list (slice * option SocketAddr) :=
  match o with
  | OpPush d a => if (length q <? cap)%nat then (Ok tt, q ++ [(d, a)]) else (Err (BatchFull cap), q)
  | OpClear => (Ok tt, [])
  end.
Fixpoint spec_run (cap : nat) q (os : list send_op) :=
  match os with
  | [] => ([], q)
  | o :: os => let '(r, q) := spec_step cap q o in
               let '(rs, q) := spec_run cap q os in (r :: rs, q)
  end.

(** The same operations on the container. *)
Definition raw_step b (o : send_op) : result unit BingerError * SendBatchRaw.t :=
  match o with
  | OpPush d a => SendBatchRaw.push b d a
  | OpClear => (Ok tt, SendBatchRaw.clear b)
  end.
Fixpoint raw_run b (os : list send_op) :=
  match os with
  | [] => ([], b)
  | o :: os => let '(r, b) := raw_step b o in
               let '(rs, b) := raw_run b os in (r :: rs, b)
  end.

Definition slot_entry (s : SendSlot) : slice * option SocketAddr := (slot_slice s, slot_addr s).

(** The datagrams a batch holds. *)
Definition contents b : list (slice * option SocketAddr) :=
  slot_entry <$> take (SendBatchRaw.len b) (v_elems (SendBatchRaw.slots b)).

(** Well-formed with capacity [cap]: the vector never outgrew its allocation and [len] counts
    initialised slots. *)
Definition send_wf (cap : nat) b : Prop :=
  v_cap (SendBatchRaw.slots b) = cap ∧
  (length (v_elems (SendBatchRaw.slots b)) ≤ cap)%nat ∧
  (SendBatchRaw.len b ≤ length (v_elems (SendBatchRaw.slots b)))%nat.

Lemma length_contents cap b : send_wf cap b → length (contents b) = SendBatchRaw.len b.
Proof. intros (_ & _ & ?). unfold contents. rewrite length_fmap, length_take. lia. Qed.

Lemma contents_lookup cap b i : send_wf cap b → (i < SendBatchRaw.len b)%nat →
  contents b !! i = slot_entry <$> v_elems (SendBatchRaw.slots b) !! i.
Proof. intros _ Hi. unfold contents. by rewrite list_lookup_fmap, lookup_take_lt. Qed.

Lemma with_capacity_wf n : send_wf (vec_alloc n) (SendBatchRaw.with_capacity n).
Proof. unfold send_wf; simpl; lia. Qed.

(** The vector after a push that finds room: the slot is at position [len]. *)
Lemma push_room cap b d a : send_wf cap b → (SendBatchRaw.len b < cap)%nat →
  ∃ els, SendBatchRaw.push b d a =
           (Ok tt, SendBatchRaw.Mk (MkVec els cap) (S (SendBatchRaw.len b))) ∧
         (length els ≤ cap)%nat ∧ (SendBatchRaw.len b < length els)%nat ∧
         take (S (SendBatchRaw.len b)) els =
           take (SendBatchRaw.len b) (v_elems (SendBatchRaw.slots b))
           ++ [MkSendSlot (s_ptr d) (s_len d) a].
Proof.
  destruct b as [[els c] n]. intros (Hc & Hl & Hn) Hlt; simpl in *. subst c.
  unfold SendBatchRaw.push; simpl.
  destruct (Nat.leb_spec cap n); [lia|]. destruct (Nat.leb_spec (length els) n).
  - assert (n = length els) as -> by lia.
    unfold vec_push; simpl. destruct (Nat.ltb_spec (length els) cap); [|lia].
    eexists. split; [done|]. rewrite !length_app; simpl. split_and!; try lia.
    rewrite firstn_all, take_ge; [done|]. rewrite length_app; simpl; lia.
  - eexists. split; [done|]. rewrite length_insert. split_and!; try lia.
    rewrite (take_S_r _ _ (MkSendSlot (s_ptr d) (s_len d) a)).
    + by rewrite take_insert_ge by lia.
    + apply list_lookup_insert_eq. lia.
Qed.

Lemma push_full cap b d a : send_wf cap b → (cap ≤ SendBatchRaw.len b)%nat →
  SendBatchRaw.push b d a = (Err (BatchFull cap), b).
Proof.
  intros (Hc & _) Hle. unfold SendBatchRaw.push. rewrite Hc.
  by destruct (Nat.leb_spec cap (SendBatchRaw.len b)); [|lia].
Qed.

Lemma push_contents cap b d a : send_wf cap b → (SendBatchRaw.len b < cap)%nat →
  ∃ b', SendBatchRaw.push b d a = (Ok tt, b') ∧ send_wf cap b' ∧ contents b' = contents b ++ [(d, a)].
Proof.
  intros Hwf Hlt. destruct (push_room cap b d a Hwf Hlt) as (els & -> & Hl & Hn & Ht).
  eexists. split; [done|]. split; [unfold send_wf; simpl; lia|].
  unfold contents; cbn [SendBatchRaw.len SendBatchRaw.slots v_elems]. rewrite Ht, fmap_app. by destruct d.
Qed.

Lemma raw_step_refines cap b o : send_wf cap b →
  send_wf cap (raw_step b o).2 ∧
  spec_step cap (contents b) o = ((raw_step b o).1, contents (raw_step b o).2).
Proof.
  intros Hwf. destruct o as [d a|]; simpl.
  - rewrite (length_contents cap) by done.
    destruct (Nat.ltb_spec (SendBatchRaw.len b) cap) as [Hlt|Hge].
    + destruct (push_contents cap b d a Hwf Hlt) as (b' & -> & Hwf' & Hc). simpl. by rewrite Hc.
    + by rewrite (push_full cap).
  - destruct Hwf as (? & ? & ?). split; [unfold send_wf; simpl; lia|done].
Qed.

Lemma raw_run_refines cap b os : send_wf cap b →
  send_wf cap (raw_run b os).2 ∧
  spec_run cap (contents b) os = ((raw_run b os).1, contents (raw_run b os).2).
Proof.
  revert b. induction os as [|o os IH]; intros b Hwf; simpl; [done|].
  destruct (raw_step_refines cap b o Hwf) as [Hwf' ->].
  destruct (raw_step b o) as [r b']; simpl in *.
  destruct (IH b' Hwf') as [Hwf'' ->]. by destruct (raw_run b' os).
Qed.
End send_spec.

(** C10: refinement. Whatever sequence of pushes and clears is run on a fresh raw send batch, its answers
    (including [BatchFull] with the capacity) and its contents are those of a list bounded by the
    capacity, and the slot vector stays within its allocation. *)
Theorem send_batch_refines_bounded_list `{Alloc} (n : nat) (os : list send_op) :
  let r := raw_run (SendBatchRaw.with_capacity n) os in
  spec_run (vec_alloc n) [] os = (r.1, contents r.2) ∧
  v_cap (SendBatchRaw.slots r.2) = vec_alloc n ∧
  (length (v_elems (SendBatchRaw.slots r.2)) ≤ vec_alloc n)%nat.
Proof.
  destruct (raw_run_refines (vec_alloc n) (SendBatchRaw.with_capacity n) os (with_capacity_wf n))
    as ((? & ? & _) & E). done.
Qed.

(** ** Reading entries back

    A send batch holds pointers, not bytes. *)
Section send_entries.
Context `{Alloc} {L : Libc} {K : Kernel}.

Lemma entry_unfold b i h slot : v_elems (SendBatchRaw.slots b) !! i = Some slot →
  SendBatchRaw.entry b i h =
    match slice_bytes (k_mem h) (slot_slice slot) with
    | Some _ => Ret ((slot_slice slot, slot_addr slot), h)
    | None => UB
    end.
Proof.
  intros Hs. unfold SendBatchRaw.entry, mbind, lift. rewrite (oindex_Ret _ _ _ Hs).
  unfold read_slice. by destruct (slice_bytes _ _).
Qed.

Lemma entry_contents cap b i h d a bs : send_wf cap b → contents b !! i = Some (d, a) →
  slice_bytes (k_mem h) d = Some bs → SendBatchRaw.entry b i h = Ret ((d, a), h).
Proof.
  intros Hwf Hi Hbs. pose proof (lookup_lt_Some _ _ _ Hi) as Hlt.
  rewrite (length_contents cap) in Hlt by done.
  rewrite (contents_lookup cap) in Hi by done.
  apply fmap_Some in Hi as (slot & Hs & [= -> ->]).
  by rewrite (entry_unfold _ _ _ _ Hs), Hbs.
Qed.
End send_entries.

(** C34: push then entry. A push that finds room makes the datagram readable at the old length, with the
    same pointer, length and destination, as long as the caller's memory is still there; the batch
    copies nothing, so the bytes read are those in memory at the time of the read, and a buffer
    that is gone by then is undefined behaviour. *)
Theorem push_then_entry `{Alloc} {L : Libc} {K : Kernel} cap b d a h :
  send_wf cap b → (SendBatchRaw.len b < cap)%nat →
  (SendBatchRaw.push b d a).1 = Ok tt ∧
  SendBatchRaw.len (SendBatchRaw.push b d a).2 = S (SendBatchRaw.len b) ∧
  SendBatchRaw.entry (SendBatchRaw.push b d a).2 (SendBatchRaw.len b) h =
    match slice_bytes (k_mem h) d with Some _ => Ret ((d, a), h) | None => UB end ∧
  (∀ i, (i < SendBatchRaw.len b)%nat →
     SendBatchRaw.entry (SendBatchRaw.push b d a).2 i h = SendBatchRaw.entry b i h).
Proof.
  intros Hwf Hlt. destruct (push_room cap b d a Hwf Hlt) as (els & -> & Hl & Hn & Ht); simpl.
  destruct Hwf as (_ & _ & Hle). split_and!; try done.
  - rewrite (entry_unfold _ _ _ (MkSendSlot (s_ptr d) (s_len d) a)).
    + by destruct d.
    + rewrite <- (lookup_take_lt els (S (SendBatchRaw.len b))) by lia.
      rewrite Ht, lookup_app_r; rewrite length_take; [|lia].
      by rewrite Nat.min_l, Nat.sub_diag by lia.
  - intros i Hi.
    assert (E : els !! i = v_elems (SendBatchRaw.slots b) !! i).
    { rewrite <- (lookup_take_lt els (S (SendBatchRaw.len b))) by lia.
      rewrite Ht, lookup_app_l by (rewrite length_take; lia). by rewrite lookup_take_lt. }
    unfold SendBatchRaw.entry, oindex; simpl. by rewrite E.
Qed.

(** A batch of capacity 2 holding one datagram. *)
Definition one_entry : SendBatchRaw.t :=
  (SendBatchRaw.push (SendBatchRaw.with_capacity 2) hello (Some (localhost 9000))).2.

Lemma push_then_entry_witness :
  SendBatchRaw.entry (K := sample_kernel []) (SendBatchRaw.push one_entry bytes12 None).2 1 [] =
    Ret ((bytes12, None), []) ∧
  SendBatchRaw.entry (K := sample_kernel []) (SendBatchRaw.push one_entry bytes12 None).2 0 [] =
    Ret ((hello, Some (localhost 9000)), []).
Proof.
  destruct (@push_then_entry exact_alloc linux_le (sample_kernel []) 2 one_entry bytes12 None [])
    as (_ & _ & E1 & E0).
  - repeat split; simpl; lia.
  - simpl; lia.
  - split; [exact E1|]. rewrite (E0 0%nat) by (simpl; lia). reflexivity.
Defined.

(** ** The receive batch *)
Section recv.
Implicit Types (b : RecvBatchRaw.t) (s : RecvSlot).

(** Every buffer has [bs] bytes, every [recv_len] is a [u16] within its buffer, [len] within
    capacity. *)
Definition slot_ok (bs : nat) s : Prop :=
  length (buf s) = bs ∧ 0 ≤ recv_len s ≤ Z.of_nat bs ∧ recv_len s < 2 ^ 16.
Definition recv_wf (bs : nat) b : Prop :=
  Forall (slot_ok bs) (RecvBatchRaw.slots b) ∧ (RecvBatchRaw.len b ≤ RecvBatchRaw.capacity b)%nat.

(** What a user of the batch sees: the first [len] packets. *)
Definition slot_packet s : list Z * SocketAddr := (slot_data s, addr s).
Definition packets b : list (list Z * SocketAddr) :=
  slot_packet <$> take (RecvBatchRaw.len b) (RecvBatchRaw.slots b).

Lemma length_packets bs b : recv_wf bs b → length (packets b) = RecvBatchRaw.len b.
Proof.
  intros [_ Hl]. unfold packets, RecvBatchRaw.capacity in *. rewrite length_fmap, length_take. lia.
Qed.

Lemma update_lookup b i s f : RecvBatchRaw.slots b !! i = Some s →
  RecvBatchRaw.update b i f =
    Ret (RecvBatchRaw.Mk (<[i := f s]> (RecvBatchRaw.slots b)) (RecvBatchRaw.len b)).
Proof. intros Hs. unfold RecvBatchRaw.update. by rewrite (oindex_Ret _ _ _ Hs). Qed.

Lemma update_inv b i f b' : RecvBatchRaw.update b i f = Ret b' →
  ∃ s, RecvBatchRaw.slots b !! i = Some s ∧
       b' = RecvBatchRaw.Mk (<[i := f s]> (RecvBatchRaw.slots b)) (RecvBatchRaw.len b).
Proof.
  unfold RecvBatchRaw.update, oindex. destruct (_ !! i) as [s|]; simpl; [|done].
  intros [= <-]. eauto.
Qed.

Lemma update_capacity b i f b' :
  RecvBatchRaw.update b i f = Ret b' → RecvBatchRaw.capacity b' = RecvBatchRaw.capacity b.
Proof.
  intros (s & _ & ->)%update_inv. unfold RecvBatchRaw.capacity; simpl. apply length_insert.
Qed.

Lemma update_wf bs b i f b' : RecvBatchRaw.update b i f = Ret b' →
  (∀ s, slot_ok bs s → slot_ok bs (f s)) → recv_wf bs b → recv_wf bs b'.
Proof.
  intros Hu Hf [Hall Hlen]. pose proof (update_capacity _ _ _ _ Hu) as Hc.
  apply update_inv in Hu as (s & Hs & ->). split; [|by rewrite Hc].
  apply Forall_insert; [done|]. apply Hf. by eapply Forall_lookup_1.
Qed.

Lemma data_ok bs b i s : slot_ok bs s → RecvBatchRaw.slots b !! i = Some s →
  RecvBatchRaw.data b i = Ret (slot_data s).
Proof.
  intros (Hl & Hr & _) Hs. unfold RecvBatchRaw.data. rewrite (oindex_Ret _ _ _ Hs); simpl.
  by rewrite Hl, (proj2 (Z.leb_le _ _)) by lia.
Qed.

Lemma addr_ret b i s : RecvBatchRaw.slots b !! i = Some s → RecvBatchRaw.addr b i = Ret (addr s).
Proof. intros Hs. unfold RecvBatchRaw.addr. by rewrite (oindex_Ret _ _ _ Hs). Qed.

Lemma with_capacity_recv_wf n bs : recv_wf bs (RecvBatchRaw.with_capacity n bs).
Proof.
  split; [|unfold RecvBatchRaw.capacity; simpl; lia].
  apply Forall_replicate. split_and!; simpl; rewrite ?length_replicate; lia.
Qed.

Lemma clear_wf bs b : recv_wf bs b → recv_wf bs (RecvBatchRaw.clear b).
Proof.
  intros [Hall _]. split; [|unfold RecvBatchRaw.capacity; simpl; lia].
  simpl. apply Forall_fmap. eapply Forall_impl; [|exact Hall].
  intros s (Hl & Hr & _). split_and!; simpl; lia || done.
Qed.

Lemma iter_from_spec {N} bs (b : RecvBatch.t N) i n :
  Forall (slot_ok bs) (RecvBatchRaw.slots (RecvBatch.raw b)) →
  (i + n ≤ RecvBatchRaw.capacity (RecvBatch.raw b))%nat →
  RecvBatch.iter_from b i n =
    Ret (slot_packet <$> take n (drop i (RecvBatchRaw.slots (RecvBatch.raw b)))).
Proof.
  intros Hall. revert i. induction n as [|n IH]; intros i Hle; simpl; [done|].
  unfold RecvBatchRaw.capacity in *.
  destruct (lookup_lt_is_Some_2 (RecvBatchRaw.slots (RecvBatch.raw b)) i) as [s Hs]; [lia|].
  unfold RecvBatch.data, RecvBatch.addr.
  rewrite (data_ok bs _ _ s), (addr_ret _ _ s) by (done || by eapply Forall_lookup_1). simpl.
  rewrite IH by lia. simpl. by rewrite (drop_S _ _ _ Hs).
Qed.

Lemma iter_ok {N} bs (b : RecvBatch.t N) : recv_wf bs (RecvBatch.raw b) →
  RecvBatch.iter b = Ret (packets (RecvBatch.raw b)).
Proof. intros [Hall Hlen]. unfold RecvBatch.iter, RecvBatch.len, packets. by rewrite (iter_from_spec bs). Qed.
End recv.

(** [RecvBatch::iter] yields exactly the first [len] packets, payload and source, and panics on
    no index. *)
Theorem iter_packets {N} bs (b : RecvBatch.t N) :
  recv_wf bs (RecvBatch.raw b) →
  RecvBatch.iter b = Ret (packets (RecvBatch.raw b)) ∧
  length (packets (RecvBatch.raw b)) = RecvBatch.len b.
Proof.
  intros Hwf. split; [by eapply iter_ok|by eapply length_packets].
Qed.

(** A batch of two slots with one received packet. *)
Definition one_packet : RecvBatchRaw.t :=
  RecvBatchRaw.Mk
    [MkRecvSlot [104; 105; 0; 0] (localhost 9000) 2 None None;
     MkRecvSlot [0; 0; 0; 0] unspecified 0 None None] 1.

Lemma one_packet_wf : recv_wf 4 one_packet.
Proof.
  split; [|unfold RecvBatchRaw.capacity; simpl; lia].
  repeat constructor; simpl; lia.
Qed.

Lemma iter_packets_witness :
  RecvBatch.iter (@RecvBatch.Mk 2 one_packet) = Ret [([104; 105], localhost 9000)].
Proof. exact (proj1 (iter_packets 4 (@RecvBatch.Mk 2 one_packet) one_packet_wf)). Defined.

(** Lengths are stored in 16 bits. Recording [n] received bytes for a slot of a well-formed batch
    makes [data] return the first [n mod 2^16] bytes of the buffer: all of them for every datagram
    below 64 KiB, and a truncated payload for a longer one. *)
Theorem set_recv_len_data bs b i n :
  recv_wf bs b → (i < RecvBatchRaw.capacity b)%nat → 0 ≤ n ≤ Z.of_nat bs →
  ∃ b' bytes, RecvBatchRaw.set_recv_len b i n = Ret b' ∧ recv_wf bs b' ∧
    RecvBatchRaw.buffer b i = Ret bytes ∧
    RecvBatchRaw.data b' i = Ret (take (Z.to_nat (n mod 2 ^ 16)) bytes).
Proof.
  intros Hwf Hi Hn. pose proof Hwf as [Hall _].
  destruct (lookup_lt_is_Some_2 (RecvBatchRaw.slots b) i Hi) as [s Hs].
  pose proof (Forall_lookup_1 _ _ _ _ Hall Hs) as Hok.
  pose proof (as_u16_range n) as Hr. pose proof (Z.mod_le n (2 ^ 16)) as Hm.
  assert (Hset : ∀ s, slot_ok bs s → slot_ok bs (set_slot_recv_len s (as_u16 n))).
  { intros s' (Hl & _ & _). unfold as_u16 in *. split_and!; simpl; try done; lia. }
  pose proof (update_lookup b i s (λ s, set_slot_recv_len s (as_u16 n)) Hs) as Hu.
  eexists _, (buf s). split_and!; [exact Hu| | |].
  - eapply update_wf; [exact Hu|exact Hset|done].
  - unfold RecvBatchRaw.buffer. by rewrite (oindex_Ret _ _ _ Hs).
  - rewrite (data_ok bs _ _ (set_slot_recv_len s (as_u16 n))); [done|by apply Hset|].
    simpl. by apply list_lookup_insert_eq.
Qed.

Lemma set_recv_len_data_witness :
  ∃ b' bytes, RecvBatchRaw.set_recv_len one_packet 0 3 = Ret b' ∧ recv_wf 4 b' ∧
    RecvBatchRaw.buffer one_packet 0 = Ret bytes ∧
    RecvBatchRaw.data b' 0 = Ret (take 3 bytes).
Proof. apply (set_recv_len_data 4 one_packet 0 3 one_packet_wf); [vm_compute; lia|lia]. Defined.

(** [clear] empties every slot a receive may have filled: the length is 0, every payload is empty,
    no timestamp or destination survives, and the buffers and the capacity are kept. *)
Theorem clear_resets bs b : recv_wf bs b →
  let c := RecvBatchRaw.clear b in
  RecvBatchRaw.len c = 0%nat ∧ RecvBatchRaw.capacity c = RecvBatchRaw.capacity b ∧ recv_wf bs c ∧
  ∀ i, (i < RecvBatchRaw.capacity b)%nat →
    RecvBatchRaw.data c i = Ret [] ∧ RecvBatchRaw.timestamp c i = Ret None ∧
    RecvBatchRaw.dst_addr c i = Ret None ∧ RecvBatchRaw.buffer c i = RecvBatchRaw.buffer b i.
Proof.
  intros Hwf c. pose proof (clear_wf bs b Hwf) as Hwfc. split_and!; [done| |done|].
  - unfold c, RecvBatchRaw.capacity; simpl. apply length_fmap.
  - intros i [s Hs]%lookup_lt_is_Some.
    assert (Hc : RecvBatchRaw.slots c !! i = Some (MkRecvSlot (buf s) (addr s) 0 None None))
      by (unfold c; simpl; by rewrite list_lookup_fmap, Hs).
    pose proof (Forall_lookup_1 _ _ _ _ (proj1 Hwfc) Hc) as Hok.
    rewrite (data_ok bs _ _ _ Hok Hc).
    unfold RecvBatchRaw.timestamp, RecvBatchRaw.dst_addr, RecvBatchRaw.buffer.
    by rewrite !(oindex_Ret _ _ _ Hc), (oindex_Ret _ _ _ Hs).
Qed.

Lemma clear_resets_witness :
  RecvBatchRaw.data (RecvBatchRaw.clear one_packet) 0 = Ret [].
Proof.
  destruct (clear_resets 4 one_packet one_packet_wf) as (_ & _ & _ & Hi).
  apply (Hi 0%nat). vm_compute. lia.
Defined.

(** A kernel timestamp (seconds from 0, nanoseconds below 10^9) converts to the duration with the
    same seconds and nanoseconds; the conversion of any [i64] pair panics exactly when the carried
    seconds do not fit in 64 bits. *)
Theorem as_duration_spec ts :
  (0 ≤ tv_sec ts < 2 ^ 63 → 0 ≤ tv_nsec ts < 1000000000 →
     as_duration ts = Ret (tv_sec ts, tv_nsec ts)) ∧
  (as_duration ts = Panic ↔ 2 ^ 64 ≤ as_u64 (tv_sec ts) + as_u32 (tv_nsec ts) / 1000000000).
Proof.
  unfold as_duration, Duration_new. split.
  - intros Hs Hn. rewrite as_u64_small, as_u32_small by lia.
    by rewrite (proj2 (Z.ltb_lt _ _)) by lia.
  - pose proof (Z.mod_pos_bound (tv_sec ts) (2 ^ 64)) as Hs. unfold as_u64 in *.
    destruct (Z.ltb_spec (as_u32 (tv_nsec ts)) 1000000000) as [Hn|Hn].
    + split; [done|]. pose proof (Z.mod_pos_bound (tv_nsec ts) (2 ^ 32)) as Hr.
      rewrite Z.div_small by (unfold as_u32 in *; lia). lia.
    + case_match eqn:E; reflect_bools; split; try done; lia.
Qed.
