(* ===== verification/Backend.v ===== *)
(** * The platform interface (src/platform/mod.rs)

    Every backend exports [try_send_batch] and [try_recv_batch]. [Backend] is that interface as the
    socket layer uses it, [BackendLaws] what a backend promises: a send hands the kernel a prefix of
    the batch, in order, each datagram once, and reports its length, and a send that fails with
    [WouldBlock] has sent nothing; a receive keeps the batch
    well-formed and reports how many slots it filled. *)
From S2P Require Import Prelude Libc Sockaddr Batch.
#[local] Open Scope Z_scope.

(** The compile-time configuration: target and cargo features. *)
Inductive target_os := os_linux | os_macos | os_windows | os_other.
Record features := MkFeatures
  { f_tokio : bool; f_gso : bool; f_gro : bool; f_busy_poll : bool; f_pacing : bool;
    f_metrics : bool; f_timestamping : bool; f_pktinfo : bool; f_miri_safe : bool }.

(** The backend [platform/mod.rs] selects. *)
Inductive backend_id := imp_linux | imp_macos | imp_windows | imp_fallback.
Definition imp (os : target_os) (F : features) : backend_id :=
  if f_miri_safe F then imp_fallback
  else match os with
       | os_linux => imp_linux
       | os_macos => imp_macos
       | os_windows => imp_windows
       | os_other => imp_fallback
       end.

Class Backend {L : Libc} {K : Kernel} := {
  try_send_batch : Fd → SendBatchRaw.t → IO (io_result nat);
  try_recv_batch : Fd → RecvBatchRaw.t → IO (io_result nat * RecvBatchRaw.t);
  (** batches whose datagrams the backend addresses correctly *)
  send_supported : SendBatchRaw.t → Prop;
}.

(** ** What the kernel accepted *)
Section accepted.
Context {L : Libc} {K : Kernel}.

(** The datagrams the kernel took in one call. *)
Definition accepted (ev : event) : list wire_msg :=
  match ev with
  | EvSend _ data ret => if 0 <=? ret then [MkWire data None] else []
  | EvSendto _ data name namelen ret => if 0 <=? ret then [MkWire data (Some (name, namelen))] else []
  | EvWSASendMsg _ msg rc => if rc =? 0 then [msg] else []
  | EvSendmmsg _ msgs ret | EvSendmsgX _ msgs ret => take (Z.to_nat ret) msgs
  | _ => []
  end.
Definition accepted_all (evs : list event) : list wire_msg := concat (accepted <$> evs).

(** The datagram of a batch entry: payload [bs] and, unless the socket is connected
    ([strip]), the encoded destination. *)
Definition name_of (a : SocketAddr) : storage * Z :=
  let '(len, st) := encode_sockaddr a storage_zeroed in (st, len).
Definition wire_of (strip : bool) (a : option SocketAddr) (bs : list Z) : wire_msg :=
  MkWire bs (if strip then None else name_of <$> a).
Definition wires (strip : bool) (b : SendBatchRaw.t) (bss : list (list Z)) : list wire_msg :=
  zip_with (λ e bs, wire_of strip e.2 bs) (contents b) bss.

(** The caller keeps the buffers of the batch alive and unchanged: [bss] are their bytes. *)
Definition payloads (h : history) (b : SendBatchRaw.t) (bss : list (list Z)) : Prop :=
  Forall2 (λ e bs, stable_from h e.1 bs) (contents b) bss.

(** The outcome of a send, as a relation between the history before and after. *)
Definition send_post (b : SendBatchRaw.t) (bss : list (list Z)) (h : history)
    (r : io_result nat) (h' : history) : Prop :=
  ∃ evs strip, h' = h ++ evs ∧
    match r with
    | Ok n => (n ≤ SendBatchRaw.len b)%nat ∧ accepted_all evs = take n (wires strip b bss)
    | Err e => ∃ k, (k < SendBatchRaw.len b)%nat ∧ accepted_all evs = take k (wires strip b bss) ∧
                    (kind e = WouldBlock → k = 0%nat)
    end.

(** The outcome of a receive. *)
Definition recv_post (bs : nat) (b : RecvBatchRaw.t) (h : history)
    (rb : io_result nat * RecvBatchRaw.t) (h' : history) : Prop :=
  (∃ evs, h' = h ++ evs) ∧ recv_wf bs rb.2 ∧
  RecvBatchRaw.capacity rb.2 = RecvBatchRaw.capacity b ∧
  match rb.1 with
  | Ok n => (n ≤ RecvBatchRaw.capacity b)%nat ∧ ((0 < n)%nat → RecvBatchRaw.len rb.2 = n)
  | Err _ => True
  end.

Lemma accepted_all_app e1 e2 : accepted_all (e1 ++ e2) = accepted_all e1 ++ accepted_all e2.
Proof. unfold accepted_all. by rewrite fmap_app, concat_app. Qed.

Lemma accepted_all_cons e es : accepted_all (e :: es) = accepted e ++ accepted_all es.
Proof. done. Qed.

Lemma length_payloads cap h b bss :
  send_wf cap b → payloads h b bss → length bss = SendBatchRaw.len b.
Proof. intros Hwf Hp. by rewrite <- (Forall2_length Hp), (length_contents cap). Qed.

Lemma length_wires cap h strip b bss :
  send_wf cap b → payloads h b bss → length (wires strip b bss) = SendBatchRaw.len b.
Proof.
  intros Hwf Hp. unfold wires.
  rewrite length_zip_with, (length_payloads cap h b bss), (length_contents cap) by done. lia.
Qed.

Lemma stable_from_app h evs s bs : stable_from h s bs → stable_from (h ++ evs) s bs.
Proof. intros Hs evs'. rewrite <- (assoc_L (++)). apply Hs. Qed.

Lemma stable_from_now h s bs : stable_from h s bs → slice_bytes (k_mem h) s = Some bs.
Proof. intros Hs. specialize (Hs []). by rewrite app_nil_r in Hs. Qed.

Lemma payloads_app h evs b bss : payloads h b bss → payloads (h ++ evs) b bss.
Proof.
  intros Hp. eapply Forall2_impl; [|exact Hp]. intros [d a] bs. apply stable_from_app.
Qed.

Lemma wires_lookup cap h strip b bss i : send_wf cap b → payloads h b bss →
  (i < SendBatchRaw.len b)%nat →
  ∃ d a bs, contents b !! i = Some (d, a) ∧ bss !! i = Some bs ∧ stable_from h d bs ∧
            wires strip b bss !! i = Some (wire_of strip a bs).
Proof.
  intros Hwf Hp Hi.
  destruct (lookup_lt_is_Some_2 (contents b) i) as [[d a] Hda];
    [by rewrite (length_contents cap)|].
  destruct (Forall2_lookup_l _ _ _ _ _ Hp Hda) as (bs & Hbs & Hs).
  exists d, a, bs. split_and!; try done. unfold wires. apply lookup_zip_with_Some.
  by exists (d, a), bs.
Qed.
End accepted.

Class BackendLaws {L : Libc} {K : Kernel} {B : Backend} : Prop := {
  send_prefix : ∀ cap b bss fd h, send_wf cap b → payloads h b bss → send_supported b →
    wp (try_send_batch fd b) (send_post b bss h) h;
  recv_keeps : ∀ bs b fd h, recv_wf bs b →
    wp (try_recv_batch fd b) (recv_post bs b h) h;
}.
