(* ===== verification/Fallback.v ===== *)
(** * The portable backend (src/platform/fallback.rs)

    One [sendto] / [send] or [recvfrom] per datagram. *)
From S2P Require Import Prelude Libc UnixAbi Sockaddr Batch Backend.
#[local] Open Scope Z_scope.

Section fallback.
Context {L : Libc} {K : Kernel}.

(** The system call for one entry. *)
Definition send_one (fd : Fd) (connected : bool) (data : slice) (a : option SocketAddr)
    : IO (io_result Z) :=
  match connected, a with
  | true, _ | _, None => raw_send fd data
  | _, Some a => raw_sendto fd data a
  end.

(** [for i in 0..len { ... }] with [n] iterations left. *)
Fixpoint send_loop (fd : Fd) (b : SendBatchRaw.t) (connected : bool) (n i sent : nat)
    : IO (io_result nat) :=
  match n with
  | O => mret (Ok sent)
  | S n =>
      let! '(data, a) := SendBatchRaw.entry b i in
      let! r := send_one fd connected data a in
      match r with
      | Ok _ => send_loop fd b connected n (S i) (S sent)
      | Err e => if is_would_block e then mret (Ok sent) else mret (Err e)
      end
  end.

Definition fallback_try_send_batch (fd : Fd) (b : SendBatchRaw.t) : IO (io_result nat) :=
  let len := SendBatchRaw.len b in
  if (len =? 0)%nat then mret (Ok 0%nat)
  else
    let! connected := is_connected fd in
    send_loop fd b connected len 0 0.

(** [for i in 0..capacity { ... }] with [n] iterations left, over the call that receives one
    datagram. *)
Fixpoint recv_each (recv_one : Fd → list Z → IO (io_result (Z * SocketAddr) * list Z))
    (fd : Fd) (b : RecvBatchRaw.t) (n i received : nat) : IO (io_result nat * RecvBatchRaw.t) :=
  match n with
  | O => mret (Ok received, b)
  | S n =>
      let! buf := lift (RecvBatchRaw.buffer b i) in
      let! '(r, buf) := recv_one fd buf in
      let! b := lift (RecvBatchRaw.set_buffer b i buf) in
      match r with
      | Ok (m, a) =>
          let! b := lift (RecvBatchRaw.set_recv_len b i m) in
          let! b := lift (RecvBatchRaw.set_addr b i a) in
          recv_each recv_one fd (RecvBatchRaw.set_len b (S i)) n (S i) (S received)
      | Err e => if is_would_block e then mret (Ok received, b) else mret (Err e, b)
      end
  end.

Definition recv_loop (fd : Fd) (b : RecvBatchRaw.t) (n i received : nat)
    : IO (io_result nat * RecvBatchRaw.t) :=
  recv_each raw_recvfrom fd b n i received.

Definition fallback_try_recv_batch (fd : Fd) (b : RecvBatchRaw.t)
    : IO (io_result nat * RecvBatchRaw.t) :=
  recv_loop fd b (RecvBatchRaw.capacity b) 0 0.

#[export] Instance fallback_backend : Backend := {|
  try_send_batch := fallback_try_send_batch;
  try_recv_batch := fallback_try_recv_batch;
  send_supported _ := True;
|}.

(** ** Sending *)

(** One call offers exactly the entry's datagram to the kernel. *)
Lemma send_one_spec fd conn d a bs h :
  stable_from h d bs →
  wp (send_one fd conn d a)
    (λ r h', ∃ ev, h' = h ++ [ev] ∧
       match r with
       | Ok _ => accepted ev = [wire_of conn a bs]
       | Err e => accepted ev = [] ∧ e = OsError (k_errno h')
       end) h.
Proof.
  intros Hs%stable_from_now. unfold send_one, raw_send, raw_sendto, wp, mbind, read_slice.
  destruct conn; [|destruct a as [a|]]; unfold wire_of, name_of; simpl.
  1, 3: rewrite Hs; unfold sys_send; simpl; destruct (0 <=? k_send h fd bs) eqn:E; simpl;
    eexists; split; try done; simpl; by rewrite E.
  destruct (encode_sockaddr a storage_zeroed) as [len st] eqn:Ea; simpl. rewrite Hs.
  unfold sys_sendto; simpl. destruct (0 <=? k_sendto h fd bs st len) eqn:E; simpl;
    eexists; split; try done; simpl; by rewrite E.
Qed.

(** From entry [i] on, the loop offers the remaining entries in order until one is refused. *)
Lemma send_loop_spec fd cap b bss conn n i h :
  send_wf cap b → payloads h b bss → (i + n = SendBatchRaw.len b)%nat →
  wp (send_loop fd b conn n i i)
    (λ r h', ∃ evs m, h' = h ++ evs ∧ (m ≤ n)%nat ∧
       accepted_all evs = take m (drop i (wires conn b bss)) ∧
       match r with
       | Ok s => s = (i + m)%nat ∧ ((m < n)%nat → kind (OsError (k_errno h')) = WouldBlock)
       | Err e => (m < n)%nat ∧ e = OsError (k_errno h') ∧ kind e ≠ WouldBlock
       end) h.
Proof.
  intros Hwf. revert i h. induction n as [|n IH]; intros i h Hp Hn; cbn [send_loop].
  { apply wp_ret. exists [], 0%nat. rewrite app_nil_r. split_and!; try done; lia. }
  destruct (wires_lookup cap h conn b bss i Hwf Hp) as (d & a & bs & Hc & Hbs & Hst & Hw); [lia|].
  apply wp_bind. eapply wp_intro;
    [by apply (entry_contents cap b i h d a bs Hwf Hc), stable_from_now|].
  apply wp_bind. eapply wp_mono; [by apply (send_one_spec fd conn d a bs)|].
  intros [ret|e] h1 (ev & -> & Hev); simpl.
  - eapply wp_mono; [apply IH; [by apply payloads_app|lia]|].
    intros r h' (evs & m & -> & Hm & Hacc & Hr). exists (ev :: evs), (S m).
    rewrite <- (assoc_L (++)) in *. split_and!; [done|lia| |].
    + rewrite accepted_all_cons, Hev, Hacc. rewrite (drop_S _ _ _ Hw). done.
    + destruct r; [|destruct Hr; split; [lia|done]].
      destruct Hr as [-> Hwb]. split; [lia|]. intros. apply Hwb. lia.
  - destruct Hev as [Hev ->]. unfold is_would_block. case_bool_decide as Hk; apply wp_ret;
      exists [ev], 0%nat; rewrite accepted_all_cons, Hev; split_and!; done || lia.
Qed.

(** ** Receiving *)

(** The packets that system calls delivered, given the one each call delivers. *)
Implicit Types packet : event → option (list Z * SocketAddr).
Definition received packet (evs : list event) : list (list Z * SocketAddr) := omap packet evs.

Lemma received_app packet e1 e2 : received packet (e1 ++ e2) = received packet e1 ++ received packet e2.
Proof. apply omap_app. Qed.

(** What the loop needs of the call: it writes the datagram [d] to the front of the buffer and
    returns its length and source, or fails with [errno]. *)
Definition one_ok packet (one : Fd → list Z → IO (io_result (Z * SocketAddr) * list Z)) : Prop :=
  ∀ fd bf h, wp (one fd bf)
    (λ rb h', ∃ evs d, h' = h ++ evs ∧ rb.2 = blit d bf ∧
       match rb.1 with
       | Ok (m, a) => m = Z.of_nat (length d) ∧ (length d ≤ length bf)%nat ∧ m < 2 ^ 16 ∧
                      received packet evs = [(d, a)]
       | Err e => e = OsError (k_errno h') ∧ received packet evs = []
       end) h.

Definition fill_slot (s : RecvSlot) (d : list Z) (a : SocketAddr) : RecvSlot :=
  MkRecvSlot (blit d (buf s)) a (as_u16 (Z.of_nat (length d))) (timestamp s) (dst_addr s).

Lemma fill_slot_ok bs s d a : slot_ok bs s → (length d ≤ length (buf s))%nat →
  Z.of_nat (length d) < 2 ^ 16 →
  slot_ok bs (fill_slot s d a) ∧ slot_packet (fill_slot s d a) = (d, a).
Proof.
  intros (Hl & Hr & Hu) Hfit Hudp. unfold slot_ok, slot_packet, slot_data; simpl.
  rewrite as_u16_small, Nat2Z.id, length_blit, take_blit by lia. split_and!; done || lia.
Qed.

Lemma set_buffer_ok bs s d : slot_ok bs s → slot_ok bs (set_slot_buf s (blit d (buf s))).
Proof. intros (Hl & Hr & Hu). split_and!; simpl; rewrite ?length_blit; lia. Qed.

(** Storing a received datagram in slot [i]. *)
Lemma store_packet b i s d a (k : RecvBatchRaw.t → IO (io_result nat * RecvBatchRaw.t)) Q h :
  let b1 := RecvBatchRaw.Mk (<[i := set_slot_buf s (blit d (buf s))]> (RecvBatchRaw.slots b))
              (RecvBatchRaw.len b) in
  RecvBatchRaw.slots b !! i = Some s →
  wp (k (RecvBatchRaw.Mk (<[i := fill_slot s d a]> (RecvBatchRaw.slots b)) (RecvBatchRaw.len b))) Q h →
  wp (let! b := lift (RecvBatchRaw.set_recv_len b1 i (Z.of_nat (length d))) in
      let! b := lift (RecvBatchRaw.set_addr b i a) in k b) Q h.
Proof.
  intros b1 Hs Hk. pose proof (lookup_lt_Some _ _ _ Hs) as Hi.
  apply wp_bind. eapply wp_lift.
  { apply update_lookup. simpl. by apply list_lookup_insert_eq. }
  apply wp_bind. eapply wp_lift.
  { apply update_lookup. simpl. rewrite list_lookup_insert_eq; [done|]. by rewrite length_insert. }
  simpl. by rewrite !list_insert_insert_eq.
Qed.

(** What the loop guarantees from slot [i] on: slots [0..i) are kept, the following ones hold the
    packets in the order in which they arrived. *)
Definition each_post packet bs b (n i : nat) h (rb : io_result nat * RecvBatchRaw.t) h' : Prop :=
  ∃ evs m, h' = h ++ evs ∧ length (received packet evs) = m ∧ (m ≤ n)%nat ∧
    recv_wf bs rb.2 ∧ RecvBatchRaw.capacity rb.2 = RecvBatchRaw.capacity b ∧
    take i (RecvBatchRaw.slots rb.2) = take i (RecvBatchRaw.slots b) ∧
    slot_packet <$> take m (drop i (RecvBatchRaw.slots rb.2)) = received packet evs ∧
    RecvBatchRaw.len rb.2 = (if (m =? 0)%nat then RecvBatchRaw.len b else i + m)%nat ∧
    match rb.1 with
    | Ok s => s = (i + m)%nat ∧ ((m < n)%nat → kind (OsError (k_errno h')) = WouldBlock)
    | Err e => (m < n)%nat ∧ e = OsError (k_errno h') ∧ kind e ≠ WouldBlock
    end.

(** One more packet in front. *)
Lemma each_post_cons packet bs b n i h s d a evs1 rb h' :
  RecvBatchRaw.slots b !! i = Some s → slot_packet (fill_slot s d a) = (d, a) →
  received packet evs1 = [(d, a)] →
  each_post packet bs (RecvBatchRaw.Mk (<[i := fill_slot s d a]> (RecvBatchRaw.slots b)) (S i))
    n (S i) (h ++ evs1) rb h' →
  each_post packet bs b (S n) i h rb h'.
Proof.
  intros Hs Hpk Hev (evs & m & -> & Hm & Hle & Hwf & Hcap & Hpre & Hpks & Hlen & Hr).
  destruct rb as [r b']. unfold RecvBatchRaw.capacity in *. simpl in *. rewrite length_insert in Hcap.
  pose proof (lookup_lt_Some _ _ _ Hs) as Hi.
  assert (Hi' : RecvBatchRaw.slots b' !! i = Some (fill_slot s d a)).
  { rewrite <- (lookup_take_lt _ (S i)), Hpre, lookup_take_lt by lia. by apply list_lookup_insert_eq. }
  exists (evs1 ++ evs), (S m). rewrite (assoc_L (++)), received_app, Hev.
  unfold RecvBatchRaw.capacity; simpl. split_and!; try done; try lia.
  - transitivity (take i (take (S i) (RecvBatchRaw.slots b'))).
    { rewrite take_take. by rewrite Nat.min_l by lia. }
    rewrite Hpre, take_take, Nat.min_l by lia. by rewrite take_insert_ge.
  - rewrite (drop_S _ _ _ Hi'), firstn_cons, fmap_cons, Hpk. by f_equal.
  - rewrite Hlen. destruct (Nat.eqb_spec m 0); lia.
  - destruct r; [|destruct Hr; split; [lia|done]].
    destruct Hr as [-> Hwb]. split; [lia|]. intros. apply Hwb. lia.
Qed.

Lemma recv_each_spec packet one fd bs b n i h :
  one_ok packet one → recv_wf bs b → (i + n = RecvBatchRaw.capacity b)%nat →
  wp (recv_each one fd b n i i) (each_post packet bs b n i h) h.
Proof.
  intros Hone. revert b i h. induction n as [|n IH]; intros b i h Hwf Hn; cbn [recv_each].
  { apply wp_ret. exists [], 0%nat. rewrite app_nil_r, take_0. split_and!; try done; simpl; lia. }
  pose proof Hwf as [Hall Hlen]. unfold RecvBatchRaw.capacity in Hn, Hlen.
  destruct (lookup_lt_is_Some_2 (RecvBatchRaw.slots b) i) as [s Hs]; [lia|].
  pose proof (Forall_lookup_1 _ _ _ _ Hall Hs) as Hok.
  apply wp_bind. eapply wp_lift; [unfold RecvBatchRaw.buffer; by rewrite (oindex_Ret _ _ _ Hs)|].
  apply wp_bind. eapply wp_mono; [apply Hone|].
  intros [r bf] h1 (evs1 & d & -> & Hbf & Hr). simpl in Hbf, Hr. subst bf.
  apply wp_bind. eapply wp_lift; [by apply update_lookup|].
  destruct r as [[m a]|e].
  - destruct Hr as (-> & Hfit & Hudp & Hev).
    destruct (fill_slot_ok bs s d a Hok Hfit Hudp) as [Hok' Hpk].
    apply (store_packet b i s d a); [done|]. unfold RecvBatchRaw.set_len; simpl.
    eapply wp_mono; [apply IH|].
    + split; [by apply Forall_insert|]. unfold RecvBatchRaw.capacity; simpl. rewrite length_insert. lia.
    + unfold RecvBatchRaw.capacity; simpl. rewrite length_insert. lia.
    + intros rb h'. by apply each_post_cons.
  - destruct Hr as [-> Hev].
    assert (Hwf' : recv_wf bs (RecvBatchRaw.Mk (<[i := set_slot_buf s (blit d (buf s))]>
                                 (RecvBatchRaw.slots b)) (RecvBatchRaw.len b))).
    { split; [by apply Forall_insert; [|apply set_buffer_ok]|].
      unfold RecvBatchRaw.capacity; simpl. rewrite length_insert. lia. }
    unfold is_would_block. case_bool_decide as Hk; apply wp_ret; exists evs1, 0%nat;
      unfold RecvBatchRaw.capacity; rewrite Hev; simpl; rewrite length_insert, take_insert_ge by lia;
      split_and!; done || lia.
Qed.

(** The packet a [recvfrom] delivered. *)
Definition recvfrom_packet (ev : event) : option (list Z * SocketAddr) :=
  match ev with
  | EvRecvfrom _ _ o =>
      if 0 <=? ro_ret o then Some (ro_data o, decode_sockaddr (ro_name o) (ro_namelen o)) else None
  | _ => None
  end.

Context {KL : KernelLaws}.

Lemma raw_recvfrom_ok : one_ok recvfrom_packet raw_recvfrom.
Proof.
  intros fd bf h. unfold raw_recvfrom. apply wp_bind. eapply wp_intro; [done|].
  set (o := k_recvfrom h fd (length bf)).
  destruct (0 <=? ro_ret o) eqn:Hret; [|apply wp_bind; eapply wp_intro; [done|]];
    apply wp_ret; do 2 eexists; split; try done; split; try done; simpl; rewrite Hret; [|done].
  reflect_bools. pose proof (recvfrom_len h fd (length bf) Hret) as Hlen. fold o in Hlen.
  pose proof (recvfrom_udp h fd (length bf)) as Hudp. fold o in Hudp.
  split_and!; [done|apply recvfrom_fits|lia|done].
Qed.

Lemma recv_loop_spec fd bs b n i h :
  recv_wf bs b → (i + n = RecvBatchRaw.capacity b)%nat →
  wp (recv_loop fd b n i i) (each_post recvfrom_packet bs b n i h) h.
Proof. apply recv_each_spec, raw_recvfrom_ok. Qed.

Lemma fallback_send_spec fd cap b bss h :
  send_wf cap b → payloads h b bss → SendBatchRaw.len b ≠ 0%nat →
  wp (fallback_try_send_batch fd b)
    (λ r h', ∃ evs m, h' = h ++ evs ∧ (m ≤ SendBatchRaw.len b)%nat ∧
       accepted_all evs = take m (wires (k_getpeername h fd =? 0) b bss) ∧
       match r with
       | Ok s => s = m ∧ ((m < SendBatchRaw.len b)%nat → kind (OsError (k_errno h')) = WouldBlock)
       | Err e => (m < SendBatchRaw.len b)%nat ∧ e = OsError (k_errno h') ∧ kind e ≠ WouldBlock
       end) h.
Proof.
  intros Hwf Hp Hne. unfold fallback_try_send_batch.
  rewrite (proj2 (Nat.eqb_neq _ _) Hne).
  apply wp_bind. unfold is_connected. apply wp_bind. eapply wp_intro; [done|]. apply wp_ret.
  eapply wp_mono; [by apply (send_loop_spec fd cap b bss _ _ 0); [|apply payloads_app|]|].
  intros r h' (evs & m & -> & Hm & Hacc & Hr). rewrite drop_0 in Hacc.
  rewrite <- (assoc_L (++)) in *. eexists _, m. split; [done|].
  rewrite accepted_all_app; simpl. by split_and!.
Qed.
End fallback.

#[export] Instance fallback_laws {L : Libc} {K : Kernel} {KL : KernelLaws} :
  @BackendLaws L K fallback_backend.
Proof.
  split.
  - intros cap b bss fd h Hwf Hp _; simpl.
    destruct (decide (SendBatchRaw.len b = 0%nat)) as [E|E].
    + unfold fallback_try_send_batch. rewrite E. apply wp_ret. exists [], false.
      rewrite app_nil_r. split; [done|]. split; [lia|by rewrite take_0].
    + eapply wp_mono; [by apply (fallback_send_spec fd cap b bss)|].
      intros r h' (evs & m & -> & Hm & Hacc & Hr). eexists evs, _. split; [done|].
      destruct r as [n|e].
      * destruct Hr as [-> _]. eauto.
      * destruct Hr as (? & _ & ?). by exists m.
  - intros bs b fd h Hwf; simpl. eapply wp_mono; [by apply recv_loop_spec|].
    intros [r b'] h' (evs & m & -> & Hm & Hle & Hwf2 & Hcap & _ & _ & Hlen' & Hr); simpl in *.
    split_and!; [by eexists|done|done|]. destruct r as [n|]; simpl; [|done].
    destruct Hr as [-> _]. split; [lia|]. intros. destruct (Nat.eqb_spec m 0); lia.
Qed.

(** C7: the portable send is correct on every branch. The kernel accepts a prefix of the batch, in
    order, each datagram once, with its destination unless the socket is connected. [Ok n] means
    that exactly the first [n] were accepted, and that the next one was refused with [WouldBlock]
    when [n] is less than the batch length; [Err e] means that [e], not a [WouldBlock], refused
    some datagram, after the ones before it had been accepted. *)
Theorem fallback_send_correct {L : Libc} {K : Kernel} fd cap b bss h :
  send_wf cap b → payloads h b bss → SendBatchRaw.len b ≠ 0%nat →
  ∃ r evs m, fallback_try_send_batch fd b h = Ret (r, h ++ evs) ∧
    accepted_all evs = take m (wires (k_getpeername h fd =? 0) b bss) ∧
    match r with
    | Ok n => n = m ∧ (n ≤ SendBatchRaw.len b)%nat ∧
              ((n < SendBatchRaw.len b)%nat → kind (OsError (k_errno (h ++ evs))) = WouldBlock)
    | Err e => (m < SendBatchRaw.len b)%nat ∧ e = OsError (k_errno (h ++ evs)) ∧ kind e ≠ WouldBlock
    end.
Proof.
  intros Hwf Hp Hne.
  destruct (wp_elim _ _ _ (fallback_send_spec fd cap b bss h Hwf Hp Hne))
    as (r & h' & Hr & evs & m & -> & Hm & Hacc & Hpost).
  exists r, evs, m. split_and!; [done|done|]. destruct r; [|done]. destruct Hpost as [-> ?]. done.
Qed.

(** The batch of [one_entry] with a second, unaddressed datagram. *)
Definition two_entries : SendBatchRaw.t := (SendBatchRaw.push one_entry bytes12 None).2.

Lemma two_entries_wf : send_wf 2 two_entries.
Proof. repeat split; simpl; lia. Qed.

Lemma two_entries_payloads script h :
  payloads (K := sample_kernel script) h two_entries [[104; 101; 108; 108; 111]; [1; 2]].
Proof. repeat constructor. Qed.

(** An unconnected socket that takes the first datagram and then blocks. *)
Definition blocking_kernel : @Kernel linux_le := sample_kernel [ARet (-1) 107; ARet 5 0; ARet (-1) 11].

Lemma fallback_send_correct_witness :
  ∃ r evs m, fallback_try_send_batch (K := blocking_kernel) 3 two_entries [] = Ret (r, [] ++ evs) ∧
    r = Ok 1%nat ∧
    accepted_all evs = take m (wires false two_entries [[104; 101; 108; 108; 111]; [1; 2]]).
Proof.
  destruct (@fallback_send_correct linux_le blocking_kernel 3 2 two_entries
              [[104; 101; 108; 108; 111]; [1; 2]] [])
    as (r & evs & m & Hr & Hacc & _).
  - apply two_entries_wf.
  - apply two_entries_payloads.
  - done.
  - exists r, evs, m. split_and!; [exact Hr| |exact Hacc].
    apply (f_equal ret_val) in Hr. vm_compute in Hr. congruence.
Defined.

(** C8: the portable receive is correct. It never panics; slot [j] ends with the payload and the source of
    the [j]-th datagram [recvfrom] delivered during the call; [Ok n] reports their number, stopping
    early only on [WouldBlock], and the batch length is [n] unless nothing arrived, when it keeps
    the value it had before the call. *)
Theorem fallback_recv_correct {L : Libc} {K : Kernel} {KL : KernelLaws} fd bs b h :
  recv_wf bs b →
  ∃ r b' evs, fallback_try_recv_batch fd b h = Ret ((r, b'), h ++ evs) ∧
    recv_wf bs b' ∧ RecvBatchRaw.capacity b' = RecvBatchRaw.capacity b ∧
    let ps := received recvfrom_packet evs in
    slot_packet <$> take (length ps) (RecvBatchRaw.slots b') = ps ∧
    RecvBatchRaw.len b' = (if (length ps =? 0)%nat then RecvBatchRaw.len b else length ps) ∧
    match r with
    | Ok n => n = length ps ∧ (n ≤ RecvBatchRaw.capacity b)%nat ∧
              ((n < RecvBatchRaw.capacity b)%nat → kind (OsError (k_errno (h ++ evs))) = WouldBlock)
    | Err e => e = OsError (k_errno (h ++ evs)) ∧ kind e ≠ WouldBlock
    end.
Proof.
  intros Hwf.
  destruct (wp_elim _ _ _ (recv_loop_spec fd bs b (RecvBatchRaw.capacity b) 0 h Hwf eq_refl))
    as ([r b'] & h' & Hr & evs & m & -> & Hm & Hle & Hwf2 & Hcap & _ & Hpk & Hlen & Hpost).
  subst m. exists r, b', evs. rewrite drop_0 in Hpk. split_and!; try done.
  destruct r; [|by destruct Hpost as (_ & ? & ?)]. by destruct Hpost as [-> ?].
Qed.

(** Two datagrams arrive, then the socket would block. *)
Definition receiving_kernel : @Kernel linux_le :=
  sample_kernel [ARecv [7; 8; 9] (localhost_name 9000) 16; ARecv [1] (localhost_name 9001) 16;
                 ARet (-1) 11].

Lemma fallback_recv_correct_witness :
  ∃ r b' evs, fallback_try_recv_batch (K := receiving_kernel) 3
                (RecvBatchRaw.with_capacity 4 8) [] = Ret ((r, b'), [] ++ evs) ∧
    packets b' = [([7; 8; 9], localhost 9000); ([1], localhost 9001)].
Proof.
  destruct (@fallback_recv_correct linux_le receiving_kernel (script_kernel_laws _ _) 3 8
              (RecvBatchRaw.with_capacity 4 8) [] (with_capacity_recv_wf 4 8))
    as (r & b' & evs & Hr & _).
  exists r, b', evs. split; [exact Hr|].
  apply (f_equal ret_val) in Hr. vm_compute in Hr. injection Hr as _ <-. reflexivity.
Defined.
