(* ===== verification/LinuxSend.v ===== *)
(** * Linux backend, sending (src/platform/linux.rs: try_send_batch, fallback_send, try_send_gso)

    [sendmmsg] takes an array of headers that point into an array of iovecs and an array of address
    blocks. The arrays and the pointers between them are modelled; [resolve] is what the kernel sees
    through them. *)
From stdpp Require Import strings.
From S2P Require Import Prelude Libc UnixAbi Sockaddr Batch Backend Fallback.
#[local] Open Scope Z_scope.

Definition MAX_STACK : nat := 64.

(** [msg_name]: null, [&addrs[i]], or a pointer to the local [storage] of a loop iteration, which
    is dead once the iteration ends. *)
Inductive name_ptr := NullName | AddrsName (i : nat) | LocalName.

(** [msghdr]; [msg_iov] is null or [&iovecs[i]]. *)
Record msghdr := MkHdr
  { msg_name : name_ptr; msg_namelen : Z; msg_iov : option nat; msg_iovlen : Z }.

Definition zero_hdr : msghdr := MkHdr NullName 0 None 0.
Definition null_slice : slice := MkSlice (MkPtr 0 0) 0.
Definition set_name (m : msghdr) (p : name_ptr) (len : Z) : msghdr :=
  MkHdr p len (msg_iov m) (msg_iovlen m).
Definition set_name_ptr (m : msghdr) (p : name_ptr) : msghdr :=
  MkHdr p (msg_namelen m) (msg_iov m) (msg_iovlen m).
Definition set_iov (m : msghdr) (i : nat) : msghdr :=
  MkHdr (msg_name m) (msg_namelen m) (Some i) (msg_iovlen m).
Definition set_iov1 (m : msghdr) (i : nat) : msghdr :=
  MkHdr (msg_name m) (msg_namelen m) (Some i) 1.

Section linux_send.
Context {L : Libc} {K : Kernel}.

(** ** Up to 64 messages: arrays on the stack *)
Record send_arrays := MkArrays
  { msgs : list msghdr; iovecs : list slice; addrs : list storage; addr_idx : nat }.

Definition stack_arrays : send_arrays :=
  MkArrays (replicate MAX_STACK zero_hdr) (replicate MAX_STACK null_slice)
    (replicate MAX_STACK storage_zeroed) 0.

(** The body of the loop for entry [i]. *)
Definition stack_step (i : nat) (data : slice) (a : option SocketAddr) (st : send_arrays)
    : outcome send_arrays :=
  let? st :=
    match a with
    | Some target =>
        let? cur := oindex (addrs st) (addr_idx st) in
        let '(addr_len, blk) := encode_sockaddr target cur in
        let? addrs' := ostore (addrs st) (addr_idx st) blk in
        let? m := oindex (msgs st) i in
        let? msgs' := ostore (msgs st) i (set_name m (AddrsName (addr_idx st)) addr_len) in
        Ret (MkArrays msgs' (iovecs st) addrs' (S (addr_idx st)))
    | None => Ret st
    end in
  let? iovecs' := ostore (iovecs st) i data in
  let? m := oindex (msgs st) i in
  let? msgs' := ostore (msgs st) i (set_iov1 m i) in
  Ret (MkArrays msgs' iovecs' (addrs st) (addr_idx st)).

Fixpoint stack_fill (b : SendBatchRaw.t) (n i : nat) (st : send_arrays) : IO send_arrays :=
  match n with
  | O => mret st
  | S n =>
      let! '(data, a) := SendBatchRaw.entry b i in
      let! st := lift (stack_step i data a st) in
      stack_fill b n (S i) st
  end.

(** ** More than 64 messages: vectors, filled first and fixed up afterwards *)
Fixpoint heap_fill (b : SendBatchRaw.t) (n i : nat) (ms : list msghdr) (iovs : list slice)
    (ads : list storage) : IO (list msghdr * list slice * list storage) :=
  match n with
  | O => mret (ms, iovs, ads)
  | S n =>
      let! '(data, a) := SendBatchRaw.entry b i in
      let '(mhdr, st) :=
        match a with
        | Some target =>
            let '(addr_len, st) := encode_sockaddr target storage_zeroed in
            (set_name zero_hdr LocalName addr_len, st)
        | None => (zero_hdr, storage_zeroed)
        end in
      let ads := ads ++ [st] in
      let iovs := iovs ++ [data] in
      let! _ := lift (oindex iovs i) in
      heap_fill b n (S i) (ms ++ [set_iov1 mhdr i]) iovs ads
  end.

(** The second loop: [msg_iov = &iovecs[i]], and [msg_name = &addrs[addr_idx]] for an addressed
    entry. *)
Fixpoint heap_fix (b : SendBatchRaw.t) (ms : list msghdr) (iovs : list slice) (ads : list storage)
    (i addr_idx : nat) : IO (list msghdr) :=
  match ms with
  | [] => mret []
  | m :: ms =>
      let! _ := lift (oindex iovs i) in
      let m := set_iov m i in
      let! '(_, a) := SendBatchRaw.entry b i in
      match a with
      | Some _ =>
          let! _ := lift (oindex ads addr_idx) in
          let! rest := heap_fix b ms iovs ads (S i) (S addr_idx) in
          mret (set_name_ptr m (AddrsName addr_idx) :: rest)
      | None =>
          let! rest := heap_fix b ms iovs ads (S i) addr_idx in
          mret (m :: rest)
      end
  end.

(** ** What the kernel reads through a header

    A dead or wild pointer is undefined behaviour. *)
Definition resolve (iovs : list slice) (ads : list storage) (m : msghdr) : IO wire_msg :=
  let! s := lift (match msg_iov m with
                  | Some i => match iovs !! i with Some s => Ret s | None => UB end
                  | None => UB
                  end) in
  let! bytes := read_slice s in
  let! name := lift (match msg_name m with
                     | NullName => Ret None
                     | AddrsName i => match ads !! i with
                                      | Some st => Ret (Some (st, msg_namelen m))
                                      | None => UB
                                      end
                     | LocalName => UB
                     end) in
  mret (MkWire bytes name).

Fixpoint resolve_all (iovs : list slice) (ads : list storage) (ms : list msghdr)
    : IO (list wire_msg) :=
  match ms with
  | [] => mret []
  | m :: ms =>
      let! w := resolve iovs ads m in
      let! ws := resolve_all iovs ads ms in
      mret (w :: ws)
  end.

(** [fallback_send]: one call per datagram when [sendmmsg] is missing. *)
Definition fallback_send (fd : Fd) (b : SendBatchRaw.t) : IO (io_result nat) :=
  let len := SendBatchRaw.len b in
  if (len =? 0)%nat then mret (Ok 0%nat)
  else
    let! connected := is_connected fd in
    send_loop fd b connected len 0 0.

(** [sendmmsg] with the datagrams [ws], and what becomes of its result. *)
Definition sendmmsg_result (fd : Fd) (b : SendBatchRaw.t) (ws : list wire_msg)
    : IO (io_result nat) :=
  let! sent := sys_sendmmsg fd ws in
  if 0 <=? sent then mret (Ok (Z.to_nat sent))
  else
    let! err := last_os_error in
    if is_enosys err then fallback_send fd b else mret (Err err).

(** [len as u32] *)
Definition vlen (b : SendBatchRaw.t) : nat := Z.to_nat (as_u32 (Z.of_nat (SendBatchRaw.len b))).

(** [sendmmsg] on the prepared arrays. *)
Definition sendmmsg_prepared (fd : Fd) (b : SendBatchRaw.t) (ms : list msghdr)
    (iovs : list slice) (ads : list storage) : IO (io_result nat) :=
  let! ws := resolve_all iovs ads (take (vlen b) ms) in
  sendmmsg_result fd b ws.

Definition linux_try_send_batch (fd : Fd) (b : SendBatchRaw.t) : IO (io_result nat) :=
  let len := SendBatchRaw.len b in
  if (len =? 0)%nat then mret (Ok 0%nat)
  else if (len <=? MAX_STACK)%nat then
    let! st := stack_fill b len 0 stack_arrays in
    sendmmsg_prepared fd b (msgs st) (iovecs st) (addrs st)
  else
    let! '(ms, iovs, ads) := heap_fill b len 0 [] [] [] in
    let! ms := heap_fix b ms iovs ads 0 0 in
    sendmmsg_prepared fd b ms iovs ads.

(** [try_send_gso]: one [sendmsg] with a [UDP_SEGMENT] control message in a 64-byte control
    buffer; [CMSG_FIRSTHDR] is null when the buffer cannot hold a header. *)
Definition try_send_gso (fd : Fd) (data : slice) (segment_size : Z) : IO (io_result Z) :=
  let! bytes := read_slice data in
  if 64 <? SIZEOF_CMSGHDR then mret (Err (CustomError "CMSG_FIRSTHDR returned null"))
  else
    let cm := MkCmsg IPPROTO_UDP UDP_SEGMENT (cmsg_of_u16 segment_size) in
    let! ret := sys_sendmsg fd bytes [cm] 64 in
    if 0 <=? ret then mret (Ok ret)
    else let! e := last_os_error in mret (Err e).

(** ** The headers both paths end up with

    [entries] are (slice, destination) pairs; message [i] with a destination points at
    [addrs[r]], [r] counting the destinations before it. *)
Definition final_hdr (i r : nat) (a : option SocketAddr) : msghdr :=
  match a with
  | Some target => MkHdr (AddrsName r) (encode_sockaddr target storage_zeroed).1 (Some i) 1
  | None => MkHdr NullName 0 (Some i) 1
  end.
Definition next_rank (r : nat) (a : option SocketAddr) : nat :=
  match a with Some _ => S r | None => r end.
Fixpoint final_hdrs (es : list (slice * option SocketAddr)) (i r : nat) : list msghdr :=
  match es with
  | [] => []
  | (_, a) :: es => final_hdr i r a :: final_hdrs es (S i) (next_rank r a)
  end.

(** The address blocks: the stack path stores one per destination, the vector path one per
    entry. *)
Definition block_of (a : SocketAddr) : storage := (encode_sockaddr a storage_zeroed).2.
Definition dest_blocks (es : list (slice * option SocketAddr)) : list storage :=
  block_of <$> omap snd es.
Definition entry_blocks (es : list (slice * option SocketAddr)) : list storage :=
  (λ e, from_option block_of storage_zeroed e.2) <$> es.

(** The names the kernel finds for headers that index [blocks] from [r] on. *)
Fixpoint names_in (blocks : list storage) (es : list (slice * option SocketAddr)) (r : nat)
    : list (option (storage * Z)) :=
  match es with
  | [] => []
  | (_, None) :: es => None :: names_in blocks es r
  | (_, Some a) :: es =>
      Some (default storage_zeroed (blocks !! r), (encode_sockaddr a storage_zeroed).1)
      :: names_in blocks es (S r)
  end.

(** No addressed entry follows an unaddressed one. *)
Fixpoint addressed_first (es : list (slice * option SocketAddr)) : bool :=
  match es with
  | [] => true
  | (_, Some _) :: es => addressed_first es
  | (_, None) :: es => forallb (λ e, bool_decide (e.2 = None)) es
  end.

(** ** The stack path *)

(** An array of [m] cells whose first ones are [l], the rest still zeroed. *)
Definition pad {A} (m : nat) (z : A) (l : list A) : list A := l ++ replicate (m - length l) z.

Lemma pad_index {A} m (z : A) l i :
  i = length l → (i < m)%nat → oindex (pad m z l) i = Ret z.
Proof.
  intros -> Hl. apply oindex_Ret. unfold pad. rewrite lookup_app_r by lia.
  apply lookup_replicate_2. lia.
Qed.

Lemma pad_store {A} m (z x : A) l i :
  i = length l → (i < m)%nat → ostore (pad m z l) i x = Ret (pad m z (l ++ [x])).
Proof.
  intros -> Hl. rewrite ostore_lt by (unfold pad; len). f_equal. unfold pad.
  rewrite insert_app_r_alt, Nat.sub_diag, length_app by lia; simpl.
  replace (m - length l)%nat with (S (m - (length l + 1))) by lia.
  by rewrite <- (assoc_L (++)).
Qed.

Lemma pad_index_last {A} m (z x : A) l i : i = length l → oindex (pad m z (l ++ [x])) i = Ret x.
Proof.
  intros ->. apply oindex_Ret. unfold pad. rewrite <- (assoc_L (++)). by apply list_lookup_middle.
Qed.

Lemma pad_store_last {A} m (z x y : A) l i :
  i = length l → ostore (pad m z (l ++ [x])) i y = Ret (pad m z (l ++ [y])).
Proof.
  intros ->. rewrite ostore_lt by (unfold pad; len). f_equal. unfold pad. rewrite !length_app; simpl.
  rewrite insert_app_l by len. f_equal. by rewrite insert_app_r_alt, Nat.sub_diag by lia.
Qed.

Lemma length_final_hdrs es i r : length (final_hdrs es i r) = length es.
Proof. revert i r. induction es as [|[d a] es IH]; intros i r; simpl; auto. Qed.

Lemma dest_blocks_cons d a es :
  dest_blocks ((d, a) :: es) = from_option (λ a, [block_of a]) [] a ++ dest_blocks es.
Proof. by destruct a. Qed.

Lemma final_hdrs_snoc es d a i r :
  final_hdrs (es ++ [(d, a)]) i r =
  final_hdrs es i r ++ [final_hdr (i + length es) (r + length (dest_blocks es)) a].
Proof.
  revert i r. induction es as [|[d' a'] es IH]; intros i r; simpl.
  { by rewrite !Nat.add_0_r. }
  rewrite IH. replace (S i + length es)%nat with (i + S (length es))%nat by lia.
  replace (next_rank r a' + length (dest_blocks es))%nat
    with (r + length (dest_blocks ((d', a') :: es)))%nat; [done|].
  rewrite dest_blocks_cons. destruct a'; simpl; lia.
Qed.

Lemma dest_blocks_snoc es d a :
  dest_blocks (es ++ [(d, a)]) = dest_blocks es ++ from_option (λ a, [block_of a]) [] a.
Proof. unfold dest_blocks. rewrite omap_app, fmap_app. by destruct a. Qed.

Lemma length_dest_blocks es : (length (dest_blocks es) ≤ length es)%nat.
Proof.
  induction es as [|[d [a|]] es IH]; [done| |]; rewrite dest_blocks_cons; simpl; lia.
Qed.

Lemma length_dest_blocks_take n es :
  (length (dest_blocks (take n es)) ≤ length (dest_blocks es))%nat.
Proof.
  rewrite <- (take_drop n es) at 2. unfold dest_blocks.
  rewrite omap_app, fmap_app, length_app. lia.
Qed.

(** The arrays once the entries [es] have been written. *)
Definition arrays_of (es : list (slice * option SocketAddr)) : send_arrays :=
  MkArrays (pad MAX_STACK zero_hdr (final_hdrs es 0 0)) (pad MAX_STACK null_slice (fst <$> es))
    (pad MAX_STACK storage_zeroed (dest_blocks es)) (length (dest_blocks es)).

Lemma stack_step_spec es d a : (length es < MAX_STACK)%nat →
  stack_step (length es) d a (arrays_of es) = Ret (arrays_of (es ++ [(d, a)])).
Proof.
  intros Hl. pose proof (length_dest_blocks es) as Hd. unfold stack_step, arrays_of.
  rewrite fmap_app, final_hdrs_snoc, dest_blocks_snoc, !Nat.add_0_l. simpl.
  destruct a as [target|]; simpl.
  - rewrite pad_index by (done || lia); simpl.
    destruct (encode_sockaddr target storage_zeroed) as [alen blk] eqn:Ea.
    rewrite pad_store by (done || lia); simpl.
    rewrite pad_index by (by rewrite ?length_final_hdrs); simpl.
    rewrite pad_store by (by rewrite ?length_final_hdrs); simpl.
    rewrite pad_store by (by rewrite ?length_fmap); simpl.
    rewrite pad_index_last by (by rewrite length_final_hdrs); simpl.
    rewrite pad_store_last by (by rewrite length_final_hdrs); simpl.
    unfold block_of, final_hdr. rewrite Ea, length_app. simpl. by rewrite Nat.add_comm.
  - rewrite pad_store by (by rewrite ?length_fmap); simpl.
    rewrite pad_index by (by rewrite ?length_final_hdrs); simpl.
    rewrite pad_store by (by rewrite ?length_final_hdrs); simpl.
    by rewrite app_nil_r.
Qed.

Lemma stack_fill_spec cap b bss n i h :
  send_wf cap b → payloads h b bss → (SendBatchRaw.len b ≤ MAX_STACK)%nat →
  (i + n = SendBatchRaw.len b)%nat →
  stack_fill b n i (arrays_of (take i (contents b))) h = Ret (arrays_of (contents b), h).
Proof.
  intros Hwf Hp Hst. revert i. induction n as [|n IH]; intros i Hn; cbn [stack_fill].
  { rewrite take_ge; [done|]. rewrite (length_contents cap) by done. lia. }
  destruct (wires_lookup cap h false b bss i Hwf Hp) as (d & a & bs & Hc & _ & Hs & _); [lia|].
  erewrite mbind_Ret by (by eapply entry_contents, stable_from_now).
  assert (Hi : length (take i (contents b)) = i)
    by (rewrite length_take, (length_contents cap) by done; lia).
  pose proof (stack_step_spec (take i (contents b)) d a) as E. rewrite Hi in E.
  unfold mbind, lift. rewrite E by lia.
  rewrite <- (take_S_r _ _ _ Hc). apply IH. lia.
Qed.

(** ** The vector path *)

(** A header after the first loop: its [msg_name] points to a local of the iteration. *)
Definition local_hdr (i : nat) (a : option SocketAddr) : msghdr :=
  match a with
  | Some target => MkHdr LocalName (encode_sockaddr target storage_zeroed).1 (Some i) 1
  | None => MkHdr NullName 0 (Some i) 1
  end.
Fixpoint local_hdrs (es : list (slice * option SocketAddr)) (i : nat) : list msghdr :=
  match es with
  | [] => []
  | (_, a) :: es => local_hdr i a :: local_hdrs es (S i)
  end.

Lemma heap_fill_spec cap b bss n i ms iovs ads h :
  send_wf cap b → payloads h b bss → (i + n = SendBatchRaw.len b)%nat → length iovs = i →
  heap_fill b n i ms iovs ads h =
    Ret ((ms ++ local_hdrs (drop i (contents b)) i, iovs ++ (fst <$> drop i (contents b)),
          ads ++ entry_blocks (drop i (contents b))), h).
Proof.
  intros Hwf Hp. revert i ms iovs ads. induction n as [|n IH]; intros i ms iovs ads Hn Hi;
    cbn [heap_fill].
  { rewrite drop_ge; [by rewrite !app_nil_r|]. rewrite (length_contents cap) by done. lia. }
  destruct (wires_lookup cap h false b bss i Hwf Hp) as (d & a & bs & Hc & _ & Hs & _); [lia|].
  erewrite mbind_Ret by (by eapply entry_contents, stable_from_now).
  rewrite (drop_S _ _ _ Hc).
  assert (Hx : oindex (iovs ++ [d]) i = Ret d)
    by (by apply oindex_Ret; rewrite <- Hi; apply list_lookup_middle).
  destruct a as [target|].
  - destruct (encode_sockaddr target storage_zeroed) as [alen blk] eqn:Ea.
    unfold mbind at 1, lift. rewrite Hx, IH by len. rewrite <- !(assoc_L (++)). simpl.
    unfold block_of. by rewrite Ea.
  - unfold mbind at 1, lift. rewrite Hx, IH by len. by rewrite <- !(assoc_L (++)).
Qed.

Lemma heap_fix_spec cap b bss iovs ads n i r h :
  send_wf cap b → payloads h b bss → (i + n = SendBatchRaw.len b)%nat → (r ≤ i)%nat →
  length iovs = SendBatchRaw.len b → length ads = SendBatchRaw.len b →
  heap_fix b (local_hdrs (drop i (contents b)) i) iovs ads i r h =
    Ret (final_hdrs (drop i (contents b)) i r, h).
Proof.
  intros Hwf Hp Hn Hr Hiovs Hads. revert i r Hn Hr.
  induction n as [|n IH]; intros i r Hn Hr.
  { rewrite drop_ge; [done|]. rewrite (length_contents cap) by done. lia. }
  destruct (wires_lookup cap h false b bss i Hwf Hp) as (d & a & bs & Hc & _ & Hs & _); [lia|].
  rewrite (drop_S _ _ _ Hc). cbn [local_hdrs heap_fix final_hdrs].
  destruct (oindex_lt iovs i) as (v & _ & Hv); [lia|].
  unfold mbind at 1, lift at 1. rewrite Hv.
  erewrite mbind_Ret by (by eapply entry_contents, stable_from_now). destruct a as [target|].
  - destruct (oindex_lt ads r) as (w & _ & Hw); [lia|].
    unfold mbind at 1, lift at 1. rewrite Hw.
    by erewrite mbind_Ret by (apply IH; lia).
  - by erewrite mbind_Ret by (apply IH; lia).
Qed.

(** ** What reaches the kernel *)
Lemma final_hdrs_take n es i r : take n (final_hdrs es i r) = final_hdrs (take n es) i r.
Proof.
  revert n i r. induction es as [|[d a] es IH]; intros [|n] i r; simpl; [done..|]. by rewrite IH.
Qed.

Lemma names_in_take blocks n es r : names_in blocks (take n es) r = take n (names_in blocks es r).
Proof.
  revert n r. induction es as [|[d [a|]] es IH]; intros [|n] r; simpl; try done; by rewrite IH.
Qed.

Lemma length_names_in blocks es r : length (names_in blocks es r) = length es.
Proof. revert r. induction es as [|[d [a|]] es IH]; intros r; simpl; auto. Qed.

Lemma resolve_final_hdr iovs ads d a bs i r h :
  slice_bytes (k_mem h) d = Some bs → iovs !! i = Some d →
  (a ≠ None → (r < length ads)%nat) →
  resolve iovs ads (final_hdr i r a) h =
    Ret (MkWire bs ((λ a, (default storage_zeroed (ads !! r),
                           (encode_sockaddr a storage_zeroed).1)) <$> a), h).
Proof.
  intros Hbs Hi Hr. unfold resolve, mbind, lift, read_slice. destruct a as [a|]; simpl.
  - destruct (lookup_lt_is_Some_2 ads r) as [st Hst]; [by apply Hr|].
    by rewrite Hi, Hbs, Hst.
  - by rewrite Hi, Hbs.
Qed.

Lemma resolve_all_spec iovs ads es bss i r h :
  Forall2 (λ e bs, slice_bytes (k_mem h) e.1 = Some bs) es bss →
  (∀ j e, es !! j = Some e → iovs !! (i + j)%nat = Some e.1) →
  (r + length (dest_blocks es) ≤ length ads)%nat →
  resolve_all iovs ads (final_hdrs es i r) h = Ret (zip_with MkWire bss (names_in ads es r), h).
Proof.
  intros Hp. revert i r. induction Hp as [|[d a] bs es bss Hbs Hp IH]; intros i r Hiov Hlen; [done|].
  rewrite dest_blocks_cons in Hlen. cbn [final_hdrs resolve_all].
  erewrite mbind_Ret.
  2:{ apply (resolve_final_hdr iovs ads d a bs); [done| |].
      - rewrite <- (Nat.add_0_r i). by apply (Hiov 0%nat (d, a)).
      - destruct a; simpl in Hlen; [lia|done]. }
  erewrite mbind_Ret.
  2:{ apply IH.
      - intros j e Hj. rewrite Nat.add_succ_comm. by apply Hiov.
      - destruct a; simpl in *; lia. }
  by destruct a.
Qed.

Definition entry_name (e : slice * option SocketAddr) : option (storage * Z) := name_of <$> e.2.

(** The address block of the [k]-th destination is where its header points. *)
Definition blocks_match (blocks : list storage) (es : list (slice * option SocketAddr)) (r : nat) : Prop :=
  ∀ k a, omap snd es !! k = Some a → blocks !! (r + k)%nat = Some (block_of a).

Lemma names_in_match blocks es r :
  blocks_match blocks es r → names_in blocks es r = entry_name <$> es.
Proof.
  revert r. induction es as [|[d [a|]] es IH]; intros r Hm; simpl; [done| |].
  - pose proof (Hm 0%nat a eq_refl) as Hr. rewrite Nat.add_0_r in Hr. rewrite Hr, IH.
    + unfold entry_name, name_of, block_of; simpl. by destruct (encode_sockaddr a storage_zeroed).
    + intros k a' Hk. rewrite Nat.add_succ_comm. by apply Hm.
  - by rewrite IH.
Qed.

Lemma dest_blocks_match es : blocks_match (pad MAX_STACK storage_zeroed (dest_blocks es)) es 0.
Proof.
  intros k a Hk. unfold pad. apply lookup_app_l_Some. unfold dest_blocks.
  rewrite list_lookup_fmap. change (0 + k)%nat with k. by rewrite Hk.
Qed.

Lemma addressed_first_lookup es k a :
  addressed_first es = true → omap snd es !! k = Some a → ∃ d, es !! k = Some (d, Some a).
Proof.
  revert k. induction es as [|[d [a'|]] es IH]; intros k Hf Hk; simpl in *; [done| |].
  - destruct k as [|k]; [by simplify_eq/=; eauto|]. by apply IH.
  - rewrite forallb_forall in Hf.
    apply list_elem_of_lookup_2, list_elem_of_omap in Hk as ([d' a'] & Hin & Ha).
    apply list_elem_of_In, Hf, bool_decide_eq_true_1 in Hin. simpl in *. congruence.
Qed.

Lemma entry_blocks_match es : addressed_first es = true → blocks_match (entry_blocks es) es 0.
Proof.
  intros Hf k a Hk. destruct (addressed_first_lookup es k a Hf Hk) as [d Hd].
  unfold entry_blocks. rewrite list_lookup_fmap. change (0 + k)%nat with k. by rewrite Hd.
Qed.

Lemma vlen_le b : (vlen b ≤ SendBatchRaw.len b)%nat.
Proof.
  unfold vlen, as_u32.
  pose proof (Z.mod_le (Z.of_nat (SendBatchRaw.len b)) (2 ^ 32) ltac:(lia) ltac:(lia)). lia.
Qed.

Lemma vlen_small b : (Z.of_nat (SendBatchRaw.len b) < 2 ^ 32) → vlen b = SendBatchRaw.len b.
Proof. intros. unfold vlen. rewrite as_u32_small by lia. lia. Qed.

Lemma sendmmsg_prepared_spec cap fd b bss ms iovs ads h :
  send_wf cap b → payloads h b bss →
  final_hdrs (contents b) 0 0 `prefix_of` ms → (fst <$> contents b) `prefix_of` iovs →
  (length (dest_blocks (contents b)) ≤ length ads)%nat →
  sendmmsg_prepared fd b ms iovs ads h =
    sendmmsg_result fd b (take (vlen b) (zip_with MkWire bss (names_in ads (contents b) 0))) h.
Proof.
  intros Hwf Hp [mjunk ->] [ijunk ->] Hads. unfold sendmmsg_prepared.
  pose proof (vlen_le b) as Hv. pose proof (length_contents cap b Hwf) as Hlen.
  rewrite take_app_le by (rewrite length_final_hdrs; lia). rewrite final_hdrs_take.
  erewrite mbind_Ret.
  2:{ apply (resolve_all_spec _ _ _ (take (vlen b) bss)).
      - apply Forall2_take. eapply Forall2_impl; [|exact Hp]. intros e bs. apply stable_from_now.
      - intros j e [Hj _]%lookup_take_Some. apply lookup_app_l_Some.
        change (0 + j)%nat with j. by rewrite list_lookup_fmap, Hj.
      - etransitivity; [apply length_dest_blocks_take|exact Hads]. }
  by rewrite names_in_take, zip_with_take.
Qed.

(** The address blocks the headers of a batch point into. *)
Definition send_blocks (b : SendBatchRaw.t) : list storage :=
  if (SendBatchRaw.len b <=? MAX_STACK)%nat
  then pad MAX_STACK storage_zeroed (dest_blocks (contents b))
  else entry_blocks (contents b).

(** Both paths hand the kernel the payloads of the batch, in order, and the names found in
    [send_blocks]; no pointer to a dead local is left. *)
Lemma linux_send_offer cap fd b bss h :
  send_wf cap b → payloads h b bss → SendBatchRaw.len b ≠ 0%nat →
  linux_try_send_batch fd b h =
    sendmmsg_result fd b
      (take (vlen b) (zip_with MkWire bss (names_in (send_blocks b) (contents b) 0))) h.
Proof.
  intros Hwf Hp Hne. unfold linux_try_send_batch, send_blocks.
  pose proof (length_contents cap b Hwf) as Hlen.
  pose proof (length_dest_blocks (contents b)) as Hd.
  rewrite (proj2 (Nat.eqb_neq _ _) Hne).
  destruct (Nat.leb_spec (SendBatchRaw.len b) MAX_STACK) as [Hs|Hs].
  - erewrite mbind_Ret by (apply (stack_fill_spec cap b bss _ 0); done || lia).
    apply (sendmmsg_prepared_spec cap); try done; simpl; unfold pad; try apply prefix_app_r; try done.
    rewrite length_app, length_replicate. lia.
  - erewrite mbind_Ret by (apply (heap_fill_spec cap b bss); done || lia).
    rewrite drop_0; simpl.
    erewrite mbind_Ret.
    2:{ pose proof (heap_fix_spec cap b bss (fst <$> contents b) (entry_blocks (contents b))
                      (SendBatchRaw.len b) 0 0 h) as E.
        rewrite drop_0 in E. apply E; try done; try lia; unfold entry_blocks; len. }
    apply (sendmmsg_prepared_spec cap); try done. unfold entry_blocks. len.
Qed.

(** Batches whose datagrams this backend addresses correctly. *)
Definition linux_send_supported (b : SendBatchRaw.t) : Prop :=
  (SendBatchRaw.len b ≤ MAX_STACK)%nat ∨ addressed_first (contents b) = true.

Lemma wires_names b bss : wires false b bss = zip_with MkWire bss (entry_name <$> contents b).
Proof.
  unfold wires. generalize (contents b). revert bss.
  induction bss as [|bs bss IH]; intros [|e es]; simpl; [done..|]. by rewrite IH.
Qed.

Lemma linux_send_offer_supported cap fd b bss h :
  send_wf cap b → payloads h b bss → SendBatchRaw.len b ≠ 0%nat → linux_send_supported b →
  linux_try_send_batch fd b h = sendmmsg_result fd b (take (vlen b) (wires false b bss)) h.
Proof.
  intros Hwf Hp Hne Hsup. rewrite (linux_send_offer cap fd b bss) by done.
  rewrite names_in_match; [by rewrite wires_names|]. unfold send_blocks.
  destruct (Nat.leb_spec (SendBatchRaw.len b) MAX_STACK) as [Hs|Hs].
  - apply dest_blocks_match.
  - destruct Hsup; [lia|]. by apply entry_blocks_match.
Qed.

Lemma fallback_send_eq fd b : fallback_send fd b = fallback_try_send_batch fd b.
Proof. done. Qed.

Context {KL : KernelLaws}.

Lemma linux_send_prefix cap fd b bss h :
  send_wf cap b → payloads h b bss → linux_send_supported b →
  wp (linux_try_send_batch fd b) (send_post b bss h) h.
Proof.
  intros Hwf Hp Hsup. destruct (decide (SendBatchRaw.len b = 0%nat)) as [E|E].
  { unfold linux_try_send_batch. rewrite E. apply wp_ret. exists [], false.
    rewrite app_nil_r. split; [done|]. split; [lia|by rewrite take_0]. }
  unfold wp. rewrite (linux_send_offer_supported cap fd b bss) by done.
  set (W := take (vlen b) (wires false b bss)). unfold sendmmsg_result, mbind, sys_sendmmsg.
  pose proof (sendmmsg_le h fd W) as Hle. pose proof (vlen_le b) as Hv.
  assert (HW : length W = vlen b) by (unfold W; rewrite length_take, (length_wires cap h) by done; lia).
  destruct (0 <=? k_sendmmsg h fd W) eqn:Er; reflect_bools; simpl.
  - eexists _, false. split; [done|]. split; [lia|]. unfold accepted_all; simpl.
    unfold W at 2. rewrite app_nil_r, take_take. f_equal. lia.
  - unfold is_enosys. case_bool_decide.
    + set (ev := EvSendmmsg _ _ _). rewrite fallback_send_eq.
      pose proof (fallback_send_spec fd cap b bss (h ++ [ev]) Hwf (payloads_app _ _ _ _ Hp) E) as Hf.
      unfold wp in Hf. destruct (fallback_try_send_batch fd b (h ++ [ev])) as [[r h']| | |]; try done.
      destruct Hf as (evs & m & -> & Hm & Hacc & Hr). eexists (ev :: evs), _.
      split; [by rewrite <- (assoc_L (++))|]. rewrite accepted_all_cons, Hacc; simpl.
      rewrite Z2Nat.nonpos, take_0 by lia. destruct r; [|by destruct Hr as (? & _ & ?); exists m].
      destruct Hr as [-> _]. eauto.
    + eexists _, false. split; [done|]. exists 0%nat. unfold accepted_all; simpl.
      split; [lia|]. split; [|done]. by rewrite Z2Nat.nonpos, !take_0 by lia.
Qed.

Lemma names_in_unaddressed blocks es r k d a :
  es !! k = Some (d, Some a) → (∀ j e, (j < k)%nat → es !! j = Some e → e.2 = None) →
  names_in blocks es r !! k =
    Some (Some (default storage_zeroed (blocks !! r), (encode_sockaddr a storage_zeroed).1)).
Proof.
  revert k. induction es as [|[d' a'] es IH]; intros k Hk Hpre; [done|].
  destruct k as [|k]; [by simplify_eq/=|].
  pose proof (Hpre 0%nat (d', a') ltac:(lia) eq_refl) as Ha; simpl in Ha; subst a'. simpl.
  apply IH; [done|]. intros j e Hj He. apply (Hpre (S j) e); [lia|done].
Qed.
End linux_send.

(** C2: sending on Linux. For a batch of at most 64 entries, and for a longer one in which no addressed
    entry follows an unaddressed one, [sendmmsg] is offered every entry in order with its payload
    and its destination. Its count is the result, and exactly that many datagrams are accepted;
    an error other than ENOSYS is returned as it is with nothing accepted; on ENOSYS the batch is
    sent as the portable backend sends it. (2^32 entries and more: the count passed is the length
    modulo 2^32.) *)
Theorem linux_send_correct {L : Libc} {K : Kernel} {KL : KernelLaws} fd cap b bss h :
  send_wf cap b → payloads h b bss → SendBatchRaw.len b ≠ 0%nat → linux_send_supported b →
  let W := take (vlen b) (wires false b bss) in
  let ret := k_sendmmsg h fd W in
  let h1 := h ++ [EvSendmmsg fd W ret] in
  (Z.of_nat (SendBatchRaw.len b) < 2 ^ 32 → W = wires false b bss) ∧
  if 0 <=? ret then
    ret ≤ Z.of_nat (SendBatchRaw.len b) ∧
    linux_try_send_batch fd b h = Ret (Ok (Z.to_nat ret), h1) ∧
    accepted_all [EvSendmmsg fd W ret] = take (Z.to_nat ret) (wires false b bss)
  else if is_enosys (OsError (k_errno h1)) then
    linux_try_send_batch fd b h = fallback_try_send_batch fd b h1
  else
    linux_try_send_batch fd b h = Ret (Err (OsError (k_errno h1)), h1) ∧
    accepted_all [EvSendmmsg fd W ret] = [].
Proof.
  intros Hwf Hp Hne Hsup W ret h1.
  pose proof (linux_send_offer_supported cap fd b bss h Hwf Hp Hne Hsup) as E. fold W in E.
  assert (HW : length W = vlen b).
  { unfold W. rewrite length_take, (length_wires cap h) by done. pose proof (vlen_le b). lia. }
  pose proof (sendmmsg_le h fd W) as Hle. fold ret in Hle. pose proof (vlen_le b) as Hv.
  unfold sendmmsg_result, mbind, sys_sendmmsg in E. fold ret h1 in E. split.
  { intros Hb. unfold W. rewrite vlen_small by done.
    apply take_ge. by rewrite (length_wires cap h). }
  destruct (0 <=? ret) eqn:Er; reflect_bools.
  - split_and!; [lia|exact E|]. unfold accepted_all; simpl. rewrite app_nil_r. unfold W.
    rewrite take_take. f_equal. lia.
  - cbn in E. destruct (is_enosys _); [exact E|]. split; [exact E|].
    unfold accepted_all; simpl. by rewrite Z2Nat.nonpos, take_0 by lia.
Qed.

(** [two_entries] sent in full by one [sendmmsg]. *)
Definition accepting_kernel : @Kernel linux_le := sample_kernel [ARet 65 0].

Lemma linux_send_correct_witness :
  linux_try_send_batch (K := accepting_kernel) 3 two_entries [] =
    Ret (Ok 2%nat,
         [EvSendmmsg 3 (wires false two_entries [[104; 101; 108; 108; 111]; [1; 2]]) 2]).
Proof.
  destruct (@linux_send_correct linux_le accepting_kernel (script_kernel_laws _ _) 3 2 two_entries
              [[104; 101; 108; 108; 111]; [1; 2]] []) as (_ & _ & E & _).
  - apply two_entries_wf.
  - apply two_entries_payloads.
  - done.
  - left. apply Nat.leb_le. reflexivity.
  - exact E.
Defined.

(** C18: the vector path loses destinations. In a batch of more than 64 entries whose first entry has no
    destination, the first addressed entry is handed to the kernel with an address block of zeroes
    instead of its destination: the headers index one block per destination while the vector holds
    one per entry. *)
Theorem linux_heap_misaddresses {L : Libc} {K : Kernel} fd cap b bss h k d a :
  send_wf cap b → payloads h b bss →
  (MAX_STACK < SendBatchRaw.len b)%nat → Z.of_nat (SendBatchRaw.len b) < 2 ^ 32 →
  (0 < k)%nat → contents b !! k = Some (d, Some a) →
  (∀ j e, (j < k)%nat → contents b !! j = Some e → e.2 = None) →
  ∃ ws w, linux_try_send_batch fd b h = sendmmsg_result fd b ws h ∧
    length ws = SendBatchRaw.len b ∧ ws !! k = Some w ∧
    wm_name w = Some (storage_zeroed, (encode_sockaddr a storage_zeroed).1).
Proof.
  intros Hwf Hp Hlen H32 Hk Hka Hpre.
  pose proof (length_contents cap b Hwf) as Hc.
  pose proof (lookup_lt_Some _ _ _ Hka) as Hkl.
  set (ws := zip_with MkWire bss (names_in (send_blocks b) (contents b) 0)).
  assert (Hnames : names_in (send_blocks b) (contents b) 0 !! k =
                   Some (Some (storage_zeroed, (encode_sockaddr a storage_zeroed).1))).
  { rewrite (names_in_unaddressed _ _ _ _ _ _ Hka Hpre). unfold send_blocks.
    destruct (Nat.leb_spec (SendBatchRaw.len b) MAX_STACK); [lia|].
    destruct (lookup_lt_is_Some_2 (contents b) 0) as [e He]; [lia|].
    unfold entry_blocks. by rewrite list_lookup_fmap, He; simpl; rewrite (Hpre 0%nat e Hk He). }
  destruct (lookup_lt_is_Some_2 bss k) as [bs Hbs];
    [rewrite (length_payloads cap h b bss) by done; lia|].
  assert (Hlw : length ws = SendBatchRaw.len b).
  { unfold ws. rewrite length_zip_with, length_names_in, (length_payloads cap h b bss) by done. lia. }
  exists ws, (MkWire bs (Some (storage_zeroed, (encode_sockaddr a storage_zeroed).1))).
  split_and!; [|done| |done].
  - rewrite (linux_send_offer cap fd b bss) by (done || lia). fold ws.
    rewrite vlen_small, take_ge by (done || lia). done.
  - unfold ws. apply lookup_zip_with_Some. by eexists _, _.
Qed.

(** 64 unaddressed datagrams followed by one for localhost:9000. *)
Definition mixed_batch : SendBatchRaw.t :=
  SendBatchRaw.Mk
    (MkVec (replicate 64 (MkSendSlot (MkPtr 1 0) 5 None)
            ++ [MkSendSlot (MkPtr 2 0) 2 (Some (localhost 9000))]) 65) 65.

Lemma linux_heap_misaddresses_witness :
  ∃ ws w st n, linux_try_send_batch (K := accepting_kernel) 3 mixed_batch [] =
            sendmmsg_result (K := accepting_kernel) 3 mixed_batch ws [] ∧
    ws !! 64%nat = Some w ∧ wm_name w = Some (st, n) ∧ decode_sockaddr st n = unspecified.
Proof.
  destruct (@linux_heap_misaddresses linux_le accepting_kernel 3 65 mixed_batch
              (replicate 64 [104; 101; 108; 108; 111] ++ [[1; 2]]) [] 64 bytes12 (localhost 9000))
    as (ws & w & E & _ & Hw & Hn).
  - repeat split; simpl; lia.
  - unfold payloads, contents; simpl. repeat constructor.
  - apply Nat.leb_le. reflexivity.
  - simpl. lia.
  - lia.
  - done.
  - intros j e Hj He. do 64 (destruct j as [|j]; [by injection He as <-|]). lia.
  - eexists ws, w, _, _. split_and!; [exact E|exact Hw|exact Hn|reflexivity].
Defined.

(** A segmented send passes the whole buffer to one [sendmsg] with one [UDP_SEGMENT] control message
    that holds the segment size, and returns its byte count or its error. *)
Theorem send_gso_correct {L : Libc} {K : Kernel} fd data bs seg h :
  slice_bytes (k_mem h) data = Some bs → SIZEOF_CMSGHDR ≤ 64 →
  let cm := MkCmsg IPPROTO_UDP UDP_SEGMENT (cmsg_of_u16 seg) in
  let ret := k_sendmsg h fd bs [cm] 64 in
  let h1 := h ++ [EvSendmsg fd bs [cm] 64 ret] in
  try_send_gso fd data seg h =
    Ret (if 0 <=? ret then Ok ret else Err (OsError (k_errno h1)), h1).
Proof.
  intros Hbs Hsz cm ret h1. unfold try_send_gso, mbind, read_slice, sys_sendmsg.
  rewrite Hbs, (proj2 (Z.ltb_ge _ _) Hsz). fold cm ret h1. by destruct (0 <=? ret).
Qed.

Lemma send_gso_correct_witness :
  try_send_gso (K := sample_kernel [ARet 5 0]) 3 hello 2 [] =
    Ret (Ok 5, [EvSendmsg 3 [104; 101; 108; 108; 111] [MkCmsg 17 103 [2; 0]] 64 5]).
Proof.
  by apply (@send_gso_correct linux_le (sample_kernel [ARet 5 0]) 3 hello
           [104; 101; 108; 108; 111] 2 []).
Defined.
