(* ===== verification/LinuxRecv.v ===== *)
(** * Linux backend, receiving (src/platform/linux.rs: retry_eintr, try_recv_batch, fallback_recv)

    One [recvmmsg] fills the buffers of the batch; control messages give the timestamp, the local
    destination and the GRO segment size of each message; a coalesced message is split over the
    following slots. The code for at most 64 slots and the code for more differ only in where the
    header arrays live: header [i] always refers to buffer [i], address block [i] and control
    buffer [i]. *)
From S2P Require Import Prelude Libc UnixAbi Sockaddr Batch Backend Fallback LinuxSend.
#[local] Open Scope Z_scope.

Section linux_recv.
Context {L : Libc} {K : Kernel}.

(** [retry_eintr]: call again as long as the call fails with EINTR. The closure returns a
    number and, here, what the call wrote. The loop of the source has no bound; [fuel] counts the
    calls. *)
Fixpoint retry_eintr {A} (fuel : nat) (f : IO (Z * A)) : IO (io_result (Z * A)) :=
  match fuel with
  | O => λ _, NoFuel
  | S fuel =>
      let! '(n, x) := f in
      if 0 <=? n then mret (Ok (n, x))
      else
        let! err := last_os_error in
        if is_interrupted err then retry_eintr fuel f else mret (Err err)
  end.

Section with_features.
Context (F : features).
Implicit Types (b : RecvBatchRaw.t) (m : mmsg_out).

(** [iov_len] of header [i], [i + 1], ... *)
Fixpoint recv_iovecs b (n i : nat) : outcome (list nat) :=
  match n with
  | O => Ret []
  | S n =>
      let? bf := RecvBatchRaw.buffer b i in
      let? rest := recv_iovecs b n (S i) in
      Ret (length bf :: rest)
  end.

(** What [recvmmsg] wrote: message [i] is in the buffer of slot [i]. *)
Fixpoint deliver_slots (sl : list RecvSlot) (outs : list mmsg_out) : list RecvSlot :=
  match sl, outs with
  | s :: sl, m :: outs => set_slot_buf s (blit (mo_data m) (buf s)) :: deliver_slots sl outs
  | sl, _ => sl
  end.
Definition deliver b (outs : list mmsg_out) : RecvBatchRaw.t :=
  RecvBatchRaw.Mk (deliver_slots (RecvBatchRaw.slots b) outs) (RecvBatchRaw.len b).

(** One control message of the message being put into slot [out_idx]; the second component is
    [gro_seg_size]. *)
Definition cmsg_step (out_idx : nat) (st : RecvBatchRaw.t * Z) (ch : cmsghdr)
    : outcome (RecvBatchRaw.t * Z) :=
  let '(b, gro) := st in
  let lvl := cmsg_level ch in
  let ty := cmsg_type ch in
  if f_gro F && (lvl =? IPPROTO_UDP) && (ty =? UDP_GRO) then Ret (b, cmsg_u16 (cmsg_data ch))
  else if f_timestamping F && (lvl =? SOL_SOCKET) && (ty =? SCM_TIMESTAMPNS) then
    let '(sec, nsec) := cmsg_timespec (cmsg_data ch) in
    let? b := RecvBatchRaw.set_timestamp b out_idx (Some (MkTimestamp sec nsec)) in Ret (b, gro)
  else if f_pktinfo F && (lvl =? IPPROTO_IP) && (ty =? IP_PKTINFO) then
    let ip := Ipv4Addr_from_u32 (from_be little_endian 4 (cmsg_in_pktinfo_addr (cmsg_data ch))) in
    let? b := RecvBatchRaw.set_dst_addr b out_idx (Some (V4 (MkV4 ip 0))) in Ret (b, gro)
  else if f_pktinfo F && (lvl =? IPPROTO_IPV6) && (ty =? IPV6_PKTINFO) then
    let ip := cmsg_in6_pktinfo_addr (cmsg_data ch) in
    let? b := RecvBatchRaw.set_dst_addr b out_idx (Some (V6 (MkV6 ip 0 0 0))) in Ret (b, gro)
  else Ret (b, gro).

(** The walk over [CMSG_FIRSTHDR], [CMSG_NXTHDR], ... *)
Fixpoint cmsg_walk (out_idx : nat) (st : RecvBatchRaw.t * Z) (cs : list cmsghdr)
    : outcome (RecvBatchRaw.t * Z) :=
  match cs with
  | [] => Ret st
  | ch :: cs => let? st := cmsg_step out_idx st ch in cmsg_walk out_idx st cs
  end.

(** [batch.set_timestamp(next_idx, batch.timestamp(first_idx))] and the same for [dst_addr]. *)
Definition copy_meta b (first_idx next_idx : nat) : outcome RecvBatchRaw.t :=
  let? b :=
    if f_timestamping F then
      let? ts := RecvBatchRaw.timestamp b first_idx in
      RecvBatchRaw.set_timestamp b next_idx ts
    else Ret b in
  if f_pktinfo F then
    let? a := RecvBatchRaw.dst_addr b first_idx in
    RecvBatchRaw.set_dst_addr b next_idx a
  else Ret b.

(** [dst_buf[..seg_len].copy_from_slice(seg)] *)
Definition copy_into b (idx : nat) (seg : list Z) : outcome RecvBatchRaw.t :=
  let? dst := RecvBatchRaw.buffer b idx in
  if (length seg <=? length dst)%nat then RecvBatchRaw.set_buffer b idx (blit seg dst) else Panic.

(** [while offset < total_len]: the segments go to [first_idx], [first_idx + 1], ... *)
Fixpoint gro_loop (fuel : nat) (a : SocketAddr) (coalesced : list Z) (gro total first_idx : nat)
    b (seg_count offset : nat) : outcome (RecvBatchRaw.t * nat) :=
  match fuel with
  | O => NoFuel
  | S fuel =>
      if (offset <? total)%nat then
        let seg_end := Nat.min (offset + gro) total in
        let seg_len := (seg_end - offset)%nat in
        if (seg_count =? 0)%nat then
          let? b := RecvBatchRaw.set_recv_len b first_idx (Z.of_nat seg_len) in
          gro_loop fuel a coalesced gro total first_idx b (S seg_count) seg_end
        else
          let next_idx := (first_idx + seg_count)%nat in
          if (RecvBatchRaw.capacity b <=? next_idx)%nat then Ret (b, seg_count)
          else
            let? b := copy_into b next_idx (take seg_len (drop offset coalesced)) in
            let? b := RecvBatchRaw.set_recv_len b next_idx (Z.of_nat seg_len) in
            let? b := RecvBatchRaw.set_addr b next_idx a in
            let? b := copy_meta b first_idx next_idx in
            gro_loop fuel a coalesced gro total first_idx b (S seg_count) seg_end
      else Ret (b, seg_count)
  end.

(** The split of one coalesced message; the loop advances by at least one byte per turn. *)
Definition gro_split b (a : SocketAddr) (gro total first_idx : nat)
    : outcome (RecvBatchRaw.t * nat) :=
  let? bf := RecvBatchRaw.buffer b first_idx in
  if (total <=? length bf)%nat then
    gro_loop (S total) a (take total bf) gro total first_idx b 0 0
  else Panic.

(** One received message; returns the next [out_idx]. *)
Definition process_one b m (out_idx : nat) : outcome (RecvBatchRaw.t * nat) :=
  let? b := RecvBatchRaw.set_recv_len b out_idx (mo_len m) in
  let decoded_addr := decode_sockaddr (mo_name m) (mo_namelen m) in
  let? b := RecvBatchRaw.set_addr b out_idx decoded_addr in
  if f_gro F || f_timestamping F || f_pktinfo F then
    let? '(b, gro_seg_size) := cmsg_walk out_idx (b, 0) (mo_cmsgs m) in
    if 0 <? gro_seg_size then
      let? '(b, seg_count) :=
        gro_split b decoded_addr (Z.to_nat gro_seg_size) (Z.to_nat (mo_len m)) out_idx in
      Ret (b, out_idx + seg_count)%nat
    else Ret (b, S out_idx)
  else Ret (b, S out_idx).

(** [for i in 0..n] over the messages the kernel filled in. *)
Fixpoint process b (outs : list mmsg_out) (out_idx : nat) : outcome (RecvBatchRaw.t * nat) :=
  match outs with
  | [] => Ret (b, out_idx)
  | m :: outs => let? '(b, out_idx) := process_one b m out_idx in process b outs out_idx
  end.

Definition fallback_recv (fd : Fd) b : IO (io_result nat * RecvBatchRaw.t) :=
  recv_loop fd b (RecvBatchRaw.capacity b) 0 0.

(** [capacity as u32] *)
Definition recv_vlen b : nat := Z.to_nat (as_u32 (Z.of_nat (RecvBatchRaw.capacity b))).

Definition linux_try_recv_batch (fuel : nat) (fd : Fd) b : IO (io_result nat * RecvBatchRaw.t) :=
  let capacity := RecvBatchRaw.capacity b in
  if (capacity =? 0)%nat then mret (Ok 0%nat, b)
  else
    let! lens := lift (recv_iovecs b capacity 0) in
    let! r := retry_eintr fuel (sys_recvmmsg fd (take (recv_vlen b) lens)) in
    match r with
    | Err e => if is_enosys e then fallback_recv fd b else mret (Err e, b)
    | Ok (_, outs) =>
        let! '(b, out_idx) := lift (process (deliver b outs) outs 0) in
        mret (Ok out_idx, RecvBatchRaw.set_len b out_idx)
    end.

(** ** Interrupted calls *)

(** [retries f k h r h']: from [h], [k] calls fail with EINTR and the next one gives [r]. *)
Inductive retries {A} (f : IO (Z * A)) : nat → history → io_result (Z * A) → history → Prop :=
| retries_ok h n x h' : f h = Ret ((n, x), h') → 0 ≤ n → retries f 0 h (Ok (n, x)) h'
| retries_err h n x h' : f h = Ret ((n, x), h') → n < 0 →
    kind (OsError (k_errno h')) ≠ Interrupted → retries f 0 h (Err (OsError (k_errno h'))) h'
| retries_again k h n x h1 r h' : f h = Ret ((n, x), h1) → n < 0 →
    kind (OsError (k_errno h1)) = Interrupted → retries f k h1 r h' → retries f (S k) h r h'.

Lemma retry_complete {A} (f : IO (Z * A)) k fuel h r h' :
  retries f k h r h' → (k < fuel)%nat → retry_eintr fuel f h = Ret (r, h').
Proof.
  intros Hr. revert fuel.
  induction Hr as [h n x h' Hf Hn|h n x h' Hf Hn Hk|k h n x h1 r h' Hf Hn Hk Hr IH];
    intros [|fuel] Hlt; try lia; cbn [retry_eintr]; rewrite (mbind_Ret _ _ _ _ _ Hf).
  - by rewrite (proj2 (Z.leb_le _ _)).
  - rewrite (proj2 (Z.leb_gt _ _)) by done. unfold mbind, last_os_error, is_interrupted.
    by rewrite bool_decide_eq_false_2.
  - rewrite (proj2 (Z.leb_gt _ _)) by done. unfold mbind, last_os_error, is_interrupted.
    rewrite bool_decide_eq_true_2 by done. apply IH. lia.
Qed.

Lemma retry_sound {A} (f : IO (Z * A)) fuel h r h' :
  retry_eintr fuel f h = Ret (r, h') → ∃ k, (k < fuel)%nat ∧ retries f k h r h'.
Proof.
  revert h. induction fuel as [|fuel IH]; intros h; cbn [retry_eintr]; [done|].
  intros ([n x] & h1 & Hf & Hk)%mbind_inv. destruct (0 <=? n) eqn:En; reflect_bools.
  { injection Hk as <- <-. exists 0%nat. split; [lia|by econstructor]. }
  unfold mbind, last_os_error, is_interrupted in Hk. case_bool_decide as Hi.
  - apply IH in Hk as (k & Hlt & Hr). exists (S k). split; [lia|]. by econstructor.
  - injection Hk as <- <-. exists 0%nat. split; [lia|]. by econstructor.
Qed.

Lemma retries_not_interrupted {A} (f : IO (Z * A)) k h e h' :
  retries f k h (Err e) h' → kind e ≠ Interrupted.
Proof. intros Hr. remember (Err e) as r eqn:E. induction Hr; naive_solver. Qed.

(** ** Control messages *)
Definition slot_cmsg (s : RecvSlot) (ch : cmsghdr) : RecvSlot :=
  let lvl := cmsg_level ch in
  let ty := cmsg_type ch in
  if f_gro F && (lvl =? IPPROTO_UDP) && (ty =? UDP_GRO) then s
  else if f_timestamping F && (lvl =? SOL_SOCKET) && (ty =? SCM_TIMESTAMPNS) then
    let '(sec, nsec) := cmsg_timespec (cmsg_data ch) in
    set_slot_timestamp s (Some (MkTimestamp sec nsec))
  else if f_pktinfo F && (lvl =? IPPROTO_IP) && (ty =? IP_PKTINFO) then
    set_slot_dst_addr s (Some (V4 (MkV4 (Ipv4Addr_from_u32 (from_be little_endian 4
      (cmsg_in_pktinfo_addr (cmsg_data ch)))) 0)))
  else if f_pktinfo F && (lvl =? IPPROTO_IPV6) && (ty =? IPV6_PKTINFO) then
    set_slot_dst_addr s (Some (V6 (MkV6 (cmsg_in6_pktinfo_addr (cmsg_data ch)) 0 0 0)))
  else s.
Definition gro_cmsg (g : Z) (ch : cmsghdr) : Z :=
  if f_gro F && (cmsg_level ch =? IPPROTO_UDP) && (cmsg_type ch =? UDP_GRO)
  then cmsg_u16 (cmsg_data ch) else g.

(** The segment size the control messages of [m] announce, 0 for a plain datagram. *)
Definition gro_size m : Z := foldl gro_cmsg 0 (mo_cmsgs m).

Lemma cmsg_step_spec b g i s ch : RecvBatchRaw.slots b !! i = Some s →
  cmsg_step i (b, g) ch =
    Ret (RecvBatchRaw.Mk (<[i := slot_cmsg s ch]> (RecvBatchRaw.slots b)) (RecvBatchRaw.len b),
         gro_cmsg g ch).
Proof.
  intros Hs. unfold cmsg_step, slot_cmsg, gro_cmsg.
  unfold RecvBatchRaw.set_timestamp, RecvBatchRaw.set_dst_addr.
  repeat case_match; simplify_eq/=; try (by rewrite (update_lookup _ _ _ _ Hs));
    by rewrite list_insert_id; [destruct b|].
Qed.

Lemma cmsg_walk_spec b g i s cs : RecvBatchRaw.slots b !! i = Some s →
  cmsg_walk i (b, g) cs =
    Ret (RecvBatchRaw.Mk (<[i := foldl slot_cmsg s cs]> (RecvBatchRaw.slots b)) (RecvBatchRaw.len b),
         foldl gro_cmsg g cs).
Proof.
  revert b g s. induction cs as [|ch cs IH]; intros b g s Hs; cbn [cmsg_walk foldl].
  { by rewrite list_insert_id; [destruct b|]. }
  rewrite (cmsg_step_spec _ _ _ _ _ Hs); cbn [obind].
  erewrite IH by (simpl; by apply list_lookup_insert_eq, lookup_lt_is_Some_1).
  by simpl; rewrite list_insert_insert_eq.
Qed.

Lemma slot_cmsg_keeps s ch :
  buf (slot_cmsg s ch) = buf s ∧ addr (slot_cmsg s ch) = addr s ∧
  recv_len (slot_cmsg s ch) = recv_len s.
Proof. unfold slot_cmsg. repeat case_match; done. Qed.

Lemma slot_cmsgs_keep s cs :
  buf (foldl slot_cmsg s cs) = buf s ∧ addr (foldl slot_cmsg s cs) = addr s ∧
  recv_len (foldl slot_cmsg s cs) = recv_len s.
Proof.
  revert s. induction cs as [|ch cs IH]; intros s; simpl; [done|].
  destruct (IH (slot_cmsg s ch)) as (-> & -> & ->). apply slot_cmsg_keeps.
Qed.

Lemma slot_cmsgs_off s cs :
  f_gro F || f_timestamping F || f_pktinfo F = false → foldl slot_cmsg s cs = s.
Proof.
  intros [[Hg Ht]%orb_false_elim Hp]%orb_false_elim.
  revert s. induction cs as [|ch cs IH]; intros s; simpl; [done|].
  unfold slot_cmsg at 2. rewrite Hg, Ht, Hp; simpl. apply IH.
Qed.

(** ** Plain messages *)

(** A slot whose buffer already holds message [m], once the message has been processed. *)
Definition finish (s : RecvSlot) m : RecvSlot :=
  foldl slot_cmsg
    (MkRecvSlot (buf s) (decode_sockaddr (mo_name m) (mo_namelen m)) (as_u16 (mo_len m))
       (timestamp s) (dst_addr s)) (mo_cmsgs m).

Lemma gro_size_off m : f_gro F = false → gro_size m = 0.
Proof.
  intros Hg. unfold gro_size. generalize 0 (mo_cmsgs m). intros g cs. revert g.
  induction cs as [|ch cs IH]; intros g; simpl; [done|]. rewrite IH. unfold gro_cmsg. by rewrite Hg.
Qed.

(** Processing up to the split: the slot is finished, the segment size known. *)
Lemma process_one_finish b m i s : RecvBatchRaw.slots b !! i = Some s →
  let b' := RecvBatchRaw.Mk (<[i := finish s m]> (RecvBatchRaw.slots b)) (RecvBatchRaw.len b) in
  process_one b m i =
    if 0 <? gro_size m then
      let? '(b, seg_count) :=
        gro_split b' (decode_sockaddr (mo_name m) (mo_namelen m)) (Z.to_nat (gro_size m))
          (Z.to_nat (mo_len m)) i in
      Ret (b, i + seg_count)%nat
    else Ret (b', S i).
Proof.
  intros Hs b'. unfold process_one, RecvBatchRaw.set_recv_len, RecvBatchRaw.set_addr.
  pose proof (lookup_lt_Some _ _ _ Hs) as Hi.
  rewrite (update_lookup _ _ _ _ Hs); cbn [obind].
  erewrite update_lookup by (simpl; by apply list_lookup_insert_eq). cbn [obind].
  simpl RecvBatchRaw.slots. simpl RecvBatchRaw.len. rewrite list_insert_insert_eq.
  destruct (f_gro F || f_timestamping F || f_pktinfo F) eqn:EF.
  - erewrite cmsg_walk_spec by (simpl; by apply list_lookup_insert_eq). cbn [obind].
    simpl RecvBatchRaw.slots. rewrite list_insert_insert_eq. done.
  - rewrite gro_size_off by (by destruct (f_gro F)). unfold b', finish.
    by rewrite slot_cmsgs_off.
Qed.

Lemma process_plain outs pre mid post len :
  Forall (λ m, gro_size m ≤ 0) outs → length mid = length outs →
  process (RecvBatchRaw.Mk (pre ++ mid ++ post) len) outs (length pre) =
    Ret (RecvBatchRaw.Mk (pre ++ zip_with finish mid outs ++ post) len,
         length pre + length outs)%nat.
Proof.
  intros Hp. revert pre mid. induction Hp as [|m outs Hm Hp IH]; intros pre mid Hl.
  { destruct mid; [|done]. simpl. by rewrite Nat.add_0_r. }
  destruct mid as [|s mid]; [done|]. cbn [process].
  rewrite (process_one_finish _ _ _ s) by (simpl; by apply list_lookup_middle).
  rewrite (proj2 (Z.ltb_ge _ _)) by done. cbn [obind]. simpl RecvBatchRaw.slots.
  rewrite insert_app_r_alt, Nat.sub_diag by lia. simpl.
  specialize (IH (pre ++ [finish s m]) mid ltac:(simpl in Hl; lia)).
  rewrite length_app, <- !(assoc_L (++)) in IH; simpl in IH. rewrite Nat.add_1_r in IH.
  rewrite IH. do 2 f_equal. lia.
Qed.

Lemma process_plain_0 outs mid post len :
  Forall (λ m, gro_size m ≤ 0) outs → length mid = length outs →
  process (RecvBatchRaw.Mk (mid ++ post) len) outs 0 =
    Ret (RecvBatchRaw.Mk (zip_with finish mid outs ++ post) len, length outs).
Proof. exact (process_plain outs [] mid post len). Qed.

Lemma deliver_slots_app mid post outs : length mid = length outs →
  deliver_slots (mid ++ post) outs =
    zip_with (λ s m, set_slot_buf s (blit (mo_data m) (buf s))) mid outs ++ post.
Proof.
  revert mid. induction outs as [|m outs IH]; intros [|s mid] Hl; simpl; try done.
  - by destruct post.
  - by rewrite IH by (simpl in Hl; lia).
Qed.

(** A slot after it received the plain message [m]. *)
Definition filled (s : RecvSlot) m : RecvSlot :=
  finish (set_slot_buf s (blit (mo_data m) (buf s))) m.

(** What the kernel guarantees of the messages it puts into buffers of [bs] bytes. *)
Definition msg_ok (bs : nat) m : Prop :=
  mo_len m = Z.of_nat (length (mo_data m)) ∧ (length (mo_data m) ≤ bs)%nat ∧ mo_len m < 2 ^ 16.
Definition msg_packet m : list Z * SocketAddr :=
  (mo_data m, decode_sockaddr (mo_name m) (mo_namelen m)).

Lemma filled_fields s m :
  buf (filled s m) = blit (mo_data m) (buf s) ∧
  addr (filled s m) = decode_sockaddr (mo_name m) (mo_namelen m) ∧
  recv_len (filled s m) = as_u16 (mo_len m).
Proof.
  unfold filled, finish. match goal with |- context [foldl slot_cmsg ?s0 ?cs] =>
    by destruct (slot_cmsgs_keep s0 cs) as (-> & -> & ->) end.
Qed.

Lemma msg_ok_u16 bs m : msg_ok bs m → as_u16 (mo_len m) = Z.of_nat (length (mo_data m)).
Proof. intros (Hm & _ & Hudp). rewrite Hm. apply as_u16_small. lia. Qed.

Lemma filled_ok bs s m : slot_ok bs s → msg_ok bs m →
  slot_ok bs (filled s m) ∧ slot_packet (filled s m) = msg_packet m.
Proof.
  intros (Hl & Hr & Hu) Hm. pose proof (msg_ok_u16 bs m Hm) as E. destruct Hm as (Hm & Hle & Hudp).
  unfold slot_ok, slot_packet, slot_data. destruct (filled_fields s m) as (-> & -> & ->).
  rewrite E, Nat2Z.id, length_blit. split_and!; try lia.
  unfold msg_packet. by rewrite take_blit by lia.
Qed.

(** The slots after a receive of plain messages. *)
Definition filled_slots (sl : list RecvSlot) (outs : list mmsg_out) : list RecvSlot :=
  zip_with filled sl outs ++ drop (length outs) sl.

Lemma zip_with_finish sl outs :
  zip_with finish (zip_with (λ s m, set_slot_buf s (blit (mo_data m) (buf s))) sl outs) outs =
    zip_with filled sl outs.
Proof. revert sl. induction outs as [|m outs IH]; intros [|s sl]; simpl; [done..|]. by rewrite IH. Qed.

Lemma process_deliver_plain b outs :
  Forall (λ m, gro_size m ≤ 0) outs → (length outs ≤ RecvBatchRaw.capacity b)%nat →
  process (deliver b outs) outs 0 =
    Ret (RecvBatchRaw.Mk (filled_slots (RecvBatchRaw.slots b) outs) (RecvBatchRaw.len b),
         length outs).
Proof.
  intros Hp Hl. unfold RecvBatchRaw.capacity in Hl. unfold deliver, filled_slots.
  rewrite <- (take_drop (length outs) (RecvBatchRaw.slots b)) at 1.
  assert (Ht : length (take (length outs) (RecvBatchRaw.slots b)) = length outs)
    by (rewrite length_take; lia).
  rewrite deliver_slots_app by done.
  rewrite process_plain_0 by (done || rewrite length_zip_with; lia).
  rewrite zip_with_finish. simpl. do 4 f_equal.
  apply zip_with_take_l'. lia.
Qed.

(** ** Coalesced messages *)

(** A byte string cut into pieces of [g] bytes, the last one possibly shorter. *)
Fixpoint segs (fuel g : nat) (l : list Z) : list (list Z) :=
  match fuel, l with
  | S fuel, _ :: _ => take g l :: segs fuel g (drop g l)
  | _, _ => []
  end.
Definition segments (g : nat) (l : list Z) : list (list Z) := segs (length l) g l.

Lemma segs_fuel g l n n' : (0 < g)%nat → (length l ≤ n)%nat → (length l ≤ n')%nat →
  segs n g l = segs n' g l.
Proof.
  intros Hg. revert l n'. induction n as [|n IH]; intros l n' Hn Hm.
  { destruct l; simpl in Hn; [by destruct n'|lia]. }
  destruct l as [|x l]; [by destruct n'|]. destruct n' as [|n']; [simpl in Hm; lia|].
  cbn [segs]. f_equal. apply IH; rewrite length_drop; simpl in *; lia.
Qed.

Lemma segments_step g l : (0 < g)%nat → l ≠ [] → segments g l = take g l :: segments g (drop g l).
Proof.
  intros Hg Hl. destruct l as [|x l]; [done|]. unfold segments. cbn [length segs]. f_equal.
  apply segs_fuel; rewrite ?length_drop; simpl; lia.
Qed.

Lemma segments_concat g l : (0 < g)%nat → concat (segments g l) = l.
Proof.
  intros Hg. remember (length l) as n eqn:Hn. assert (Hle : (length l ≤ n)%nat) by lia. clear Hn.
  revert l Hle. induction n as [|n IH]; intros l Hle.
  { by destruct l; [|simpl in Hle; lia]. }
  destruct l as [|x l]; [done|]. rewrite segments_step by done. cbn [concat].
  rewrite IH; [apply take_drop|]. rewrite length_drop. simpl in *. lia.
Qed.

(** Slot [s] once segment [seg] of the message in slot [s0] has been put into it. *)
Definition seg_slot (s0 : RecvSlot) (a : SocketAddr) (s : RecvSlot) (seg : list Z) : RecvSlot :=
  MkRecvSlot (blit seg (buf s)) a (as_u16 (Z.of_nat (length seg)))
    (if f_timestamping F then timestamp s0 else timestamp s)
    (if f_pktinfo F then dst_addr s0 else dst_addr s).
Fixpoint place (s0 : RecvSlot) (a : SocketAddr) (sl : list RecvSlot) (ss : list (list Z))
    : list RecvSlot :=
  match sl, ss with
  | s :: sl, seg :: ss => seg_slot s0 a s seg :: place s0 a sl ss
  | sl, _ => sl
  end.

Lemma copy_meta_spec sl n first next s0 s :
  sl !! first = Some s0 → sl !! next = Some s → first ≠ next →
  copy_meta (RecvBatchRaw.Mk sl n) first next =
    Ret (RecvBatchRaw.Mk
      (<[next := MkRecvSlot (buf s) (addr s) (recv_len s)
                   (if f_timestamping F then timestamp s0 else timestamp s)
                   (if f_pktinfo F then dst_addr s0 else dst_addr s)]> sl) n).
Proof.
  intros H0 Hs Hne. pose proof (lookup_lt_Some _ _ _ Hs) as Hlt. unfold copy_meta.
  unfold RecvBatchRaw.timestamp, RecvBatchRaw.dst_addr, RecvBatchRaw.set_timestamp,
    RecvBatchRaw.set_dst_addr.
  destruct (f_timestamping F); simpl; rewrite ?(oindex_Ret _ _ _ H0); simpl.
  - rewrite (update_lookup (RecvBatchRaw.Mk sl n) _ s) by done; simpl. destruct (f_pktinfo F); [|by destruct s].
    rewrite (oindex_Ret _ first s0) by (by rewrite list_lookup_insert_ne). simpl.
    erewrite update_lookup by (simpl; by apply list_lookup_insert_eq).
    simpl. by rewrite list_insert_insert_eq.
  - destruct (f_pktinfo F).
    + simpl. by erewrite update_lookup by done.
    + rewrite list_insert_id; [done|]. by destruct s.
Qed.

(** The body of the loop for a later segment. *)
Lemma seg_body sl n first next s0 s a seg (k : RecvBatchRaw.t → outcome (RecvBatchRaw.t * nat)) :
  sl !! first = Some s0 → sl !! next = Some s → first ≠ next →
  (length seg ≤ length (buf s))%nat →
  (let? b := copy_into (RecvBatchRaw.Mk sl n) next seg in
   let? b := RecvBatchRaw.set_recv_len b next (Z.of_nat (length seg)) in
   let? b := RecvBatchRaw.set_addr b next a in
   let? b := copy_meta b first next in k b) =
  k (RecvBatchRaw.Mk (<[next := seg_slot s0 a s seg]> sl) n).
Proof.
  intros H0 Hs Hne Hl. pose proof (lookup_lt_Some _ _ _ Hs) as Hlt.
  unfold copy_into, RecvBatchRaw.buffer, RecvBatchRaw.set_buffer, RecvBatchRaw.set_recv_len,
    RecvBatchRaw.set_addr. simpl.
  rewrite (oindex_Ret _ _ _ Hs); simpl. rewrite (proj2 (Nat.leb_le _ _) Hl).
  rewrite (update_lookup (RecvBatchRaw.Mk sl n) _ s) by done; simpl.
  erewrite update_lookup by (simpl; by apply list_lookup_insert_eq). simpl.
  rewrite list_insert_insert_eq.
  erewrite update_lookup by (simpl; by apply list_lookup_insert_eq). simpl.
  rewrite list_insert_insert_eq.
  erewrite copy_meta_spec;
    [|by rewrite list_lookup_insert_ne|by apply list_lookup_insert_eq|done].
  simpl. by rewrite list_insert_insert_eq.
Qed.

Lemma length_place s0 a sl ss : length (place s0 a sl ss) = length sl.
Proof. revert ss. induction sl as [|s sl IH]; intros [|seg ss]; simpl; auto. Qed.

Lemma place_meta s0 s1 a sl ss :
  timestamp s0 = timestamp s1 → dst_addr s0 = dst_addr s1 → place s0 a sl ss = place s1 a sl ss.
Proof.
  intros Ht Hd. revert ss. induction sl as [|s sl IH]; intros [|seg ss]; simpl; [done..|].
  unfold seg_slot. by rewrite Ht, Hd, IH.
Qed.

Lemma seg_take (c : list Z) offset g : (offset < length c)%nat →
  take (Nat.min (offset + g) (length c) - offset) (drop offset c) = take g (drop offset c) ∧
  length (take g (drop offset c)) = (Nat.min (offset + g) (length c) - offset)%nat ∧
  drop (Nat.min (offset + g) (length c)) c = drop g (drop offset c).
Proof.
  intros Ho. assert (Hl : length (drop offset c) = (length c - offset)%nat) by apply length_drop.
  split_and!.
  - destruct (decide (offset + g ≤ length c)%nat).
    + rewrite Nat.min_l by lia. f_equal. lia.
    + rewrite !take_ge; [done|lia..].
  - rewrite length_take, Hl. lia.
  - rewrite drop_drop. destruct (decide (offset + g ≤ length c)%nat).
    + by rewrite Nat.min_l by lia.
    + rewrite !drop_ge; [done|lia..].
Qed.

(** From the second segment on: slots from [first + k] take the segments of the rest, as many as
    there are slots. *)
Lemma gro_loop_spec bs a c g first s0 fuel : ∀ sl n k offset,
  (0 < g)%nat → (0 < k)%nat → (length c ≤ bs)%nat →
  Forall (λ s, length (buf s) = bs) sl → sl !! first = Some s0 →
  (offset ≤ length c)%nat → (length c - offset < fuel)%nat → (first + k ≤ length sl)%nat →
  let ss := segments g (drop offset c) in
  gro_loop fuel a c g (length c) first (RecvBatchRaw.Mk sl n) k offset =
    Ret (RecvBatchRaw.Mk (take (first + k) sl ++ place s0 a (drop (first + k) sl) ss) n,
         k + Nat.min (length ss) (length sl - (first + k)))%nat.
Proof.
  induction fuel as [|fuel IH]; intros sl n k offset Hg Hk Hc Hsl H0 Ho Hf Hfk ss; [lia|].
  cbn [gro_loop]. destruct (Nat.ltb_spec offset (length c)) as [Hlt|Hge].
  2:{ unfold ss. rewrite (drop_ge c) by lia. cbn. rewrite Nat.add_0_r. do 3 f_equal.
      rewrite <- (take_drop (first + k) sl) at 1. by destruct (drop (first + k) sl). }
  destruct (Nat.eqb_spec k 0); [lia|]. unfold RecvBatchRaw.capacity; simpl RecvBatchRaw.slots.
  destruct (seg_take c offset g Hlt) as (-> & Hlen & Hdrop). rewrite <- Hlen.
  assert (Hss : ss = take g (drop offset c) :: segments g (drop (Nat.min (offset + g) (length c)) c)).
  { unfold ss. rewrite Hdrop. apply segments_step; [done|]. intros E%(f_equal length).
    rewrite length_drop in E. simpl in E. lia. }
  destruct (Nat.leb_spec (length sl) (first + k)) as [Hfull|Hroom].
  { rewrite drop_ge, take_ge by lia. simpl. rewrite app_nil_r. do 3 f_equal. lia. }
  destruct (lookup_lt_is_Some_2 sl (first + k) Hroom) as [s Hs].
  pose proof (Forall_lookup_1 _ _ _ _ Hsl Hs) as Hbs; simpl in Hbs.
  rewrite (seg_body sl n first (first + k) s0 s) by (done || lia).
  rewrite IH; try done; try lia.
  - rewrite length_insert, Hss. simpl length. do 2 f_equal; [|lia]. f_equal.
    rewrite Nat.add_succ_r, (drop_S sl s (first + k)) by done. cbn [place].
    rewrite drop_insert_lt by lia.
    rewrite (take_S_r _ _ (seg_slot s0 a s (take g (drop offset c))))
      by (by apply list_lookup_insert_eq).
    rewrite take_insert_ge by lia. by rewrite <- (assoc_L (++)).
  - apply Forall_insert; [done|]. simpl. by rewrite length_blit.
  - rewrite list_lookup_insert_ne by lia. done.
  - rewrite length_insert. lia.
Qed.

(** A message of [total] bytes in the buffer of slot [s], announced as segments of [g]: slot [s]
    keeps the first segment, the following slots get the others. *)
Lemma gro_split_spec bs a g total pre s post n :
  (0 < g)%nat → (0 < total)%nat → (total ≤ bs)%nat →
  Forall (λ s, length (buf s) = bs) (pre ++ s :: post) →
  let ss := segments g (take total (buf s)) in
  gro_split (RecvBatchRaw.Mk (pre ++ s :: post) n) a g total (length pre) =
    Ret (RecvBatchRaw.Mk
           (pre ++ set_slot_recv_len s (as_u16 (Z.of_nat (Nat.min g total)))
                :: place s a post (drop 1 ss)) n,
         Nat.min (length ss) (S (length post))).
Proof.
  intros Hg Ht Hbs Hall ss.
  assert (Hs : (pre ++ s :: post) !! length pre = Some s) by by apply list_lookup_middle.
  pose proof (Forall_lookup_1 _ _ _ _ Hall Hs) as Hlen; simpl in Hlen.
  unfold gro_split, RecvBatchRaw.buffer; simpl. rewrite (oindex_Ret _ _ _ Hs); simpl.
  rewrite (proj2 (Nat.leb_le _ _)) by lia.
  set (c := take total (buf s)) in *.
  assert (Hc : length c = total) by (unfold c; rewrite length_take; lia).
  destruct (Nat.ltb_spec 0 total) as [_|]; [|lia].
  unfold RecvBatchRaw.set_recv_len. rewrite (update_lookup _ _ s) by done. cbn [obind].
  simpl RecvBatchRaw.slots. rewrite insert_app_r_alt, Nat.sub_diag, Nat.sub_0_r by lia. simpl.
  set (s1 := set_slot_recv_len s _).
  destruct (seg_take c 0 g ltac:(lia)) as (_ & _ & Hdrop). rewrite Hc, drop_0 in Hdrop; simpl in Hdrop.
  rewrite <- Hc at 2 3. rewrite (gro_loop_spec bs a c g (length pre) s1); try done; try lia.
  - rewrite Hc, Hdrop. unfold ss. rewrite (segments_step g c) by (done || (intros E; rewrite E in Hc; simpl in Hc; lia)).
    rewrite length_app. simpl. rewrite drop_0, <- (place_meta s s1) by done. do 2 f_equal; [|lia].
    f_equal. rewrite cons_middle, (assoc_L (++)).
    assert (Hp : length (pre ++ [s1]) = (length pre + 1)%nat) by (rewrite length_app; done).
    rewrite <- Hp, take_app_length, drop_app_length. by rewrite <- (assoc_L (++)).
  - apply Forall_app in Hall as [Hpre Hpost]. apply Forall_app. split; [done|].
    inversion_clear Hpost. by constructor.
  - by apply list_lookup_middle.
  - rewrite length_app. simpl. lia.
Qed.

Lemma filled_slots_spec bs sl outs :
  Forall (slot_ok bs) sl → Forall (msg_ok bs) outs → (length outs ≤ length sl)%nat →
  Forall (slot_ok bs) (filled_slots sl outs) ∧ length (filled_slots sl outs) = length sl ∧
  slot_packet <$> take (length outs) (filled_slots sl outs) = msg_packet <$> outs.
Proof.
  intros Hs Hm. revert sl Hs. induction Hm as [|m outs Hm Hms IH]; intros sl Hs Hl.
  { unfold filled_slots. by destruct sl. }
  destruct Hs as [|s sl Hs Hsl]; simpl in Hl; [lia|].
  destruct (IH sl Hsl) as (Hf & Hlen & Hpk); [lia|]. destruct (filled_ok bs s m Hs Hm) as [Hok Hp].
  unfold filled_slots; simpl. split_and!.
  - by constructor.
  - by f_equal.
  - change (slot_packet (filled s m) :: (slot_packet <$> take (length outs) (filled_slots sl outs))
            = msg_packet m :: (msg_packet <$> outs)). by rewrite Hp, Hpk.
Qed.

Lemma segments_length g l : (0 < g)%nat →
  Forall (λ seg, (0 < length seg ≤ g)%nat ∧ (length seg ≤ length l)%nat) (segments g l).
Proof.
  intros Hg. remember (length l) as n eqn:Hn. assert (Hle : (length l ≤ n)%nat) by lia. clear Hn.
  revert l Hle. induction n as [|n IH]; intros l Hle.
  { destruct l; [constructor|simpl in Hle; lia]. }
  destruct l as [|x l]; [constructor|]. rewrite segments_step by done. constructor.
  - rewrite length_take. simpl length in *. lia.
  - eapply Forall_impl; [|apply IH; rewrite length_drop; simpl in *; lia]. simpl. lia.
Qed.

Lemma seg_slot_ok bs s0 a s seg : slot_ok bs s → (length seg ≤ bs)%nat →
  Z.of_nat (length seg) < 2 ^ 16 →
  slot_ok bs (seg_slot s0 a s seg) ∧ slot_packet (seg_slot s0 a s seg) = (seg, a).
Proof.
  intros (Hl & _ & _) Hle Hu. unfold slot_ok, slot_packet, slot_data, seg_slot; simpl.
  rewrite as_u16_small, Nat2Z.id, length_blit, take_blit by lia. split_and!; done || lia.
Qed.

Lemma place_spec bs s0 a sl ss : Forall (slot_ok bs) sl →
  Forall (λ seg, (length seg ≤ bs)%nat ∧ Z.of_nat (length seg) < 2 ^ 16) ss →
  Forall (slot_ok bs) (place s0 a sl ss) ∧
  slot_packet <$> take (length ss) (place s0 a sl ss) = (λ seg, (seg, a)) <$> take (length sl) ss.
Proof.
  intros Hsl. revert ss. induction Hsl as [|s sl Hs Hsl IH]; intros ss Hss.
  { by destruct ss. }
  destruct Hss as [|seg ss [Hle Hu] Hss]; [split; [by constructor|done]|].
  destruct (IH ss Hss) as [Hok Hpk]. destruct (seg_slot_ok bs s0 a s seg Hs Hle Hu) as [Hok1 Hpk1].
  split; [by constructor|]. cbn [place length firstn]. by rewrite !fmap_cons, Hpk, Hpk1.
Qed.

Lemma process_app b o1 o2 i :
  process b (o1 ++ o2) i = let? '(b, i) := process b o1 i in process b o2 i.
Proof.
  revert b i. induction o1 as [|m o1 IH]; intros b i; cbn [process app]; [done|].
  destruct (process_one b m i) as [[b' i']| | |]; [apply IH|done..].
Qed.

Lemma process_gro bs pre s post n m :
  slot_ok bs s → Forall (λ s, length (buf s) = bs) (pre ++ filled s m :: post) →
  msg_ok bs m → 0 < gro_size m → (0 < length (mo_data m))%nat →
  let g := Z.to_nat (gro_size m) in
  let a := decode_sockaddr (mo_name m) (mo_namelen m) in
  let ss := segments g (mo_data m) in
  process (RecvBatchRaw.Mk (pre ++ set_slot_buf s (blit (mo_data m) (buf s)) :: post) n) [m]
    (length pre) =
  Ret (RecvBatchRaw.Mk
         (pre ++ set_slot_recv_len (filled s m) (as_u16 (Z.of_nat (Nat.min g (length (mo_data m)))))
              :: place (filled s m) a post (drop 1 ss)) n,
       length pre + Nat.min (length ss) (S (length post)))%nat.
Proof.
  intros (Hbs & _) Hall Hm Hg Hpos g a ss. destruct Hm as (Hlen & Hle & Hu). cbn [process].
  erewrite process_one_finish by (simpl; by apply list_lookup_middle).
  rewrite (proj2 (Z.ltb_lt _ _)) by done. simpl RecvBatchRaw.slots.
  rewrite insert_app_r_alt, Nat.sub_diag by lia. simpl. fold (filled s m).
  rewrite Hlen, Nat2Z.id, (gro_split_spec bs) by (done || lia). cbn [obind].
  replace (take (length (mo_data m)) (buf (filled s m))) with (mo_data m); [done|].
  rewrite (proj1 (filled_fields s m)), take_blit; [done|lia].
Qed.

Lemma segments_cons g l : (0 < g)%nat → l ≠ [] →
  segments g l = take g l :: drop 1 (segments g l).
Proof. intros Hg Hl. rewrite segments_step by done. by rewrite skipn_cons, drop_0. Qed.

(** ** A receive in which only the last message is coalesced *)

(** The slots [mid ++ s :: post] after plain messages [init] and the coalesced [m]. *)
Definition gro_slots mid s post init m : list RecvSlot :=
  let g := Z.to_nat (gro_size m) in
  zip_with filled mid init
  ++ set_slot_recv_len (filled s m) (as_u16 (Z.of_nat (Nat.min g (length (mo_data m)))))
  :: place (filled s m) (msg_packet m).2 post (drop 1 (segments g (mo_data m))).

Lemma zip_filled_spec bs mid init : Forall (slot_ok bs) mid → Forall (msg_ok bs) init →
  length mid = length init →
  Forall (slot_ok bs) (zip_with filled mid init) ∧
  slot_packet <$> zip_with filled mid init = msg_packet <$> init.
Proof.
  intros Hs Hm Hl. destruct (filled_slots_spec bs mid init Hs Hm ltac:(lia)) as (H1 & H2 & H3).
  unfold filled_slots in *. rewrite drop_ge, app_nil_r in * by lia. split; [done|].
  rewrite <- H3, take_ge; [done|lia].
Qed.

Lemma process_deliver_gro bs b mid s post init m :
  RecvBatchRaw.slots b = mid ++ s :: post → length mid = length init →
  Forall (slot_ok bs) (mid ++ s :: post) → Forall (msg_ok bs) (init ++ [m]) →
  Forall (λ m, gro_size m ≤ 0) init → 0 < gro_size m → (0 < length (mo_data m))%nat →
  process (deliver b (init ++ [m])) (init ++ [m]) 0 =
    Ret (RecvBatchRaw.Mk (gro_slots mid s post init m) (RecvBatchRaw.len b),
         length init + Nat.min (length (segments (Z.to_nat (gro_size m)) (mo_data m)))
                         (S (length post)))%nat.
Proof.
  intros Esl Hmid Hall Hok Hplain Hg Hpos.
  apply Forall_app in Hall as [Hmids Hrest]. inversion_clear Hrest as [|? ? Hsok Hposts].
  apply Forall_app in Hok as [Hinit Hm]. inversion_clear Hm as [|? ? Hmok _].
  destruct (zip_filled_spec bs mid init Hmids Hinit Hmid) as [Hpre _].
  assert (Hlz : length (zip_with filled mid init) = length init) by (rewrite length_zip_with; lia).
  rewrite process_app. unfold deliver. rewrite Esl, cons_middle, (assoc_L (++)).
  rewrite deliver_slots_app by (rewrite !length_app, Hmid; done).
  rewrite zip_with_app by done. rewrite <- (assoc_L (++)).
  rewrite process_plain_0 by (done || rewrite length_zip_with; lia).
  cbn [obind]. rewrite zip_with_finish, <- Hlz. simpl.
  apply (process_gro bs); try done. apply Forall_app. split.
  - eapply Forall_impl; [|exact Hpre]. by intros ? (? & _).
  - constructor; [by destruct (filled_ok bs s m Hsok Hmok) as [(? & _) _]|].
    eapply Forall_impl; [|exact Hposts]. by intros ? (? & _).
Qed.

Lemma first_segment_ok bs s m : slot_ok bs s → msg_ok bs m →
  let g := Z.to_nat (gro_size m) in
  let s1 := set_slot_recv_len (filled s m) (as_u16 (Z.of_nat (Nat.min g (length (mo_data m))))) in
  slot_ok bs s1 ∧ slot_packet s1 = (take g (mo_data m), (msg_packet m).2).
Proof.
  intros Hs Hm g s1. destruct (filled_ok bs s m Hs Hm) as [(Hb & _) _].
  destruct Hs as (Hl & _). destruct Hm as (Hml & Hmle & Hmu).
  unfold s1, slot_ok, slot_packet, slot_data; simpl. rewrite as_u16_small, Nat2Z.id by lia.
  destruct (filled_fields s m) as (Hbuf & Ha & _). rewrite Ha. split; [split_and!; done || lia|].
  f_equal. rewrite Hbuf, take_blit_le by lia. destruct (decide (g ≤ length (mo_data m))%nat).
  - by rewrite Nat.min_l.
  - rewrite Nat.min_r, !take_ge; done || lia.
Qed.

Lemma gro_slots_spec bs mid s post init m :
  length mid = length init →
  Forall (slot_ok bs) (mid ++ s :: post) → Forall (msg_ok bs) (init ++ [m]) →
  0 < gro_size m → (0 < length (mo_data m))%nat →
  let ss := segments (Z.to_nat (gro_size m)) (mo_data m) in
  Forall (slot_ok bs) (gro_slots mid s post init m) ∧
  length (gro_slots mid s post init m) = length (mid ++ s :: post) ∧
  slot_packet <$> take (length init + Nat.min (length ss) (S (length post)))
                    (gro_slots mid s post init m) =
    (msg_packet <$> init) ++ ((λ seg, (seg, (msg_packet m).2)) <$> take (S (length post)) ss).
Proof.
  intros Hmid Hall Hok Hg Hpos ss.
  apply Forall_app in Hall as [Hmids Hrest]. inversion_clear Hrest as [|? ? Hsok Hposts].
  apply Forall_app in Hok as [Hinit Hm]. inversion_clear Hm as [|? ? Hmok _].
  destruct (zip_filled_spec bs mid init Hmids Hinit Hmid) as [Hpre Hprep].
  assert (Hlz : length (zip_with filled mid init) = length init) by (rewrite length_zip_with; lia).
  destruct (first_segment_ok bs s m Hsok Hmok) as [Hs1 Hs1p].
  destruct Hmok as (Hml & Hmle & Hmu). set (g := Z.to_nat (gro_size m)) in *.
  assert (Hss : ss = take g (mo_data m) :: drop 1 ss).
  { apply segments_cons; [lia|]. intros E. rewrite E in Hpos. simpl in Hpos. lia. }
  assert (Hsl := segments_length g (mo_data m) ltac:(lia)). fold ss in Hsl.
  destruct (place_spec bs (filled s m) (msg_packet m).2 post (drop 1 ss) Hposts) as [Hpl Hplp].
  { apply Forall_drop. eapply Forall_impl; [|exact Hsl]. simpl. lia. }
  unfold gro_slots. fold g ss. set (tl := drop 1 ss) in *. split_and!.
  - apply Forall_app. split; [done|by constructor].
  - rewrite !length_app; simpl. rewrite length_place. lia.
  - rewrite take_app_ge, fmap_app, Hprep by lia. f_equal. rewrite Hss, Hlz. simpl length.
    replace (length init + _ - length init)%nat
      with (S (Nat.min (length tl) (length post))) by lia.
    rewrite !firstn_cons, !fmap_cons, Hs1p, <- Hplp. f_equal.
    destruct (decide (length tl ≤ length post)%nat).
    + by rewrite Nat.min_l by lia.
    + rewrite Nat.min_r by lia. rewrite !take_ge; rewrite ?length_place; done || lia.
Qed.

(** ** The call *)
Lemma recv_iovecs_spec b n i : (i + n = RecvBatchRaw.capacity b)%nat →
  recv_iovecs b n i = Ret ((λ s, length (buf s)) <$> drop i (RecvBatchRaw.slots b)).
Proof.
  unfold RecvBatchRaw.capacity. revert i. induction n as [|n IH]; intros i Hi; simpl.
  { by rewrite drop_ge by lia. }
  destruct (lookup_lt_is_Some_2 (RecvBatchRaw.slots b) i) as [s Hs]; [lia|].
  unfold RecvBatchRaw.buffer. rewrite (oindex_Ret _ _ _ Hs); simpl. rewrite IH by lia.
  by rewrite (drop_S _ _ _ Hs).
Qed.

Lemma recv_vlen_le b : (recv_vlen b ≤ RecvBatchRaw.capacity b)%nat.
Proof.
  unfold recv_vlen, as_u32.
  pose proof (Z.mod_le (Z.of_nat (RecvBatchRaw.capacity b)) (2 ^ 32) ltac:(lia) ltac:(lia)). lia.
Qed.

Lemma recv_lens bs b : recv_wf bs b →
  take (recv_vlen b) ((λ s, length (buf s)) <$> RecvBatchRaw.slots b) = replicate (recv_vlen b) bs.
Proof.
  intros [Hall _]. pose proof (recv_vlen_le b) as Hv. unfold RecvBatchRaw.capacity in Hv.
  rewrite <- fmap_take.
  rewrite (const_fmap _ _ bs).
  - by rewrite length_take, Nat.min_l.
  - intros i s [Hs _]%lookup_take_Some. by apply (Forall_lookup_1 _ _ _ _ Hall) in Hs as [? _].
Qed.

(** The call a receive on [b] repeats until it is not interrupted. *)
Definition recv_call bs (fd : Fd) b : IO (Z * list mmsg_out) :=
  sys_recvmmsg fd (replicate (recv_vlen b) bs).

Lemma linux_recv_unfold bs fuel fd b h : recv_wf bs b → RecvBatchRaw.capacity b ≠ 0%nat →
  linux_try_recv_batch fuel fd b h =
    (let! r := retry_eintr fuel (recv_call bs fd b) in
     match r with
     | Err e => if is_enosys e then fallback_recv fd b else mret (Err e, b)
     | Ok (_, outs) =>
         let! '(b, out_idx) := lift (process (deliver b outs) outs 0) in
         mret (Ok out_idx, RecvBatchRaw.set_len b out_idx)
     end) h.
Proof.
  intros Hwf Hne. unfold linux_try_recv_batch. rewrite (proj2 (Nat.eqb_neq _ _) Hne).
  unfold mbind at 1, lift at 1. rewrite recv_iovecs_spec by done. by rewrite drop_0, (recv_lens bs).
Qed.

Context {KL : KernelLaws}.

Lemma retries_history bs fd b k h r h' :
  retries (recv_call bs fd b) k h r h' → ∃ evs, h' = h ++ evs.
Proof.
  unfold recv_call, sys_recvmmsg.
  induction 1 as [h n x h' Hf _|h n x h' Hf _ _|k h n x h1 r h' Hf _ _ _ [evs ->]];
    destruct (k_recvmmsg _ _ _); simplify_eq/=; eauto. rewrite <- (assoc_L (++)). eauto.
Qed.

Lemma retries_msgs bs fd b k h n outs h' :
  retries (recv_call bs fd b) k h (Ok (n, outs)) h' →
  (length outs ≤ RecvBatchRaw.capacity b)%nat ∧ Forall (msg_ok bs) outs.
Proof.
  intros Hr. remember (Ok (n, outs)) as r eqn:E. induction Hr as [h n' x h' Hf Hn| |]; simplify_eq; auto.
  unfold recv_call, sys_recvmmsg in Hf.
  destruct (k_recvmmsg h fd (replicate (recv_vlen b) bs)) as [n'' outs'] eqn:Hk; simplify_eq.
  destruct (recvmmsg_count _ _ _ _ _ Hk Hn) as [_ Hle]. rewrite length_replicate in Hle.
  pose proof (recv_vlen_le b). split; [lia|]. apply Forall_lookup. intros i m Hm.
  apply (recvmmsg_fits _ _ _ _ _ i m bs Hk Hm). apply lookup_replicate_2.
  apply lookup_lt_Some in Hm. lia.
Qed.

Lemma linux_recv_process bs fuel fd b k h n outs h' b' i :
  recv_wf bs b → RecvBatchRaw.capacity b ≠ 0%nat → (k < fuel)%nat →
  retries (recv_call bs fd b) k h (Ok (n, outs)) h' →
  process (deliver b outs) outs 0 = Ret (b', i) →
  linux_try_recv_batch fuel fd b h = Ret ((Ok i, RecvBatchRaw.set_len b' i), h').
Proof.
  intros Hwf Hne Hk Hr Hp. rewrite (linux_recv_unfold bs) by done.
  rewrite (mbind_Ret _ _ _ _ _ (retry_complete _ _ _ _ _ _ Hr Hk)).
  unfold mbind, lift. by rewrite Hp.
Qed.

(** The control messages that carry a timestamp. *)
Definition is_timestamp (ch : cmsghdr) : bool :=
  (cmsg_level ch =? SOL_SOCKET) && (cmsg_type ch =? SCM_TIMESTAMPNS).

Lemma slot_cmsgs_no_timestamp s cs :
  forallb (λ ch, negb (is_timestamp ch)) cs = true → timestamp (foldl slot_cmsg s cs) = timestamp s.
Proof.
  revert s. induction cs as [|ch cs IH]; intros s; simpl; [done|].
  intros [Hch Hcs]%andb_true_iff. rewrite IH by done. unfold slot_cmsg, is_timestamp in *.
  apply negb_true_iff in Hch. rewrite <- !andb_assoc, Hch, andb_false_r. repeat case_match; done.
Qed.

(** A message that fills two slots, followed by a plain one. *)
Lemma process_gro_then_plain bs b s1 s2 s3 post m1 m2 :
  RecvBatchRaw.slots b = s1 :: s2 :: s3 :: post → Forall (slot_ok bs) (RecvBatchRaw.slots b) →
  msg_ok bs m1 → msg_ok bs m2 → 0 < gro_size m1 → gro_size m2 ≤ 0 →
  length (segments (Z.to_nat (gro_size m1)) (mo_data m1)) = 2%nat →
  ∃ t1 t2 t3, process (deliver b [m1; m2]) [m1; m2] 0 =
      Ret (RecvBatchRaw.Mk (t1 :: t2 :: t3 :: post) (RecvBatchRaw.len b), 3%nat) ∧
    slot_packet <$> [t1; t2] =
      (λ seg, (seg, (msg_packet m1).2)) <$> segments (Z.to_nat (gro_size m1)) (mo_data m1) ∧
    slot_packet t3 = (take (length (mo_data m2)) (buf s3), (msg_packet m2).2).
Proof.
  intros Esl Hall Hm1 Hm2 Hg Hp Hss. rewrite Esl in Hall.
  assert (Hpos : (0 < length (mo_data m1))%nat).
  { destruct (mo_data m1) as [|x d]; [|simpl; lia]. done. }
  inversion_clear Hall as [|? ? Hs1 Hall']. inversion_clear Hall' as [|? ? Hs2 Hall''].
  set (s2' := set_slot_buf s2 (blit (mo_data m2) (buf s2))).
  assert (Hs2' : slot_ok bs s2') by by apply set_buffer_ok.
  assert (Hbufs : Forall (λ s, length (buf s) = bs) (filled s1 m1 :: s2' :: s3 :: post)).
  { constructor; [by destruct (filled_ok bs s1 m1 Hs1 Hm1) as [(? & _) _]|].
    constructor; [by destruct Hs2'|]. eapply Forall_impl; [|exact Hall'']. by intros ? (? & _). }
  pose proof (process_gro bs [] s1 (s2' :: s3 :: post) (RecvBatchRaw.len b) m1 Hs1 Hbufs Hm1 Hg Hpos)
    as E1. cbn [app length] in E1.
  destruct (gro_slots_spec bs [] s1 (s2' :: s3 :: post) [] m1) as (_ & _ & Hpk); try done.
  { do 2 (constructor; [done|]). done. }
  { constructor; [done|constructor]. }
  unfold gro_slots in Hpk. cbn [app zip_with] in Hpk.
  destruct (segments _ (mo_data m1)) as [|g1 [|g2 [|g3 gs]]]; try done.
  cbn [skipn place length Nat.min Nat.add] in E1, Hpk.
  eexists _, _, (finish s3 m2). split_and!.
  - change [m1; m2] with ([m1] ++ [m2]) at 2. rewrite process_app.
    unfold deliver. rewrite Esl. cbn [deliver_slots]. fold s2'. rewrite E1. cbn [obind process].
    erewrite process_one_finish by done.
    rewrite (proj2 (Z.ltb_ge _ _)) by done. reflexivity.
  - exact Hpk.
  - pose proof (msg_ok_u16 bs m2 Hm2) as E2. unfold finish, slot_packet, slot_data.
    match goal with |- context [foldl slot_cmsg ?s0 ?cs] =>
      destruct (slot_cmsgs_keep s0 cs) as (-> & -> & ->) end.
    simpl. by rewrite E2, Nat2Z.id.
Qed.

(** A message that fills every slot, followed by another one. *)
Lemma process_gro_overflow bs b s post m1 m2 outs :
  RecvBatchRaw.slots b = s :: post → Forall (slot_ok bs) (RecvBatchRaw.slots b) →
  msg_ok bs m1 → 0 < gro_size m1 →
  (RecvBatchRaw.capacity b ≤ length (segments (Z.to_nat (gro_size m1)) (mo_data m1)))%nat →
  process (deliver b (m1 :: m2 :: outs)) (m1 :: m2 :: outs) 0 = Panic.
Proof.
  intros Esl Hall Hm1 Hg Hss. unfold RecvBatchRaw.capacity in Hss. rewrite Esl in Hall, Hss.
  simpl in Hss. assert (Hpos : (0 < length (mo_data m1))%nat).
  { destruct (mo_data m1) as [|x d]; [simpl in Hss; lia|simpl; lia]. }
  inversion_clear Hall as [|? ? Hs Hpost].
  set (post' := deliver_slots post (m2 :: outs)).
  assert (Hbufs : Forall (λ s, length (buf s) = bs) post' ∧ length post' = length post).
  { unfold post'. clear -Hpost. generalize (m2 :: outs). intros os. revert os.
    induction Hpost as [|s sl (Hs & _) Hsl IH]; intros [|m os]; simpl; try done.
    - split; [|done]. constructor; [done|]. eapply Forall_impl; [|exact Hsl]. by intros ? (? & _).
    - destruct (IH os). split; [constructor; [simpl; by rewrite length_blit|done]|by f_equal]. }
  destruct Hbufs as [Hbufs Hlen].
  assert (Hbufs' : Forall (λ s, length (buf s) = bs) (filled s m1 :: post')).
  { constructor; [by destruct (filled_ok bs s m1 Hs Hm1) as [(? & _) _]|done]. }
  pose proof (process_gro bs [] s post' (RecvBatchRaw.len b) m1 Hs Hbufs' Hm1 Hg Hpos) as E1.
  change (m1 :: m2 :: outs) with ([m1] ++ m2 :: outs) at 2. rewrite process_app.
  unfold deliver. rewrite Esl. cbn [deliver_slots]. fold post'. cbn [app length] in E1. rewrite E1.
  cbn [obind process]. unfold process_one, RecvBatchRaw.set_recv_len, RecvBatchRaw.update.
  simpl RecvBatchRaw.slots. rewrite oindex_ge; [done|].
  simpl. rewrite length_place. lia.
Qed.
End with_features.
End linux_recv.

(** ** The backend *)
Section linux_backend.
Context {L : Libc} {K : Kernel}.

(** The Linux backend, with fuel for the interrupted receive calls. *)
Definition linux_backend (F : features) (fuel : nat) : Backend := {|
  try_send_batch := linux_try_send_batch;
  try_recv_batch := linux_try_recv_batch F fuel;
  send_supported := linux_send_supported;
|}.

(** Fewer than [fuel] [recvmmsg] calls in a row are interrupted by signals. *)
Definition few_signals (fuel : nat) : Prop :=
  ∀ h fd lens, ∃ k r h', (k < fuel)%nat ∧ retries (sys_recvmmsg fd lens) k h r h'.

Context {KL : KernelLaws}.

(** Without GRO splitting the backend keeps its promises. *)
Lemma linux_laws F fuel : f_gro F = false → few_signals fuel →
  @BackendLaws L K (linux_backend F fuel).
Proof.
  intros Hg Hsig. split; simpl.
  - intros. by eapply linux_send_prefix.
  - intros bs b fd h Hwf. destruct (decide (RecvBatchRaw.capacity b = 0%nat)) as [E|E].
    { unfold linux_try_recv_batch. rewrite E. apply wp_ret. split_and!; simpl; try done; try lia.
      by exists []; rewrite app_nil_r. }
    destruct (Hsig h fd (replicate (recv_vlen b) bs)) as (k & r & h' & Hk & Hr).
    destruct (retries_history _ _ _ _ _ _ _ Hr) as [evs ->]. destruct r as [[n outs]|e].
    + destruct (retries_msgs bs fd b _ _ _ _ _ Hr) as [Hl Hm].
      assert (Hp : Forall (λ m, gro_size F m ≤ 0) outs)
        by (apply Forall_forall; intros m _; by rewrite gro_size_off).
      eapply wp_intro; [eapply (linux_recv_process F bs); [done|done|exact Hk|exact Hr|
                          by apply process_deliver_plain]|].
      destruct Hwf as [Hall _].
      destruct (filled_slots_spec F bs _ _ Hall Hm Hl) as (H1 & H2 & _).
      unfold recv_post, recv_wf, RecvBatchRaw.capacity; simpl. rewrite H2. split_and!; eauto.
    + unfold wp. rewrite (linux_recv_unfold F bs) by done.
      rewrite (mbind_Ret _ _ _ _ _ (retry_complete _ _ _ _ _ _ Hr Hk)).
      destruct (is_enosys e); [|by split_and!; eauto].
      pose proof (recv_keeps (BackendLaws := fallback_laws) bs b fd (h ++ evs) Hwf) as Hf.
      unfold wp in Hf. simpl in Hf. change (fallback_recv fd b) with (fallback_try_recv_batch fd b).
      destruct (fallback_try_recv_batch fd b (h ++ evs)) as [[rb h'']| | |]; try done.
      destruct Hf as ((evs' & ->) & Hrest). split; [|done]. rewrite <- (assoc_L (++)). eauto.
Qed.
End linux_backend.

(** C17: an interrupted receive call is repeated and EINTR never reaches the caller. [retry_eintr] returns
    exactly the first answer that is not an interruption, provided the fuel exceeds the number of
    interruptions, and an error it returns is never [Interrupted]. *)
Theorem retry_eintr_spec {L : Libc} {K : Kernel} {A} fuel (f : IO (Z * A)) h :
  (∀ r h', retry_eintr fuel f h = Ret (r, h') ↔ ∃ k, (k < fuel)%nat ∧ retries f k h r h') ∧
  ∀ e h', retry_eintr fuel f h = Ret (Err e, h') → kind e ≠ Interrupted.
Proof.
  split.
  - intros r h'. split; [apply retry_sound|]. intros (k & Hk & Hr). by eapply retry_complete.
  - intros e h' (k & _ & Hr)%retry_sound. by eapply retries_not_interrupted.
Qed.

(** C5: receiving plain datagrams on Linux. When [recvmmsg] delivers messages of which none is coalesced,
    possibly after interruptions, the batch holds exactly these messages, in order: payload and
    source of each, with the timestamp and destination their control messages carry. The other
    slots, the capacity and well-formedness are kept. *)
Theorem linux_recv_correct {L : Libc} {K : Kernel} {KL : KernelLaws} F bs fuel fd b k h n outs h' :
  recv_wf bs b → RecvBatchRaw.capacity b ≠ 0%nat → (k < fuel)%nat →
  retries (recv_call bs fd b) k h (Ok (n, outs)) h' →
  Forall (λ m, gro_size F m ≤ 0) outs →
  ∃ b', linux_try_recv_batch F fuel fd b h = Ret ((Ok (length outs), b'), h') ∧
    recv_wf bs b' ∧ RecvBatchRaw.capacity b' = RecvBatchRaw.capacity b ∧
    packets b' = msg_packet <$> outs ∧
    RecvBatchRaw.slots b' =
      zip_with (filled F) (RecvBatchRaw.slots b) outs ++ drop (length outs) (RecvBatchRaw.slots b).
Proof.
  intros Hwf Hne Hk Hr Hp. destruct (retries_msgs _ _ _ _ _ _ _ _ Hr) as [Hl Hm].
  eexists. split; [by eapply linux_recv_process; [..|apply process_deliver_plain]|].
  destruct Hwf as [Hall _]. destruct (filled_slots_spec F bs _ _ Hall Hm Hl) as (H1 & H2 & H3).
  unfold recv_wf, packets, RecvBatchRaw.capacity; simpl. by rewrite H2.
Qed.

(** All features on. *)
Definition all_features : features := MkFeatures true true true true true true true true false.

(** An interrupted call, then one datagram with a timestamp. *)
Definition stamped_kernel : @Kernel linux_le :=
  sample_kernel [ARet (-1) 4;
    ARecvMM [([7; 8], localhost_name 9000, 16,
              [MkCmsg 1 35 (le_split 8 1700000000 ++ le_split 8 5)])]].

Lemma linux_recv_correct_witness :
  ∃ b', linux_try_recv_batch (K := stamped_kernel) all_features 2 3 (RecvBatchRaw.with_capacity 2 4) [] =
      Ret ((Ok 1%nat, b'), [EvRecvmmsg 3 [4; 4]%nat (-1) [];
            EvRecvmmsg 3 [4; 4]%nat 1 [MkMmsgOut 2 [7; 8] (localhost_name 9000) 16
              [MkCmsg 1 35 (le_split 8 1700000000 ++ le_split 8 5)]]]) ∧
    packets b' = [([7; 8], localhost 9000)] ∧
    RecvBatchRaw.timestamp b' 0 = Ret (Some (MkTimestamp 1700000000 5)).
Proof.
  destruct (@linux_recv_correct linux_le stamped_kernel (script_kernel_laws _ _) all_features 4 2 3
              (RecvBatchRaw.with_capacity 2 4) 1 [] 1
              [MkMmsgOut 2 [7; 8] (localhost_name 9000) 16
                 [MkCmsg 1 35 (le_split 8 1700000000 ++ le_split 8 5)]]
              [EvRecvmmsg 3 [4; 4]%nat (-1) [];
               EvRecvmmsg 3 [4; 4]%nat 1 [MkMmsgOut 2 [7; 8] (localhost_name 9000) 16
                 [MkCmsg 1 35 (le_split 8 1700000000 ++ le_split 8 5)]]])
    as (b' & Hb & _ & _ & Hp & Hs).
  - apply with_capacity_recv_wf.
  - done.
  - lia.
  - eapply retries_again; [reflexivity|lia|reflexivity|]. eapply retries_ok; [reflexivity|lia].
  - constructor; [vm_compute; discriminate|constructor].
  - exists b'. split_and!; [exact Hb|exact Hp|].
    unfold RecvBatchRaw.timestamp. rewrite Hs. reflexivity.
Defined.

(** C29: errors of a receive on Linux. An error other than ENOSYS is returned with the batch untouched;
    on ENOSYS the portable receive runs on the same batch; an empty batch makes no call. *)
Theorem linux_recv_errors {L : Libc} {K : Kernel} {KL : KernelLaws} F bs fuel fd b k h e h' :
  recv_wf bs b → RecvBatchRaw.capacity b ≠ 0%nat → (k < fuel)%nat →
  retries (recv_call bs fd b) k h (Err e) h' →
  linux_try_recv_batch F fuel fd b h =
    if is_enosys e then fallback_try_recv_batch fd b h' else Ret ((Err e, b), h').
Proof.
  intros Hwf Hne Hk Hr. rewrite (linux_recv_unfold F bs) by done.
  rewrite (mbind_Ret _ _ _ _ _ (retry_complete _ _ _ _ _ _ Hr Hk)).
  by destruct (is_enosys e).
Qed.

(** [recvmmsg] is missing; the portable receive finds one datagram. *)
Definition enosys_kernel : @Kernel linux_le :=
  sample_kernel [ARet (-1) 38; ARecv [7] (localhost_name 9000) 16; ARet (-1) 11].

Lemma linux_recv_errors_witness :
  linux_try_recv_batch (K := enosys_kernel) all_features 1 3 (RecvBatchRaw.with_capacity 2 4) [] =
  fallback_try_recv_batch (K := enosys_kernel) 3 (RecvBatchRaw.with_capacity 2 4)
    [EvRecvmmsg 3 [4; 4]%nat (-1) []].
Proof.
  apply (@linux_recv_errors linux_le enosys_kernel (script_kernel_laws _ _) all_features 4 1 3
           (RecvBatchRaw.with_capacity 2 4) 0 [] (OsError 38) [EvRecvmmsg 3 [4; 4]%nat (-1) []]).
  - apply with_capacity_recv_wf.
  - done.
  - lia.
  - apply (retries_err (K := enosys_kernel) (recv_call 4 3 (RecvBatchRaw.with_capacity 2 4)) []
             (-1) [] [EvRecvmmsg 3 [4; 4]%nat (-1) []]); [reflexivity|lia|done].
Defined.

(** C37: a receive does not reset metadata. A slot that receives a datagram without a timestamp keeps the
    timestamp of the packet it held before. *)
Theorem linux_recv_stale_timestamp {L : Libc} {K : Kernel} {KL : KernelLaws}
    F bs fuel fd b k h n outs h' i s m :
  recv_wf bs b → (k < fuel)%nat →
  retries (recv_call bs fd b) k h (Ok (n, outs)) h' →
  Forall (λ m, gro_size F m ≤ 0) outs →
  RecvBatchRaw.slots b !! i = Some s → outs !! i = Some m →
  forallb (λ ch, negb (is_timestamp ch)) (mo_cmsgs m) = true →
  ∃ b', linux_try_recv_batch F fuel fd b h = Ret ((Ok (length outs), b'), h') ∧
    packets b' !! i = Some (msg_packet m) ∧
    RecvBatchRaw.timestamp b' i = Ret (timestamp s).
Proof.
  intros Hwf Hk Hr Hp Hs Hm Hts. destruct (retries_msgs _ _ _ _ _ _ _ _ Hr) as [Hl Hok].
  assert (Hne : RecvBatchRaw.capacity b ≠ 0%nat).
  { unfold RecvBatchRaw.capacity. apply lookup_lt_Some in Hs. lia. }
  eexists. split; [by eapply linux_recv_process; [..|apply process_deliver_plain]|].
  destruct Hwf as [Hall _]. destruct (filled_slots_spec F bs _ _ Hall Hok Hl) as (_ & _ & H3).
  unfold packets; simpl. rewrite H3, list_lookup_fmap, Hm. split; [done|].
  unfold RecvBatchRaw.timestamp; simpl. rewrite (oindex_Ret _ _ (filled F s m)).
  - simpl. f_equal. unfold filled, finish. by rewrite slot_cmsgs_no_timestamp.
  - unfold filled_slots. apply lookup_app_l_Some, lookup_zip_with_Some. eauto.
Qed.

(** A slot with an old timestamp, and a kernel that delivers a datagram without one. *)
Definition stamped_slot : RecvBatchRaw.t :=
  RecvBatchRaw.Mk [MkRecvSlot [1; 0] (localhost 9000) 1 (Some (MkTimestamp 5 6)) None] 1.
Definition plain_kernel : @Kernel linux_le :=
  sample_kernel [ARecvMM [([7; 8], localhost_name 9001, 16, [])]].

Lemma linux_recv_stale_timestamp_witness :
  ∃ b' h', linux_try_recv_batch (K := plain_kernel) all_features 1 3 stamped_slot [] =
      Ret ((Ok 1%nat, b'), h') ∧
    packets b' !! 0%nat = Some ([7; 8], localhost 9001) ∧
    RecvBatchRaw.timestamp b' 0 = Ret (Some (MkTimestamp 5 6)).
Proof.
  destruct (@linux_recv_stale_timestamp linux_le plain_kernel (script_kernel_laws _ _) all_features 2 1
              3 stamped_slot 0 [] 1 [MkMmsgOut 2 [7; 8] (localhost_name 9001) 16 []]
              [EvRecvmmsg 3 [2]%nat 1 [MkMmsgOut 2 [7; 8] (localhost_name 9001) 16 []]] 0
              (MkRecvSlot [1; 0] (localhost 9000) 1 (Some (MkTimestamp 5 6)) None)
              (MkMmsgOut 2 [7; 8] (localhost_name 9001) 16 [])) as (b' & Hb & Hp & Ht).
  - split; [|unfold RecvBatchRaw.capacity; simpl; lia]. repeat constructor; simpl; lia.
  - lia.
  - eapply retries_ok; [reflexivity|lia].
  - constructor; [vm_compute; discriminate|constructor].
  - done.
  - done.
  - done.
  - eexists b', _. split_and!; [exact Hb|exact Hp|exact Ht].
Defined.

(** C3: splitting a coalesced receive. When the last message of a receive is coalesced and the earlier
    ones are plain, the batch holds the plain messages followed by the first segments of the last one, each
    with its source: as many as there are slots left. The segments have the announced size (the last may
    be shorter) and together are the message; those for which there is no slot are dropped without an
    error, so a one-slot batch keeps only the first. *)
Theorem linux_recv_gro_correct {L : Libc} {K : Kernel} {KL : KernelLaws}
    F bs fuel fd b k h n init m h' :
  recv_wf bs b → (k < fuel)%nat →
  retries (recv_call bs fd b) k h (Ok (n, init ++ [m])) h' →
  Forall (λ m, gro_size F m ≤ 0) init → 0 < gro_size F m → mo_data m ≠ [] →
  let ss := segments (Z.to_nat (gro_size F m)) (mo_data m) in
  let room := (RecvBatchRaw.capacity b - length init)%nat in
  concat ss = mo_data m ∧ Forall (λ seg, (0 < length seg)%nat ∧ Z.of_nat (length seg) ≤ gro_size F m) ss ∧
  ∃ b', linux_try_recv_batch F fuel fd b h =
          Ret ((Ok (length init + Nat.min (length ss) room)%nat, b'), h') ∧
    recv_wf bs b' ∧ RecvBatchRaw.capacity b' = RecvBatchRaw.capacity b ∧
    packets b' = (msg_packet <$> init) ++ ((λ seg, (seg, (msg_packet m).2)) <$> take room ss).
Proof.
  intros Hwf Hk Hr Hplain Hg Hne ss room.
  destruct (retries_msgs _ _ _ _ _ _ _ _ Hr) as [Hl Hok]. rewrite length_app in Hl; simpl in Hl.
  split_and!; [apply segments_concat; lia| |].
  { eapply Forall_impl; [|apply segments_length; lia]. simpl. lia. }
  assert (Hpos : (0 < length (mo_data m))%nat) by (destruct (mo_data m); simpl; [done|lia]).
  destruct (lookup_lt_is_Some_2 (RecvBatchRaw.slots b) (length init)) as [s Hs];
    [unfold RecvBatchRaw.capacity in Hl; lia|].
  pose proof (take_drop_middle _ _ _ Hs) as Esl.
  set (mid := take _ _) in Esl. set (post := drop _ _) in Esl.
  assert (Hmid : length mid = length init)
    by (unfold mid; rewrite length_take; unfold RecvBatchRaw.capacity in Hl; lia).
  assert (Hroom : room = S (length post)).
  { unfold room, post, RecvBatchRaw.capacity in *. rewrite length_drop. lia. }
  pose proof Hwf as [Hall _]. rewrite <- Esl in Hall. symmetry in Esl.
  destruct (gro_slots_spec F bs mid s post init m) as (H1 & H2 & H3); try done.
  eexists. split.
  { eapply linux_recv_process; [done| |done|done|].
    - lia.
    - rewrite Hroom. by apply (process_deliver_gro F bs). }
  rewrite Hroom. unfold recv_wf, packets, RecvBatchRaw.capacity in *; simpl.
  rewrite H2, <- Esl. split_and!; try done. fold ss. lia.
Qed.

(** A plain datagram, then five bytes coalesced from segments of two; three slots. *)
Definition gro_kernel : @Kernel linux_le :=
  sample_kernel [ARecvMM [([7; 8], localhost_name 9000, 16, []);
                          ([1; 2; 3; 4; 5], localhost_name 9001, 16, [MkCmsg 17 104 [2; 0; 0; 0]])]].
Definition gro_last : @mmsg_out linux_le :=
  @MkMmsgOut linux_le 5 [1; 2; 3; 4; 5] (localhost_name 9001) 16 [MkCmsg 17 104 [2; 0; 0; 0]].
Definition plain_first : @mmsg_out linux_le :=
  @MkMmsgOut linux_le 2 [7; 8] (localhost_name 9000) 16 [].

Lemma linux_recv_gro_correct_witness :
  ∃ b' h', linux_try_recv_batch (K := gro_kernel) all_features 1 3 (RecvBatchRaw.with_capacity 3 8) [] =
      Ret ((Ok 3%nat, b'), h') ∧
    packets b' = [([7; 8], localhost 9000); ([1; 2], localhost 9001); ([3; 4], localhost 9001)].
Proof.
  destruct (@linux_recv_gro_correct linux_le gro_kernel (script_kernel_laws _ _) all_features 8 1
              3 (RecvBatchRaw.with_capacity 3 8) 0 [] 2 [plain_first] gro_last
              [EvRecvmmsg 3 [8; 8; 8]%nat 2 [plain_first; gro_last]]) as (_ & _ & b' & Hb & _ & _ & Hp).
  - apply with_capacity_recv_wf.
  - lia.
  - eapply retries_ok; [reflexivity|lia].
  - constructor; [vm_compute; discriminate|constructor].
  - reflexivity.
  - discriminate.
  - eexists b', _. split; [exact Hb|exact Hp].
Defined.

(** C19: splitting loses the message after it. When the first of two messages splits into two segments,
    the second segment overwrites the buffer in which the second message arrived, and the second
    message is reported with the bytes its new slot held before the call. *)
Theorem linux_recv_gro_loses_next {L : Libc} {K : Kernel} {KL : KernelLaws}
    F bs fuel fd b k h n m1 m2 h' s3 :
  recv_wf bs b → (k < fuel)%nat →
  retries (recv_call bs fd b) k h (Ok (n, [m1; m2])) h' →
  0 < gro_size F m1 → gro_size F m2 ≤ 0 →
  let ss := segments (Z.to_nat (gro_size F m1)) (mo_data m1) in
  length ss = 2%nat → RecvBatchRaw.slots b !! 2%nat = Some s3 →
  ∃ b', linux_try_recv_batch F fuel fd b h = Ret ((Ok 3%nat, b'), h') ∧
    packets b' = ((λ seg, (seg, (msg_packet m1).2)) <$> ss)
                 ++ [(take (length (mo_data m2)) (buf s3), (msg_packet m2).2)].
Proof.
  intros Hwf Hk Hr Hg Hp ss Hss H3. destruct (retries_msgs _ _ _ _ _ _ _ _ Hr) as [_ Hok].
  inversion_clear Hok as [|? ? Hm1 Hok']. inversion_clear Hok' as [|? ? Hm2 _].
  pose proof Hwf as [Hall _]. destruct (RecvBatchRaw.slots b) as [|s1 [|s2 [|s3' post]]] eqn:Esl; try done.
  injection H3 as ->. rewrite <- Esl in Hall.
  destruct (process_gro_then_plain F bs b s1 s2 s3 post m1 m2 Esl Hall Hm1 Hm2 Hg Hp Hss)
    as (t1 & t2 & t3 & Hproc & Hp12 & Hp3).
  eexists. split.
  - eapply linux_recv_process; [done| |done|done|exact Hproc].
    unfold RecvBatchRaw.capacity. by rewrite Esl.
  - change (slot_packet <$> [t1; t2] ++ [t3] =
            ((λ seg, (seg, (msg_packet m1).2)) <$> ss) ++ [(take (length (mo_data m2)) (buf s3),
              (msg_packet m2).2)]).
    by rewrite fmap_app, Hp12, <- Hp3.
Qed.

(** Four bytes coalesced from segments of two, then a plain datagram. *)
Definition gro_first : @mmsg_out linux_le :=
  @MkMmsgOut linux_le 4 [1; 2; 3; 4] (localhost_name 9001) 16 [MkCmsg 17 104 [2; 0; 0; 0]].
Definition gro_first_kernel : @Kernel linux_le :=
  sample_kernel [ARecvMM [([1; 2; 3; 4], localhost_name 9001, 16, [MkCmsg 17 104 [2; 0; 0; 0]]);
                          ([7; 8], localhost_name 9000, 16, [])]].

Lemma linux_recv_gro_loses_next_witness :
  ∃ b' h', linux_try_recv_batch (K := gro_first_kernel) all_features 1 3
             (RecvBatchRaw.with_capacity 3 8) [] = Ret ((Ok 3%nat, b'), h') ∧
    packets b' = [([1; 2], localhost 9001); ([3; 4], localhost 9001); ([0; 0], localhost 9000)].
Proof.
  destruct (@linux_recv_gro_loses_next linux_le gro_first_kernel (script_kernel_laws _ _) all_features 8
              1 3 (RecvBatchRaw.with_capacity 3 8) 0 [] 2 gro_first plain_first
              [EvRecvmmsg 3 [8; 8; 8]%nat 2 [gro_first; plain_first]]
              (MkRecvSlot (replicate 8 0) unspecified 0 None None)) as (b' & Hb & Hp).
  - apply with_capacity_recv_wf.
  - lia.
  - eapply retries_ok; [reflexivity|lia].
  - reflexivity.
  - vm_compute. discriminate.
  - reflexivity.
  - reflexivity.
  - eexists b', _. split; [exact Hb|exact Hp].
Defined.

(** C20: splitting can panic. When the first message fills every slot of the batch with its segments and
    another message was received, the receive panics on an index out of range. *)
Theorem linux_recv_gro_panics {L : Libc} {K : Kernel} {KL : KernelLaws}
    F bs fuel fd b k h n m1 m2 outs h' :
  recv_wf bs b → (k < fuel)%nat →
  retries (recv_call bs fd b) k h (Ok (n, m1 :: m2 :: outs)) h' →
  0 < gro_size F m1 →
  (RecvBatchRaw.capacity b ≤ length (segments (Z.to_nat (gro_size F m1)) (mo_data m1)))%nat →
  linux_try_recv_batch F fuel fd b h = Panic.
Proof.
  intros Hwf Hk Hr Hg Hss. destruct (retries_msgs _ _ _ _ _ _ _ _ Hr) as [Hl Hok].
  inversion_clear Hok as [|? ? Hm1 _]. pose proof Hwf as [Hall _]. simpl in Hl.
  destruct (RecvBatchRaw.slots b) as [|s post] eqn:Esl;
    [unfold RecvBatchRaw.capacity in Hl; rewrite Esl in Hl; simpl in Hl; lia|].
  rewrite (linux_recv_unfold F bs) by (done || lia).
  rewrite (mbind_Ret _ _ _ _ _ (retry_complete _ _ _ _ _ _ Hr Hk)).
  unfold mbind, lift. rewrite <- Esl in Hall.
  by rewrite (process_gro_overflow F bs b s post).
Qed.

Lemma linux_recv_gro_panics_witness :
  linux_try_recv_batch (K := gro_first_kernel) all_features 1 3 (RecvBatchRaw.with_capacity 2 8) []
    = Panic.
Proof.
  apply (@linux_recv_gro_panics linux_le gro_first_kernel (script_kernel_laws _ _) all_features 8
           1 3 (RecvBatchRaw.with_capacity 2 8) 0 [] 2 gro_first plain_first []
           [EvRecvmmsg 3 [8; 8]%nat 2 [gro_first; plain_first]]).
  - apply with_capacity_recv_wf.
  - lia.
  - eapply retries_ok; [reflexivity|lia].
  - reflexivity.
  - vm_compute. lia.
Defined.
