(* ===== verification/LinuxArrays.v ===== *)
(** * Linux backend, the header arrays of a receive (src/platform/linux.rs: try_recv_batch)

    [recvmmsg] takes an array of headers; each points to an iovec, an address block and a control
    buffer, and each iovec to the buffer of a slot. For at most 64 slots the four arrays are on the
    stack and filled in place, for more they are vectors whose iovec pointers are set in a second
    loop. Here the arrays, the pointers between them and what the kernel writes through them are
    modelled; the theorem at the end is that both paths compute what [linux_try_recv_batch] computes
    on the slots directly. *)
From S2P Require Import Prelude Libc UnixAbi Sockaddr Batch Backend Fallback LinuxSend LinuxRecv.
#[local] Open Scope Z_scope.

Definition CMSG_BUF_SIZE : Z := 256.

(** [iovec]: [iov_base] is null or the buffer of slot [i] of the batch. *)
Record iovec := MkIov { iov_base : option nat; iov_len : nat }.

(** [mmsghdr]: [msg_name], [msg_iov] and [msg_control] are null or point to the element of that index of
    the address, iovec and control arrays. *)
Record mmsghdr := MkMmsg
  { rmsg_name : option nat; rmsg_namelen : Z; rmsg_iov : option nat; rmsg_iovlen : Z;
    rmsg_control : option nat; rmsg_controllen : Z; msg_len : Z }.

Definition zero_iov : iovec := MkIov None 0.
Definition zero_mmsg : mmsghdr := MkMmsg None 0 None 0 None 0 0.

Section arrays.
Context {L : Libc} {K : Kernel}.
Implicit Types (b : RecvBatchRaw.t) (m : mmsg_out) (outs : list mmsg_out).

(** A control buffer is the control messages written in it. *)
Record recv_arrays := MkRecvArrays
  { r_msgs : list mmsghdr; r_iovecs : list iovec; r_addrs : list storage;
    r_cmsgs : list (list cmsghdr) }.
Implicit Types (st : recv_arrays).

(** ** At most 64 slots: arrays on the stack *)
Definition recv_stack_arrays : recv_arrays :=
  MkRecvArrays (replicate MAX_STACK zero_mmsg) (replicate MAX_STACK zero_iov)
    (replicate MAX_STACK storage_zeroed) (replicate MAX_STACK []).

(** The body of the loop: every field of [msgs[i]] but [msg_len] is assigned. *)
Definition recv_stack_step b (i : nat) st : outcome recv_arrays :=
  let? bf := RecvBatchRaw.buffer b i in
  let? iovecs' := ostore (r_iovecs st) i (MkIov (Some i) (length bf)) in
  let? _ := oindex (r_addrs st) i in
  let? _ := oindex (r_cmsgs st) i in
  let? mh := oindex (r_msgs st) i in
  let? msgs' := ostore (r_msgs st) i
                  (MkMmsg (Some i) SIZEOF_STORAGE (Some i) 1 (Some i) CMSG_BUF_SIZE (msg_len mh)) in
  Ret (MkRecvArrays msgs' iovecs' (r_addrs st) (r_cmsgs st)).

Fixpoint recv_stack_fill b (n i : nat) st : outcome recv_arrays :=
  match n with
  | O => Ret st
  | S n => let? st := recv_stack_step b i st in recv_stack_fill b n (S i) st
  end.

(** ** More than 64 slots: vectors *)

(** The first loop, with the vectors pushed to so far. *)
Fixpoint recv_heap_fill b (cmsgs : list (list cmsghdr)) (n i : nat) (ms : list mmsghdr)
    (iovs : list iovec) : outcome (list mmsghdr * list iovec) :=
  match n with
  | O => Ret (ms, iovs)
  | S n =>
      let? bf := RecvBatchRaw.buffer b i in
      let iov := MkIov (Some i) (length bf) in
      let? _ := oindex cmsgs i in
      let mhdr := MkMmsg (Some i) SIZEOF_STORAGE None 1 (Some i) CMSG_BUF_SIZE 0 in
      recv_heap_fill b cmsgs n (S i) (ms ++ [mhdr]) (iovs ++ [iov])
  end.

(** The second loop: [msg_iov = &iovecs[i]]. *)
Fixpoint recv_heap_fix (ms : list mmsghdr) (iovs : list iovec) (i : nat) : outcome (list mmsghdr) :=
  match ms with
  | [] => Ret []
  | mh :: ms =>
      let? _ := oindex iovs i in
      let? ms := recv_heap_fix ms iovs (S i) in
      Ret (MkMmsg (rmsg_name mh) (rmsg_namelen mh) (Some i) (rmsg_iovlen mh) (rmsg_control mh)
             (rmsg_controllen mh) (msg_len mh) :: ms)
  end.

Definition recv_heap_arrays b : outcome recv_arrays :=
  let capacity := RecvBatchRaw.capacity b in
  let addrs := replicate capacity storage_zeroed in
  let cmsg_bufs := replicate capacity [] in
  let? '(ms, iovs) := recv_heap_fill b cmsg_bufs (length addrs) 0 [] [] in
  let? ms := recv_heap_fix ms iovs 0 in
  Ret (MkRecvArrays ms iovs addrs cmsg_bufs).

(** ** What the kernel sees and writes

    It follows the pointers of the first [vlen] headers; a dangling pointer is undefined behaviour. *)
Definition ptr_read {A} (l : list A) (p : option nat) : outcome A :=
  match p with
  | Some i => match l !! i with Some x => Ret x | None => UB end
  | None => UB
  end.

Fixpoint recv_lens_of st (ms : list mmsghdr) : outcome (list nat) :=
  match ms with
  | [] => Ret []
  | mh :: ms =>
      let? iov := ptr_read (r_iovecs st) (rmsg_iov mh) in
      let? _ := ptr_read (r_addrs st) (rmsg_name mh) in
      let? _ := ptr_read (r_cmsgs st) (rmsg_control mh) in
      let? lens := recv_lens_of st ms in
      Ret (iov_len iov :: lens)
  end.

(** Store through a pointer. *)
Definition ptr_write {A} (l : list A) (p : option nat) (x : A) : outcome (list A) :=
  let? _ := ptr_read l p in
  match p with Some i => Ret (<[i := x]> l) | None => UB end.

(** Message [i] of the answer, written through header [i]. *)
Definition recv_write_one b st (i : nat) m : outcome (RecvBatchRaw.t * recv_arrays) :=
  let? mh := ptr_read (r_msgs st) (Some i) in
  let? iov := ptr_read (r_iovecs st) (rmsg_iov mh) in
  let? s := ptr_read (RecvBatchRaw.slots b) (iov_base iov) in
  let? sl := ptr_write (RecvBatchRaw.slots b) (iov_base iov) (set_slot_buf s (blit (mo_data m) (buf s))) in
  let? addrs' := ptr_write (r_addrs st) (rmsg_name mh) (mo_name m) in
  let? cmsgs' := ptr_write (r_cmsgs st) (rmsg_control mh) (mo_cmsgs m) in
  let? msgs' := ptr_write (r_msgs st) (Some i)
                  (MkMmsg (rmsg_name mh) (mo_namelen m) (rmsg_iov mh) (rmsg_iovlen mh)
                     (rmsg_control mh) (rmsg_controllen mh) (mo_len m)) in
  Ret (RecvBatchRaw.Mk sl (RecvBatchRaw.len b), MkRecvArrays msgs' (r_iovecs st) addrs' cmsgs').

Fixpoint recv_write b st (i : nat) outs : outcome (RecvBatchRaw.t * recv_arrays) :=
  match outs with
  | [] => Ret (b, st)
  | m :: outs => let? '(b, st) := recv_write_one b st i m in recv_write b st (S i) outs
  end.

(** ** The loop over the received messages *)

(** What the code reads of message [i]: [msgs[i].msg_len], [addrs[i]], [msgs[i].msg_hdr.msg_namelen] and
    the control messages found from [msgs[i].msg_hdr]. *)
Definition recv_read st (i : nat) : outcome mmsg_out :=
  let? mh := oindex (r_msgs st) i in
  let? name := oindex (r_addrs st) i in
  let? cs := ptr_read (r_cmsgs st) (rmsg_control mh) in
  Ret (MkMmsgOut (msg_len mh) [] name (rmsg_namelen mh) cs).

Fixpoint recv_process (F : features) b st (n i out_idx : nat) : outcome (RecvBatchRaw.t * nat) :=
  match n with
  | O => Ret (b, out_idx)
  | S n =>
      let? m := recv_read st i in
      let? '(b, out_idx) := process_one F b m out_idx in
      recv_process F b st n (S i) out_idx
  end.

(** The call and what follows it, which both paths share in text. *)
Definition recv_prepared (F : features) (fuel : nat) (fd : Fd) b st
    : IO (io_result nat * RecvBatchRaw.t) :=
  let call := let! lens := lift (recv_lens_of st (take (recv_vlen b) (r_msgs st))) in
              sys_recvmmsg fd lens in
  let! r := retry_eintr fuel call in
  match r with
  | Err e => if is_enosys e then fallback_recv fd b else mret (Err e, b)
  | Ok (received, outs) =>
      let! '(b, st) := lift (recv_write b st 0 outs) in
      let n := Z.to_nat received in
      let! '(b, out_idx) := lift (recv_process F b st n 0 0) in
      mret (Ok out_idx, RecvBatchRaw.set_len b out_idx)
  end.

Definition linux_try_recv_arrays (F : features) (fuel : nat) (fd : Fd) b
    : IO (io_result nat * RecvBatchRaw.t) :=
  let capacity := RecvBatchRaw.capacity b in
  if (capacity =? 0)%nat then mret (Ok 0%nat, b)
  else if (capacity <=? MAX_STACK)%nat then
    let! st := lift (recv_stack_fill b capacity 0 recv_stack_arrays) in
    recv_prepared F fuel fd b st
  else
    let! st := lift (recv_heap_arrays b) in
    recv_prepared F fuel fd b st.

(** ** The arrays both paths end up with *)
Definition ready_mmsg (i : nat) : mmsghdr :=
  MkMmsg (Some i) SIZEOF_STORAGE (Some i) 1 (Some i) CMSG_BUF_SIZE 0.
Definition slot_iov (i : nat) (s : RecvSlot) : iovec := MkIov (Some i) (length (buf s)).
Definition ready_msgs (n : nat) : list mmsghdr := ready_mmsg <$> seq 0 n.
Definition slot_iovs (sl : list RecvSlot) : list iovec := imap slot_iov sl.

Definition arrays_ok b st : Prop :=
  ready_msgs (RecvBatchRaw.capacity b) `prefix_of` r_msgs st ∧
  slot_iovs (RecvBatchRaw.slots b) `prefix_of` r_iovecs st ∧
  (RecvBatchRaw.capacity b ≤ length (r_addrs st))%nat ∧
  (RecvBatchRaw.capacity b ≤ length (r_cmsgs st))%nat.

Lemma length_ready_msgs n : length (ready_msgs n) = n.
Proof. unfold ready_msgs. by rewrite length_fmap, length_seq. Qed.

Lemma length_slot_iovs sl : length (slot_iovs sl) = length sl.
Proof. apply length_imap. Qed.

Lemma ready_msgs_S n : ready_msgs (S n) = ready_msgs n ++ [ready_mmsg n].
Proof. unfold ready_msgs. by rewrite seq_S, fmap_app. Qed.

Lemma slot_iovs_snoc sl s : slot_iovs (sl ++ [s]) = slot_iovs sl ++ [slot_iov (length sl) s].
Proof. unfold slot_iovs. rewrite imap_app. simpl. unfold slot_iov. by rewrite Nat.add_0_r. Qed.

(** The stack arrays after [i] iterations. *)
Definition stack_filled b (i : nat) : recv_arrays :=
  MkRecvArrays (pad MAX_STACK zero_mmsg (ready_msgs i))
    (pad MAX_STACK zero_iov (slot_iovs (take i (RecvBatchRaw.slots b))))
    (replicate MAX_STACK storage_zeroed) (replicate MAX_STACK []).

(** Reduce a sequence of [let?] and the projections of the arrays, nothing else. *)
#[local] Ltac step := cbn [obind r_msgs r_iovecs r_addrs r_cmsgs ready_mmsg rmsg_name rmsg_iov rmsg_control
  rmsg_namelen rmsg_iovlen rmsg_controllen msg_len slot_iov iov_base].

Lemma recv_stack_step_spec b i : (i < RecvBatchRaw.capacity b)%nat → (i < MAX_STACK)%nat →
  recv_stack_step b i (stack_filled b i) = Ret (stack_filled b (S i)).
Proof.
  intros Hi Hs. destruct (lookup_lt_is_Some_2 (RecvBatchRaw.slots b) i Hi) as [s Es].
  unfold RecvBatchRaw.capacity in Hi.
  assert (Ht : length (take i (RecvBatchRaw.slots b)) = i) by (rewrite length_take; lia).
  unfold recv_stack_step, stack_filled, RecvBatchRaw.buffer. rewrite (oindex_Ret _ _ _ Es). step.
  rewrite pad_store by (rewrite ?length_slot_iovs; lia). step.
  erewrite !oindex_Ret by (by apply lookup_replicate_2). step.
  rewrite pad_index by (rewrite ?length_ready_msgs; done || lia). step.
  rewrite pad_store by (rewrite ?length_ready_msgs; done || lia). step.
  by rewrite (take_S_r _ _ _ Es), slot_iovs_snoc, Ht, ready_msgs_S.
Qed.

Lemma recv_stack_fill_spec b n i :
  (i + n = RecvBatchRaw.capacity b)%nat → (RecvBatchRaw.capacity b ≤ MAX_STACK)%nat →
  recv_stack_fill b n i (stack_filled b i) = Ret (stack_filled b (i + n)).
Proof.
  revert i. induction n as [|n IH]; intros i Hn Hs; cbn [recv_stack_fill]; [by rewrite Nat.add_0_r|].
  rewrite recv_stack_step_spec by lia. cbn [obind]. rewrite IH by lia. do 2 f_equal. lia.
Qed.

Lemma stack_arrays_ok b : (RecvBatchRaw.capacity b ≤ MAX_STACK)%nat →
  arrays_ok b (stack_filled b (RecvBatchRaw.capacity b)).
Proof.
  intros Hs. unfold arrays_ok, stack_filled. step. rewrite !length_replicate.
  unfold RecvBatchRaw.capacity at 4. rewrite take_ge by done.
  split_and!; try done; unfold pad; by apply prefix_app_r.
Qed.

(** A header before the second loop of the vector path. *)
Definition half_mmsg (i : nat) : mmsghdr :=
  MkMmsg (Some i) SIZEOF_STORAGE None 1 (Some i) CMSG_BUF_SIZE 0.

Lemma recv_heap_fill_spec b cmsgs n i :
  (i + n = RecvBatchRaw.capacity b)%nat → (RecvBatchRaw.capacity b ≤ length cmsgs)%nat →
  recv_heap_fill b cmsgs n i (half_mmsg <$> seq 0 i) (slot_iovs (take i (RecvBatchRaw.slots b))) =
    Ret (half_mmsg <$> seq 0 (i + n), slot_iovs (RecvBatchRaw.slots b)).
Proof.
  intros Hn Hc. revert i Hn. induction n as [|n IH]; intros i Hn; cbn [recv_heap_fill].
  { rewrite take_ge; [by rewrite Nat.add_0_r|]. unfold RecvBatchRaw.capacity in Hn. lia. }
  destruct (lookup_lt_is_Some_2 (RecvBatchRaw.slots b) i) as [s Es];
    [unfold RecvBatchRaw.capacity in Hn; lia|].
  unfold RecvBatchRaw.buffer. rewrite (oindex_Ret _ _ _ Es); simpl.
  destruct (oindex_lt cmsgs i) as (c & _ & ->); [lia|]. cbn [obind].
  specialize (IH (S i) ltac:(lia)). rewrite seq_S, fmap_app, (take_S_r _ _ _ Es), slot_iovs_snoc in IH.
  rewrite length_take, Nat.min_l in IH by (unfold RecvBatchRaw.capacity in Hn; lia).
  by rewrite <- Nat.add_succ_comm.
Qed.

Lemma recv_heap_fix_spec iovs n i : (i + n ≤ length iovs)%nat →
  recv_heap_fix (half_mmsg <$> seq i n) iovs i = Ret (ready_mmsg <$> seq i n).
Proof.
  revert i. induction n as [|n IH]; intros i Hn; cbn [seq fmap list_fmap recv_heap_fix]; [done|].
  destruct (oindex_lt iovs i) as (v & _ & ->); [lia|]. cbn [obind].
  change (list_fmap ?f ?l) with (f <$> l). by rewrite IH by lia.
Qed.

Lemma recv_heap_arrays_spec b : ∃ st, recv_heap_arrays b = Ret st ∧ arrays_ok b st.
Proof.
  unfold recv_heap_arrays. rewrite length_replicate.
  pose proof (recv_heap_fill_spec b (replicate (RecvBatchRaw.capacity b) []) (RecvBatchRaw.capacity b) 0
                eq_refl) as E. rewrite take_0, length_replicate in E. cbn in E. rewrite E by done.
  cbn [obind]. pose proof (recv_heap_fix_spec (slot_iovs (RecvBatchRaw.slots b))
                             (RecvBatchRaw.capacity b) 0) as E2.
  rewrite length_slot_iovs in E2. rewrite E2 by done. cbn [obind]. eexists. split; [done|].
  unfold arrays_ok; simpl. by rewrite !length_replicate.
Qed.

(** ** The call *)
Lemma ptr_read_Some {A} (l : list A) i x : l !! i = Some x → ptr_read l (Some i) = Ret x.
Proof. unfold ptr_read. by intros ->. Qed.

Lemma ptr_write_Some {A} (l : list A) i x y : l !! i = Some x → ptr_write l (Some i) y = Ret (<[i := y]> l).
Proof. unfold ptr_write. intros Hx. by rewrite (ptr_read_Some _ _ _ Hx). Qed.

Lemma arrays_ok_iov b st i s : arrays_ok b st → RecvBatchRaw.slots b !! i = Some s →
  r_iovecs st !! i = Some (slot_iov i s).
Proof.
  intros (_ & [junk ->] & _) Hs. apply lookup_app_l_Some. unfold slot_iovs.
  by rewrite list_lookup_imap, Hs.
Qed.

Lemma arrays_ok_blocks b st i : arrays_ok b st → (i < RecvBatchRaw.capacity b)%nat →
  is_Some (r_addrs st !! i) ∧ is_Some (r_cmsgs st !! i).
Proof. intros (_ & _ & Ha & Hc) Hi. split; apply lookup_lt_is_Some_2; lia. Qed.

(** The kernel sees the lengths of the buffers. *)
Lemma recv_lens_of_spec b st n i : arrays_ok b st → (i + n ≤ RecvBatchRaw.capacity b)%nat →
  recv_lens_of st (ready_mmsg <$> seq i n) =
    Ret (take n (drop i ((λ s, length (buf s)) <$> RecvBatchRaw.slots b))).
Proof.
  intros Hok. revert i. induction n as [|n IH]; intros i Hn; [done|].
  destruct (lookup_lt_is_Some_2 (RecvBatchRaw.slots b) i) as [s Es];
    [unfold RecvBatchRaw.capacity in Hn; lia|].
  destruct (arrays_ok_blocks b st i Hok) as [[a Ha] [c Hc]]; [lia|].
  rewrite <- cons_seq, fmap_cons. cbn [recv_lens_of ready_mmsg rmsg_iov rmsg_name rmsg_control].
  rewrite (ptr_read_Some _ _ _ (arrays_ok_iov _ _ _ _ Hok Es)), (ptr_read_Some _ _ _ Ha).
  rewrite (ptr_read_Some _ _ _ Hc). step. rewrite IH by lia. cbn [obind slot_iov iov_len].
  assert (El : ((λ s, length (buf s)) <$> RecvBatchRaw.slots b) !! i = Some (length (buf s)))
    by (by rewrite list_lookup_fmap, Es).
  by rewrite (drop_S _ _ _ El).
Qed.

Lemma recv_call_lens b st : arrays_ok b st →
  recv_lens_of st (take (recv_vlen b) (r_msgs st)) =
    Ret (take (recv_vlen b) ((λ s, length (buf s)) <$> RecvBatchRaw.slots b)).
Proof.
  intros Hok. pose proof (recv_vlen_le b) as Hv. pose proof Hok as ([junk E] & _).
  rewrite E, take_app_le by (by rewrite length_ready_msgs). unfold ready_msgs.
  rewrite <- fmap_take, take_seq, Nat.min_l by done.
  rewrite (recv_lens_of_spec b) by done. by rewrite drop_0.
Qed.

Lemma deliver_slots_lookup sl outs i :
  deliver_slots sl outs !! i =
    (λ s, match outs !! i with
          | Some m => set_slot_buf s (blit (mo_data m) (buf s))
          | None => s
          end) <$> sl !! i.
Proof.
  revert outs i. induction sl as [|s sl IH]; intros [|m outs] [|i]; cbn; try done;
    first [apply IH | by destruct (sl !! i)].
Qed.

(** Header [i] once message [m] has been written through it. *)
Definition done_mmsg (i : nat) m : mmsghdr :=
  MkMmsg (Some i) (mo_namelen m) (Some i) 1 (Some i) CMSG_BUF_SIZE (mo_len m).

(** The arrays when the first [j] messages of [outs] have been written. *)
Definition written b0 outs (j : nat) b st : Prop :=
  b = deliver b0 (take j outs) ∧
  (∀ i s, RecvBatchRaw.slots b0 !! i = Some s → r_iovecs st !! i = Some (slot_iov i s)) ∧
  (∀ i, (i < RecvBatchRaw.capacity b0)%nat → is_Some (r_addrs st !! i) ∧ is_Some (r_cmsgs st !! i)) ∧
  (∀ i, (j ≤ i < RecvBatchRaw.capacity b0)%nat → r_msgs st !! i = Some (ready_mmsg i)) ∧
  (∀ i m, (i < j)%nat → outs !! i = Some m →
     r_msgs st !! i = Some (done_mmsg i m) ∧ r_addrs st !! i = Some (mo_name m) ∧
     r_cmsgs st !! i = Some (mo_cmsgs m)).

Lemma arrays_ok_written b outs st : arrays_ok b st → written b outs 0 b st.
Proof.
  intros Hok. split_and!.
  - destruct b as [sl n]. unfold deliver. by destruct sl.
  - intros i s. by apply arrays_ok_iov.
  - intros i. by apply arrays_ok_blocks.
  - intros i [_ Hi]. destruct Hok as ([junk ->] & _). apply lookup_app_l_Some. unfold ready_msgs.
    rewrite list_lookup_fmap, lookup_seq_lt by done. done.
  - lia.
Qed.

Lemma deliver_slots_take_S sl outs j s m :
  sl !! j = Some s → outs !! j = Some m →
  deliver_slots sl (take (S j) outs) =
    <[j := set_slot_buf s (blit (mo_data m) (buf s))]> (deliver_slots sl (take j outs)).
Proof.
  intros Hs Hm. apply list_eq. intros i. rewrite deliver_slots_lookup.
  destruct (decide (i = j)) as [->|Hne].
  - rewrite Hs, lookup_take_lt, Hm by lia. symmetry. apply list_lookup_insert_eq.
    assert (is_Some (deliver_slots sl (take j outs) !! j)) as Hlt
      by (rewrite deliver_slots_lookup, Hs; by eexists). by apply lookup_lt_is_Some_1.
  - rewrite list_lookup_insert_ne, deliver_slots_lookup by done. f_equal. 
    destruct (decide (i < j)%nat); [by rewrite !lookup_take_lt by lia|].
    by rewrite !lookup_take_ge by lia.
Qed.

Lemma recv_write_one_spec b0 outs j b st m :
  written b0 outs j b st → outs !! j = Some m → (j < RecvBatchRaw.capacity b0)%nat →
  ∃ b' st', recv_write_one b st j m = Ret (b', st') ∧ written b0 outs (S j) b' st'.
Proof.
  intros (-> & Hiov & Hblk & Hmsg & Hread) Hm Hj.
  destruct (lookup_lt_is_Some_2 (RecvBatchRaw.slots b0) j Hj) as [s Hs].
  assert (Hd : deliver_slots (RecvBatchRaw.slots b0) (take j outs) !! j = Some s).
  { by rewrite deliver_slots_lookup, Hs, lookup_take_ge by lia. }
  destruct (Hblk j Hj) as [[a Ha] [c Hc]].
  unfold recv_write_one. rewrite (ptr_read_Some _ _ _ (Hmsg j ltac:(lia))). step.
  rewrite (ptr_read_Some _ _ _ (Hiov j s Hs)). step. cbn [slot_iov iov_base deliver RecvBatchRaw.slots].
  rewrite (ptr_read_Some _ _ _ Hd). step. rewrite (ptr_write_Some _ _ _ _ Hd). step.
  rewrite (ptr_write_Some _ _ _ _ Ha). step. rewrite (ptr_write_Some _ _ _ _ Hc). step.
  rewrite (ptr_write_Some _ _ _ _ (Hmsg j ltac:(lia))). step.
  do 2 eexists. split; [done|]. split_and!.
  - unfold deliver. by rewrite (deliver_slots_take_S _ _ _ _ _ Hs Hm).
  - intros i s' Hs'. by apply Hiov.
  - intros i Hi. destruct (Hblk i Hi). simpl. rewrite !list_lookup_insert_is_Some. auto.
  - intros i Hi. simpl. rewrite list_lookup_insert_ne by lia. apply Hmsg. lia.
  - intros i m' Hi Hm'. simpl. destruct (decide (i = j)) as [->|Hne].
    + simplify_eq. pose proof (Hmsg j ltac:(lia)).
      rewrite !list_lookup_insert_eq by (by apply lookup_lt_is_Some_1). done.
    + rewrite !list_lookup_insert_ne by done. apply Hread; [lia|done].
Qed.

Lemma recv_write_spec b0 all outs j b st :
  written b0 all j b st → drop j all = outs → (j ≤ length all ≤ RecvBatchRaw.capacity b0)%nat →
  ∃ st', recv_write b st j outs = Ret (deliver b0 all, st') ∧
         written b0 all (length all) (deliver b0 all) st'.
Proof.
  revert j b st. induction outs as [|m outs IH]; intros j b st Hw Hd Hl; cbn [recv_write].
  { assert (j = length all) as -> by (apply (f_equal length) in Hd; rewrite length_drop in Hd; simpl in Hd; lia).
    pose proof Hw as (-> & _). rewrite take_ge in * by done. eauto. }
  assert (Hm : all !! j = Some m) by (by rewrite <- (Nat.add_0_r j), <- lookup_drop, Hd).
  pose proof (lookup_lt_Some _ _ _ Hm) as Hj.
  destruct (recv_write_one_spec b0 all j b st m Hw Hm) as (b' & st' & -> & Hw'); [lia|]. cbn [obind].
  apply IH; [done| |lia]. rewrite (drop_S _ _ _ Hm) in Hd. by injection Hd.
Qed.

(** The loop reads what the kernel wrote. *)
Lemma recv_process_spec F b0 all st n i b o :
  written b0 all (length all) (deliver b0 all) st → (i + n = length all)%nat →
  recv_process F b st n i o = process F b (drop i all) o.
Proof.
  intros (_ & _ & _ & _ & Hread). revert i b o.
  induction n as [|n IH]; intros i b o Hn; cbn [recv_process].
  { by rewrite drop_ge by lia. }
  destruct (lookup_lt_is_Some_2 all i) as [m Hm]; [lia|].
  destruct (Hread i m ltac:(lia) Hm) as (H1 & H2 & H3). unfold recv_read.
  rewrite (oindex_Ret _ _ _ H1), (oindex_Ret _ _ _ H2). cbn [obind done_mmsg rmsg_control].
  rewrite (ptr_read_Some _ _ _ H3). cbn [obind]. rewrite (drop_S _ _ _ Hm). cbn [process].
  change (process_one F b (MkMmsgOut _ _ _ _ _) o) with (process_one F b m o).
  destruct (process_one F b m o) as [[b' o']| | |]; [|done..]. cbn [obind]. apply IH. lia.
Qed.

Context {KL : KernelLaws}.

Lemma retry_ext {A} fuel (f g : IO (Z * A)) h : (∀ h, f h = g h) → retry_eintr fuel f h = retry_eintr fuel g h.
Proof.
  intros Hfg. revert h. induction fuel as [|fuel IH]; intros h; cbn [retry_eintr]; [done|].
  unfold mbind. rewrite Hfg. destruct (g h) as [[[n x] h1]| | |]; [|done..].
  destruct (0 <=? n); [done|]. simpl. destruct (is_interrupted _); [apply IH|done].
Qed.

(** The count of a successful receive is the number of messages written, which the slots can hold. *)
Lemma retry_recvmmsg_count fuel fd b lens h n outs h' :
  (length lens ≤ RecvBatchRaw.capacity b)%nat →
  retry_eintr fuel (sys_recvmmsg fd lens) h = Ret (Ok (n, outs), h') →
  n = Z.of_nat (length outs) ∧ (length outs ≤ RecvBatchRaw.capacity b)%nat.
Proof.
  intros Hl (k & _ & Hr)%retry_sound. remember (Ok (n, outs)) as r eqn:E.
  induction Hr as [h n' x h' Hf Hn| |]; simplify_eq; auto. unfold sys_recvmmsg in Hf.
  destruct (k_recvmmsg h fd lens) as [ret os] eqn:Ek. injection Hf as -> -> _.
  destruct (recvmmsg_count _ _ _ _ _ Ek Hn). lia.
Qed.

Lemma recv_prepared_spec F fuel fd b st h : arrays_ok b st →
  recv_prepared F fuel fd b st h =
    (let! r := retry_eintr fuel
                 (sys_recvmmsg fd (take (recv_vlen b) ((λ s, length (buf s)) <$> RecvBatchRaw.slots b))) in
     match r with
     | Err e => if is_enosys e then fallback_recv fd b else mret (Err e, b)
     | Ok (_, outs) =>
         let! '(b, out_idx) := lift (process F (deliver b outs) outs 0) in
         mret (Ok out_idx, RecvBatchRaw.set_len b out_idx)
     end) h.
Proof.
  intros Hok. unfold recv_prepared. apply mbind_cong.
  { apply retry_ext. intros h0. unfold mbind, lift. by rewrite recv_call_lens. }
  intros [[n outs]|e] h1 Er; [|done]. apply (retry_recvmmsg_count _ _ b) in Er as [-> Hl];
    [|rewrite length_take; pose proof (recv_vlen_le b); lia].
  destruct (recv_write_spec b outs outs 0 b st) as (st' & Ew & Hw); [by apply arrays_ok_written|done|lia|].
  unfold mbind at 1, lift at 1. rewrite Ew, Nat2Z.id. apply mbind_cong; [|done].
  unfold lift. by rewrite (recv_process_spec F b outs) by done.
Qed.
End arrays.

(** C12: the two copies of the Linux receive, with their arrays of headers, iovecs, address blocks and
    control buffers, are one function: for every batch, whatever its size, and every kernel that
    reports how many messages it wrote, filling the arrays (on the stack for at most 64 slots, in
    vectors with a second pass for more), letting the kernel write through the pointers, and reading
    the answers back out of the arrays gives exactly the result, batch and history of the receive on
    the slots themselves, errors and panics included. No pointer is dangling and no index out of
    range. *)
Theorem linux_recv_arrays_equiv {L : Libc} {K : Kernel} {KL : KernelLaws} F fuel fd b h :
  linux_try_recv_arrays F fuel fd b h = linux_try_recv_batch F fuel fd b h.
Proof.
  unfold linux_try_recv_arrays, linux_try_recv_batch.
  destruct (Nat.eqb_spec (RecvBatchRaw.capacity b) 0) as [_|Hne]; [done|].
  assert (Hl : recv_iovecs b (RecvBatchRaw.capacity b) 0 =
               Ret ((λ s, length (buf s)) <$> RecvBatchRaw.slots b))
    by (by rewrite recv_iovecs_spec, drop_0).
  unfold mbind at 3, lift at 3. rewrite Hl.
  destruct (Nat.leb_spec (RecvBatchRaw.capacity b) MAX_STACK) as [Hs|Hs].
  - change recv_stack_arrays with (stack_filled b 0). unfold mbind at 1, lift at 1.
    rewrite (recv_stack_fill_spec b (RecvBatchRaw.capacity b) 0 eq_refl Hs).
    apply recv_prepared_spec. by apply stack_arrays_ok.
  - unfold mbind at 1, lift at 1. destruct (recv_heap_arrays_spec b) as (st & -> & Hok).
    by apply recv_prepared_spec.
Qed.

(** 65 slots, one more than the stack arrays hold, and a call that delivers two datagrams. *)
Definition two_messages : @Kernel linux_le :=
  sample_kernel [ARecvMM [([7; 8], localhost_name 9000, 16, []); ([9], localhost_name 9001, 16, [])]].

Lemma linux_recv_arrays_equiv_witness :
  match linux_try_recv_arrays (K := two_messages) all_features 1 3 (RecvBatchRaw.with_capacity 65 4) [] with
  | Ret ((Ok n, b'), _) => n = 2%nat ∧ packets b' = [([7; 8], localhost 9000); ([9], localhost 9001)]
  | _ => False
  end.
Proof.
  rewrite (@linux_recv_arrays_equiv linux_le two_messages (script_kernel_laws _ _)).
  vm_compute. split; reflexivity.
Defined.
