(* ===== verification/Macos.v ===== *)
(** * macOS backend (src/platform/macos.rs)

    [sendmsg_x] / [recvmsg_x] are private calls of the system library that the code looks up with
    [dlsym]; without them it works one datagram at a time. They take arrays of headers like
    [sendmmsg] / [recvmmsg]; the code that prepares them is the vector code of the Linux backend, for
    batches of every size. *)
From stdpp Require Import strings.
From S2P Require Import Prelude Libc UnixAbi Sockaddr Batch Backend Fallback LinuxSend LinuxRecv.
#[local] Open Scope Z_scope.

(** The system library: the address of a symbol (0 when it is missing, and the same on every lookup)
    and the two calls. *)
Class Xnu {L : Libc} := {
  dlsym : string → Z;
  k_sendmsg_x : history → Fd → list wire_msg → Z;
  k_recvmsg_x : history → Fd → list nat → Z * list mmsg_out;
}.

(** Both calls return a number of messages, at most as many as headers were passed, or a negative
    value; [msg_datalen] of a received message is the number of bytes written into its buffer. *)
Class XnuLaws {L : Libc} {X : Xnu} : Prop := {
  sendmsg_x_le : ∀ h fd msgs, k_sendmsg_x h fd msgs ≤ Z.of_nat (length msgs);
  recvmsg_x_count : ∀ h fd lens ret outs, k_recvmsg_x h fd lens = (ret, outs) → 0 ≤ ret →
    ret = Z.of_nat (length outs) ∧ (length outs ≤ length lens)%nat;
  recvmsg_x_fits : ∀ h fd lens ret outs i m n, k_recvmsg_x h fd lens = (ret, outs) →
    outs !! i = Some m → lens !! i = Some n →
    mo_len m = Z.of_nat (length (mo_data m)) ∧ (length (mo_data m) ≤ n)%nat ∧ mo_len m < 2 ^ 16;
}.

Section macos.
Context {L : Libc} {K : Kernel} {X : Xnu}.
Implicit Types (b : RecvBatchRaw.t) (m : mmsg_out).

(** [sendmsg_x(fd, msgs, len, 0)] once the kernel has read the headers. *)
Definition sys_sendmsg_x (fd : Fd) (ws : list wire_msg) : IO (Z * unit) := λ h,
  let r := k_sendmsg_x h fd ws in Ret ((r, tt), h ++ [EvSendmsgX fd ws r]).
Definition sys_recvmsg_x (fd : Fd) (buflens : list nat) : IO (Z * list mmsg_out) := λ h,
  let '(r, outs) := k_recvmsg_x h fd buflens in
  Ret ((r, outs), h ++ [EvRecvmsgX fd buflens r outs]).

(** [resolve_symbol]: [lock] is the contents of the [OnceLock], which the call leaves filled. *)
Definition resolve_symbol (lock : option Z) (name : string) : option Z * option Z :=
  let addr := default (dlsym name) lock in
  (if addr =? 0 then None else Some addr, Some addr).

(** The locks are private to the two functions, so they are empty or hold the address of their
    symbol; [resolve_symbol_cached] shows that the answer does not depend on which. *)
Definition sendmsg_x_fn : option Z := (resolve_symbol None "sendmsg_x").1.
Definition recvmsg_x_fn : option Z := (resolve_symbol None "recvmsg_x").1.

(** [retry_eintr]: the function of linux.rs at type [isize]. *)
Definition retry_eintr_x {A} (fuel : nat) (f : IO (Z * A)) : IO (io_result (Z * A)) :=
  retry_eintr fuel f.

(** The closure passed to it: the kernel reads the headers on every attempt. *)
Definition send_x_call (fd : Fd) (sb : SendBatchRaw.t) (ms : list msghdr) (iovs : list slice)
    (ads : list storage) : IO (Z * unit) :=
  let! ws := resolve_all iovs ads (take (vlen sb) ms) in sys_sendmsg_x fd ws.

Definition macos_try_send_batch (fuel : nat) (fd : Fd) (sb : SendBatchRaw.t) : IO (io_result nat) :=
  let len := SendBatchRaw.len sb in
  if (len =? 0)%nat then mret (Ok 0%nat)
  else
    let! connected := is_connected fd in
    if (connected : bool) then send_loop fd sb true len 0 0
    else
      let! '(ms, iovs, ads) := heap_fill sb len 0 [] [] [] in
      let! ms := heap_fix sb ms iovs ads 0 0 in
      match sendmsg_x_fn with
      | Some _ =>
          let! r := retry_eintr_x fuel (send_x_call fd sb ms iovs ads) in
          mret (match r with Ok (sent, _) => Ok (Z.to_nat sent) | Err e => Err e end)
      | None => send_loop fd sb false len 0 0
      end.

(** [for i in 0..n]: length and source of each received message. *)
Fixpoint store_x b (outs : list mmsg_out) (i : nat) : outcome RecvBatchRaw.t :=
  match outs with
  | [] => Ret b
  | m :: outs =>
      let? b := RecvBatchRaw.set_recv_len b i (mo_len m) in
      let? b := RecvBatchRaw.set_addr b i (decode_sockaddr (mo_name m) (mo_namelen m)) in
      store_x b outs (S i)
  end.

Definition macos_try_recv_batch (fuel : nat) (fd : Fd) b : IO (io_result nat * RecvBatchRaw.t) :=
  let capacity := RecvBatchRaw.capacity b in
  if (capacity =? 0)%nat then mret (Ok 0%nat, b)
  else
    let! lens := lift (recv_iovecs b capacity 0) in
    match recvmsg_x_fn with
    | Some _ =>
        let! r := retry_eintr_x fuel (sys_recvmsg_x fd (take (recv_vlen b) lens)) in
        match r with
        | Err e => mret (Err e, b)
        | Ok (received, outs) =>
            let n := Z.to_nat received in
            let! b := lift (store_x (deliver b outs) outs 0) in
            mret (Ok n, RecvBatchRaw.set_len b n)
        end
    | None => recv_loop fd b capacity 0 0
    end.

(** Batches whose datagrams the backend addresses correctly. *)
Definition macos_send_supported (sb : SendBatchRaw.t) : Prop := addressed_first (contents sb) = true.

Definition macos_backend (fuel : nat) : Backend := {|
  try_send_batch := macos_try_send_batch fuel;
  try_recv_batch := macos_try_recv_batch fuel;
  send_supported := macos_send_supported;
|}.

Lemma resolve_symbol_cached lock name :
  lock = None ∨ lock = Some (dlsym name) →
  resolve_symbol lock name = ((resolve_symbol None name).1, Some (dlsym name)).
Proof. by intros [->| ->]. Qed.

(** ** Sending *)

(** The two preparing loops leave the memory alone and end with one address block per entry. *)
Lemma heap_prepared cap sb bss h : send_wf cap sb → payloads h sb bss →
  let es := contents sb in
  heap_fill sb (SendBatchRaw.len sb) 0 [] [] [] h =
    Ret ((local_hdrs es 0, fst <$> es, entry_blocks es), h) ∧
  heap_fix sb (local_hdrs es 0) (fst <$> es) (entry_blocks es) 0 0 h = Ret (final_hdrs es 0 0, h).
Proof.
  intros Hwf Hp. cbv zeta. pose proof (length_contents cap sb Hwf) as Hc.
  pose proof (heap_fill_spec cap sb bss (SendBatchRaw.len sb) 0 [] [] [] h Hwf Hp eq_refl eq_refl) as E1.
  pose proof (heap_fix_spec cap sb bss (fst <$> contents sb) (entry_blocks (contents sb))
                (SendBatchRaw.len sb) 0 0 h Hwf Hp eq_refl ltac:(lia)) as E2.
  rewrite drop_0 in E1, E2. split; [exact E1|]. apply E2; unfold entry_blocks; len.
Qed.

(** The prepared headers mean the datagrams of the batch, on every attempt. *)
Lemma send_x_prepared cap fd sb bss h evs :
  send_wf cap sb → payloads h sb bss → macos_send_supported sb →
  let es := contents sb in
  send_x_call fd sb (final_hdrs es 0 0) (fst <$> es) (entry_blocks es) (h ++ evs) =
  sys_sendmsg_x fd (take (vlen sb) (wires false sb bss)) (h ++ evs).
Proof.
  intros Hwf Hp Hsup es. unfold send_x_call. rewrite final_hdrs_take. erewrite mbind_Ret.
  2:{ apply (resolve_all_spec _ _ _ (take (vlen sb) bss)).
      - apply Forall2_take. eapply Forall2_impl; [|exact (payloads_app _ evs _ _ Hp)].
        intros e bs. apply stable_from_now.
      - intros j e [Hj _]%lookup_take_Some. change (0 + j)%nat with j. simpl.
        by rewrite list_lookup_fmap, Hj.
      - simpl. etransitivity; [apply length_dest_blocks_take|].
        etransitivity; [apply length_dest_blocks|]. unfold entry_blocks. len. }
  rewrite names_in_take, <- zip_with_take, names_in_match by (by apply entry_blocks_match).
  by rewrite wires_names.
Qed.

(** A closure that makes the call [g] on every attempt is retried like [g]. *)
Lemma retries_ext {A} (f g : IO (Z * A)) k h r h' :
  (∀ h n x h', g h = Ret ((n, x), h') → ∃ evs, h' = h ++ evs) →
  (∀ evs, f (h ++ evs) = g (h ++ evs)) → retries g k h r h' → retries f k h r h'.
Proof.
  intros Hg Hfg Hr.
  induction Hr as [h n x h' Hc Hn|h n x h' Hc Hn Hk|k h n x h1 r h' Hc Hn Hk Hr IH];
    pose proof (Hfg []) as E; rewrite app_nil_r in E; rewrite <- E in Hc.
  - by eapply retries_ok.
  - by eapply retries_err.
  - eapply retries_again; [exact Hc|done..|]. apply IH. rewrite E in Hc.
    destruct (Hg _ _ _ _ Hc) as [evs1 ->]. intros evs. rewrite <- (assoc_L (++)). apply Hfg.
Qed.

Lemma macos_send_x cap fuel fd sb bss k h r h' :
  let W := take (vlen sb) (wires false sb bss) in
  let h0 := h ++ [EvGetpeername fd (k_getpeername h fd)] in
  send_wf cap sb → payloads h sb bss → SendBatchRaw.len sb ≠ 0%nat → macos_send_supported sb →
  k_getpeername h fd ≠ 0 → dlsym "sendmsg_x" ≠ 0 →
  (k < fuel)%nat → retries (sys_sendmsg_x fd W) k h0 r h' →
  macos_try_send_batch fuel fd sb h =
    Ret (match r with Ok (sent, _) => Ok (Z.to_nat sent) | Err e => Err e end, h').
Proof.
  intros W h0 Hwf Hp Hne Hsup Hconn Hsym Hk Hr. unfold macos_try_send_batch.
  rewrite (proj2 (Nat.eqb_neq _ _) Hne).
  erewrite (mbind_Ret (is_connected fd)) by done. fold h0.
  rewrite (proj2 (Z.eqb_neq _ _) Hconn).
  pose proof (payloads_app _ [EvGetpeername fd (k_getpeername h fd)] _ _ Hp) as Hp0. fold h0 in Hp0.
  destruct (heap_prepared cap sb bss h0 Hwf Hp0) as [E1 E2].
  rewrite (mbind_Ret _ _ _ _ _ E1), (mbind_Ret _ _ _ _ _ E2).
  unfold sendmsg_x_fn, resolve_symbol; simpl. rewrite (proj2 (Z.eqb_neq _ _) Hsym).
  erewrite mbind_Ret; [done|]. eapply retry_complete; [|exact Hk].
  eapply retries_ext; [|intros evs; by apply (send_x_prepared cap fd sb bss)|exact Hr]. intros ? ? ? ? [= _ <-]. eauto.
Qed.

(** What the attempts hand to the kernel: nothing before the last, the count of the last. *)
Lemma sendmsg_x_retries {XL : XnuLaws} fd ws k h r h' :
  retries (sys_sendmsg_x fd ws) k h r h' →
  ∃ evs, h' = h ++ evs ∧
    match r with
    | Ok (n, _) => 0 ≤ n ≤ Z.of_nat (length ws) ∧ accepted_all evs = take (Z.to_nat n) ws
    | Err e => e = OsError (k_errno h') ∧ accepted_all evs = []
    end.
Proof.
  unfold sys_sendmsg_x.
  induction 1 as [h n [] h' Hf Hn|h n [] h' Hf Hn Hk|k h n [] h1 r h' Hf Hn Hk Hr IH].
  - injection Hf as <- <-. pose proof (sendmsg_x_le h fd ws). eexists. split; [done|].
    unfold accepted_all; simpl. rewrite app_nil_r. done.
  - injection Hf as <- <-. eexists. split; [done|]. unfold accepted_all; simpl.
    by rewrite Z2Nat.nonpos, take_0 by lia.
  - injection Hf as <- <-. destruct IH as (evs & -> & IH). eexists (_ :: evs).
    split; [by rewrite <- (assoc_L (++))|]. rewrite accepted_all_cons; simpl.
    by rewrite Z2Nat.nonpos, take_0 by lia.
Qed.

(** A connected socket, or a system without [sendmsg_x]: as the portable backend. *)
Lemma macos_send_plain cap fuel fd sb bss h :
  send_wf cap sb → payloads h sb bss → SendBatchRaw.len sb ≠ 0%nat →
  k_getpeername h fd = 0 ∨ dlsym "sendmsg_x" = 0 →
  macos_try_send_batch fuel fd sb h = fallback_try_send_batch fd sb h.
Proof.
  intros Hwf Hp Hne Hcase. unfold macos_try_send_batch, fallback_try_send_batch.
  rewrite (proj2 (Nat.eqb_neq _ _) Hne).
  erewrite !(mbind_Ret (is_connected fd)) by done.
  destruct (k_getpeername h fd =? 0) eqn:Ec; [done|]. apply Z.eqb_neq in Ec.
  destruct Hcase as [|Hsym]; [done|].
  edestruct (heap_prepared cap sb bss) as [E1 E2]; [done|by apply payloads_app|].
  rewrite (mbind_Ret _ _ _ _ _ E1), (mbind_Ret _ _ _ _ _ E2).
  unfold sendmsg_x_fn, resolve_symbol; simpl. by rewrite Hsym.
Qed.

(** ** Receiving *)

(** The loop does what the Linux loop does when the build looks at no control message. *)
Definition no_features : features := MkFeatures false false false false false false false false false.

Lemma store_x_process b outs i :
  store_x b outs i = let? '(b, _) := process no_features b outs i in Ret b.
Proof.
  revert b i. induction outs as [|m outs IH]; intros b i; cbn [store_x process]; [done|].
  unfold process_one. destruct (RecvBatchRaw.set_recv_len b i (mo_len m)) as [b1| | |]; [|done..].
  cbn [obind]. destruct (RecvBatchRaw.set_addr b1 i _) as [b2| | |]; [|done..]. apply IH.
Qed.

(** A slot after it received [m]. *)
Definition filled_x (s : RecvSlot) m : RecvSlot :=
  MkRecvSlot (blit (mo_data m) (buf s)) (decode_sockaddr (mo_name m) (mo_namelen m))
    (as_u16 (mo_len m)) (timestamp s) (dst_addr s).

Lemma filled_no_features s m : filled no_features s m = filled_x s m.
Proof. unfold filled, finish. by rewrite slot_cmsgs_off. Qed.

Lemma filled_slots_x sl outs :
  filled_slots no_features sl outs = zip_with filled_x sl outs ++ drop (length outs) sl.
Proof.
  unfold filled_slots. f_equal. revert sl.
  induction outs as [|m outs IH]; intros [|s sl]; simpl; [done..|]. by rewrite filled_no_features, IH.
Qed.

Lemma store_x_deliver b outs : (length outs ≤ RecvBatchRaw.capacity b)%nat →
  store_x (deliver b outs) outs 0 =
    Ret (RecvBatchRaw.Mk (filled_slots no_features (RecvBatchRaw.slots b) outs) (RecvBatchRaw.len b)).
Proof.
  intros Hl. rewrite store_x_process, process_deliver_plain; [done| |done].
  apply Forall_forall. intros m _. by rewrite gro_size_off.
Qed.

(** The call a receive on [b] repeats until it is not interrupted. *)
Definition recv_x_call bs (fd : Fd) b : IO (Z * list mmsg_out) :=
  sys_recvmsg_x fd (replicate (recv_vlen b) bs).

Lemma recvmsg_x_retries {XL : XnuLaws} bs fd b k h r h' :
  retries (recv_x_call bs fd b) k h r h' →
  (∃ evs, h' = h ++ evs) ∧
  match r with
  | Ok (n, outs) => n = Z.of_nat (length outs) ∧ (length outs ≤ RecvBatchRaw.capacity b)%nat ∧
                    Forall (msg_ok bs) outs
  | Err e => e = OsError (k_errno h')
  end.
Proof.
  unfold recv_x_call, sys_recvmsg_x.
  induction 1 as [h n outs h' Hf Hn|h n outs h' Hf Hn Hk|k h n outs h1 r h' Hf Hn Hk Hr [[evs ->] IH]];
    destruct (k_recvmsg_x h fd _) as [n' outs'] eqn:Hx; injection Hf as <- <- <-.
  - destruct (recvmsg_x_count _ _ _ _ _ Hx Hn) as [-> Hle]. rewrite length_replicate in Hle.
    pose proof (recv_vlen_le b). split_and!; [eauto|done|lia|].
    apply Forall_lookup. intros i m Hm. apply (recvmsg_x_fits _ _ _ _ _ i m bs Hx Hm).
    apply lookup_replicate_2. apply lookup_lt_Some in Hm. lia.
  - eauto.
  - split; [|done]. rewrite <- (assoc_L (++)). eauto.
Qed.

Lemma macos_recv_unfold bs fuel fd b h :
  recv_wf bs b → RecvBatchRaw.capacity b ≠ 0%nat → dlsym "recvmsg_x" ≠ 0 →
  macos_try_recv_batch fuel fd b h =
    (let! r := retry_eintr_x fuel (recv_x_call bs fd b) in
     match r with
     | Err e => mret (Err e, b)
     | Ok (received, outs) =>
         let n := Z.to_nat received in
         let! b := lift (store_x (deliver b outs) outs 0) in
         mret (Ok n, RecvBatchRaw.set_len b n)
     end) h.
Proof.
  intros Hwf Hne Hsym. unfold macos_try_recv_batch. rewrite (proj2 (Nat.eqb_neq _ _) Hne).
  unfold mbind at 1, lift at 1. rewrite recv_iovecs_spec by done. rewrite drop_0, (recv_lens bs) by done.
  unfold recvmsg_x_fn, resolve_symbol; simpl. by rewrite (proj2 (Z.eqb_neq _ _) Hsym).
Qed.

Lemma macos_recv_plain fuel fd b h : dlsym "recvmsg_x" = 0 →
  macos_try_recv_batch fuel fd b h = fallback_try_recv_batch fd b h.
Proof.
  intros Hsym. unfold macos_try_recv_batch, fallback_try_recv_batch.
  destruct (Nat.eqb_spec (RecvBatchRaw.capacity b) 0) as [->|Hne]; [done|].
  unfold mbind at 1, lift at 1. rewrite recv_iovecs_spec by done.
  unfold recvmsg_x_fn, resolve_symbol; simpl. by rewrite Hsym.
Qed.

Lemma macos_recv_x {XL : XnuLaws} bs fuel fd b k h r h' :
  recv_wf bs b → RecvBatchRaw.capacity b ≠ 0%nat → dlsym "recvmsg_x" ≠ 0 →
  (k < fuel)%nat → retries (recv_x_call bs fd b) k h r h' →
  macos_try_recv_batch fuel fd b h =
    Ret (match r with
         | Ok (_, outs) =>
             (Ok (length outs),
              RecvBatchRaw.Mk (filled_slots no_features (RecvBatchRaw.slots b) outs) (length outs))
         | Err e => (Err e, b)
         end, h').
Proof.
  intros Hwf Hne Hsym Hk Hr. rewrite (macos_recv_unfold bs) by done.
  rewrite (mbind_Ret _ _ _ _ _ (retry_complete _ _ _ _ _ _ Hr Hk)).
  destruct r as [[n outs]|e]; [|done]. destruct (recvmsg_x_retries _ _ _ _ _ _ _ Hr) as (_ & -> & Hl & _).
  unfold mbind, lift. rewrite store_x_deliver by done. by rewrite Nat2Z.id.
Qed.

(** Fewer than [fuel] calls in a row are interrupted by signals. *)
Definition few_signals_x (fuel : nat) : Prop :=
  ∀ h fd,
    (∀ ws, ∃ k r h', (k < fuel)%nat ∧ retries (sys_sendmsg_x fd ws) k h r h') ∧
    (∀ lens, ∃ k r h', (k < fuel)%nat ∧ retries (sys_recvmsg_x fd lens) k h r h').

Context {KL : KernelLaws} {XL : XnuLaws}.

Lemma macos_send_prefix cap fuel fd sb bss h :
  few_signals_x fuel → send_wf cap sb → payloads h sb bss → macos_send_supported sb →
  wp (macos_try_send_batch fuel fd sb) (send_post sb bss h) h.
Proof.
  intros Hsig Hwf Hp Hsup. destruct (decide (SendBatchRaw.len sb = 0%nat)) as [E|E].
  { unfold macos_try_send_batch. rewrite E. apply wp_ret. exists [], false.
    rewrite app_nil_r. split; [done|]. split; [lia|by rewrite take_0]. }
  destruct (decide (k_getpeername h fd = 0 ∨ dlsym "sendmsg_x" = 0)) as [Hc|Hc].
  { unfold wp. rewrite (macos_send_plain cap fuel fd sb bss h) by done.
    exact (send_prefix (BackendLaws := fallback_laws) cap sb bss fd h Hwf Hp I). }
  apply Decidable.not_or in Hc as [Hconn Hsym].
  set (h0 := h ++ [EvGetpeername fd (k_getpeername h fd)]).
  destruct (Hsig h0 fd) as [Hs _].
  destruct (Hs (take (vlen sb) (wires false sb bss))) as (k & r & h' & Hk & Hr).
  eapply wp_intro; [by eapply (macos_send_x cap)|].
  destruct (sendmsg_x_retries _ _ _ _ _ _ Hr) as (evs & -> & Hpost).
  pose proof (length_wires cap h false sb bss Hwf Hp) as Hlw. pose proof (vlen_le sb) as Hv.
  eexists (EvGetpeername fd (k_getpeername h fd) :: evs), false.
  split; [unfold h0; by rewrite <- (assoc_L (++))|]. rewrite accepted_all_cons; simpl.
  destruct r as [[n []]|e]; destruct Hpost as [Hn ->].
  - rewrite length_take in Hn. split; [lia|]. rewrite take_take. f_equal. lia.
  - exists 0%nat. rewrite take_0. split; [lia|done].
Qed.

Lemma macos_recv_keeps fuel bs b fd h : few_signals_x fuel → recv_wf bs b →
  wp (macos_try_recv_batch fuel fd b) (recv_post bs b h) h.
Proof.
  intros Hsig Hwf. destruct (decide (dlsym "recvmsg_x" = 0)) as [Hsym|Hsym].
  { unfold wp. rewrite macos_recv_plain by done.
    exact (recv_keeps (BackendLaws := fallback_laws) bs b fd h Hwf). }
  destruct (decide (RecvBatchRaw.capacity b = 0%nat)) as [E|E].
  { unfold macos_try_recv_batch. rewrite E. apply wp_ret. split_and!; simpl; try done; try lia.
    by exists []; rewrite app_nil_r. }
  destruct (Hsig h fd) as [_ Hs]. destruct (Hs (replicate (recv_vlen b) bs)) as (k & r & h' & Hk & Hr).
  eapply wp_intro; [by eapply (macos_recv_x bs)|].
  destruct (recvmsg_x_retries bs fd b _ _ _ _ Hr) as (Hev & Hpost).
  destruct r as [[n outs]|e]; [|by split_and!]. destruct Hpost as (_ & Hl & Hm).
  pose proof Hwf as [Hall _].
  destruct (filled_slots_spec no_features bs _ _ Hall Hm Hl) as (H1 & H2 & _).
  unfold recv_post, recv_wf, RecvBatchRaw.capacity; simpl. rewrite H2. by split_and!.
Qed.
End macos.

(** C14: the macOS backend keeps the promises of the platform interface, so what the socket layer
    guarantees over a lawful backend holds on macOS: a send hands the kernel a prefix of the batch, in
    order and once, and a receive keeps the batch well-formed and reports how many slots it filled,
    whether or not the system library has the private calls. *)
Theorem macos_lawful {L : Libc} {K : Kernel} {X : Xnu} {KL : KernelLaws} {XL : XnuLaws} fuel :
  few_signals_x fuel → @BackendLaws L K (macos_backend fuel).
Proof.
  intros Hsig. split; simpl.
  - intros. by eapply macos_send_prefix.
  - intros. by apply macos_recv_keeps.
Qed.

(** C30: sending on macOS. A connected socket, or a system without [sendmsg_x], sends like the portable
    backend. Otherwise one [sendmsg_x], repeated while signals interrupt it, is offered every entry in
    order with its payload and destination; its count is the result and exactly that many datagrams
    are accepted, its error is returned with nothing accepted and is never an interruption. Holds for
    batches in which no addressed entry follows an unaddressed one. *)
Theorem macos_send_correct {L : Libc} {K : Kernel} {X : Xnu} {XL : XnuLaws} fuel fd cap sb bss h :
  send_wf cap sb → payloads h sb bss → SendBatchRaw.len sb ≠ 0%nat → macos_send_supported sb →
  let W := take (vlen sb) (wires false sb bss) in
  let h0 := h ++ [EvGetpeername fd (k_getpeername h fd)] in
  (Z.of_nat (SendBatchRaw.len sb) < 2 ^ 32 → W = wires false sb bss) ∧
  (k_getpeername h fd = 0 ∨ dlsym "sendmsg_x" = 0 →
     macos_try_send_batch fuel fd sb h = fallback_try_send_batch fd sb h) ∧
  (k_getpeername h fd ≠ 0 → dlsym "sendmsg_x" ≠ 0 →
   ∀ k r h', (k < fuel)%nat → retries (sys_sendmsg_x fd W) k h0 r h' →
   ∃ evs, h' = h0 ++ evs ∧
     match r with
     | Ok (n, _) => macos_try_send_batch fuel fd sb h = Ret (Ok (Z.to_nat n), h') ∧
                    n ≤ Z.of_nat (SendBatchRaw.len sb) ∧
                    accepted_all evs = take (Z.to_nat n) (wires false sb bss)
     | Err e => macos_try_send_batch fuel fd sb h = Ret (Err e, h') ∧
                kind e ≠ Interrupted ∧ accepted_all evs = []
     end).
Proof.
  intros Hwf Hp Hne Hsup W h0. pose proof (length_wires cap h false sb bss Hwf Hp) as Hlw.
  pose proof (vlen_le sb) as Hv. split_and!.
  - intros Hb. unfold W. rewrite vlen_small by done. apply take_ge. lia.
  - by apply (macos_send_plain cap fuel fd sb bss).
  - intros Hconn Hsym k r h' Hk Hr.
    pose proof (macos_send_x cap fuel fd sb bss k h r h' Hwf Hp Hne Hsup Hconn Hsym Hk Hr) as E.
    destruct (sendmsg_x_retries _ _ _ _ _ _ Hr) as (evs & -> & Hpost). exists evs. split; [done|].
    destruct r as [[n []]|e].
    + destruct Hpost as [Hn ->]. unfold W in *. rewrite length_take in Hn.
      split_and!; [exact E|lia|]. rewrite take_take. f_equal. lia.
    + destruct Hpost as [_ ->]. split_and!; [exact E|by eapply retries_not_interrupted|done].
Qed.

(** C31: receiving on macOS. Without [recvmsg_x] the portable receive runs. With it, the batch holds
    exactly the messages of the first call that is not interrupted, in order, each with its payload
    and source, the slots after them keep their contents, and the batch length is their number; an
    error is returned with the batch untouched and is never an interruption. *)
Theorem macos_recv_correct {L : Libc} {K : Kernel} {X : Xnu} {XL : XnuLaws} bs fuel fd b h :
  recv_wf bs b → RecvBatchRaw.capacity b ≠ 0%nat →
  (dlsym "recvmsg_x" = 0 →
     macos_try_recv_batch fuel fd b h = fallback_try_recv_batch fd b h) ∧
  (dlsym "recvmsg_x" ≠ 0 →
   ∀ k r h', (k < fuel)%nat → retries (recv_x_call bs fd b) k h r h' →
     match r with
     | Ok (n, outs) => ∃ b',
         macos_try_recv_batch fuel fd b h = Ret ((Ok (length outs), b'), h') ∧
         recv_wf bs b' ∧ RecvBatchRaw.len b' = length outs ∧ packets b' = msg_packet <$> outs ∧
         RecvBatchRaw.slots b' =
           zip_with filled_x (RecvBatchRaw.slots b) outs ++ drop (length outs) (RecvBatchRaw.slots b)
     | Err e => macos_try_recv_batch fuel fd b h = Ret ((Err e, b), h') ∧ kind e ≠ Interrupted
     end).
Proof.
  intros Hwf Hne. split; [apply macos_recv_plain|]. intros Hsym k r h' Hk Hr.
  pose proof (macos_recv_x bs fuel fd b k h r h' Hwf Hne Hsym Hk Hr) as E.
  destruct r as [[n outs]|e].
  - destruct (recvmsg_x_retries _ _ _ _ _ _ _ Hr) as (_ & _ & Hl & Hm). destruct Hwf as [Hall _].
    destruct (filled_slots_spec no_features bs _ _ Hall Hm Hl) as (H1 & H2 & H3).
    eexists. split; [exact E|]. unfold recv_wf, packets, RecvBatchRaw.capacity; simpl.
    rewrite H2, <- filled_slots_x. by split_and!.
  - split; [exact E|by eapply retries_not_interrupted].
Qed.

(** ** Examples: a macOS system that answers from a script *)
Definition macos_le : Libc := unix_libc MacOS true.
Definition macos_kernel (script : list (@answer macos_le)) : @Kernel macos_le :=
  @script_kernel macos_le sample_mem script.
Definition script_xnu (script : list (@answer macos_le)) : @Xnu macos_le := {|
  dlsym _ := 4096;
  k_sendmsg_x h _ msgs := Z.min (@ret_at macos_le script h) (Z.of_nat (length msgs));
  k_recvmsg_x h _ lens := @script_recvmmsg macos_le script h lens;
|}.

Lemma script_xnu_laws script : @XnuLaws macos_le (script_xnu script).
Proof.
  pose proof (@script_kernel_laws macos_le sample_mem script) as KL. split; simpl.
  - intros. lia.
  - exact (@recvmmsg_count _ _ KL).
  - exact (@recvmmsg_fits _ _ KL).
Qed.

(** The address block of localhost:9000 as macOS fills it in. *)
Definition macos_name : @storage macos_le :=
  put_bytes (sockaddr_in_bytes MacOS true (MkSin 2 (to_be true 2 9000) 16777343)) (replicate 128 0).

Lemma macos_lawful_witness :
  few_signals_x (K := macos_kernel []) (X := script_xnu []) 1 ∧
  @BackendLaws macos_le (macos_kernel []) (macos_backend (X := script_xnu []) 1).
Proof.
  assert (Hsig : few_signals_x (K := macos_kernel []) (X := script_xnu []) 1).
  { intros h fd. split.
    - intros ws. do 3 eexists. split; [apply le_n|]. eapply retries_err; [reflexivity| |done].
      simpl. unfold ret_at, answer_at; simpl. lia.
    - intros lens. do 3 eexists. split; [apply le_n|]. eapply retries_err; [reflexivity|simpl; lia|done]. }
  split; [exact Hsig|].
  exact (@macos_lawful macos_le (macos_kernel []) (script_xnu []) (script_kernel_laws _ _)
           (script_xnu_laws []) 1 Hsig).
Defined.

(** An unconnected socket: [sendmsg_x] is interrupted once and then takes both datagrams. *)
Definition interrupted_send : list (@answer macos_le) := [ARet (-1) 57; ARet (-1) 4; ARet 5 0].

Lemma macos_send_correct_witness :
  ∃ evs, macos_try_send_batch (K := macos_kernel interrupted_send) (X := script_xnu interrupted_send)
           2 3 two_entries [] = Ret (Ok 2%nat, EvGetpeername 3 (-1) :: evs) ∧
    accepted_all evs =
      wires (L := macos_le) false two_entries [[104; 101; 108; 108; 111]; [1; 2]].
Proof.
  destruct (@macos_send_correct macos_le (macos_kernel interrupted_send) (script_xnu interrupted_send)
              (script_xnu_laws _) 2 3 2 two_entries [[104; 101; 108; 108; 111]; [1; 2]] [])
    as (_ & _ & H).
  - apply two_entries_wf.
  - repeat constructor.
  - done.
  - reflexivity.
  - edestruct (H ltac:(done) ltac:(done) 1%nat (Ok (2, tt))) as (evs & Hev & E & _ & Hacc).
    + lia.
    + eapply retries_again; [reflexivity|vm_compute; reflexivity|reflexivity|].
      eapply retries_ok; [reflexivity|vm_compute; discriminate].
    + exists evs. split; [rewrite Hev in E; exact E|exact Hacc].
Defined.

(** One interrupted [recvmsg_x], then one datagram. *)
Definition interrupted_recv : list (@answer macos_le) :=
  [ARet (-1) 4; ARecvMM [([7; 8], macos_name, 16, [])]].

Lemma macos_recv_correct_witness :
  ∃ b' h', macos_try_recv_batch (K := macos_kernel interrupted_recv) (X := script_xnu interrupted_recv)
          2 3 (RecvBatchRaw.with_capacity 2 4) [] = Ret ((Ok 1%nat, b'), h') ∧
    packets b' = [([7; 8], localhost 9000)].
Proof.
  destruct (@macos_recv_correct macos_le (macos_kernel interrupted_recv) (script_xnu interrupted_recv)
              (script_xnu_laws _) 4 2 3 (RecvBatchRaw.with_capacity 2 4) []) as [_ H].
  - apply with_capacity_recv_wf.
  - done.
  - edestruct (H ltac:(done) 1%nat (Ok (1, [MkMmsgOut 2 [7; 8] macos_name 16 []])))
      as (b' & E & _ & _ & Hp & _).
    + lia.
    + eapply retries_again; [reflexivity|vm_compute; reflexivity|reflexivity|].
      eapply retries_ok; [reflexivity|vm_compute; discriminate].
    + eexists b', _. split; [exact E|exact Hp].
Defined.
