(* ===== verification/Windows.v ===== *)
(** * Windows backend (src/platform/windows.rs, src/sockaddr/windows_impl.rs)

    One [WSASendMsg] or [WSARecvMsg] per datagram. [WSARecvMsg] is an extension function that the first
    receive loads through a temporary socket and keeps in a static [OnceLock]; without it the backend
    uses [recvfrom]. *)
From stdpp Require Import strings.
From S2P Require Import Prelude Libc UnixAbi Sockaddr Batch Backend Fallback.
#[local] Open Scope Z_scope.

(** The parts of the windows-sys crate and of WinSock that only this backend uses. *)
Class WinSock {L : Libc} := {
  SOCKET_ERROR : Z;
  INVALID_SOCKET : Z;
  k_wsasendmsg : history → Fd → wire_msg → Z;
  k_wsarecvmsg : history → Fd → nat → wsa_out;
  k_socket : history → Z;
  (** [WSAIoctl] for the pointer to [WSARecvMsg]: return value and what it wrote to [func_ptr] *)
  k_wsaioctl : history → Fd → Z * option Z;
}.

Class WinSockLaws {L : Libc} {K : Kernel} {W : WinSock} : Prop := {
  SOCKET_ERROR_neg : SOCKET_ERROR < 0;
  (** a successful [WSARecvMsg] reports the bytes it wrote, which fit into the buffer *)
  wsarecvmsg_ok : ∀ h fd n, wo_rc (k_wsarecvmsg h fd n) ≠ SOCKET_ERROR →
    wo_bytes (k_wsarecvmsg h fd n) = Z.of_nat (length (wo_data (k_wsarecvmsg h fd n))) ∧
    (length (wo_data (k_wsarecvmsg h fd n)) ≤ n)%nat ∧ wo_bytes (k_wsarecvmsg h fd n) < 2 ^ 16;
  (** calls that fail return [SOCKET_ERROR] *)
  recvfrom_fails : ∀ h fd n, ro_ret (k_recvfrom h fd n) < 0 → ro_ret (k_recvfrom h fd n) = SOCKET_ERROR;
  connect_ret : ∀ h fd st len, k_connect h fd st len = 0 ∨ k_connect h fd st len = SOCKET_ERROR;
  getsockname_ret : ∀ h fd, (k_getsockname h fd).1 = 0 ∨ (k_getsockname h fd).1 = SOCKET_ERROR;
  setsockopt_ret : ∀ h fd l o v, k_setsockopt h fd l o v = 0 ∨ k_setsockopt h fd l o v = SOCKET_ERROR;
  getsockopt_ret : ∀ h fd l o, (k_getsockopt h fd l o).1 = 0 ∨ (k_getsockopt h fd l o).1 = SOCKET_ERROR;
}.

Section windows.
Context {L : Libc} {K : Kernel} {W : WinSock}.

Definition sys_wsasendmsg (fd : Fd) (msg : wire_msg) : IO Z := λ h,
  let rc := k_wsasendmsg h fd msg in Ret (rc, h ++ [EvWSASendMsg fd msg rc]).
Definition sys_wsarecvmsg (fd : Fd) (buflen : nat) : IO wsa_out := λ h,
  let o := k_wsarecvmsg h fd buflen in Ret (o, h ++ [EvWSARecvMsg fd buflen o]).
Definition sys_socket : IO Z := λ h, let s := k_socket h in Ret (s, h ++ [EvSocket s]).
Definition sys_wsaioctl (fd : Fd) : IO (Z * option Z) := λ h,
  let r := k_wsaioctl h fd in Ret (r, h ++ [EvWSAIoctl fd r.1 r.2]).

(** ** Socket addresses and wrappers (sockaddr/windows_impl.rs) *)
Definition ws_encode_sockaddr (addr : SocketAddr) (st : storage) : Z * storage :=
  match addr with
  | V4 v4 =>
      let sin := MkSin AF_INET (to_be little_endian 2 (v4_port v4))
                   (from_ne_bytes little_endian (v4_ip v4)) in
      (SIZEOF_SOCKADDR_IN, write_sockaddr_in sin st)
  | V6 v6 =>
      let sin6 := MkSin6 AF_INET6 (to_be little_endian 2 (v6_port v6)) (v6_flowinfo v6) (v6_ip v6)
                    (v6_scope_id v6) in
      (SIZEOF_SOCKADDR_IN6, write_sockaddr_in6 sin6 st)
  end.

Definition ws_decode_sockaddr (st : storage) (len : Z) : SocketAddr :=
  if len =? 0 then unspecified
  else
    let x := ss_family st in
    if x =? AF_INET then
      let sin := read_sockaddr_in st in
      V4 (MkV4 (Ipv4Addr_from_u32 (from_be little_endian 4 (sin_addr sin)))
            (from_be little_endian 2 (sin_port sin)))
    else if x =? AF_INET6 then
      let sin6 := read_sockaddr_in6 st in
      V6 (MkV6 (sin6_addr sin6) (from_be little_endian 2 (sin6_port sin6)) (sin6_flowinfo sin6)
            (sin6_scope_id sin6))
    else unspecified.

Definition ws_is_connected (fd : Fd) : IO bool :=
  let! ret := sys_getpeername fd in mret (ret =? 0).

Definition ws_raw_getsockname (fd : Fd) : IO (io_result SocketAddr) :=
  let! '(ret, (st, len)) := sys_getsockname fd in
  if ret =? 0 then mret (Ok (ws_decode_sockaddr st len))
  else let! e := last_os_error in mret (Err e).

Definition ws_raw_connect (fd : Fd) (addr : SocketAddr) : IO (io_result unit) :=
  let '(addr_len, st) := ws_encode_sockaddr addr storage_zeroed in
  let! ret := sys_connect fd st addr_len in
  if ret =? 0 then mret (Ok tt) else let! e := last_os_error in mret (Err e).

Definition ws_raw_setsockopt (fd : Fd) (level optname val : Z) : IO (io_result unit) :=
  let! ret := sys_setsockopt fd level optname val in
  if ret =? 0 then mret (Ok tt) else let! e := last_os_error in mret (Err e).

Definition ws_raw_getsockopt (fd : Fd) (level optname : Z) : IO (io_result Z) :=
  let! '(ret, val) := sys_getsockopt fd level optname in
  if ret =? 0 then mret (Ok val) else let! e := last_os_error in mret (Err e).

(** [data.len() as u32], the length of a [WSABUF]. *)
Definition u32_len (n : nat) : nat := Z.to_nat (as_u32 (Z.of_nat n)).
(** [buf_len as i32]; WinSock rejects a negative length, for which the model passes 0. *)
Definition i32_len (n : nat) : nat := Z.to_nat (as_i32 (Z.of_nat n)).

Definition ws_raw_sendto (fd : Fd) (data : slice) (addr : SocketAddr) : IO (io_result Z) :=
  let '(addr_len, st) := ws_encode_sockaddr addr storage_zeroed in
  let! bytes := read_slice (MkSlice (s_ptr data) (i32_len (s_len data))) in
  let! ret := sys_sendto fd bytes st addr_len in
  if 0 <=? ret then mret (Ok ret) else let! e := last_os_error in mret (Err e).

Definition ws_raw_send (fd : Fd) (data : slice) : IO (io_result Z) :=
  let! bytes := read_slice (MkSlice (s_ptr data) (i32_len (s_len data))) in
  let! ret := sys_send fd bytes in
  if 0 <=? ret then mret (Ok ret) else let! e := last_os_error in mret (Err e).

Definition ws_raw_recvfrom (fd : Fd) (buf : list Z) : IO (io_result (Z * SocketAddr) * list Z) :=
  let! out := sys_recvfrom fd (i32_len (length buf)) in
  let buf := blit (ro_data out) buf in
  if 0 <=? ro_ret out then
    mret (Ok (ro_ret out, ws_decode_sockaddr (ro_name out) (ro_namelen out)), buf)
  else let! e := last_os_error in mret (Err e, buf).

(** ** The backend (platform/windows.rs) *)

(** The new contents of [storage] and of [namelen]. *)
Definition encode_addr_into (addr : SocketAddr) (st : storage) : storage * Z :=
  match addr with
  | V4 v4 =>
      let sin := MkSin AF_INET (to_be little_endian 2 (v4_port v4))
                   (from_ne_bytes little_endian (v4_ip v4)) in
      (write_sockaddr_in sin st, SIZEOF_SOCKADDR_IN)
  | V6 v6 =>
      let sin6 := MkSin6 AF_INET6 (to_be little_endian 2 (v6_port v6)) (v6_flowinfo v6) (v6_ip v6)
                    (v6_scope_id v6) in
      (write_sockaddr_in6 sin6 st, SIZEOF_SOCKADDR_IN6)
  end.

(** The backend's own copy of the decoder. *)
Definition win_decode_sockaddr (st : storage) (namelen : Z) : SocketAddr :=
  if namelen =? 0 then unspecified
  else
    let x := ss_family st in
    if x =? AF_INET then
      let sin := read_sockaddr_in st in
      let ip := Ipv4Addr_from_u32 (from_be little_endian 4 (sin_addr sin)) in
      let port := from_be little_endian 2 (sin_port sin) in
      V4 (MkV4 ip port)
    else if x =? AF_INET6 then
      let sin6 := read_sockaddr_in6 st in
      let port := from_be little_endian 2 (sin6_port sin6) in
      V6 (MkV6 (sin6_addr sin6) port (sin6_flowinfo sin6) (sin6_scope_id sin6))
    else unspecified.

(** The contents of the static [WSARECVMSG_PTR], which is written once per process. *)
Definition once_lock (h : history) : option (option Z) :=
  head (omap (λ ev, match ev with EvOnceLock f => Some f | _ => None end) h).

(** The closure passed to [get_or_init]. *)
Definition load_wsa_recvmsg : IO (option Z) :=
  let! s := sys_socket in
  if s =? INVALID_SOCKET then mret None
  else
    let! '(rc, func_ptr) := sys_wsaioctl s in
    let! _ := sys_close s in
    mret (if rc =? SOCKET_ERROR then None else func_ptr).

Definition get_wsa_recvmsg : IO (option Z) := λ h,
  match once_lock h with
  | Some f => Ret (f, h)
  | None => (let! f := load_wsa_recvmsg in λ h, Ret (f, h ++ [EvOnceLock f])) h
  end.

Fixpoint win_send_loop (fd : Fd) (b : SendBatchRaw.t) (connected : bool) (n i sent : nat)
    : IO (io_result nat) :=
  match n with
  | O => mret (Ok sent)
  | S n =>
      let! '(data, a) := SendBatchRaw.entry b i in
      let wsa_buf := MkSlice (s_ptr data) (u32_len (s_len data)) in
      let '(addr_storage, namelen) :=
        match connected, a with
        | false, Some target => encode_addr_into target storage_zeroed
        | _, _ => (storage_zeroed, 0)
        end in
      let use_addr := negb connected && bool_decide (is_Some a) in
      let! bytes := read_slice wsa_buf in
      let! rc := sys_wsasendmsg fd
                   (MkWire bytes (if use_addr then Some (addr_storage, namelen) else None)) in
      if rc =? 0 then win_send_loop fd b connected n (S i) (S sent)
      else
        let! err := last_os_error in
        if is_would_block err then mret (Ok sent)
        else if (0 <? sent)%nat then mret (Ok sent)
        else mret (Err err)
  end.

Definition win_try_send_batch (fd : Fd) (b : SendBatchRaw.t) : IO (io_result nat) :=
  let len := SendBatchRaw.len b in
  if (len =? 0)%nat then mret (Ok 0%nat)
  else
    let! connected := ws_is_connected fd in
    win_send_loop fd b connected len 0 0.

(** One receive into a buffer; also returns the buffer as the call leaves it. *)
Definition win_recv_one (fd : Fd) (buf : list Z) : IO (io_result (Z * SocketAddr) * list Z) :=
  let! wsa_recvmsg := get_wsa_recvmsg in
  match wsa_recvmsg with
  | Some _ =>
      let! out := sys_wsarecvmsg fd (u32_len (length buf)) in
      let buf := blit (wo_data out) buf in
      if wo_rc out =? SOCKET_ERROR then let! e := last_os_error in mret (Err e, buf)
      else mret (Ok (wo_bytes out, win_decode_sockaddr (wo_name out) (wo_namelen out)), buf)
  | None =>
      let! out := sys_recvfrom fd (i32_len (length buf)) in
      let buf := blit (ro_data out) buf in
      if ro_ret out =? SOCKET_ERROR then let! e := last_os_error in mret (Err e, buf)
      else mret (Ok (ro_ret out, win_decode_sockaddr (ro_name out) (ro_namelen out)), buf)
  end.

Definition win_try_recv_batch (fd : Fd) (b : RecvBatchRaw.t) : IO (io_result nat * RecvBatchRaw.t) :=
  let capacity := RecvBatchRaw.capacity b in
  if (capacity =? 0)%nat then mret (Ok 0%nat, b)
  else recv_each win_recv_one fd b capacity 0 0.

(** Every payload fits the 32-bit length of a [WSABUF]. *)
Definition win_send_supported (b : SendBatchRaw.t) : Prop :=
  Forall (λ e, Z.of_nat (s_len e.1) < 2 ^ 32) (contents b).

Definition windows_backend : Backend := {|
  try_send_batch := win_try_send_batch;
  try_recv_batch := win_try_recv_batch;
  send_supported := win_send_supported;
|}.

(** ** The two copies of the address code are the Unix one *)
Lemma ws_encode_eq a st : ws_encode_sockaddr a st = encode_sockaddr a st.
Proof. by destruct a. Qed.

Lemma encode_addr_into_eq a st : encode_addr_into a st = ((encode_sockaddr a st).2, (encode_sockaddr a st).1).
Proof. by destruct a. Qed.

Lemma ws_decode_eq st len : ws_decode_sockaddr st len = decode_sockaddr st len.
Proof. done. Qed.

Lemma win_decode_eq st len : win_decode_sockaddr st len = decode_sockaddr st len.
Proof. done. Qed.

(** Lengths below 2^31 survive the conversion, so the wrappers are the Unix ones. *)
Lemma i32_len_small n : Z.of_nat n < 2 ^ 31 → i32_len n = n.
Proof. intros. unfold i32_len. rewrite as_i32_small by lia. lia. Qed.

Lemma ws_raw_sendto_eq fd d a h : Z.of_nat (s_len d) < 2 ^ 31 →
  ws_raw_sendto fd d a h = raw_sendto fd d a h ∧ ws_raw_send fd d h = raw_send fd d h.
Proof.
  intros Hd. unfold ws_raw_sendto, ws_raw_send, raw_sendto, raw_send.
  rewrite ws_encode_eq, i32_len_small by done. by destruct d.
Qed.

Lemma ws_raw_recvfrom_eq fd bf h : Z.of_nat (length bf) < 2 ^ 31 →
  ws_raw_recvfrom fd bf h = raw_recvfrom fd bf h.
Proof. intros Hd. unfold ws_raw_recvfrom. by rewrite i32_len_small. Qed.

(** ** Sending *)
Lemma u32_slice d : Z.of_nat (s_len d) < 2 ^ 32 → MkSlice (s_ptr d) (u32_len (s_len d)) = d.
Proof.
  intros Hd. unfold u32_len. rewrite as_u32_small, Nat2Z.id by lia. by destruct d.
Qed.

(** The message an iteration builds is the entry's datagram. *)
Lemma wsa_msg conn a bs :
  (let '(st, len) := match conn, a with
                     | false, Some target => encode_addr_into target storage_zeroed
                     | _, _ => (storage_zeroed, 0)
                     end in
   MkWire bs (if negb conn && bool_decide (is_Some a) then Some (st, len) else None)) =
  wire_of conn a bs.
Proof.
  unfold wire_of. destruct conn, a as [a|]; simpl; try done.
  rewrite encode_addr_into_eq. unfold name_of. by destruct (encode_sockaddr a storage_zeroed).
Qed.

Definition win_send_post b bss conn (n i : nat) h (r : io_result nat) h' : Prop :=
  ∃ evs m, h' = h ++ evs ∧ (m ≤ n)%nat ∧ accepted_all evs = take m (drop i (wires conn b bss)) ∧
    match r with
    | Ok s => s = (i + m)%nat ∧ ((m < n)%nat → s = 0%nat → kind (OsError (k_errno h')) = WouldBlock)
    | Err e => i = 0%nat ∧ m = 0%nat ∧ n ≠ 0%nat ∧ e = OsError (k_errno h') ∧ kind e ≠ WouldBlock
    end.

Lemma win_send_loop_spec fd cap b bss conn n i h :
  send_wf cap b → payloads h b bss → win_send_supported b → (i + n = SendBatchRaw.len b)%nat →
  wp (win_send_loop fd b conn n i i) (win_send_post b bss conn n i h) h.
Proof.
  intros Hwf Hp Hsup. revert i h Hp. induction n as [|n IH]; intros i h Hp Hn; cbn [win_send_loop].
  { apply wp_ret. exists [], 0%nat. rewrite app_nil_r. split_and!; try done; lia. }
  destruct (wires_lookup cap h conn b bss i Hwf Hp) as (d & a & bs & Hc & Hbs & Hst & Hw); [lia|].
  pose proof (Forall_lookup_1 _ _ _ _ Hsup Hc) as Hd. simpl in Hd.
  apply wp_bind. eapply wp_intro; [by apply (entry_contents cap b i h d a bs Hwf Hc), stable_from_now|].
  cbv beta iota zeta. rewrite u32_slice by done. pose proof (wsa_msg conn a bs) as Ew.
  destruct (match conn, a with false, Some target => _ | _, _ => _ end) as [st len].
  apply wp_bind. eapply wp_intro; [unfold read_slice; by rewrite (stable_from_now _ _ _ Hst)|].
  rewrite Ew. clear Ew. apply wp_bind. eapply wp_intro; [done|].
  set (ev := EvWSASendMsg _ _ _). destruct (k_wsasendmsg h fd _ =? 0) eqn:Erc.
  - eapply wp_mono; [apply IH; [by apply payloads_app|lia]|].
    intros r h' (evs & m & -> & Hm & Hacc & Hr). exists (ev :: evs), (S m).
    rewrite <- (assoc_L (++)) in *. split_and!; [done|lia| |].
    + rewrite accepted_all_cons, Hacc, (drop_S _ _ _ Hw). simpl. by rewrite Erc.
    + destruct r as [s|e]; [|by destruct Hr as (? & _)]. destruct Hr as [-> _]. split; lia.
  - assert (Hacc : accepted_all [ev] = []) by (unfold accepted_all; simpl; by rewrite Erc).
    apply wp_bind. eapply wp_intro; [done|]. cbv beta. unfold is_would_block.
    case_bool_decide as Hk; [|destruct (Nat.ltb_spec 0 i)]; apply wp_ret; exists [ev], 0%nat;
      rewrite Hacc; (split; [done|]); (split; [lia|]); (split; [done|]); split_and!; done || lia.
Qed.

Lemma win_send_spec fd cap b bss h :
  send_wf cap b → payloads h b bss → win_send_supported b → SendBatchRaw.len b ≠ 0%nat →
  wp (win_try_send_batch fd b)
    (win_send_post b bss (k_getpeername h fd =? 0) (SendBatchRaw.len b) 0 h) h.
Proof.
  intros Hwf Hp Hsup Hne. unfold win_try_send_batch. rewrite (proj2 (Nat.eqb_neq _ _) Hne).
  apply wp_bind. unfold ws_is_connected. apply wp_bind. eapply wp_intro; [done|]. apply wp_ret.
  eapply wp_mono; [by apply (win_send_loop_spec fd cap b bss); [|apply payloads_app|..]|].
  intros r h' (evs & m & -> & Hm & Hacc & Hr). rewrite <- (assoc_L (++)) in *.
  eexists _, m. split; [done|]. rewrite accepted_all_app; simpl. by split_and!.
Qed.

(** ** Receiving *)

(** The packet a receive call delivered. *)
Definition win_packet (ev : event) : option (list Z * SocketAddr) :=
  match ev with
  | EvWSARecvMsg _ _ o =>
      if wo_rc o =? SOCKET_ERROR then None
      else Some (wo_data o, decode_sockaddr (wo_name o) (wo_namelen o))
  | EvRecvfrom _ _ o =>
      if ro_ret o =? SOCKET_ERROR then None
      else Some (ro_data o, decode_sockaddr (ro_name o) (ro_namelen o))
  | _ => None
  end.

(** Loading the extension function delivers no packet and fills the lock. *)
Lemma get_wsa_recvmsg_spec h :
  wp get_wsa_recvmsg (λ f h', ∃ evs, h' = h ++ evs ∧ received win_packet evs = [] ∧
    once_lock h' = Some f) h.
Proof.
  unfold wp, get_wsa_recvmsg. destruct (once_lock h) as [f|] eqn:El.
  { exists []. by rewrite app_nil_r. }
  unfold load_wsa_recvmsg, mbind, sys_socket, sys_wsaioctl, sys_close; simpl.
  assert (Hl : ∀ evs f, omap (λ ev, match ev with EvOnceLock f => Some f | _ => None end) evs = [] →
             once_lock (h ++ evs ++ [EvOnceLock f]) = Some f).
  { intros evs f He. unfold once_lock in *. rewrite !omap_app, He. by destruct (omap _ h). }
  destruct (k_socket h =? INVALID_SOCKET); simpl.
  - eexists. split; [by rewrite <- (assoc_L (++))|]. split; [done|].
    rewrite <- (assoc_L (++)). by apply (Hl [_]).
  - destruct (k_wsaioctl _ _) as [rc fp]; simpl. eexists. rewrite <- !(assoc_L (++)). split; [done|].
    split; [done|]. by apply (Hl [_; _; _]).
Qed.

Lemma u32_len_le n : (u32_len n ≤ n)%nat.
Proof. unfold u32_len, as_u32. pose proof (Z.mod_le (Z.of_nat n) (2 ^ 32) ltac:(lia) ltac:(lia)). lia. Qed.

Lemma i32_len_le n : (i32_len n ≤ n)%nat.
Proof.
  unfold i32_len, as_i32. pose proof (Z.mod_le (Z.of_nat n) (2 ^ 32) ltac:(lia) ltac:(lia)).
  case_match; lia.
Qed.

Context {KL : KernelLaws} {WL : WinSockLaws}.

(** The wrappers return what the Unix ones return. *)
Lemma ws_raw_connect_eq fd a h : ws_raw_connect fd a h = raw_connect fd a h.
Proof.
  unfold ws_raw_connect, raw_connect. rewrite ws_encode_eq.
  destruct (encode_sockaddr a storage_zeroed) as [len st]. unfold mbind, sys_connect.
  pose proof SOCKET_ERROR_neg. destruct (connect_ret h fd st len) as [->| ->]; [done|].
  rewrite (proj2 (Z.eqb_neq _ _)), (proj2 (Z.ltb_lt _ _)); done || lia.
Qed.

Lemma ws_raw_getsockname_eq fd h : ws_raw_getsockname fd h = raw_getsockname fd h.
Proof.
  unfold ws_raw_getsockname, raw_getsockname, mbind, sys_getsockname.
  pose proof SOCKET_ERROR_neg. pose proof (getsockname_ret h fd) as Hr.
  destruct (k_getsockname h fd) as [ret [st len]]. simpl in Hr. destruct Hr as [->| ->]; [done|].
  rewrite (proj2 (Z.eqb_neq _ _)), (proj2 (Z.ltb_lt _ _)); done || lia.
Qed.

Lemma ws_raw_setsockopt_eq fd l o v h : ws_raw_setsockopt fd l o v h = raw_setsockopt fd l o v h.
Proof.
  unfold ws_raw_setsockopt, raw_setsockopt, mbind, sys_setsockopt.
  pose proof SOCKET_ERROR_neg. destruct (setsockopt_ret h fd l o v) as [->| ->]; [done|].
  rewrite (proj2 (Z.eqb_neq _ _)), (proj2 (Z.ltb_lt _ _)); done || lia.
Qed.

Lemma ws_raw_getsockopt_eq fd l o h : ws_raw_getsockopt fd l o h = raw_getsockopt fd l o h.
Proof.
  unfold ws_raw_getsockopt, raw_getsockopt, mbind, sys_getsockopt.
  pose proof SOCKET_ERROR_neg. pose proof (getsockopt_ret h fd l o) as Hr.
  destruct (k_getsockopt h fd l o) as [ret v]. simpl in Hr. destruct Hr as [->| ->]; [done|].
  rewrite (proj2 (Z.eqb_neq _ _)), (proj2 (Z.ltb_lt _ _)); done || lia.
Qed.

Lemma win_recv_one_ok : one_ok win_packet win_recv_one.
Proof.
  intros fd bf h. unfold win_recv_one. apply wp_bind. eapply wp_mono; [apply get_wsa_recvmsg_spec|].
  intros f h1 (evs1 & -> & Hev1 & _). destruct f as [f|]; apply wp_bind; (eapply wp_intro; [done|]).
  - set (o := k_wsarecvmsg (h ++ evs1) fd (u32_len (length bf))). rewrite <- (assoc_L (++)).
    destruct (wo_rc o =? SOCKET_ERROR) eqn:E; [apply wp_bind; eapply wp_intro; [done|]|];
      apply wp_ret; do 2 eexists; (split; [done|]); (split; [done|]); rewrite received_app, Hev1;
      simpl; rewrite E; [done|].
    destruct (wsarecvmsg_ok (h ++ evs1) fd (u32_len (length bf))) as (H1 & H2 & H3); [by apply Z.eqb_neq|].
    pose proof (u32_len_le (length bf)). fold o in H1, H2, H3. split_and!; try done. lia.
  - set (o := k_recvfrom (h ++ evs1) fd (i32_len (length bf))). rewrite <- (assoc_L (++)).
    destruct (ro_ret o =? SOCKET_ERROR) eqn:E; [apply wp_bind; eapply wp_intro; [done|]|];
      apply wp_ret; do 2 eexists; (split; [done|]); (split; [done|]); rewrite received_app, Hev1;
      simpl; rewrite E; [done|]. apply Z.eqb_neq in E.
    assert (Hret : 0 ≤ ro_ret o).
    { destruct (Z_lt_le_dec (ro_ret o) 0); [|done]. destruct E. by apply recvfrom_fails. }
    pose proof (recvfrom_len (h ++ evs1) fd (i32_len (length bf)) Hret) as H1.
    pose proof (recvfrom_fits (h ++ evs1) fd (i32_len (length bf))) as H2.
    pose proof (recvfrom_udp (h ++ evs1) fd (i32_len (length bf))) as H3.
    pose proof (i32_len_le (length bf)). fold o in H1, H2, H3. split_and!; done || lia.
Qed.

Lemma win_recv_spec fd bs b h : recv_wf bs b →
  wp (win_try_recv_batch fd b) (each_post win_packet bs b (RecvBatchRaw.capacity b) 0 h) h.
Proof.
  intros Hwf.
  pose proof (recv_each_spec win_packet win_recv_one fd bs b (RecvBatchRaw.capacity b) 0 h
                win_recv_one_ok Hwf eq_refl) as Hs.
  unfold win_try_recv_batch.
  by destruct (Nat.eqb_spec (RecvBatchRaw.capacity b) 0) as [E|_]; [rewrite E in *|].
Qed.
End windows.

(** C15: the Windows backend keeps the promises of the platform interface, so what the socket layer
    guarantees over a lawful backend holds on Windows. *)
Theorem windows_lawful {L : Libc} {K : Kernel} {W : WinSock} {KL : KernelLaws} {WL : WinSockLaws} :
  @BackendLaws L K windows_backend.
Proof.
  split; simpl.
  - intros cap b bss fd h Hwf Hp Hsup. destruct (decide (SendBatchRaw.len b = 0%nat)) as [E|E].
    { unfold win_try_send_batch. rewrite E. apply wp_ret. exists [], false.
      rewrite app_nil_r. split; [done|]. split; [lia|by rewrite take_0]. }
    eapply wp_mono; [by apply (win_send_spec fd cap b bss)|].
    intros r h' (evs & m & -> & Hm & Hacc & Hr). rewrite drop_0 in Hacc. eexists evs, _.
    split; [done|]. destruct r as [s|e].
    + destruct Hr as [-> _]. eauto.
    + destruct Hr as (_ & -> & Hn & _). exists 0%nat. split; [lia|]. by split.
  - intros bs b fd h Hwf. eapply wp_mono; [by apply win_recv_spec|].
    intros [r b'] h' (evs & m & -> & Hm & Hle & Hwf2 & Hcap & _ & _ & Hlen & Hr); simpl in *.
    split_and!; [by eexists|done|done|]. destruct r as [n|]; simpl; [|done].
    destruct Hr as [-> _]. split; [lia|]. intros. destruct (Nat.eqb_spec m 0); lia.
Qed.

(** C32: sending on Windows. The kernel accepts a prefix of the batch, in order, each datagram once, with
    its destination unless the socket is connected. [Ok n] reports the length of that prefix; when it
    is shorter than the batch the next datagram was refused, and when it is empty it was refused with
    [WouldBlock]. [Err e] means that the first datagram was refused with [e], not a [WouldBlock], and
    nothing was accepted: an error after some progress is not reported. *)
Theorem win_send_correct {L : Libc} {K : Kernel} {W : WinSock} fd cap b bss h :
  send_wf cap b → payloads h b bss → win_send_supported b → SendBatchRaw.len b ≠ 0%nat →
  ∃ r evs m, win_try_send_batch fd b h = Ret (r, h ++ evs) ∧
    accepted_all evs = take m (wires (k_getpeername h fd =? 0) b bss) ∧
    match r with
    | Ok n => n = m ∧ (n ≤ SendBatchRaw.len b)%nat ∧
              (n = 0%nat → kind (OsError (k_errno (h ++ evs))) = WouldBlock)
    | Err e => m = 0%nat ∧ e = OsError (k_errno (h ++ evs)) ∧ kind e ≠ WouldBlock
    end.
Proof.
  intros Hwf Hp Hsup Hne.
  destruct (wp_elim _ _ _ (win_send_spec fd cap b bss h Hwf Hp Hsup Hne))
    as (r & h' & Hr & evs & m & -> & Hm & Hacc & Hpost).
  rewrite drop_0 in Hacc. exists r, evs, m. split_and!; [done|done|]. destruct r as [s|e].
  - destruct Hpost as [-> Hwb]. split_and!; [lia|lia|]. intros. apply Hwb; lia.
  - by destruct Hpost as (_ & -> & _ & ? & ?).
Qed.

(** C33: receiving on Windows. Whether or not the extension function could be loaded, slot [j] ends with
    the payload and the source of the [j]-th datagram that arrived during the call; [Ok n] reports
    their number, stopping early only on [WouldBlock], and the batch length is [n] unless nothing
    arrived. The function is loaded once: asking for it again gives the same answer without a call. *)
Theorem win_recv_correct {L : Libc} {K : Kernel} {W : WinSock} {KL : KernelLaws} {WL : WinSockLaws}
    fd bs b h :
  recv_wf bs b →
  (∃ r b' evs, win_try_recv_batch fd b h = Ret ((r, b'), h ++ evs) ∧
    recv_wf bs b' ∧ RecvBatchRaw.capacity b' = RecvBatchRaw.capacity b ∧
    let ps := received win_packet evs in
    slot_packet <$> take (length ps) (RecvBatchRaw.slots b') = ps ∧
    RecvBatchRaw.len b' = (if (length ps =? 0)%nat then RecvBatchRaw.len b else length ps) ∧
    match r with
    | Ok n => n = length ps ∧ (n ≤ RecvBatchRaw.capacity b)%nat ∧
              ((n < RecvBatchRaw.capacity b)%nat → kind (OsError (k_errno (h ++ evs))) = WouldBlock)
    | Err e => e = OsError (k_errno (h ++ evs)) ∧ kind e ≠ WouldBlock
    end) ∧
  (∃ f h1, get_wsa_recvmsg h = Ret (f, h1) ∧ get_wsa_recvmsg h1 = Ret (f, h1)).
Proof.
  intros Hwf. split.
  - destruct (wp_elim _ _ _ (win_recv_spec fd bs b h Hwf))
      as ([r b'] & h' & Hr & evs & m & -> & Hm & Hle & Hwf2 & Hcap & _ & Hpk & Hlen & Hpost).
    subst m. exists r, b', evs. rewrite drop_0 in Hpk. split_and!; try done.
    destruct r; [|by destruct Hpost as (_ & ? & ?)]. by destruct Hpost as [-> ?].
  - destruct (wp_elim _ _ _ (get_wsa_recvmsg_spec h)) as (f & h1 & Hf & _ & _ & _ & Hl).
    exists f, h1. split; [done|]. unfold get_wsa_recvmsg. by rewrite Hl.
Qed.

(** ** Examples: a Windows system that answers from a script *)
Definition windows_le : Libc := unix_libc Windows true.
(** Return values of WinSock calls: 0 or SOCKET_ERROR; a number of bytes or SOCKET_ERROR. *)
Definition win_ret (r : Z) : Z := if r <? 0 then -1 else 0.
Definition win_recvfrom (script : list (@answer windows_le)) (h : @history windows_le) (n : nat) :=
  let o := @script_recvfrom windows_le script h n in
  if ro_ret o <? 0 then MkRecvOut (-1) [] (ro_name o) (ro_namelen o) else o.

Definition windows_kernel (script : list (@answer windows_le)) : @Kernel windows_le :=
  let K := @script_kernel windows_le sample_mem script in
  {| k_send := k_send; k_sendto := k_sendto; k_sendmmsg := k_sendmmsg; k_sendmsg := k_sendmsg;
     k_recvfrom h _ n := win_recvfrom script h n; k_recvmmsg := k_recvmmsg;
     k_getpeername := k_getpeername;
     k_getsockname h fd := (win_ret (k_getsockname h fd).1, (k_getsockname h fd).2);
     k_connect h fd st len := win_ret (k_connect h fd st len);
     k_setsockopt h fd l o v := win_ret (k_setsockopt h fd l o v);
     k_getsockopt h fd l o := (win_ret (k_getsockopt h fd l o).1, (k_getsockopt h fd l o).2);
     k_nonblocking := k_nonblocking; k_register := k_register; k_runtime := true; k_writable := k_writable;
     k_readable := k_readable; k_now := k_now; k_errno := k_errno; k_mem := k_mem |}.

(** [WSARecvMsg] answers like [recvfrom], with the byte count apart from the return value. *)
Definition script_winsock (script : list (@answer windows_le)) : @WinSock windows_le := {|
  SOCKET_ERROR := -1;
  INVALID_SOCKET := -1;
  k_wsasendmsg h _ _ := win_ret (@ret_at windows_le script h);
  k_wsarecvmsg h _ n :=
    let o := win_recvfrom script h n in
    MkWsaOut (win_ret (ro_ret o)) (ro_ret o) (ro_data o) (ro_name o) (ro_namelen o);
  k_socket h := @ret_at windows_le script h;
  k_wsaioctl h _ := (win_ret (@ret_at windows_le script h), Some 4096);
|}.

Lemma win_recvfrom_ok script h n : let o := win_recvfrom script h n in
  (0 ≤ ro_ret o → ro_ret o = Z.of_nat (length (ro_data o))) ∧ (ro_ret o < 0 → ro_ret o = -1) ∧
  (length (ro_data o) ≤ n)%nat ∧ Z.of_nat (length (ro_data o)) < 2 ^ 16.
Proof.
  pose proof (@script_kernel_laws windows_le sample_mem script) as KL. unfold win_recvfrom.
  pose proof (@recvfrom_len _ _ KL h 0 n) as H1. pose proof (@recvfrom_fits _ _ KL h 0 n) as H2.
  pose proof (@recvfrom_udp _ _ KL h 0 n) as H3. simpl in *.
  destruct (Z.ltb_spec (ro_ret (@script_recvfrom windows_le script h n)) 0); simpl; split_and!; done || lia.
Qed.

Lemma windows_kernel_laws script : @KernelLaws windows_le (windows_kernel script).
Proof.
  pose proof (@script_kernel_laws windows_le sample_mem script) as KL. split; simpl.
  - intros. lia.
  - intros h _ n. apply win_recvfrom_ok.
  - intros h _ n. apply win_recvfrom_ok.
  - intros h _ n. apply win_recvfrom_ok.
  - exact (@recvmmsg_count _ _ KL).
  - exact (@recvmmsg_none _ _ KL).
  - exact (@recvmmsg_fits _ _ KL).
Qed.

Lemma win_ret_cases r : win_ret r = 0 ∨ win_ret r = -1.
Proof. unfold win_ret. case_match; auto. Qed.

Lemma script_winsock_laws script : @WinSockLaws windows_le (windows_kernel script) (script_winsock script).
Proof.
  split; simpl; try (intros; apply win_ret_cases).
  - lia.
  - intros h _ n Hrc. destruct (win_recvfrom_ok script h n) as (H1 & _ & H3 & H4).
    unfold win_ret in Hrc. destruct (Z.ltb_spec (ro_ret (win_recvfrom script h n)) 0); [done|].
    rewrite H1 by lia. split_and!; done || lia.
  - intros h _ n. apply win_recvfrom_ok.
Qed.

Lemma windows_lawful_witness :
  @BackendLaws windows_le (windows_kernel []) (@windows_backend _ _ (script_winsock [])).
Proof.
  exact (@windows_lawful windows_le (windows_kernel []) (script_winsock []) (windows_kernel_laws [])
           (script_winsock_laws [])).
Defined.

(** An unconnected socket that takes the first datagram and refuses the second with WSAEMSGSIZE. *)
Definition refusing_send : list (@answer windows_le) := [ARet (-1) 10057; ARet 0 0; ARet (-1) 10040].

Lemma win_send_correct_witness :
  ∃ evs, win_try_send_batch (K := windows_kernel refusing_send) (W := script_winsock refusing_send)
           3 two_entries [] = Ret (Ok 1%nat, [] ++ evs) ∧
    accepted_all evs =
      take 1 (wires (L := windows_le) false two_entries [[104; 101; 108; 108; 111]; [1; 2]]).
Proof.
  destruct (@win_send_correct windows_le (windows_kernel refusing_send) (script_winsock refusing_send)
              3 2 two_entries [[104; 101; 108; 108; 111]; [1; 2]] []) as (r & evs & m & Hr & Hacc & Hpost).
  - apply two_entries_wf.
  - repeat constructor.
  - repeat constructor.
  - done.
  - pose proof (f_equal ret_val Hr) as Hv. vm_compute in Hv.
    assert (Er : r = Ok 1%nat) by congruence. subst r. destruct Hpost as [<- _].
    exists evs. split; [exact Hr|exact Hacc].
Defined.

(** The address block of localhost:9000. *)
Definition windows_name : @storage windows_le :=
  put_bytes (sockaddr_in_bytes Windows true (MkSin 2 (to_be true 2 9000) 16777343)) (replicate 128 0).

(** The extension function is loaded, one datagram arrives, then the socket would block. *)
Definition loading_recv : list (@answer windows_le) :=
  [ARet 9 0; ARet 0 0; ARet 0 0; ARet 0 0;
   ARecv [7; 8] windows_name 16;
   ARet (-1) 10035].

Lemma win_recv_correct_witness :
  ∃ r b' evs, win_try_recv_batch (K := windows_kernel loading_recv) (W := script_winsock loading_recv)
          3 (RecvBatchRaw.with_capacity 2 4) [] = Ret ((r, b'), [] ++ evs) ∧
    packets b' = [([7; 8], localhost 9000)].
Proof.
  destruct (@win_recv_correct windows_le (windows_kernel loading_recv) (script_winsock loading_recv)
              (windows_kernel_laws _) (script_winsock_laws _) 3 4 (RecvBatchRaw.with_capacity 2 4) []
              (with_capacity_recv_wf 2 4)) as [(r & b' & evs & Hr & _) _].
  exists r, b', evs. split; [exact Hr|].
  apply (f_equal ret_val) in Hr. vm_compute in Hr. injection Hr as _ <-. reflexivity.
Defined.
