(* ===== verification/F64.v ===== *)
(** * Double-precision division of counters

    What [a as f64 / b as f64] and a comparison with a literal decide, for integers below 2^53. The
    operations are those of the Standard Library's specification of IEEE 754 arithmetic, at 53 bits of
    precision and maximal exponent 1024. *)
From Stdlib Require Import SpecFloat.
From S2P Require Import Prelude.
#[local] Open Scope Z_scope.

Definition as_f64 (n : Z) : spec_float := binary_normalize 53 1024 n 0 false.
Definition f64_div (x y : spec_float) : spec_float := SFdiv 53 1024 x y.
Definition f64_lt (x y : spec_float) : bool := SFltb x y.

(** ** Digits *)
Lemma digits2_bounds p : 2 ^ (Z.pos (digits2_pos p) - 1) ≤ Z.pos p < 2 ^ Z.pos (digits2_pos p).
Proof.
  induction p as [p IH|p IH|]; cbn [digits2_pos]; [| |simpl; lia].
  all: rewrite Pos2Z.inj_succ; unfold Z.succ.
  all: replace (Z.pos (digits2_pos p) + 1 - 1) with (Z.pos (digits2_pos p)) by lia.
  all: rewrite Z.pow_add_r by lia; replace (2 ^ Z.pos (digits2_pos p)) with
    (2 * 2 ^ (Z.pos (digits2_pos p) - 1)) in * by (rewrite <- Z.pow_succ_r by lia; f_equal; lia).
  all: lia.
Qed.

Lemma Zdigits2_unique n k : 0 < k → 2 ^ (k - 1) ≤ n < 2 ^ k → Zdigits2 n = k.
Proof.
  intros Hk Hn. pose proof (Z.pow_pos_nonneg 2 (k - 1) ltac:(lia) ltac:(lia)).
  destruct n as [|p|p]; try lia. simpl. pose proof (digits2_bounds p) as Hd.
  destruct (Z.lt_trichotomy (Z.pos (digits2_pos p)) k) as [Hlt|[?|Hgt]]; [|done|].
  - pose proof (Z.pow_le_mono_r 2 (Z.pos (digits2_pos p)) (k - 1) ltac:(lia) ltac:(lia)). lia.
  - pose proof (Z.pow_le_mono_r 2 k (Z.pos (digits2_pos p) - 1) ltac:(lia) ltac:(lia)). lia.
Qed.

(** ** Rounding *)
Lemma shr_fexp_53 m e l : 2 ^ 52 ≤ m < 2 ^ 53 → -1074 ≤ e →
  shr_fexp 53 1024 m e l = (shr_record_of_loc m l, e).
Proof.
  intros Hm He. unfold shr_fexp. rewrite (Zdigits2_unique m 53) by (simpl; lia).
  unfold fexp, emin. replace (Z.max (53 + e - 53) (3 - 1024 - 53) - e) with 0 by lia. done.
Qed.

Lemma shr_fexp_54 m e l : 2 ^ 53 ≤ m < 2 ^ 54 → -1074 ≤ e →
  shr_fexp 53 1024 m e l = (shr_1 (shr_record_of_loc m l), e + 1).
Proof.
  intros Hm He. unfold shr_fexp. rewrite (Zdigits2_unique m 54) by (simpl; lia).
  unfold fexp, emin. replace (Z.max (54 + e - 53) (3 - 1024 - 53) - e) with 1 by lia. done.
Qed.

(** [l] locates the remainder [r] of a division by [d] with respect to [d / 2]. *)
Definition loc_ok (d r : Z) (l : location) : Prop :=
  match l with
  | loc_Exact => r = 0
  | loc_Inexact Lt => 2 * r ≤ d
  | loc_Inexact Eq => 2 * r = d
  | loc_Inexact Gt => d ≤ 2 * r
  end.

Lemma new_location_ok d r : 0 ≤ r < d → loc_ok d r (new_location d r).
Proof.
  intros Hr. unfold new_location, new_location_even, new_location_odd.
  destruct (Z.even d), (Z.eqb_spec r 0); simpl; try done.
  - by destruct (Z.compare_spec (2 * r) d); simpl; lia.
  - destruct (Z.compare_spec (2 * r + 1) d); simpl; lia.
Qed.

Lemma round_ok d r m l : 0 < d → 0 ≤ r < d → loc_ok d r l →
  2 * Z.abs (round_nearest_even m l * d - (m * d + r)) ≤ d ∧
  m ≤ round_nearest_even m l ≤ m + 1.
Proof.
  intros Hd Hr Hl. destruct l as [|[]]; simpl in *; try (destruct (Z.even m)); nia.
Qed.

(** Dropping one bit of [m + r / d]. *)
Lemma shr_1_ok d r m l : 0 < d → 0 ≤ r < d → loc_ok d r l → 0 < m →
  let mrs := shr_1 (shr_record_of_loc m l) in
  ∃ r', 0 ≤ r' < 2 * d ∧ m * d + r = shr_m mrs * (2 * d) + r' ∧
        loc_ok (2 * d) r' (loc_of_shr_record mrs) ∧ shr_m mrs = m / 2.
Proof.
  intros Hd Hr Hl Hm mrs. pose proof (Z.div_mod m 2 ltac:(lia)) as Ediv.
  pose proof (Z.mod_pos_bound m 2 ltac:(lia)) as Hmod.
  exists ((m mod 2) * d + r).
  assert (Hs : shr_m mrs = m / 2 ∧
    loc_of_shr_record mrs =
      match l with
      | loc_Exact => if Z.even m then loc_Exact else loc_Inexact Eq
      | _ => if Z.even m then loc_Inexact Lt else loc_Inexact Gt
      end).
  { unfold mrs. destruct m as [|[p|p|]|p]; try lia; destruct l as [|[]]; simpl; split;
      try reflexivity; Z.to_euclidean_division_equations; lia. }
  destruct Hs as [Hs1 Hs2]. rewrite Hs1, Hs2.
  assert (Hev : m mod 2 = if Z.even m then 0 else 1) by apply Zmod_even.
  split_and!; [nia|nia|nia| |done]. rewrite Hev.
  destruct l as [|[]], (Z.even m); simpl in *; lia.
Qed.

(** Packing a rounded mantissa, which may have reached 2^53. *)
Lemma pack_ok m e : 2 ^ 52 ≤ m ≤ 2 ^ 53 → -1074 ≤ e ≤ 960 →
  ∃ m' k, (let '(mrs, e') := shr_fexp 53 1024 m e loc_Exact in
           match shr_m mrs with
           | Z0 => S754_zero false
           | Zpos m => if e' <=? 1024 - 53 then S754_finite false m e' else S754_infinity false
           | _ => S754_nan
           end) = S754_finite false m' (e + k) ∧
    0 ≤ k ≤ 1 ∧ 2 ^ 52 ≤ Z.pos m' < 2 ^ 53 ∧ Z.pos m' * 2 ^ k = m.
Proof.
  intros Hm He. destruct (decide (m = 2 ^ 53)) as [->|Hne].
  - rewrite shr_fexp_54 by lia. exists 4503599627370496%positive, 1.
    cbn [shr_1 shr_record_of_loc shr_m]. rewrite (proj2 (Z.leb_le _ _)) by lia. split_and!; done || lia.
  - rewrite shr_fexp_53 by lia. destruct m as [|p|p]; try lia. exists p, 0.
    cbn [shr_record_of_loc shr_m]. rewrite (proj2 (Z.leb_le _ _)) by lia.
    rewrite Z.add_0_r. split_and!; done || lia.
Qed.

(** A quotient with 53 or 54 digits is rounded to a 53-digit mantissa, by at most half a unit in the
    last place. *)
Lemma binary_round_aux_ok d r m e l :
  0 < d → 0 ≤ r < d → loc_ok d r l → 2 ^ 52 ≤ m < 2 ^ 54 → -1000 ≤ e ≤ 900 →
  ∃ m' k, binary_round_aux 53 1024 false m e l = S754_finite false m' (e + k) ∧
    0 ≤ k ≤ 2 ∧ 2 ^ 52 ≤ Z.pos m' < 2 ^ 53 ∧
    2 * Z.abs (Z.pos m' * 2 ^ k * d - (m * d + r)) ≤ 2 ^ k * d.
Proof.
  intros Hd Hr Hl Hm He. unfold binary_round_aux. destruct (decide (m < 2 ^ 53)) as [Hlt|Hge].
  - rewrite shr_fexp_53 by lia.
    replace (shr_m (shr_record_of_loc m l)) with m by (by destruct l as [|[]]).
    replace (loc_of_shr_record (shr_record_of_loc m l)) with l by (by destruct l as [|[]]).
    destruct (round_ok d r m l Hd Hr Hl) as [Herr Hrange].
    destruct (pack_ok (round_nearest_even m l) e) as (m' & k & -> & Hk & Hm' & E); [lia|lia|].
    exists m', k. split_and!; try done; try lia. rewrite E.
    assert (1 ≤ 2 ^ k) by (apply (Z.pow_le_mono_r 2 0 k); lia). nia.
  - rewrite shr_fexp_54 by lia.
    destruct (shr_1_ok d r m l Hd Hr Hl ltac:(lia)) as (r' & Hr' & E' & Hl' & Hm2).
    set (mrs := shr_1 _) in *.
    destruct (round_ok (2 * d) r' (shr_m mrs) (loc_of_shr_record mrs) ltac:(lia) Hr' Hl') as [Herr Hrange].
    destruct (pack_ok (round_nearest_even (shr_m mrs) (loc_of_shr_record mrs)) (e + 1))
      as (m' & k & -> & Hk & Hm' & E); [|lia|].
    { rewrite Hm2 in *. Z.to_euclidean_division_equations. lia. }
    exists m', (k + 1). split_and!; try lia.
    { f_equal. lia. }
    rewrite Z.pow_add_r by lia. rewrite E'. rewrite (Z.mul_assoc _ (2 ^ k)), E.
    assert (1 ≤ 2 ^ k) by (apply (Z.pow_le_mono_r 2 0 k); lia). simpl. nia.
Qed.

(** ** Integers *)
Lemma pos_iter_xO p d : Z.pos (Pos.iter xO p d) = Z.pos p * 2 ^ Z.pos d.
Proof.
  induction d as [|d IH] using Pos.peano_ind; [simpl; lia|].
  rewrite Pos.iter_succ, Pos2Z.inj_succ, Z.pow_succ_r by lia. lia.
Qed.

(** An integer below 2^53 converts exactly. *)
Lemma as_f64_exact n : 0 < n < 2 ^ 53 →
  ∃ m k, as_f64 n = S754_finite false m (- k) ∧ 0 ≤ k ≤ 52 ∧ 2 ^ 52 ≤ Z.pos m < 2 ^ 53 ∧
         Z.pos m = n * 2 ^ k.
Proof.
  intros Hn. destruct n as [|p|p]; try lia. unfold as_f64, binary_normalize, binary_round.
  pose proof (digits2_bounds p) as Hd. set (dg := Z.pos (digits2_pos p)) in *.
  assert (Hdg : 1 ≤ dg ≤ 53).
  { split; [unfold dg; lia|]. destruct (decide (dg ≤ 53)); [done|].
    pose proof (Z.pow_le_mono_r 2 53 (dg - 1) ltac:(lia) ltac:(lia)). lia. }
  assert (Hal : ∃ m, shl_align p 0 (fexp 53 1024 (dg + 0)) = (m, - (53 - dg)) ∧
                     Z.pos m = Z.pos p * 2 ^ (53 - dg)).
  { unfold shl_align, fexp, emin. replace (Z.max (dg + 0 - 53) (3 - 1024 - 53) - 0) with (- (53 - dg)) by lia.
    replace (Z.max (dg + 0 - 53) (3 - 1024 - 53)) with (- (53 - dg)) by lia.
    destruct (53 - dg) as [|q|q] eqn:Eq; [..|lia]; simpl.
    - exists p. split; [done|lia].
    - eexists. split; [done|]. apply pos_iter_xO. }
  destruct Hal as (m & -> & Hm).
  assert (Hrange : 2 ^ 52 ≤ Z.pos m < 2 ^ 53).
  { assert (E1 : 2 ^ 52 = 2 ^ (dg - 1) * 2 ^ (53 - dg)) by (rewrite <- Z.pow_add_r by lia; f_equal; lia).
    assert (E2 : 2 ^ 53 = 2 ^ dg * 2 ^ (53 - dg)) by (rewrite <- Z.pow_add_r by lia; f_equal; lia).
    assert (0 < 2 ^ (53 - dg)) by (apply Z.pow_pos_nonneg; lia). rewrite E1, E2, Hm. nia. }
  exists m, (53 - dg). split_and!; try lia. unfold binary_round_aux.
  rewrite !shr_fexp_53 by (simpl; lia). cbn [shr_record_of_loc shr_m loc_of_shr_record round_nearest_even].
  by rewrite (proj2 (Z.leb_le _ _)) by lia.
Qed.

(** The smaller integer is shifted further. *)
Lemma align_le w t k1 k2 : 0 < w ≤ t → 0 ≤ k1 → 2 ^ 52 ≤ w * 2 ^ k1 → t * 2 ^ k2 < 2 ^ 53 → k2 ≤ k1.
Proof.
  intros Hw Hk H1 H2. destruct (decide (k2 ≤ k1)) as [|Hgt]; [done|]. exfalso.
  assert (E3 : 2 ^ k2 = 2 ^ k1 * 2 ^ (k2 - k1)) by (rewrite <- Z.pow_add_r by lia; f_equal; lia).
  pose proof (Z.pow_le_mono_r 2 1 (k2 - k1) ltac:(lia) ltac:(lia)) as H3.
  rewrite E3, Z.mul_assoc in H2.
  assert (H4 : w * 2 ^ k1 ≤ t * 2 ^ k1) by (apply Z.mul_le_mono_nonneg_r; lia).
  assert (H5 : t * 2 ^ k1 * 2 ≤ t * 2 ^ k1 * 2 ^ (k2 - k1)) by (apply Z.mul_le_mono_nonneg_l; lia).
  lia.
Qed.

(** ** The quotient of two counters is correctly rounded *)
Lemma f64_div_ok w t : 0 < w ≤ t → t < 2 ^ 53 →
  ∃ m k, f64_div (as_f64 w) (as_f64 t) = S754_finite false m (- k) ∧
    0 ≤ k ≤ 200 ∧ 2 ^ 52 ≤ Z.pos m < 2 ^ 53 ∧
    2 * Z.abs (Z.pos m * t - w * 2 ^ k) ≤ t.
Proof.
  intros Hw Ht.
  destruct (as_f64_exact w ltac:(lia)) as (m1 & k1 & -> & Hk1 & Hm1 & E1).
  destruct (as_f64_exact t ltac:(lia)) as (m2 & k2 & -> & Hk2 & Hm2 & E2).
  unfold f64_div, SFdiv, SFdiv_core_binary.
  rewrite (Zdigits2_unique (Z.pos m1) 53), (Zdigits2_unique (Z.pos m2) 53) by (simpl; lia).
  unfold fexp, emin.
  replace (Z.min (Z.max (53 + - k1 - (53 + - k2) - 53) (3 - 1024 - 53)) (- k1 - - k2))
    with (k2 - k1 - 53) by lia.
  replace (- k1 - - k2 - (k2 - k1 - 53)) with 53 by lia.
  rewrite Z.shiftl_mul_pow2 by lia.
  pose proof (Z_div_mod (Z.pos m1 * 2 ^ 53) (Z.pos m2) ltac:(lia)) as Hqr.
  destruct (Z.div_eucl (Z.pos m1 * 2 ^ 53) (Z.pos m2)) as [q r]. destruct Hqr as [Eq Hr].
  destruct (binary_round_aux_ok (Z.pos m2) r q (k2 - k1 - 53) (new_location (Z.pos m2) r))
    as (m & k & E & Hk & Hm & Herr); try done; try lia.
  { by apply new_location_ok. }
  { nia. }
  assert (Hk12 : k2 ≤ k1) by (apply (align_le w t); lia).
  cbn [xorb]. rewrite E. exists m, (k1 - k2 + 53 - k). split_and!; try lia.
  { f_equal. lia. }
  set (X := Z.pos m * t - w * 2 ^ (k1 - k2 + 53 - k)).
  assert (HA : 0 < 2 ^ (k + k2)) by (apply Z.pow_pos_nonneg; lia).
  assert (EX : 2 ^ (k + k2) * X = Z.pos m * 2 ^ k * Z.pos m2 - (q * Z.pos m2 + r)).
  { replace (q * Z.pos m2 + r) with (Z.pos m1 * 2 ^ 53) by lia. unfold X.
    rewrite E1, E2, Z.mul_sub_distr_l. f_equal.
    - rewrite Z.pow_add_r by lia. generalize (2 ^ k), (2 ^ k2), (Z.pos m). intros. ring.
    - rewrite Z.mul_comm, <- !Z.mul_assoc, <- !Z.pow_add_r by lia. do 2 f_equal. lia. }
  rewrite <- EX, Z.abs_mul, (Z.abs_eq (2 ^ (k + k2))) in Herr by lia.
  assert (E4 : 2 ^ k * Z.pos m2 = 2 ^ (k + k2) * t).
  { rewrite E2, Z.pow_add_r by lia. generalize (2 ^ k), (2 ^ k2). intros. ring. }
  rewrite E4 in Herr. apply (Z.mul_le_mono_pos_l _ _ (2 ^ (k + k2))); [done|].
  rewrite Z.mul_assoc, (Z.mul_comm _ 2), <- Z.mul_assoc. exact Herr.
Qed.

(** ** Comparison with a literal

    [c / 2^ec] for a 53-digit [c]. *)
Lemma f64_lt_lit_r m k c ec :
  f64_lt (S754_finite false m (- k)) (S754_finite false c (- ec)) = true ↔
  ec < k ∨ k = ec ∧ Z.pos m < Z.pos c.
Proof.
  unfold f64_lt, SFltb, SFcompare.
  destruct (Z.compare_spec (- k) (- ec)); try (split; [lia||done|lia]).
  change (Pos.compare_cont Eq m c) with (Pos.compare m c).
  destruct (Pos.compare_spec m c); split; try done; lia.
Qed.

(** The literals [0.3] and [0.1]: 5404319552844595 / 2^54 and 7205759403792794 / 2^56. *)
Definition f64_0_3 : spec_float := S754_finite false 5404319552844595 (-54).
Definition f64_0_1 : spec_float := S754_finite false 7205759403792794 (-56).

Lemma f64_div_zero t : 0 < t < 2 ^ 53 → f64_div (as_f64 0) (as_f64 t) = S754_zero false.
Proof. intros Ht. by destruct (as_f64_exact t Ht) as (m & k & -> & _). Qed.

Lemma mul_pow_le w k k' : 0 ≤ w → 0 ≤ k ≤ k' → w * 2 ^ k ≤ w * 2 ^ k'.
Proof. intros. apply Z.mul_le_mono_nonneg_l; [done|]. apply Z.pow_le_mono_r; lia. Qed.

(** The comparisons of the rate with 30% and 10% are exact below 2^50 operations. *)
Lemma rate_gt_0_3 w t : 0 ≤ w ≤ t → 0 < t < 2 ^ 50 →
  f64_lt f64_0_3 (f64_div (as_f64 w) (as_f64 t)) = true ↔ 3 * t < 10 * w.
Proof.
  intros Hw Ht. destruct (decide (w = 0)) as [->|Hne].
  { rewrite f64_div_zero by lia. split; [done|lia]. }
  destruct (f64_div_ok w t) as (m & k & -> & Hk & Hm & Herr); [lia|lia|].
  unfold f64_0_3. change (-54) with (- (54)). rewrite f64_lt_lit_r.
  destruct (Z.lt_trichotomy k 54) as [Hlt|[->|Hgt]].
  - split; [intros _|lia]. pose proof (mul_pow_le w k 53 ltac:(lia) ltac:(lia)).
    assert (2 ^ 52 * t ≤ Z.pos m * t) by (apply Z.mul_le_mono_nonneg_r; lia). lia.
  - split.
    + intros [?|[_ Hc]]; [lia|].
      assert (5404319552844596 * t ≤ Z.pos m * t) by (apply Z.mul_le_mono_nonneg_r; lia). lia.
    + intros Hr. right. split; [done|]. apply Z.nle_gt. intros Hc.
      assert (Z.pos m * t ≤ 5404319552844595 * t) by (apply Z.mul_le_mono_nonneg_r; lia). lia.
  - split; [lia|]. intros Hr. pose proof (mul_pow_le w 55 k ltac:(lia) ltac:(lia)).
    assert (Z.pos m * t ≤ 2 ^ 53 * t) by (apply Z.mul_le_mono_nonneg_r; lia). lia.
Qed.

Lemma rate_lt_0_1 w t : 0 ≤ w ≤ t → 0 < t < 2 ^ 50 →
  f64_lt (f64_div (as_f64 w) (as_f64 t)) f64_0_1 = true ↔ 10 * w < t.
Proof.
  intros Hw Ht. destruct (decide (w = 0)) as [->|Hne].
  { rewrite f64_div_zero by lia. split; [lia|done]. }
  destruct (f64_div_ok w t) as (m & k & -> & Hk & Hm & Herr); [lia|lia|].
  unfold f64_0_1. change (-56) with (- (56)). rewrite f64_lt_lit_r.
  destruct (Z.lt_trichotomy k 56) as [Hlt|[->|Hgt]].
  - split; [lia|]. intros Hr. pose proof (mul_pow_le w k 55 ltac:(lia) ltac:(lia)).
    assert (2 ^ 52 * t ≤ Z.pos m * t) by (apply Z.mul_le_mono_nonneg_r; lia). lia.
  - split.
    + intros [?|[_ Hc]]; [lia|].
      assert (Z.pos m * t ≤ 7205759403792793 * t) by (apply Z.mul_le_mono_nonneg_r; lia). lia.
    + intros Hr. right. split; [done|]. apply Z.nle_gt. intros Hc.
      assert (7205759403792794 * t ≤ Z.pos m * t) by (apply Z.mul_le_mono_nonneg_r; lia). lia.
  - split; [intros _|by left]. pose proof (mul_pow_le w 57 k ltac:(lia) ltac:(lia)).
    assert (Z.pos m * t ≤ 2 ^ 53 * t) by (apply Z.mul_le_mono_nonneg_r; lia). lia.
Qed.
