(* ===== verification/Adaptive.v ===== *)
(** * Adaptive batch size (src/socket.rs: AdaptiveState)

    A target size that is halved when more than 30% of the recent operations would have blocked and
    grown by half when fewer than 10% did, at most once per 100 ms. The rate is an IEEE 754 double,
    see [F64.v]. *)
From S2P Require Import Prelude Libc UnixAbi F64.
#[local] Open Scope Z_scope.

(** Overflow of an integer [+=] panics when the build has overflow checks (debug profiles) and wraps
    when it has not (release profiles). *)
Class Profile := overflow_checks : bool.

Definition add_u64 {P : Profile} (x y : Z) : outcome Z :=
  if x + y <? 2 ^ 64 then Ret (x + y)
  else if overflow_checks then Panic else Ret (as_u64 (x + y)).

(** ** The state *)
Record AdaptiveState := MkAdaptive
  { target_size : Z; would_block_count : Z; total_send_count : Z; last_adjustment : Z }.

Definition MIN_BATCH : Z := 1.
Definition MAX_BATCH : Z := 1024.
(** In nanoseconds. *)
Definition ADJUSTMENT_INTERVAL : Z := 100000000.

Definition clamp (x lo hi : Z) : Z := if x <? lo then lo else if hi <? x then hi else x.

Section adaptive.
Context {L : Libc} {K : Kernel} {P : Profile}.

Definition adaptive_new (initial : Z) : IO AdaptiveState :=
  let! now := sys_now in
  mret (MkAdaptive (clamp initial MIN_BATCH MAX_BATCH) 0 0 now).

Definition record_would_block (s : AdaptiveState) : outcome AdaptiveState :=
  let? w := add_u64 (would_block_count s) 1 in
  let? t := add_u64 (total_send_count s) 1 in
  Ret (MkAdaptive (target_size s) w t (last_adjustment s)).

Definition record_event (s : AdaptiveState) : outcome AdaptiveState :=
  let? t := add_u64 (total_send_count s) 1 in
  Ret (MkAdaptive (target_size s) (would_block_count s) t (last_adjustment s)).

(** The new target for the counts of the last interval. *)
Definition next_target (s : AdaptiveState) : Z :=
  let wb_rate := f64_div (as_f64 (would_block_count s)) (as_f64 (total_send_count s)) in
  if f64_lt f64_0_3 wb_rate then Z.max (target_size s / 2) MIN_BATCH
  else if f64_lt wb_rate f64_0_1 && (target_size s <? MAX_BATCH)
  then Z.min (target_size s * 3 / 2) MAX_BATCH
  else target_size s.

Definition maybe_adjust (s : AdaptiveState) : IO AdaptiveState :=
  let! now := sys_now in
  (* [Instant::elapsed] saturates at zero *)
  if Z.max 0 (now - last_adjustment s) <? ADJUSTMENT_INTERVAL then mret s
  else if total_send_count s =? 0 then mret s
  else
    let! now := sys_now in
    mret (MkAdaptive (next_target s) 0 0 now).

Definition recommended_size (s : AdaptiveState) : Z := target_size s.

(** ** Runs

    The three calls the socket layer makes on a state. *)
Inductive adaptive_op := RecordWouldBlock | RecordEvent | MaybeAdjust.
Definition adaptive_step (o : adaptive_op) (s : AdaptiveState) : IO AdaptiveState :=
  match o with
  | RecordWouldBlock => lift (record_would_block s)
  | RecordEvent => lift (record_event s)
  | MaybeAdjust => maybe_adjust s
  end.
Fixpoint adaptive_run (os : list adaptive_op) (s : AdaptiveState) : IO AdaptiveState :=
  match os with
  | [] => mret s
  | o :: os => let! s := adaptive_step o s in adaptive_run os s
  end.

(** The target is in range, the counts are consistent and at most [n] operations were counted. *)
Definition adaptive_inv (n : Z) (s : AdaptiveState) : Prop :=
  MIN_BATCH ≤ target_size s ≤ MAX_BATCH ∧
  0 ≤ would_block_count s ≤ total_send_count s ∧ total_send_count s ≤ n.

Lemma clamp_range x : MIN_BATCH ≤ clamp x MIN_BATCH MAX_BATCH ≤ MAX_BATCH.
Proof.
  unfold clamp, MIN_BATCH, MAX_BATCH.
  destruct (Z.ltb_spec x 1); [lia|]. destruct (Z.ltb_spec 1024 x); lia.
Qed.

Lemma next_target_range s : MIN_BATCH ≤ target_size s ≤ MAX_BATCH →
  MIN_BATCH ≤ next_target s ≤ MAX_BATCH.
Proof.
  unfold next_target, MIN_BATCH, MAX_BATCH. intros Ht.
  repeat case_match; reflect_bools; Z.to_euclidean_division_equations; lia.
Qed.

Lemma add_u64_small x : 0 ≤ x < 2 ^ 64 - 1 → add_u64 x 1 = Ret (x + 1).
Proof. intros Hx. unfold add_u64. by rewrite (proj2 (Z.ltb_lt _ _)) by lia. Qed.

Lemma adaptive_step_inv n o s h : adaptive_inv n s → n < 2 ^ 64 - 1 →
  wp (adaptive_step o s) (λ s' h', adaptive_inv (n + 1) s' ∧ ∃ ts, h' = h ++ (EvNow <$> ts)) h.
Proof.
  intros (Ht & Hw & Hn) Hlt. destruct o; simpl.
  - eapply wp_lift; [unfold record_would_block; by rewrite !add_u64_small by lia|].
    split; [unfold adaptive_inv; simpl; lia|]. exists []. by rewrite app_nil_r.
  - eapply wp_lift; [unfold record_event; by rewrite add_u64_small by lia|].
    split; [unfold adaptive_inv; simpl; lia|]. exists []. by rewrite app_nil_r.
  - unfold wp, maybe_adjust, mbind, sys_now.
    destruct (_ <? ADJUSTMENT_INTERVAL); [|destruct (total_send_count s =? 0)]; simpl.
    1, 2: split; [unfold adaptive_inv; lia|by exists [k_now h]].
    split; [|by eexists [k_now h; _]; rewrite <- (assoc_L (++))].
    pose proof (next_target_range s Ht). unfold adaptive_inv; simpl. lia.
Qed.

Lemma adaptive_run_inv os : ∀ n s h, adaptive_inv n s → n + Z.of_nat (length os) < 2 ^ 64 →
  wp (adaptive_run os s) (λ s' h', adaptive_inv (n + Z.of_nat (length os)) s') h.
Proof.
  induction os as [|o os IH]; intros n s h Hinv Hlt; simpl.
  { apply wp_ret. by rewrite Z.add_0_r. }
  simpl in Hlt. apply wp_bind. eapply wp_mono; [apply (adaptive_step_inv n); [done|lia]|].
  intros s' h' [Hinv' _]. simpl. eapply wp_mono; [apply (IH (n + 1)); [done|lia]|].
  intros s'' h'' H. by replace (n + Z.of_nat (S (length os))) with (n + 1 + Z.of_nat (length os)) by lia.
Qed.

(** ** Spacing of the adjustments *)

(** The clock at the calls of a run that changed the recommended size, as an observer who reads the size
    before and after every call sees them. *)
Fixpoint change_times (os : list adaptive_op) (s : AdaptiveState) (h : history) : list Z :=
  match os with
  | [] => []
  | o :: os =>
      match adaptive_step o s h with
      | Ret (s', h') =>
          (if recommended_size s' =? recommended_size s then [] else [k_now h]) ++ change_times os s' h'
      | _ => []
      end
  end.
(** The same from the creation of the state on. *)
Definition size_changes (initial : Z) (os : list adaptive_op) (h : history) : list Z :=
  match adaptive_new initial h with Ret (s, h') => change_times os s h' | _ => [] end.

(** Each time is at least [d] after the one before, the first after [t]. *)
Fixpoint spaced (d t : Z) (ts : list Z) : Prop :=
  match ts with
  | [] => True
  | t' :: ts => t + d ≤ t' ∧ spaced d t' ts
  end.

(** The clock of [Instant] never goes backwards. *)
Definition monotonic : Prop := ∀ h evs, k_now h ≤ k_now (h ++ evs).

(** A call changes the size only when the interval is over, and then starts a new one. *)
Lemma adaptive_step_time o s h s' h' : monotonic → adaptive_step o s h = Ret (s', h') →
  target_size s' = target_size s ∧ last_adjustment s ≤ last_adjustment s' ∨
  last_adjustment s + ADJUSTMENT_INTERVAL ≤ k_now h ≤ last_adjustment s'.
Proof.
  intros Hmono. destruct o; simpl.
  1, 2: unfold lift, record_would_block, record_event, add_u64; repeat case_match; simpl;
    intros E; simplify_eq/=; left; lia.
  unfold maybe_adjust, mbind, sys_now.
  destruct (Z.max 0 (k_now h - last_adjustment s) <? ADJUSTMENT_INTERVAL) eqn:E; reflect_bools;
    [|destruct (total_send_count s =? 0)]; simpl; intros [= <- <-].
  1, 2: left; lia.
  right; simpl. pose proof (Hmono h [EvNow (k_now h)]). unfold ADJUSTMENT_INTERVAL in *. lia.
Qed.

Lemma change_times_spaced os : monotonic → ∀ t s h, t ≤ last_adjustment s →
  spaced ADJUSTMENT_INTERVAL t (change_times os s h).
Proof.
  intros Hmono. induction os as [|o os IH]; intros t s h Ht; simpl; [done|].
  destruct (adaptive_step o s h) as [[s' h']| | |] eqn:E; try done.
  pose proof (adaptive_step_time _ _ _ _ _ Hmono E) as Hst. unfold ADJUSTMENT_INTERVAL in *.
  destruct (Z.eqb_spec (recommended_size s') (recommended_size s)) as [Eq|Hne]; simpl.
  - apply IH. lia.
  - destruct Hst as [[? _]|Hst]; [done|]. split; [lia|]. apply IH. lia.
Qed.
End adaptive.

(** C22: bounds of the adaptive batch size. From any configured size, whatever operations follow (fewer
    than 2^64), the recommended size stays between 1 and 1024, the operations never panic, and the
    counted would-block events never outnumber the counted operations. *)
Theorem adaptive_bounds {L : Libc} {K : Kernel} {P : Profile} initial os h :
  Z.of_nat (length os) < 2 ^ 64 →
  ∃ s h', (let! s := adaptive_new initial in adaptive_run os s) h = Ret (s, h') ∧
    1 ≤ recommended_size s ≤ 1024 ∧ 0 ≤ would_block_count s ≤ total_send_count s.
Proof.
  intros Hlt. set (s0 := MkAdaptive (clamp initial MIN_BATCH MAX_BATCH) 0 0 (k_now h)).
  assert (Hinv : adaptive_inv 0 s0) by (split; [apply clamp_range|simpl; lia]).
  destruct (wp_elim _ _ _ (adaptive_run_inv os 0 s0 (h ++ [EvNow (k_now h)]) Hinv ltac:(lia)))
    as (s & h' & Hr & Ht & Hw & _).
  exists s, h'. split; [exact Hr|]. split; [exact Ht|exact Hw].
Qed.

(** A clock that advances by 60 ms per system call. *)
Definition clock_kernel : @Kernel linux_le :=
  with_clock (sample_kernel []) (λ h, 60000000 * Z.of_nat (length h)).

Lemma adaptive_bounds_witness :
  ∃ s h', (let! s := adaptive_new (K := clock_kernel) 32 in
           adaptive_run (K := clock_kernel) (P := true) [RecordWouldBlock; MaybeAdjust; RecordEvent; MaybeAdjust] s)
            [] = Ret (s, h') ∧
    1 ≤ recommended_size s ≤ 1024 ∧ 0 ≤ would_block_count s ≤ total_send_count s.
Proof. apply (@adaptive_bounds linux_le clock_kernel true 32 _ []). simpl; lia. Defined.

(** C23: the rate limit. Under a clock that does not go backwards, whatever operations follow the creation
    of an adaptive state, the recommended batch size first changes at least 100 ms after the creation, and
    between any two calls that change it at least 100 ms pass. *)
Theorem adaptive_rate_limit {L : Libc} {K : Kernel} {P : Profile} initial os h :
  monotonic → spaced ADJUSTMENT_INTERVAL (k_now h) (size_changes initial os h).
Proof.
  intros Hmono. unfold size_changes, adaptive_new, mbind, sys_now; simpl.
  apply change_times_spaced; simpl; [done|lia].
Qed.

(** Growth after 120 ms (the calls at 60 ms come too early), and a cut 180 ms later. *)
Definition rate_ops : list adaptive_op :=
  [RecordEvent; MaybeAdjust; MaybeAdjust; RecordWouldBlock; MaybeAdjust; MaybeAdjust].
Lemma adaptive_rate_limit_witness :
  size_changes (K := clock_kernel) (P := true) 32 rate_ops [] = [120000000; 300000000] ∧
  spaced ADJUSTMENT_INTERVAL 0 [120000000; 300000000].
Proof.
  split; [vm_compute; reflexivity|].
  apply (@adaptive_rate_limit linux_le clock_kernel true 32 rate_ops []).
  intros h evs. simpl. rewrite length_app. lia.
Defined.

(** The adjustment in integer arithmetic. *)
Definition adjusted_target (w t x : Z) : Z :=
  if 3 * t <? 10 * w then Z.max (x / 2) 1
  else if 10 * w <? t then Z.min (x * 3 / 2) 1024
  else x.

(** C6: what an adjustment decides. With consistent counts below 2^50, [maybe_adjust] leaves the state
    alone before 100 ms have passed or when nothing was counted; otherwise it clears the counters,
    restarts the interval and halves the size (not below 1) exactly when would-block events exceed 30% of
    the operations, and adds half (not above 1024) exactly when they are below 10%: the
    floating-point comparisons of the code are exact. *)
Theorem maybe_adjust_decision {L : Libc} {K : Kernel} {P : Profile} s h :
  adaptive_inv (2 ^ 50 - 1) s →
  let h1 := h ++ [EvNow (k_now h)] in
  maybe_adjust s h =
    if (k_now h - last_adjustment s <? 100000000) || (total_send_count s =? 0) then Ret (s, h1)
    else Ret (MkAdaptive
                (adjusted_target (would_block_count s) (total_send_count s) (target_size s)) 0 0
                (k_now h1), h1 ++ [EvNow (k_now h1)]).
Proof.
  intros (Ht & Hw & Hn) h1. unfold maybe_adjust, mbind, sys_now. fold h1.
  replace (Z.max 0 (k_now h - last_adjustment s) <? ADJUSTMENT_INTERVAL)
    with (k_now h - last_adjustment s <? 100000000)
    by (unfold ADJUSTMENT_INTERVAL; apply eq_true_iff_eq; rewrite !Z.ltb_lt; lia).
  destruct (k_now h - last_adjustment s <? 100000000); simpl; [done|].
  destruct (Z.eqb_spec (total_send_count s) 0) as [|Hne]; [done|].
  do 4 f_equal. unfold next_target, adjusted_target, MIN_BATCH, MAX_BATCH in *.
  pose proof (rate_gt_0_3 (would_block_count s) (total_send_count s) ltac:(lia) ltac:(lia)) as Hgt.
  pose proof (rate_lt_0_1 (would_block_count s) (total_send_count s) ltac:(lia) ltac:(lia)) as Hlt.
  destruct (f64_lt f64_0_3 _).
  - by rewrite (proj2 (Z.ltb_lt (3 * _) _)) by (by apply Hgt).
  - rewrite (proj2 (Z.ltb_ge (3 * _) _)); [|apply Z.nlt_ge; intros Hc; by apply Hgt in Hc].
    destruct (f64_lt _ f64_0_1); simpl.
    + rewrite (proj2 (Z.ltb_lt _ (total_send_count s))) by (by apply Hlt).
      destruct (Z.ltb_spec (target_size s) 1024); [done|]. replace (target_size s) with 1024 by lia. done.
    + rewrite (proj2 (Z.ltb_ge _ (total_send_count s))); [done|].
      apply Z.nlt_ge. intros Hc. by apply Hlt in Hc.
Qed.

(** 5 of 16 operations would have blocked: 31.25%. *)
Lemma maybe_adjust_decision_witness :
  maybe_adjust (K := clock_kernel) (MkAdaptive 32 5 16 (-100000000)) [] =
    Ret (MkAdaptive 16 0 0 60000000, [EvNow 0; EvNow 60000000]).
Proof.
  apply (@maybe_adjust_decision linux_le clock_kernel true (MkAdaptive 32 5 16 (-100000000)) []).
  unfold adaptive_inv, MIN_BATCH, MAX_BATCH; simpl. lia.
Defined.

(** C36: a batch size of 1 is final. Once the size is 1 no sequence of operations makes it larger, whatever
    the rate: 1 * 3 / 2 rounds down to 1. *)
Theorem adaptive_stuck_at_one {L : Libc} {K : Kernel} {P : Profile} os s h s' h' :
  target_size s = 1 → adaptive_run os s h = Ret (s', h') → recommended_size s' = 1.
Proof.
  revert s h. induction os as [|o os IH]; intros s h Hs; simpl.
  { by intros [= <- _]. }
  intros (s1 & h1 & Hstep & Hrun)%mbind_inv. apply (IH s1 h1); [|done].
  destruct o; simpl in Hstep.
  1, 2: unfold lift, record_would_block, record_event in Hstep; repeat case_match; simplify_eq/=;
    obind_inv; done.
  unfold maybe_adjust, mbind, sys_now in Hstep.
  destruct (_ <? ADJUSTMENT_INTERVAL); [|destruct (total_send_count s =? 0)];
    injection Hstep as <- _; try done. simpl. unfold next_target, MIN_BATCH, MAX_BATCH. rewrite Hs.
  by repeat case_match.
Qed.

Lemma adaptive_stuck_at_one_witness :
  ∃ s' h', adaptive_run (K := clock_kernel) (P := true) [RecordEvent; MaybeAdjust; MaybeAdjust; MaybeAdjust]
             (MkAdaptive 1 0 0 0) [] = Ret (s', h') ∧ recommended_size s' = 1.
Proof.
  eexists _, _. split; [reflexivity|].
  by eapply (@adaptive_stuck_at_one linux_le clock_kernel true
               [RecordEvent; MaybeAdjust; MaybeAdjust; MaybeAdjust] (MkAdaptive 1 0 0 0) []).
Defined.
