(* ===== verification/Metrics.v ===== *)
(** * Metrics (src/metrics.rs)

    Ten atomic counters. An operation of the code is a sequence of atomic loads, stores and
    [fetch_add]s; threads interleave these. *)
From Stdlib Require Import SpecFloat.
From S2P Require Import Prelude F64.
#[local] Open Scope Z_scope.

Inductive counter :=
| packets_sent | packets_received | batches_sent | batches_received | send_syscalls | recv_syscalls
| send_errors | recv_errors | send_would_block | recv_would_block.

#[export] Instance counter_eq_dec : EqDecision counter.
Proof. solve_decision. Defined.

(** The values of the ten [AtomicU64] fields. *)
Record BingerMetrics := MkMetrics
  { m_packets_sent : Z; m_packets_received : Z; m_batches_sent : Z; m_batches_received : Z;
    m_send_syscalls : Z; m_recv_syscalls : Z; m_send_errors : Z; m_recv_errors : Z;
    m_send_would_block : Z; m_recv_would_block : Z }.

Definition metrics_default : BingerMetrics := MkMetrics 0 0 0 0 0 0 0 0 0 0.

(** [load] of one counter: the accessors [packets_sent()], ..., [recv_would_block()]. *)
Definition load (m : BingerMetrics) (c : counter) : Z :=
  match c with
  | packets_sent => m_packets_sent m
  | packets_received => m_packets_received m
  | batches_sent => m_batches_sent m
  | batches_received => m_batches_received m
  | send_syscalls => m_send_syscalls m
  | recv_syscalls => m_recv_syscalls m
  | send_errors => m_send_errors m
  | recv_errors => m_recv_errors m
  | send_would_block => m_send_would_block m
  | recv_would_block => m_recv_would_block m
  end.

Definition store (m : BingerMetrics) (c : counter) (v : Z) : BingerMetrics :=
  let 'MkMetrics ps pr bs br ss rs se re sw rw := m in
  match c with
  | packets_sent => MkMetrics v pr bs br ss rs se re sw rw
  | packets_received => MkMetrics ps v bs br ss rs se re sw rw
  | batches_sent => MkMetrics ps pr v br ss rs se re sw rw
  | batches_received => MkMetrics ps pr bs v ss rs se re sw rw
  | send_syscalls => MkMetrics ps pr bs br v rs se re sw rw
  | recv_syscalls => MkMetrics ps pr bs br ss v se re sw rw
  | send_errors => MkMetrics ps pr bs br ss rs v re sw rw
  | recv_errors => MkMetrics ps pr bs br ss rs se v sw rw
  | send_would_block => MkMetrics ps pr bs br ss rs se re v rw
  | recv_would_block => MkMetrics ps pr bs br ss rs se re sw v
  end.

(** [fetch_add] wraps around on overflow. *)
Definition fetch_add (m : BingerMetrics) (c : counter) (n : Z) : BingerMetrics :=
  store m c (as_u64 (load m c + n)).

(** [syscall_efficiency_ratio] *)
Definition syscall_efficiency_ratio (m : BingerMetrics) : spec_float :=
  let pkt := as_f64 (load m packets_sent) in
  let sc := as_f64 (load m send_syscalls) in
  if f64_lt (S754_zero false) sc then f64_div pkt sc else S754_zero false.

Record MetricsSnapshot := MkSnapshot { snap : counter → Z; syscall_efficiency : spec_float }.

(** ** Atomic steps

    [Load] shows the value to the thread, so a thread is a program in continuation style. *)
Inductive prog (A : Type) :=
| Done (a : A)
| Load (c : counter) (k : Z → prog A)
| Store (c : counter) (v : Z) (k : prog A)
| FetchAdd (c : counter) (n : Z) (k : prog A).
Arguments Done {A} _.
Arguments Load {A} _ _.
Arguments Store {A} _ _ _.
Arguments FetchAdd {A} _ _ _.

Fixpoint run_prog {A} (p : prog A) (m : BingerMetrics) : A * BingerMetrics :=
  match p with
  | Done a => (a, m)
  | Load c k => run_prog (k (load m c)) m
  | Store c v k => run_prog k (store m c v)
  | FetchAdd c n k => run_prog k (fetch_add m c n)
  end.

Fixpoint pbind {A B} (p : prog A) (f : A → prog B) : prog B :=
  match p with
  | Done a => f a
  | Load c k => Load c (λ v, pbind (k v) f)
  | Store c v k => Store c v (pbind k f)
  | FetchAdd c n k => FetchAdd c n (pbind k f)
  end.
Declare Scope prog_scope.
Notation "p ;; q" := (pbind p (λ _, q)) (at level 100, q at level 200, right associativity) : prog_scope.
#[local] Open Scope prog_scope.

(** The counters that a program run alone leaves. *)
Definition exec {A} (p : prog A) (m : BingerMetrics) : BingerMetrics := (run_prog p m).2.

(** [inc_packets_sent(n)], ..., [inc_recv_would_block()]: one [fetch_add] each. *)
Definition inc_packets_sent (n : Z) : prog unit := FetchAdd packets_sent n (Done tt).
Definition inc_packets_received (n : Z) : prog unit := FetchAdd packets_received n (Done tt).
Definition inc_batches_sent : prog unit := FetchAdd batches_sent 1 (Done tt).
Definition inc_batches_received : prog unit := FetchAdd batches_received 1 (Done tt).
Definition inc_send_syscalls : prog unit := FetchAdd send_syscalls 1 (Done tt).
Definition inc_recv_syscalls : prog unit := FetchAdd recv_syscalls 1 (Done tt).
Definition inc_send_errors : prog unit := FetchAdd send_errors 1 (Done tt).
Definition inc_recv_errors : prog unit := FetchAdd recv_errors 1 (Done tt).
Definition inc_send_would_block : prog unit := FetchAdd send_would_block 1 (Done tt).
Definition inc_recv_would_block : prog unit := FetchAdd recv_would_block 1 (Done tt).

(** What the socket layer does to the counters after a send or a receive that succeeded with [n]
    datagrams, and after one that failed; [a] is what the thread goes on with. *)
Definition send_ok_prog {A} (n : Z) (a : A) : prog A :=
  inc_packets_sent n;; inc_batches_sent;; inc_send_syscalls;; Done a.
Definition send_err_prog {A} (would_block : bool) (a : A) : prog A :=
  inc_send_errors;; (if would_block then inc_send_would_block else Done tt);; Done a.
Definition recv_ok_prog {A} (n : Z) (a : A) : prog A :=
  inc_packets_received n;; inc_batches_received;; inc_recv_syscalls;; Done a.
Definition recv_err_prog {A} (would_block : bool) (a : A) : prog A :=
  inc_recv_errors;; (if would_block then inc_recv_would_block else Done tt);; Done a.

Definition all_counters : list counter :=
  [packets_sent; packets_received; batches_sent; batches_received; send_syscalls; recv_syscalls;
   send_errors; recv_errors; send_would_block; recv_would_block].

(** [snapshot]: ten loads in order, then the two loads of [syscall_efficiency_ratio]. *)
Fixpoint load_all {A} (cs : list counter) (acc : counter → Z) (k : (counter → Z) → prog A) : prog A :=
  match cs with
  | [] => k acc
  | c :: cs => Load c (λ v, load_all cs (λ c', if decide (c' = c) then v else acc c') k)
  end.
Definition snapshot : prog MetricsSnapshot :=
  load_all all_counters (λ _, 0) (λ vals,
    Load packets_sent (λ ps, Load send_syscalls (λ ss,
      Done (MkSnapshot vals
        (let sc := as_f64 ss in
         if f64_lt (S754_zero false) sc then f64_div (as_f64 ps) sc else S754_zero false))))).

(** [reset]: ten stores in order. *)
Fixpoint store_all {A} (cs : list counter) (k : prog A) : prog A :=
  match cs with
  | [] => k
  | c :: cs => Store c 0 (store_all cs k)
  end.
Definition reset : prog unit := store_all all_counters (Done tt).

(** ** Interleavings *)

(** A step of one of the threads. *)
Inductive step {A} : BingerMetrics * prog A → BingerMetrics * prog A → Prop :=
| step_load m c k : step (m, Load c k) (m, k (load m c))
| step_store m c v k : step (m, Store c v k) (store m c v, k)
| step_add m c n k : step (m, FetchAdd c n k) (fetch_add m c n, k).

Inductive steps {A} : BingerMetrics → list (prog A) → BingerMetrics → list (prog A) → Prop :=
| steps_refl m ps : steps m ps m ps
| steps_step m ps i p m1 p1 m' ps' :
    ps !! i = Some p → step (m, p) (m1, p1) → steps m1 (<[i := p1]> ps) m' ps' →
    steps m ps m' ps'.

Lemma load_store m c v c' : load (store m c v) c' = if decide (c' = c) then v else load m c'.
Proof. by destruct m, c, c'. Qed.

Lemma metrics_ext m m' : (∀ c, load m c = load m' c) → m = m'.
Proof.
  intros H. destruct m, m'.
  pose proof (H packets_sent); pose proof (H packets_received); pose proof (H batches_sent);
  pose proof (H batches_received); pose proof (H send_syscalls); pose proof (H recv_syscalls);
  pose proof (H send_errors); pose proof (H recv_errors); pose proof (H send_would_block);
  pose proof (H recv_would_block); simpl in *; congruence.
Qed.

(** [p] adds [n] to counter [c], whatever it loads on the way, and never stores. *)
Inductive adds {A} (c : counter) : prog A → Z → Prop :=
| adds_done a : adds c (Done a) 0
| adds_load c' k n : (∀ v, adds c (k v) n) → adds c (Load c' k) n
| adds_add c' d k n n' : adds c k n → n' = (if decide (c' = c) then d else 0) + n →
    adds c (FetchAdd c' d k) n'.

Lemma adds_bind {A B} c (p : prog A) (f : A → prog B) n n' :
  adds c p n → (∀ a, adds c (f a) n') → adds c (pbind p f) (n + n').
Proof.
  intros Hp Hf. induction Hp as [a|c' k n Hk IH|c' d k n n1 Hk IH ->]; cbn [pbind].
  - apply Hf.
  - by constructor.
  - econstructor; [exact IH|lia].
Qed.

Definition finished {A} (p : prog A) : bool := match p with Done _ => true | _ => false end.
Definition sum (l : list Z) : Z := foldr Z.add 0 l.

Lemma sum_app l l' : sum (l ++ l') = sum l + sum l'.
Proof. induction l as [|x l IH]; simpl; [done|]. rewrite IH. lia. Qed.

Lemma sum_concat {A} (f : A → Z) (ls : list (list A)) :
  sum (f <$> concat ls) = sum ((λ l, sum (f <$> l)) <$> ls).
Proof. induction ls as [|l ls IH]; simpl; [done|]. by rewrite fmap_app, sum_app, IH. Qed.

Lemma sum_insert l i n n' : l !! i = Some n → sum (<[i := n']> l) = sum l - n + n'.
Proof.
  revert i. induction l as [|x l IH]; intros [|i] Hi; simpl in *; try done.
  - simplify_eq. lia.
  - rewrite (IH _ Hi). lia.
Qed.

(** The value of a counter plus what the threads still add to it does not change. *)
Lemma steps_adds {A} m (ps : list (prog A)) m' ps' c : steps m ps m' ps' →
  ∀ ns, Forall2 (adds c) ps ns → 0 ≤ load m c < 2 ^ 64 →
  ∃ ns', Forall2 (adds c) ps' ns' ∧ 0 ≤ load m' c < 2 ^ 64 ∧
    as_u64 (load m c + sum ns) = as_u64 (load m' c + sum ns').
Proof.
  induction 1 as [|m ps i p m1 p1 m' ps' Hi Hst Hs IH]; intros ns Hns Hm; [eauto|].
  destruct (Forall2_lookup_l _ _ _ _ _ Hns Hi) as (n & Hn & Hp).
  inversion Hst as [m0 c' k|m0 c' v k|m0 c' d k]; subst;
    inversion Hp as [|? ? ? Hk|? ? ? nk ? Hk Heq]; subst.
  - apply (IH ns); [|done]. rewrite <- (list_insert_id ns i n) by done. by apply Forall2_insert.
  - destruct (IH (<[i := nk]> ns)) as (ns' & Hns' & Hm' & E).
    + by apply Forall2_insert.
    + unfold fetch_add. rewrite load_store. destruct (decide (c = c')); [apply Z.mod_pos_bound; lia|done].
    + exists ns'. split; [done|]. split; [done|]. rewrite <- E, (sum_insert _ _ _ _ Hn).
      unfold fetch_add. rewrite load_store. destruct (decide (c = c')) as [->|Hne].
      * rewrite decide_True by done. unfold as_u64. rewrite Z.add_mod_idemp_l by lia. f_equal. lia.
      * rewrite decide_False by congruence. f_equal. lia.
Qed.

Lemma sum_finished {A} c (ps : list (prog A)) ns : Forall2 (adds c) ps ns → Forall finished ps → sum ns = 0.
Proof.
  induction 1 as [|p n ps ns Hp _ IH]; intros Hf; [done|]. inversion_clear Hf as [|? ? Hd Hf'].
  destruct p; try done. inversion Hp; subst. simpl. by rewrite IH.
Qed.

(** ** Threads of a program that shares a socket

    Each batch operation ends in one of these updates; any thread may take snapshots. *)
Inductive metrics_op := SendOk (n : nat) | SendErr (would_block : bool)
| RecvOk (n : nat) | RecvErr (would_block : bool) | TakeSnapshot.

Definition op_prog (o : metrics_op) : prog unit :=
  match o with
  | SendOk n => send_ok_prog (Z.of_nat n) tt
  | SendErr wb => send_err_prog wb tt
  | RecvOk n => recv_ok_prog (Z.of_nat n) tt
  | RecvErr wb => recv_err_prog wb tt
  | TakeSnapshot => snapshot;; Done tt
  end.
Fixpoint thread (os : list metrics_op) : prog unit :=
  match os with [] => Done tt | o :: os => op_prog o;; thread os end.

(** What a counter is to show of an operation. *)
Definition shown (c : counter) (o : metrics_op) : Z :=
  match c, o with
  | packets_sent, SendOk n => Z.of_nat n
  | packets_received, RecvOk n => Z.of_nat n
  | batches_sent, SendOk _ | send_syscalls, SendOk _ => 1
  | batches_received, RecvOk _ | recv_syscalls, RecvOk _ => 1
  | send_errors, SendErr _ | send_would_block, SendErr true => 1
  | recv_errors, RecvErr _ | recv_would_block, RecvErr true => 1
  | _, _ => 0
  end.

Lemma snapshot_adds c : adds c snapshot 0.
Proof.
  unfold snapshot. generalize (λ _ : counter, 0). generalize all_counters.
  intros cs. induction cs as [|c' cs IH]; intros acc; simpl.
  - repeat (constructor; intros).
  - constructor. intros v. apply IH.
Qed.

Lemma adds_eq {A} c (p : prog A) n n' : adds c p n → n = n' → adds c p n'.
Proof. by intros H <-. Qed.

Lemma op_prog_adds c o : adds c (op_prog o) (shown c o).
Proof.
  destruct o as [n|[]|n|[]|].
  7: unfold op_prog; eapply adds_eq; [eapply adds_bind; [apply snapshot_adds|constructor]|by destruct c].
  all: simpl; eapply adds_eq; [repeat econstructor|destruct c; simpl; lia].
Qed.

Lemma thread_adds c os : adds c (thread os) (sum (shown c <$> os)).
Proof. induction os as [|o os IH]; simpl; [constructor|]. apply adds_bind; [apply op_prog_adds|done]. Qed.

(** The states a lone send of [n] goes through. *)
Definition sending {A} (n : Z) (a : A) (m : BingerMetrics) (ps : list (prog A)) : Prop :=
  (m, ps) ∈ [(metrics_default, [send_ok_prog n a]);
             (MkMetrics n 0 0 0 0 0 0 0 0 0, [FetchAdd batches_sent 1 (FetchAdd send_syscalls 1 (Done a))]);
             (MkMetrics n 0 1 0 0 0 0 0 0 0, [FetchAdd send_syscalls 1 (Done a)]);
             (MkMetrics n 0 1 0 1 0 0 0 0 0, [Done a])].

Lemma sending_steps {A} n (a : A) m ps m' ps' : 0 ≤ n < 2 ^ 64 →
  steps m ps m' ps' → sending n a m ps → sending n a m' ps'.
Proof.
  intros Hn. induction 1 as [|m ps i p m1 p1 m' ps' Hi Hst Hs IH]; [done|].
  intros Hin. apply IH. clear IH Hs. unfold sending in *.
  repeat (apply elem_of_cons in Hin as [[= -> ->]|Hin]); [..|by apply elem_of_nil in Hin].
  all: destruct i as [|i]; [|done]; injection Hi as <-; inversion Hst; subst; cbn;
    rewrite ?as_u64_small by lia; rewrite !elem_of_cons; auto.
Qed.

(** C27: no update is lost. Let any number of threads share a socket's counters, each going through any
    sequence of batch operations (sends and receives that succeed with some number of datagrams, fail, or
    would block) and snapshots. When they have run to completion, in whatever interleaving of their atomic
    steps, each counter is its initial value plus what it is to show of all operations of all threads,
    modulo 2^64: the datagrams of the successful operations, the number of successful operations, of
    errors, of would-block errors. *)
Theorem metrics_no_lost_update m (oss : list (list metrics_op)) m' ps' c :
  steps m (thread <$> oss) m' ps' → Forall finished ps' → 0 ≤ load m c < 2 ^ 64 →
  load m' c = as_u64 (load m c + sum (shown c <$> concat oss)).
Proof.
  intros Hs Hfin Hm. assert (Hadds : Forall2 (adds c) (thread <$> oss) ((λ os, sum (shown c <$> os)) <$> oss))
    by (apply Forall2_fmap, Forall_Forall2_diag, Forall_true; apply thread_adds).
  destruct (steps_adds _ _ _ _ c Hs _ Hadds Hm) as (ns' & Hns' & Hm' & E).
  rewrite (sum_finished c ps' ns') in E by done.
  rewrite Z.add_0_r, (as_u64_small (load m' c)) in E by done. by rewrite sum_concat.
Qed.

(** A successful send of 3 and a failed one, interleaved. *)
Lemma metrics_no_lost_update_witness :
  ∃ m', steps metrics_default (thread <$> [[SendOk 3]; [SendErr true]]) m' [Done tt; Done tt] ∧
    load m' packets_sent = 3 ∧ load m' send_errors = 1.
Proof.
  exists (MkMetrics 3 0 1 0 1 0 1 0 1 0).
  assert (Hs : steps metrics_default (thread <$> [[SendOk 3]; [SendErr true]])
                 (MkMetrics 3 0 1 0 1 0 1 0 1 0) [Done tt; Done tt]).
  { eapply (steps_step _ _ 0); [reflexivity|constructor|].
    eapply (steps_step _ _ 1); [reflexivity|constructor|].
    eapply (steps_step _ _ 0); [reflexivity|constructor|].
    eapply (steps_step _ _ 1); [reflexivity|constructor|].
    eapply (steps_step _ _ 0); [reflexivity|constructor|].
    apply steps_refl. }
  split; [exact Hs|]. split.
  - apply (metrics_no_lost_update _ _ _ _ packets_sent Hs); [by repeat constructor|simpl; lia].
  - apply (metrics_no_lost_update _ _ _ _ send_errors Hs); [by repeat constructor|simpl; lia].
Defined.

(** With no other thread running, [reset] zeroes every counter, [snapshot] reports every counter and
    the efficiency ratio of these values and changes nothing, and a snapshot after a reset is all
    zeroes with ratio 0. *)
Theorem metrics_sequential m :
  run_prog reset m = (tt, metrics_default) ∧
  (∃ s, run_prog snapshot m = (s, m) ∧ (∀ c, snap s c = load m c) ∧
        syscall_efficiency s = syscall_efficiency_ratio m) ∧
  (∃ s, run_prog snapshot (run_prog reset m).2 = (s, metrics_default) ∧ (∀ c, snap s c = 0) ∧
        syscall_efficiency s = S754_zero false).
Proof.
  split_and!.
  - by destruct m.
  - eexists. split; [reflexivity|]. split; [by intros []|done].
  - destruct m. eexists. split; [reflexivity|]. split; [by intros []|done].
Qed.

(** C38: a snapshot is not atomic. While a send of 32 datagrams is being counted, a concurrent snapshot can
    report no datagrams sent and one send call, a pair of values the counters never held
    together. *)
Theorem snapshot_torn s0 :
  (∃ m s, steps metrics_default [send_ok_prog 32 s0; snapshot] m [Done s0; Done s] ∧
          snap s packets_sent = 0 ∧ snap s send_syscalls = 1) ∧
  ∀ m ps, steps metrics_default [send_ok_prog 32 s0] m ps →
    load m send_syscalls = 1 → load m packets_sent = 32.
Proof.
  split.
  - eexists _, _. split.
    { eapply (steps_step _ _ 1); [reflexivity|constructor|].
      do 3 (eapply (steps_step _ _ 0); [reflexivity|constructor|]).
      do 11 (eapply (steps_step _ _ 1); [reflexivity|constructor|]).
      apply steps_refl. }
    by split.
  - intros m ps Hs Hss. assert (Hin : sending 32 s0 m ps).
    { eapply sending_steps; [lia|exact Hs|]. apply elem_of_cons. by left. }
    unfold sending in Hin.
    repeat (apply elem_of_cons in Hin as [[= -> ->]|Hin]); [..|by apply elem_of_nil in Hin]; done.
Qed.
