(* ===== verification/Bufs.v ===== *)
(** * Buffer pool (src/bufs.rs)

    A bounded queue of reusable buffers behind an [Arc]: clones of a pool share the queue. The queue
    ([crossbeam_queue::ArrayQueue]) and the buffers ([bytes::BytesMut]) are libraries; the classes
    state what the pool uses of them. *)
From S2P Require Import Prelude.
#[local] Open Scope Z_scope.

Class BytesMut := {
  bytes_mut : Type;
  bm_bytes : bytes_mut → list Z;          (** its contents *)
  bm_clear : bytes_mut → bytes_mut;
  bm_zeroed : nat → bytes_mut;
  bm_extend : bytes_mut → list Z → bytes_mut;   (** [extend_from_slice] *)
  bm_capacity : bytes_mut → nat;
}.
Class BytesMutLaws {B : BytesMut} : Prop := {
  clear_bytes : ∀ b, bm_bytes (bm_clear b) = [];
  zeroed_bytes : ∀ n, bm_bytes (bm_zeroed n) = replicate n 0;
  extend_bytes : ∀ b bs, bm_bytes (bm_extend b bs) = bm_bytes b ++ bs;
  (** the capacity bounds the contents and survives [clear] *)
  capacity_ge : ∀ b, (length (bm_bytes b) ≤ bm_capacity b)%nat;
  clear_capacity : ∀ b, bm_capacity (bm_clear b) = bm_capacity b;
}.

Class ArrayQueue (T : Type) := {
  array_queue : Type;
  aq_new : nat → outcome array_queue;
  aq_push : array_queue → T → result unit T * array_queue;
  aq_pop : array_queue → option T * array_queue;
  aq_len : array_queue → nat;
  aq_capacity : array_queue → nat;
  (** the elements, oldest first *)
  aq_elems : array_queue → list T;
}.
Class ArrayQueueLaws {T} {Q : ArrayQueue T} : Prop := {
  new_zero : aq_new 0 = Panic;
  new_ok : ∀ n, (0 < n)%nat → ∃ q, aq_new n = Ret q ∧ aq_elems q = [] ∧ aq_capacity q = n;
  push_room : ∀ q x, (length (aq_elems q) < aq_capacity q)%nat →
    ∃ q', aq_push q x = (Ok tt, q') ∧ aq_elems q' = aq_elems q ++ [x] ∧ aq_capacity q' = aq_capacity q;
  push_full : ∀ q x, (aq_capacity q ≤ length (aq_elems q))%nat → aq_push q x = (Err x, q);
  pop_some : ∀ q x xs, aq_elems q = x :: xs →
    ∃ q', aq_pop q = (Some x, q') ∧ aq_elems q' = xs ∧ aq_capacity q' = aq_capacity q;
  pop_none : ∀ q, aq_elems q = [] → aq_pop q = (None, q);
  len_elems : ∀ q, aq_len q = length (aq_elems q);
}.

Section bufs.
Context {B : BytesMut} {Q : ArrayQueue bytes_mut}.

(** The queues behind the [Arc]s, by address. *)
Abbreviation heap := (gmap N array_queue).

Record BufferPool := MkPool { pool : N; buf_size : nat }.

Definition pool_new (hp : heap) (capacity buf_size : nat) : outcome (BufferPool * heap) :=
  let? q := aq_new capacity in
  let p := fresh (dom hp) in
  Ret (MkPool p buf_size, <[p := q]> hp).

Definition deref (hp : heap) (p : BufferPool) : outcome array_queue :=
  match hp !! pool p with Some q => Ret q | None => UB end.

Definition pool_get (hp : heap) (p : BufferPool) : outcome (bytes_mut * heap) :=
  let? q := deref hp p in
  match aq_pop q with
  | (Some b, q) => Ret (bm_clear b, <[pool p := q]> hp)
  | (None, q) => Ret (bm_zeroed (buf_size p), <[pool p := q]> hp)
  end.

Definition pool_put (hp : heap) (p : BufferPool) (b : bytes_mut) : outcome heap :=
  let? q := deref hp p in
  let '(_, q) := aq_push q b in Ret (<[pool p := q]> hp).

Definition pool_available (hp : heap) (p : BufferPool) : outcome nat :=
  let? q := deref hp p in Ret (aq_len q).
Definition pool_capacity (hp : heap) (p : BufferPool) : outcome nat :=
  let? q := deref hp p in Ret (aq_capacity q).

(** [Clone]: another handle to the same queue. *)
Definition pool_clone (p : BufferPool) : BufferPool := MkPool (pool p) (buf_size p).

(** ** Specification: a bounded first-in first-out queue shared by all handles *)
Inductive pool_op := OpGet | OpPut (b : bytes_mut).

(** The buffers handed out and the queue left by a sequence of operations on a queue, oldest buffer
    first. *)
Fixpoint pool_spec (cap size : nat) (q : list bytes_mut) (os : list pool_op)
    : list bytes_mut * list bytes_mut :=
  match os with
  | [] => ([], q)
  | OpGet :: os =>
      match q with
      | [] => let '(bs, q) := pool_spec cap size [] os in (bm_zeroed size :: bs, q)
      | b :: q => let '(bs, q) := pool_spec cap size q os in (bm_clear b :: bs, q)
      end
  | OpPut b :: os => pool_spec cap size (if (length q <? cap)%nat then q ++ [b] else q) os
  end.

(** The same operations, each through one of several handles. *)
Fixpoint pool_run (hp : heap) (os : list (BufferPool * pool_op)) : outcome (list bytes_mut * heap) :=
  match os with
  | [] => Ret ([], hp)
  | (p, OpGet) :: os =>
      let? '(b, hp) := pool_get hp p in
      let? '(bs, hp) := pool_run hp os in Ret (b :: bs, hp)
  | (p, OpPut b) :: os => let? hp := pool_put hp p b in pool_run hp os
  end.

Context {BL : BytesMutLaws} {QL : ArrayQueueLaws}.

Definition pool_at (hp : heap) (p : BufferPool) (cap : nat) (elems : list bytes_mut) : Prop :=
  ∃ q, hp !! pool p = Some q ∧ aq_elems q = elems ∧ aq_capacity q = cap.

(** Handles of one pool: same queue, same buffer size. *)
Definition same_pool (p p' : BufferPool) : Prop := pool p = pool p' ∧ buf_size p = buf_size p'.

Lemma pool_get_spec hp p p' cap es : pool_at hp p cap es → same_pool p' p →
  ∃ b hp', pool_get hp p' = Ret (b, hp') ∧
    b = match es with [] => bm_zeroed (buf_size p) | x :: _ => bm_clear x end ∧
    pool_at hp' p cap (tail es).
Proof.
  intros (q & Hq & He & Hc) [Hp Hs]. unfold pool_get, deref. rewrite Hp, Hq; simpl.
  destruct es as [|x es].
  - rewrite (pop_none q He). eexists _, _. split; [done|]. rewrite Hs.
    split; [done|]. exists q. by rewrite lookup_insert_eq.
  - destruct (pop_some q x es He) as (q' & -> & He' & Hc'). eexists _, _. split; [done|].
    split; [done|]. exists q'. rewrite lookup_insert_eq. split_and!; simpl; congruence.
Qed.

Lemma pool_put_spec hp p p' b cap es : pool_at hp p cap es → same_pool p' p →
  ∃ hp', pool_put hp p' b = Ret hp' ∧
    pool_at hp' p cap (if (length es <? cap)%nat then es ++ [b] else es).
Proof.
  intros (q & Hq & He & Hc) [Hp Hs]. unfold pool_put, deref. rewrite Hp, Hq; simpl.
  destruct (Nat.ltb_spec (length es) cap).
  - destruct (push_room q b) as (q' & -> & He' & Hc'); [congruence|].
    eexists. split; [done|]. exists q'. rewrite lookup_insert_eq. split_and!; congruence.
  - rewrite push_full by congruence. eexists. split; [done|].
    exists q. by rewrite lookup_insert_eq.
Qed.

Lemma pool_run_spec p cap os : ∀ hp es, pool_at hp p cap es → Forall (λ o, same_pool o.1 p) os →
  ∃ hp' es', pool_run hp os = Ret ((pool_spec cap (buf_size p) es (snd <$> os)).1, hp') ∧
    (pool_spec cap (buf_size p) es (snd <$> os)).2 = es' ∧ pool_at hp' p cap es'.
Proof.
  induction os as [|[p' o] os IH]; intros hp es Hat Hall.
  { by exists hp, es. }
  inversion_clear Hall as [|? ? Hp Hall']. simpl in Hp. destruct o as [|b]; cbn [pool_run].
  - destruct (pool_get_spec hp p p' cap es Hat Hp) as (b & hp1 & -> & Hb & Hat1); simpl.
    destruct (IH hp1 (tail es) Hat1 Hall') as (hp2 & es2 & -> & He & Hat2). simpl.
    exists hp2, es2. destruct es as [|x es]; subst b; simpl in *.
    + destruct (pool_spec cap (buf_size p) [] _); by simpl in *.
    + destruct (pool_spec cap (buf_size p) es _); by simpl in *.
  - destruct (pool_put_spec hp p p' b cap es Hat Hp) as (hp1 & -> & Hat1); simpl. by apply IH.
Qed.

(** Every buffer handed out is new, or one that was put back. *)
Definition put_of (o : pool_op) : option bytes_mut := match o with OpPut b => Some b | OpGet => None end.
Lemma pool_spec_buffers cap size os : ∀ q,
  Forall (λ b, b = bm_zeroed size ∨ ∃ b0, b0 ∈ q ++ omap put_of os ∧ b = bm_clear b0)
    (pool_spec cap size q os).1.
Proof.
  assert (Hw : ∀ (l l' : list bytes_mut) bs, (∀ b, b ∈ l → b ∈ l') →
    Forall (λ b, b = bm_zeroed size ∨ ∃ b0, b0 ∈ l ∧ b = bm_clear b0) bs →
    Forall (λ b, b = bm_zeroed size ∨ ∃ b0, b0 ∈ l' ∧ b = bm_clear b0) bs).
  { intros l l' bs Hl Hf. eapply Forall_impl, Hf. intros b [->|(b0 & Hb & ->)]; eauto. }
  induction os as [|[|b] os IH]; intros q; [constructor|destruct q as [|x q]|]; cbn [pool_spec].
  - specialize (IH []). destruct (pool_spec cap size [] os). constructor; [by left|]. exact IH.
  - specialize (IH q). destruct (pool_spec cap size q os). constructor.
    + right. exists x. split; [left|done].
    + eapply Hw, IH. intros b Hb. by right.
  - eapply Hw, IH. intros y. cbn [omap list_omap put_of].
    destruct (length q <? cap)%nat; rewrite !elem_of_app, ?elem_of_cons, ?elem_of_nil; tauto.
Qed.
End bufs.

(** C28: a pool is a bounded first-in first-out queue shared by all its clones. A new pool of positive
    capacity is empty; whatever gets and puts are then made through clones of the handle, in any order,
    the buffers handed out are those of a list of at most [capacity] buffers: a get returns the oldest
    buffer put back, cleared, or a fresh one of [buf_size] zeroes when there is none, a put appends the
    buffer, or drops it when the list is full. Afterwards the pool holds exactly the buffers of that
    list, oldest first; nothing panics. Recycled buffers are empty and keep their capacity. A pool of capacity 0 cannot be made: the constructor panics. *)
Theorem pool_refines_queue {B : BytesMut} {Q : ArrayQueue bytes_mut} {BL : BytesMutLaws}
    {QL : ArrayQueueLaws} hp cap size (os : list pool_op) :
  pool_new hp 0 size = Panic ∧
  ((0 < cap)%nat → ∃ p hp0, pool_new hp cap size = Ret (p, hp0) ∧
     let '(handed_out, kept) := pool_spec cap size [] os in
     ∃ hp' q, pool_run hp0 ((λ o, (pool_clone p, o)) <$> os) = Ret (handed_out, hp') ∧
       deref hp' p = Ret q ∧ aq_elems q = kept ∧
       pool_available hp' p = Ret (length kept) ∧ pool_capacity hp' (pool_clone p) = Ret cap ∧
       Forall (λ b, bm_bytes b = replicate size 0 ∨
                    ∃ b0, OpPut b0 ∈ os ∧ b = bm_clear b0 ∧ bm_bytes b = [] ∧ bm_capacity b = bm_capacity b0)
         handed_out).
Proof.
  split; [unfold pool_new; by rewrite new_zero|].
  intros Hcap. destruct (new_ok cap Hcap) as (q & Hq & He & Hc).
  unfold pool_new. rewrite Hq; simpl. eexists _, _. split; [done|].
  set (p := MkPool _ _). set (hp0 := <[_ := q]> hp).
  assert (Hat : pool_at hp0 p cap []).
  { exists q. unfold hp0. by rewrite lookup_insert_eq. }
  destruct (pool_run_spec p cap ((λ o, (pool_clone p, o)) <$> os) hp0 [] Hat) as (hp' & es & Hr & Hes & Hat').
  { apply Forall_fmap, Forall_true. by intros o. }
  assert (Eos : snd <$> ((λ o, (pool_clone p, o)) <$> os) = os)
    by (rewrite <- list_fmap_compose; apply list_fmap_id).
  rewrite Eos in *. change (buf_size p) with size in *.
  destruct (pool_spec cap size [] os) as [bs kept] eqn:Hsp; simpl in *. subst es.
  destruct Hat' as (q' & Hq' & He' & Hc'). exists hp', q'. split; [exact Hr|].
  unfold pool_available, pool_capacity, deref. change (pool (pool_clone p)) with (pool p).
  rewrite Hq'. cbn [obind]. rewrite len_elems, He', Hc'. split_and!; try done.
  pose proof (pool_spec_buffers cap size os []) as Hbs. rewrite Hsp in Hbs. eapply Forall_impl, Hbs.
  intros b [->|(b0 & [Hb0|Hb0]%elem_of_app & ->)]; [left; apply zeroed_bytes|by apply elem_of_nil in Hb0|right].
  exists b0. rewrite clear_bytes, clear_capacity. split; [|done].
  apply list_elem_of_omap in Hb0 as ([|b1] & Ho & [= ->]). done.
Qed.

(** Buffers as byte lists and a queue as a list, each with its capacity. *)
#[export] Instance list_bytes : BytesMut := {|
  bytes_mut := { b : list Z * nat | (length b.1 <=? b.2)%nat = true };
  bm_bytes b := (`b).1;
  bm_clear b := exist _ ([], (`b).2) eq_refl;
  bm_zeroed n := exist _ (replicate n 0, length (replicate n 0)) (Nat.leb_refl _);
  bm_extend b bs := let l := (`b).1 ++ bs in
    exist _ (l, Nat.max (length l) (`b).2) (proj2 (Nat.leb_le _ _) (Nat.le_max_l _ _));
  bm_capacity b := (`b).2 |}.
#[export] Instance list_bytes_laws : BytesMutLaws.
Proof. split; try done. intros [b Hb]. by apply Nat.leb_le. Qed.

(** The buffer that holds [bs]. *)
Definition buffer_of (bs : list Z) : @bytes_mut list_bytes := bm_extend (bm_zeroed 0) bs.
#[export] Instance list_queue {T} : ArrayQueue T := {|
  array_queue := list T * nat;
  aq_new n := if (n =? 0)%nat then Panic else Ret ([], n);
  aq_push q x := if (length q.1 <? q.2)%nat then (Ok tt, (q.1 ++ [x], q.2)) else (Err x, q);
  aq_pop q := match q.1 with [] => (None, q) | x :: xs => (Some x, (xs, q.2)) end;
  aq_len q := length q.1; aq_capacity q := q.2; aq_elems q := q.1 |}.
#[export] Instance list_queue_laws {T} : @ArrayQueueLaws T list_queue.
Proof.
  split; simpl; try done.
  - intros [|n] Hn; [lia|]. by eexists.
  - intros [es n] x Hlt; simpl in *. rewrite (proj2 (Nat.ltb_lt _ _) Hlt). by eexists.
  - intros [es n] x Hle; simpl in *. by rewrite (proj2 (Nat.ltb_ge _ _) Hle).
  - intros [es n] x xs ->. by eexists.
  - by intros [[] n].
Qed.

(** Three puts into a pool of two buffers of three bytes, a get, a put and a get: the capacities (here the
    lengths of the buffers when they were put back) tell which buffer comes out. *)
Definition sample_ops : list (@pool_op list_bytes) :=
  [OpPut (buffer_of [1; 1]); OpPut (buffer_of [2]); OpPut (buffer_of [3; 3; 3]); OpGet;
   OpPut (buffer_of [4; 4; 4; 4]); OpGet].

Lemma pool_refines_queue_witness :
  ∃ p hp0 hp' q bs, pool_new ∅ 2 3 = Ret (p, hp0) ∧
    pool_run hp0 ((λ o, (pool_clone p, o)) <$> sample_ops) = Ret (bs, hp') ∧
    bm_capacity <$> bs = [2; 1]%nat ∧ deref hp' p = Ret q ∧ aq_elems q = [buffer_of [4; 4; 4; 4]].
Proof.
  destruct (proj2 (pool_refines_queue ∅ 2 3 sample_ops) ltac:(lia))
    as (p & hp0 & Hnew & hp' & q & Hrun & Hq & Hel & _).
  exists p, hp0, hp', q, [bm_clear (buffer_of [1; 1]); bm_clear (buffer_of [2])].
  split_and!; [exact Hnew|exact Hrun|reflexivity|exact Hq|exact Hel].
Defined.
