(* ===== verification/Socket.v ===== *)
(** * The socket (src/socket.rs: Config, PlatformCaps, BingerUdp)

    [BingerUdp] on top of the [Backend] interface: the batch operations with their metrics and
    adaptive batch size, the retry loops of the asynchronous operations, and the socket options. *)
From stdpp Require Import strings.
From S2P Require Import Prelude Libc UnixAbi Sockaddr Batch Backend Fallback LinuxSend LinuxRecv.
From S2P Require Import Adaptive Metrics.
#[local] Open Scope Z_scope.

(** ** Config *)
Record Config := MkConfig
  { batch_size : Z; send_buf_size : option Z; recv_os_buf_size : option Z;
    adaptive_batching : bool; metrics_enabled : bool }.

Definition config_default : Config := MkConfig 32 None None false false.
Definition with_batch_size (c : Config) (n : Z) : Config :=
  MkConfig n (send_buf_size c) (recv_os_buf_size c) (adaptive_batching c) (metrics_enabled c).
Definition with_send_buf_size (c : Config) (n : Z) : Config :=
  MkConfig (batch_size c) (Some n) (recv_os_buf_size c) (adaptive_batching c) (metrics_enabled c).
Definition with_recv_os_buf_size (c : Config) (n : Z) : Config :=
  MkConfig (batch_size c) (send_buf_size c) (Some n) (adaptive_batching c) (metrics_enabled c).
Definition with_adaptive_batching (c : Config) (on : bool) : Config :=
  MkConfig (batch_size c) (send_buf_size c) (recv_os_buf_size c) on (metrics_enabled c).
Definition with_metrics (c : Config) (on : bool) : Config :=
  MkConfig (batch_size c) (send_buf_size c) (recv_os_buf_size c) (adaptive_batching c) on.

(** ** PlatformCaps

    The fields that exist only on some targets are options. *)
Record PlatformCaps := MkCaps
  { supports_sendmmsg : bool; supports_recvmmsg : bool;
    supports_sendmsg_x : option bool; supports_recvmsg_x : option bool;
    supports_wsa_send_msg : option bool; supports_wsa_recv_msg : option bool;
    supports_gso : bool; supports_gro : bool; supports_busy_poll : bool; supports_pacing : bool;
    supports_timestamping : option bool; supports_pktinfo : option bool;
    max_batch_size : Z; backend_name : string }.

Definition backends (os : target_os) : string :=
  match os with
  | os_linux => "sendmmsg/recvmmsg (Linux)"
  | os_macos => "sendmsg_x/recvmsg_x (macOS)"
  | os_windows => "WSASendMsg/WSARecvMsg (Windows)"
  | os_other => "fallback (loop sendto/recvfrom)"
  end.

Definition is_linux (os : target_os) : bool := match os with os_linux => true | _ => false end.
Definition is_macos (os : target_os) : bool := match os with os_macos => true | _ => false end.
Definition is_windows (os : target_os) : bool := match os with os_windows => true | _ => false end.

Definition platform_capabilities (os : target_os) (F : features) : PlatformCaps :=
  let linux := is_linux os in
  {| supports_sendmmsg := linux;
     supports_recvmmsg := linux;
     supports_sendmsg_x := if is_macos os then Some true else None;
     supports_recvmsg_x := if is_macos os then Some true else None;
     supports_wsa_send_msg := if is_windows os then Some true else None;
     supports_wsa_recv_msg := if is_windows os then Some true else None;
     supports_gso := linux && f_gso F;
     supports_gro := linux && f_gro F;
     supports_busy_poll := linux && f_busy_poll F;
     supports_pacing := linux && f_pacing F;
     supports_timestamping := if f_timestamping F then Some (linux && f_timestamping F) else None;
     supports_pktinfo := if f_pktinfo F then Some (linux && f_pktinfo F) else None;
     max_batch_size := if linux then 1024 else 32;
     backend_name := backends os |}.

(** The constants [SO_BUSY_POLL] and [SO_MAX_PACING_RATE] of src/sys/unix.rs. *)
Definition SO_BUSY_POLL : Z := 75.
Definition SO_MAX_PACING_RATE : Z := 79.

(** [close_fd] of src/sys/unix.rs. *)
Definition close_fd {L : Libc} (fd : Fd) : IO unit := sys_close fd.

(** A [std::sync::Mutex]: its value, and whether a thread panicked while holding it. *)
Record mutex (A : Type) := MkMutex { mx_val : A; mx_poisoned : bool }.
Arguments MkMutex {A} _ _.
Arguments mx_val {A} _.
Arguments mx_poisoned {A} _.

Definition b2z (b : bool) : Z := if b then 1 else 0.

(** ** BingerUdp *)
Module BingerUdp.
Record t := Mk
  { fd : Fd; metrics : option BingerMetrics;
    adaptive_send : option (mutex AdaptiveState); adaptive_recv : option (mutex AdaptiveState) }.

Definition set_metrics (s : t) (m : option BingerMetrics) : t :=
  Mk (fd s) m (adaptive_send s) (adaptive_recv s).
Definition set_adaptive_send (s : t) (a : option (mutex AdaptiveState)) : t :=
  Mk (fd s) (metrics s) a (adaptive_recv s).
Definition set_adaptive_recv (s : t) (a : option (mutex AdaptiveState)) : t :=
  Mk (fd s) (metrics s) (adaptive_send s) a.

Section socket.
Context {L : Libc} {K : Kernel} {B : Backend} {P : Profile} (F : features).

(** The early return of [from_std]: the standard socket is dropped, which closes it. *)
Definition fail_closed {A} (d : Fd) (e : io_error) : IO (io_result A) :=
  let! _ := sys_close d in mret (Err e).

Definition new_adaptive (c : Config) : IO (option (mutex AdaptiveState)) :=
  if adaptive_batching c then
    let! s := adaptive_new (batch_size c) in mret (Some (MkMutex s false))
  else mret None.

(** One of the two optional buffer-size options. *)
Definition set_buf_size (d : Fd) (opt : Z) (size : option Z) : IO (io_result unit) :=
  match size with
  | Some n => raw_setsockopt d SOL_SOCKET opt (as_i32 n)
  | None => mret (Ok tt)
  end.

Definition from_std (d : Fd) (c : Config) : IO (io_result t) :=
  let! r := sys_nonblocking d in
  match r with
  | Err e => fail_closed d e
  | Ok _ =>
      let! r := set_buf_size d SO_SNDBUF (send_buf_size c) in
      match r with
      | Err e => fail_closed d e
      | Ok _ =>
          let! r := set_buf_size d SO_RCVBUF (recv_os_buf_size c) in
          match r with
          | Err e => fail_closed d e
          | Ok _ =>
              let! r := if f_tokio F then sys_register d else mret (Ok tt) in
              match r with
              | Err e => fail_closed d e
              | Ok _ =>
                  let m := if f_metrics F && metrics_enabled c then Some metrics_default else None in
                  let! a_send := new_adaptive c in
                  let! a_recv := new_adaptive c in
                  mret (Ok (Mk d m a_send a_recv))
              end
          end
      end
  end.

(** [if let Some(ref state) = ... { if let Ok(mut s) = state.lock() { ... } }] *)
Definition with_lock (o : option (mutex AdaptiveState)) (f : AdaptiveState → IO AdaptiveState)
    : IO (option (mutex AdaptiveState)) :=
  match o with
  | Some mx =>
      if mx_poisoned mx then mret o
      else let! s := f (mx_val mx) in mret (Some (MkMutex s false))
  | None => mret None
  end.

(** [record_would_block] and [maybe_adjust] under one lock. *)
Definition note_would_block (s : AdaptiveState) : IO AdaptiveState :=
  let! s := lift (record_would_block s) in maybe_adjust s.

Definition count_send_error (e : io_error) : BingerMetrics → BingerMetrics :=
  exec (send_err_prog (is_would_block e) tt).
Definition count_send (sent : nat) : BingerMetrics → BingerMetrics :=
  exec (send_ok_prog (Z.of_nat sent) tt).
Definition count_recv_error (e : io_error) : BingerMetrics → BingerMetrics :=
  exec (recv_err_prog (is_would_block e) tt).
Definition count_recv (received : nat) : BingerMetrics → BingerMetrics :=
  exec (recv_ok_prog (Z.of_nat received) tt).

Definition try_send_batch (s : t) (b : SendBatchRaw.t) : IO (io_result nat * t) :=
  let! r := Backend.try_send_batch (fd s) b in
  match r with
  | Err e => mret (Err e, set_metrics s (count_send_error e <$> metrics s))
  | Ok sent =>
      let! a := with_lock (adaptive_send s) (λ st, lift (record_event st)) in
      let s := set_adaptive_send s a in
      mret (Ok sent, set_metrics s (count_send sent <$> metrics s))
  end.

Definition try_recv_batch (s : t) (b : RecvBatchRaw.t) : IO (io_result nat * t * RecvBatchRaw.t) :=
  let! '(r, b) := Backend.try_recv_batch (fd s) b in
  match r with
  | Err e => mret (Err e, set_metrics s (count_recv_error e <$> metrics s), b)
  | Ok received =>
      let! a := with_lock (adaptive_recv s) (λ st, lift (record_event st)) in
      let s := set_adaptive_recv s a in
      mret (Ok received, set_metrics s (count_recv received <$> metrics s), b)
  end.

Definition wait_writable (s : t) : IO (io_result unit) :=
  if f_tokio F then sys_writable (fd s) else mret (Err (CustomError "tokio feature disabled")).
Definition wait_readable (s : t) : IO (io_result unit) :=
  if f_tokio F then sys_readable (fd s) else mret (Err (CustomError "tokio feature disabled")).

(** The loops of the asynchronous operations; [fuel] bounds the attempts. *)
Fixpoint send_batch (fuel : nat) (s : t) (b : SendBatchRaw.t) : IO (io_result nat * t) :=
  match fuel with
  | O => λ _, NoFuel
  | S fuel =>
      let! '(r, s) := try_send_batch s b in
      match r with
      | Ok n => mret (Ok n, s)
      | Err e =>
          if is_would_block e then
            let! a := with_lock (adaptive_send s) note_would_block in
            let s := set_adaptive_send s a in
            let! w := wait_writable s in
            match w with
            | Ok _ => send_batch fuel s b
            | Err e => mret (Err e, s)
            end
          else mret (Err e, s)
      end
  end.

Fixpoint recv_batch (fuel : nat) (s : t) (b : RecvBatchRaw.t)
    : IO (io_result nat * t * RecvBatchRaw.t) :=
  match fuel with
  | O => λ _, NoFuel
  | S fuel =>
      let! '(r, s, b) := try_recv_batch s b in
      let block := match r with Ok n => (n =? 0)%nat | Err e => is_would_block e end in
      if block then
        let! a := with_lock (adaptive_recv s) note_would_block in
        let s := set_adaptive_recv s a in
        let! w := wait_readable s in
        match w with
        | Ok _ => recv_batch fuel s b
        | Err e => mret (Err e, s, b)
        end
      else mret (r, s, b)
  end.

(** A batch of one datagram; [push] cannot fail on it, or the [expect] panics. *)
Definition single `{Alloc} (data : slice) (a : SocketAddr) : outcome SendBatchRaw.t :=
  match SendBatchRaw.push (SendBatchRaw.with_capacity 1) data (Some a) with
  | (Ok _, b) => Ret b
  | (Err _, _) => Panic
  end.

Definition send_to `{Alloc} (fuel : nat) (s : t) (data : slice) (a : SocketAddr)
    : IO (io_result nat * t) :=
  let! b := lift (single data a) in
  let! '(r, s) := send_batch fuel s b in
  mret (match r with Ok _ => Ok (s_len data) | Err e => Err e end, s).

Definition try_send_to `{Alloc} (s : t) (data : slice) (a : SocketAddr) : IO (io_result nat * t) :=
  let! b := lift (single data a) in
  let! '(r, s) := try_send_batch s b in
  mret (match r with Ok _ => Ok (s_len data) | Err e => Err e end, s).

(** Also returns the caller's buffer as the call leaves it. *)
Definition recv_from (fuel : nat) (s : t) (buf : list Z)
    : IO (io_result (nat * SocketAddr) * t * list Z) :=
  let! '(r, s, b) := recv_batch fuel s (RecvBatchRaw.with_capacity 1 (length buf)) in
  match r with
  | Err e => mret (Err e, s, buf)
  | Ok _ =>
      let! data := lift (RecvBatchRaw.data b 0) in
      let! a := lift (RecvBatchRaw.addr b 0) in
      let len := Nat.min (length data) (length buf) in
      mret (Ok (len, a), s, blit (take len data) buf)
  end.

(** ** Options *)
Definition connect (s : t) (a : SocketAddr) : IO (io_result unit) := raw_connect (fd s) a.
Definition local_addr (s : t) : IO (io_result SocketAddr) := raw_getsockname (fd s).
Definition ttl (s : t) : IO (io_result Z) :=
  let! r := raw_getsockopt (fd s) IPPROTO_IP IP_TTL in
  mret (match r with Ok v => Ok (as_u32 v) | Err e => Err e end).
Definition set_ttl (s : t) (v : Z) : IO (io_result unit) :=
  raw_setsockopt (fd s) IPPROTO_IP IP_TTL (as_i32 v).
Definition as_raw_fd (s : t) : Fd := fd s.
Definition set_gso (s : t) (on : bool) : IO (io_result unit) :=
  raw_setsockopt (fd s) IPPROTO_UDP UDP_SEGMENT (b2z on).
Definition set_gro (s : t) (on : bool) : IO (io_result unit) :=
  raw_setsockopt (fd s) IPPROTO_UDP UDP_GRO (b2z on).
Definition set_pacing_rate (s : t) (rate : Z) : IO (io_result unit) :=
  raw_setsockopt_u32 (fd s) SOL_SOCKET SO_MAX_PACING_RATE rate.
Definition set_busy_poll (s : t) (usecs : Z) : IO (io_result unit) :=
  raw_setsockopt (fd s) SOL_SOCKET SO_BUSY_POLL (as_i32 usecs).
Definition enable_timestamping (s : t) (on : bool) : IO (io_result unit) :=
  raw_setsockopt (fd s) SOL_SOCKET SO_TIMESTAMPNS (b2z on).
Definition enable_pktinfo (s : t) (on : bool) : IO (io_result unit) :=
  let! r := raw_setsockopt (fd s) IPPROTO_IP IP_PKTINFO (b2z on) in
  match r with
  | Err e => mret (Err e)
  | Ok _ => raw_setsockopt (fd s) IPPROTO_IPV6 IPV6_RECVPKTINFO (b2z on)
  end.

Definition try_send_gso (s : t) (data : slice) (segment_size : Z) : IO (io_result Z) :=
  LinuxSend.try_send_gso (fd s) data segment_size.
Fixpoint send_gso (fuel : nat) (s : t) (data : slice) (segment_size : Z) : IO (io_result Z) :=
  match fuel with
  | O => λ _, NoFuel
  | S fuel =>
      let! r := try_send_gso s data segment_size in
      match r with
      | Ok n => mret (Ok n)
      | Err e =>
          if is_would_block e then
            let! w := wait_writable s in
            match w with
            | Ok _ => send_gso fuel s data segment_size
            | Err e => mret (Err e)
            end
          else mret (Err e)
      end
  end.

Definition recommended_batch_size (s : t) : Z :=
  match adaptive_send s with
  | Some mx => if mx_poisoned mx then 32 else recommended_size (mx_val mx)
  | None => 32
  end.

(** [capabilities()], on target [os]. *)
Definition capabilities (os : target_os) (_ : t) : PlatformCaps := platform_capabilities os F.

Definition readable (s : t) : IO (io_result unit) := sys_readable (fd s).
Definition writable (s : t) : IO (io_result unit) := sys_writable (fd s).

(** [Drop] without the tokio feature. *)
Definition drop (s : t) : IO unit := close_fd (fd s).
End socket.
End BingerUdp.

(** ** Correctness of the batch operations, for any lawful backend *)
Section socket_spec.
Context {L : Libc} {K : Kernel} {B : Backend} {BL : BackendLaws} {P : Profile} (F : features).
Implicit Types (s : BingerUdp.t).

Definition lock_ok (n : Z) (o : option (mutex AdaptiveState)) : Prop :=
  match o with Some mx => mx_poisoned mx = false → adaptive_inv n (mx_val mx) | None => True end.
(** At most [n] operations have been counted by either adaptive state. *)
Definition sock_ok (n : Z) s : Prop :=
  lock_ok n (BingerUdp.adaptive_send s) ∧ lock_ok n (BingerUdp.adaptive_recv s).

Lemma lock_ok_mono n n' o : n ≤ n' → lock_ok n o → lock_ok n' o.
Proof.
  intros Hn. unfold lock_ok, adaptive_inv. destruct o as [mx|]; [|done].
  intros H Hp. specialize (H Hp). lia.
Qed.

(** Only the clock is read. *)
Definition quiet (h h' : history) : Prop := ∃ ts, h' = h ++ (EvNow <$> ts).

Lemma quiet_refl h : quiet h h.
Proof. exists []. by rewrite app_nil_r. Qed.
Lemma quiet_trans h1 h2 h3 : quiet h1 h2 → quiet h2 h3 → quiet h1 h3.
Proof. intros [t1 ->] [t2 ->]. exists (t1 ++ t2). by rewrite fmap_app, (assoc_L (++)). Qed.
Lemma quiet_accepted ts : accepted_all (EvNow <$> ts) = [].
Proof. induction ts; [done|]. by rewrite fmap_cons, accepted_all_cons. Qed.

Lemma with_lock_spec n n' o f h : lock_ok n o → n ≤ n' →
  (∀ st h, adaptive_inv n st → wp (f st) (λ st' h', adaptive_inv n' st' ∧ quiet h h') h) →
  wp (BingerUdp.with_lock o f) (λ o' h', lock_ok n' o' ∧ quiet h h') h.
Proof.
  intros Ho Hn Hf. destruct o as [mx|]; simpl; [|by apply wp_ret; split; [|apply quiet_refl]].
  destruct (mx_poisoned mx) eqn:Ep.
  - apply wp_ret. split; [by eapply (lock_ok_mono n)|apply quiet_refl].
  - apply wp_bind. eapply wp_mono; [apply Hf, Ho, Ep|]. intros st h' [Hinv Hq]. apply wp_ret. by split; [intros _|].
Qed.

Lemma record_event_quiet n st h : adaptive_inv n st → n < 2 ^ 64 - 1 →
  wp (lift (record_event st)) (λ st' h', adaptive_inv (n + 1) st' ∧ quiet h h') h.
Proof. intros Hi Hn. exact (adaptive_step_inv n RecordEvent st h Hi Hn). Qed.

Lemma note_would_block_quiet n st h : adaptive_inv n st → n + 1 < 2 ^ 64 - 1 →
  wp (BingerUdp.note_would_block st) (λ st' h', adaptive_inv (n + 2) st' ∧ quiet h h') h.
Proof.
  intros Hinv Hn. apply wp_bind.
  eapply wp_mono; [apply (adaptive_step_inv n RecordWouldBlock); [done|lia]|].
  intros st1 h1 [Hinv1 Hq1]. simpl.
  eapply wp_mono; [apply (adaptive_step_inv (n + 1) MaybeAdjust); [done|lia]|].
  intros st2 h2 [Hinv2 Hq2]. split; [by replace (n + 2) with (n + 1 + 1) by lia|].
  by eapply quiet_trans.
Qed.

(** The invariant of a socket on descriptor [d]. *)
Definition sock_inv (d : Fd) (n : Z) s : Prop := BingerUdp.fd s = d ∧ sock_ok n s.

Lemma try_send_batch_spec cap d n s b bss h :
  send_wf cap b → payloads h b bss → send_supported b → sock_inv d n s → n < 2 ^ 64 - 1 →
  wp (BingerUdp.try_send_batch s b)
    (λ rs h', sock_inv d (n + 1) rs.2 ∧ send_post b bss h rs.1 h' ∧
       ∃ h1, Backend.try_send_batch d b h = Ret (rs.1, h1) ∧ quiet h1 h') h.
Proof.
  intros Hwf Hp Hsup [<- [Hs Hr]] Hn. unfold BingerUdp.try_send_batch.
  destruct (wp_elim _ _ _ (send_prefix cap b bss (BingerUdp.fd s) h Hwf Hp Hsup))
    as (r & h1 & E & evs & strip & -> & Hpost).
  apply wp_bind. eapply wp_intro; [exact E|]. destruct r as [sent|e].
  - apply wp_bind. eapply wp_mono; [apply (with_lock_spec n (n + 1)); [done|lia|]|].
    { intros. by apply record_event_quiet. }
    intros o h2 [Ho Hq]. apply wp_ret. split; [split; [done|split; [done|]]|].
    { simpl. eapply lock_ok_mono; [|done]. lia. }
    split; [|by eexists]. destruct Hq as [ts ->]. eexists _, strip.
    split; [by rewrite <- (assoc_L (++))|]. by rewrite accepted_all_app, quiet_accepted, app_nil_r.
  - apply wp_ret. split; [split; [done|split; (eapply lock_ok_mono; [|done]; lia)]|].
    split; [by eexists _, strip|]. by eexists; split; [|apply quiet_refl].
Qed.

(** After at most [k] attempts that would block, whatever happens in between, sending [b] does
    not block any more. *)
Inductive send_ready (d : Fd) (b : SendBatchRaw.t) : nat → history → Prop :=
| send_ready_now h r h' : Backend.try_send_batch d b h = Ret (r, h') →
    (∀ e, r = Err e → kind e ≠ WouldBlock) → send_ready d b 0 h
| send_ready_later k h e h' : Backend.try_send_batch d b h = Ret (Err e, h') →
    (∀ evs, send_ready d b k (h' ++ evs)) → send_ready d b (S k) h.

Lemma wait_writable_spec s h : ∃ r evs, BingerUdp.wait_writable F s h = Ret (r, h ++ evs) ∧
  accepted_all evs = [] ∧
  (∀ e, r = Err e → kind e ≠ WouldBlock ∨ ∃ h, k_writable h (BingerUdp.fd s) = Err e).
Proof.
  unfold BingerUdp.wait_writable. destruct (f_tokio F).
  - eexists _, _. split; [done|]. split; [done|]. intros e He. right. eauto.
  - eexists _, []. rewrite app_nil_r. split; [done|]. split; [done|]. intros e [= <-]. by left.
Qed.

Definition send_done d (b : SendBatchRaw.t) bss (h : history) (r : io_result nat) (h' : history) : Prop :=
  ∃ evs strip, h' = h ++ evs ∧
    match r with
    | Ok m => (m ≤ SendBatchRaw.len b)%nat ∧ accepted_all evs = take m (wires strip b bss)
    | Err e => (∃ j, (j < SendBatchRaw.len b)%nat ∧ accepted_all evs = take j (wires strip b bss)) ∧
               (kind e ≠ WouldBlock ∨ ∃ h, k_writable h d = Err e)
    end.

Lemma send_done_after d b bss h evs r h' :
  accepted_all evs = [] → send_done d b bss (h ++ evs) r h' → send_done d b bss h r h'.
Proof.
  intros Ha (evs' & strip & -> & Hr). exists (evs ++ evs'), strip.
  rewrite <- (assoc_L (++)), accepted_all_app, Ha. done.
Qed.

(** One round of waiting: the adaptive state is updated, the socket waits, nothing is sent. *)
Lemma send_wait_round {A} d n s h (k : BingerUdp.t → io_result unit → IO A) Q :
  sock_inv d (n + 1) s → n + 3 < 2 ^ 64 →
  (∀ s2 w evs, sock_inv d (n + 3) s2 → accepted_all evs = [] →
     (∀ e, w = Err e → kind e ≠ WouldBlock ∨ ∃ h, k_writable h d = Err e) →
     wp (k s2 w) Q (h ++ evs)) →
  wp (let! a := BingerUdp.with_lock (BingerUdp.adaptive_send s) BingerUdp.note_would_block in
      let s := BingerUdp.set_adaptive_send s a in
      let! w := BingerUdp.wait_writable F s in k s w) Q h.
Proof.
  intros [Hfd [Hls Hlr]] Hn Hk. apply wp_bind.
  eapply wp_mono; [apply (with_lock_spec (n + 1) (n + 3)); [done|lia|]|].
  { intros st hh Hst. eapply wp_mono; [apply (note_would_block_quiet (n + 1)); [done|lia]|].
    intros st' hh' [? ?]. split; [by replace (n + 3) with (n + 1 + 2) by lia|done]. }
  intros o h1 [Ho [ts ->]]. set (s2 := BingerUdp.set_adaptive_send s o).
  destruct (wait_writable_spec s2 (h ++ (EvNow <$> ts))) as (w & evs & Hw & Ha & Hwe).
  apply wp_bind. eapply wp_intro; [exact Hw|]. rewrite <- (assoc_L (++)). apply Hk.
  - split; [done|]. split; [done|]. simpl. eapply lock_ok_mono; [|done]. lia.
  - by rewrite accepted_all_app, quiet_accepted.
  - intros e He. destruct (Hwe e He) as [?|[hh Hh]]; [by left|right]. exists hh. by rewrite <- Hfd.
Qed.

Lemma send_batch_spec cap d b bss k h :
  send_ready d b k h → send_wf cap b → payloads h b bss → send_supported b →
  (SendBatchRaw.len b ≠ 0)%nat →
  ∀ fuel n s, (k < fuel)%nat → sock_inv d n s → n + 3 * Z.of_nat fuel < 2 ^ 64 →
  wp (BingerUdp.send_batch F fuel s b)
    (λ rs h', (∃ n', sock_inv d n' rs.2) ∧ send_done d b bss h rs.1 h') h.
Proof.
  intros Hready Hwf. induction Hready as [h r h1 Eb Hnb|k h e h1 Eb Hlater IH];
    intros Hp Hsup Hne [|fuel] n s Hk Hs Hn; try lia; cbn [BingerUdp.send_batch];
    apply wp_bind; (eapply wp_mono; [by apply (try_send_batch_spec cap d n s b bss h); [..|lia]|]);
    intros [r' s'] h' (Hs' & Hpost & h2 & Eb' & Hq); simpl in *; rewrite Eb in Eb'; simplify_eq.
  - destruct r' as [m|e].
    + apply wp_ret. split; [eauto|]. destruct Hpost as (evs & strip & -> & Hm). by exists evs, strip.
    + unfold is_would_block. rewrite bool_decide_eq_false_2 by (by apply Hnb).
      apply wp_ret. split; [eauto|]. destruct Hpost as (evs & strip & -> & j & Hj & Ha & _).
      exists evs, strip. split; [done|]. split; [eauto|]. left. by apply Hnb.
  - destruct Hpost as (evs & strip & -> & j & Hj & Ha & Hwb). unfold is_would_block. case_bool_decide.
    2:{ apply wp_ret. split; [eauto|]. exists evs, strip. split; [done|]. split; [eauto|by left]. }
    rewrite (Hwb ltac:(done)), take_0 in Ha. destruct Hq as [ts Hts].
    apply (send_wait_round d n s' (h ++ evs) (λ s w, match w with
      | Ok _ => BingerUdp.send_batch F fuel s b | Err e => mret (Err e, s) end)); [done|lia|]. intros s2 w evs2 Hs2 Ha2 Hwe.
    assert (Hacc : accepted_all (evs ++ evs2) = []) by (by rewrite accepted_all_app, Ha, Ha2).
    destruct w as [[]|e'].
    + assert (Eh : (h ++ evs) ++ evs2 = h2 ++ (EvNow <$> ts) ++ evs2)
        by (by rewrite Hts, <- (assoc_L (++))).
      rewrite Eh. eapply wp_mono; [eapply (IH ((EvNow <$> ts) ++ evs2)) with (n := n + 3); try done|].
      * rewrite <- Eh, <- (assoc_L (++)). by apply payloads_app.
      * lia.
      * lia.
      * intros [r'' s''] h'' [Hi Hd]. split; [done|]. rewrite <- Eh, <- (assoc_L (++)) in Hd.
        by eapply send_done_after.
    + apply wp_ret. split; [eauto|]. exists (evs ++ evs2), strip.
      split; [by rewrite (assoc_L (++))|]. split; [|by apply Hwe].
      exists 0%nat. split; [lia|]. by rewrite Hacc, take_0.
Qed.

Lemma recommended_range n s : lock_ok n (BingerUdp.adaptive_send s) →
  1 ≤ BingerUdp.recommended_batch_size s ≤ 1024.
Proof.
  unfold BingerUdp.recommended_batch_size, lock_ok. destruct (BingerUdp.adaptive_send s) as [mx|]; [|lia].
  destruct (mx_poisoned mx); [lia|]. intros H. specialize (H eq_refl).
  unfold adaptive_inv, MIN_BATCH, MAX_BATCH, recommended_size in *. lia.
Qed.

(** ** Receiving *)
Lemma try_recv_batch_spec bs d n s b h :
  recv_wf bs b → sock_inv d n s → n < 2 ^ 64 - 1 →
  wp (BingerUdp.try_recv_batch s b)
    (λ rsb h', sock_inv d (n + 1) rsb.1.2 ∧ recv_post bs b h (rsb.1.1, rsb.2) h' ∧
       ∃ h1, Backend.try_recv_batch d b h = Ret ((rsb.1.1, rsb.2), h1) ∧ quiet h1 h') h.
Proof.
  intros Hwf [<- [Hs Hr]] Hn. unfold BingerUdp.try_recv_batch.
  destruct (wp_elim _ _ _ (recv_keeps bs b (BingerUdp.fd s) h Hwf)) as ([r b'] & h1 & E & Hpost).
  apply wp_bind. eapply wp_intro; [exact E|]. destruct r as [m|e].
  - apply wp_bind. eapply wp_mono; [apply (with_lock_spec n (n + 1)); [done|lia|]|].
    { intros. by apply record_event_quiet. }
    intros o h2 [Ho Hq]. apply wp_ret. split; [split; [done|split; [|done]]|].
    { simpl. eapply lock_ok_mono; [|done]. lia. }
    split; [|by eexists]. destruct Hpost as ((evs & ->) & Hrest). destruct Hq as [ts ->].
    split; [|done]. rewrite <- (assoc_L (++)). eauto.
  - apply wp_ret. split; [split; [done|split; (eapply lock_ok_mono; [|done]; lia)]|].
    split; [done|]. by eexists; split; [|apply quiet_refl].
Qed.

(** Nothing arrived: [Ok(0)] or a [WouldBlock] error. *)
Definition nothing (r : io_result nat) : bool :=
  match r with Ok n => (n =? 0)%nat | Err e => is_would_block e end.

(** After at most [k] attempts that find nothing, whatever happens in between, something
    arrives or a real error occurs. *)
Inductive recv_ready (d : Fd) : nat → RecvBatchRaw.t → history → Prop :=
| recv_ready_now b h r b' h' : Backend.try_recv_batch d b h = Ret ((r, b'), h') →
    nothing r = false → recv_ready d 0 b h
| recv_ready_later k b h r b' h' : Backend.try_recv_batch d b h = Ret ((r, b'), h') →
    (∀ evs, recv_ready d k b' (h' ++ evs)) → recv_ready d (S k) b h.

Lemma wait_readable_spec s h : ∃ r evs, BingerUdp.wait_readable F s h = Ret (r, h ++ evs) ∧
  (∀ e, r = Err e → kind e ≠ WouldBlock ∨ ∃ h, k_readable h (BingerUdp.fd s) = Err e).
Proof.
  unfold BingerUdp.wait_readable. destruct (f_tokio F).
  - eexists _, _. split; [done|]. intros e He. right. eauto.
  - eexists _, []. rewrite app_nil_r. split; [done|]. intros e [= <-]. by left.
Qed.

Lemma recv_wait_round {A} d n s h (k : BingerUdp.t → io_result unit → IO A) Q :
  sock_inv d (n + 1) s → n + 3 < 2 ^ 64 →
  (∀ s2 w evs, sock_inv d (n + 3) s2 →
     (∀ e, w = Err e → kind e ≠ WouldBlock ∨ ∃ h, k_readable h d = Err e) →
     wp (k s2 w) Q (h ++ evs)) →
  wp (let! a := BingerUdp.with_lock (BingerUdp.adaptive_recv s) BingerUdp.note_would_block in
      let s := BingerUdp.set_adaptive_recv s a in
      let! w := BingerUdp.wait_readable F s in k s w) Q h.
Proof.
  intros [Hfd [Hls Hlr]] Hn Hk. apply wp_bind.
  eapply wp_mono; [apply (with_lock_spec (n + 1) (n + 3)); [done|lia|]|].
  { intros st hh Hst. eapply wp_mono; [apply (note_would_block_quiet (n + 1)); [done|lia]|].
    intros st' hh' [? ?]. split; [by replace (n + 3) with (n + 1 + 2) by lia|done]. }
  intros o h1 [Ho [ts ->]]. set (s2 := BingerUdp.set_adaptive_recv s o).
  destruct (wait_readable_spec s2 (h ++ (EvNow <$> ts))) as (w & evs & Hw & Hwe).
  apply wp_bind. eapply wp_intro; [exact Hw|]. rewrite <- (assoc_L (++)). apply Hk.
  - split; [done|]. split; [|done]. simpl. eapply lock_ok_mono; [|done]. lia.
  - intros e He. destruct (Hwe e He) as [?|[hh Hh]]; [by left|right]. exists hh. by rewrite <- Hfd.
Qed.

Lemma recv_batch_spec bs d k b h : recv_ready d k b h → recv_wf bs b →
  ∀ fuel n s, (k < fuel)%nat → sock_inv d n s → n + 3 * Z.of_nat fuel < 2 ^ 64 →
  wp (BingerUdp.recv_batch F fuel s b)
    (λ rsb h', (∃ n', sock_inv d n' rsb.1.2) ∧ (∃ evs, h' = h ++ evs) ∧ recv_wf bs rsb.2 ∧
       RecvBatchRaw.capacity rsb.2 = RecvBatchRaw.capacity b ∧
       match rsb.1.1 with
       | Ok m => (0 < m ≤ RecvBatchRaw.capacity b)%nat ∧ RecvBatchRaw.len rsb.2 = m
       | Err e => kind e ≠ WouldBlock ∨ ∃ h, k_readable h d = Err e
       end) h.
Proof.
  intros Hready. induction Hready as [b h r b1 h1 Eb Hnb|k b h r b1 h1 Eb Hlater IH];
    intros Hwf [|fuel] n s Hk Hs Hn; try lia; cbn [BingerUdp.recv_batch];
    apply wp_bind; (eapply wp_mono; [by apply (try_recv_batch_spec bs d n s b h); [..|lia]|]);
    intros [[r' s'] b'] h' (Hs' & ((evs & ->) & Hwf' & Hcap & Hr) & h2 & Eb' & Hq); simpl in *;
    rewrite Eb in Eb'; simplify_eq; fold (nothing r').
  - rewrite Hnb. apply wp_ret. split_and!; eauto. simpl. destruct r' as [m|e]; simpl in Hnb; reflect_bools.
    + destruct Hr. split; [lia|]. auto with lia.
    + left. unfold is_would_block in Hnb. by apply bool_decide_eq_false_1 in Hnb.
  - destruct (nothing r') eqn:Hnb.
    2:{ apply wp_ret. split_and!; eauto. simpl. destruct r' as [m|e]; simpl in Hnb; reflect_bools.
        - destruct Hr. split; [lia|]. auto with lia.
        - left. unfold is_would_block in Hnb. by apply bool_decide_eq_false_1 in Hnb. }
    destruct Hq as [ts Hts]. 
    apply (recv_wait_round d n s' (h ++ evs) (λ s w, match w with
      | Ok _ => BingerUdp.recv_batch F fuel s b' | Err e => mret (Err e, s, b') end)); [done|lia|].
    intros s2 w evs2 Hs2 Hwe.
    destruct w as [[]|e'].
    + assert (Eh : (h ++ evs) ++ evs2 = h2 ++ (EvNow <$> ts) ++ evs2)
        by (by rewrite Hts, <- (assoc_L (++))).
      rewrite Eh. eapply wp_mono; [eapply (IH ((EvNow <$> ts) ++ evs2)) with (n := n + 3); done || lia|].
      intros [[r'' s''] b''] h'' (Hi & (evs3 & ->) & Hw3 & Hc3 & Hr3).
      simpl in *. rewrite Hcap in Hc3, Hr3. split_and!; try done.
      rewrite <- Eh, <- !(assoc_L (++)). eauto.
    + apply wp_ret; simpl. split_and!; [by eexists| |done|done|by apply Hwe].
      rewrite <- (assoc_L (++)). eauto.
Qed.
End socket_spec.

(** ** A kernel for the examples: the first system call of a history finds the socket not ready, every
    later one succeeds. *)
Definition late_kernel : @Kernel linux_le :=
  let K := sample_kernel [] in
  let late (h : @history linux_le) (z : Z) : Z := if (length h =? 0)%nat then -1 else z in
  {| k_send h _ d := late h (Z.of_nat (length d));
     k_sendto h _ d _ _ := late h (Z.of_nat (length d));
     k_sendmmsg h _ ms := late h (Z.of_nat (length ms));
     k_sendmsg h _ d _ _ := late h (Z.of_nat (length d));
     k_recvfrom h _ n :=
       if (length h =? 0)%nat then MkRecvOut (-1) [] (localhost_name 0) 0
       else let d := udp_bytes n [7; 8; 9] in
            MkRecvOut (Z.of_nat (length d)) d (localhost_name 9000) 16;
     k_recvmmsg h _ lens := (-1, []);
     k_getpeername h _ := late h (-1);
     k_getsockname := @k_getsockname linux_le K; k_connect := @k_connect linux_le K;
     k_setsockopt := @k_setsockopt linux_le K; k_getsockopt := @k_getsockopt linux_le K;
     k_nonblocking := @k_nonblocking linux_le K; k_register := @k_register linux_le K;
     k_runtime := true;
     k_writable _ _ := Ok tt; k_readable _ _ := Ok tt; k_now h := Z.of_nat (length h);
     k_errno _ := 11; k_mem := @k_mem linux_le K |}.

Lemma late_kernel_laws : @KernelLaws linux_le late_kernel.
Proof.
  split; simpl; intros h fd.
  - intros ms. destruct (length h =? 0)%nat; lia.
  - intros n. destruct (length h =? 0)%nat; simpl; lia.
  - intros n. destruct (length h =? 0)%nat; simpl; [lia|apply udp_bytes_le].
  - intros n. destruct (length h =? 0)%nat; simpl; [lia|apply udp_bytes_udp].
  - intros lens ret outs [= <- <-]. lia.
  - by intros lens ret outs [= <- <-].
  - by intros lens ret outs i m n [= <- <-].
Qed.

(** A socket with adaptive batching and metrics. *)
Definition sample_socket : BingerUdp.t :=
  BingerUdp.Mk 3 (Some metrics_default) (Some (MkMutex (MkAdaptive 32 0 0 0) false)) None.

Lemma sample_socket_inv : sock_inv 3 0 sample_socket.
Proof. split; [done|]. split; [|done]. intros _. unfold adaptive_inv, MIN_BATCH, MAX_BATCH; simpl. lia. Qed.

(** Tokio only. *)
Definition tokio_only : features := MkFeatures true false false false false false false false false.

(** C1: [send_batch] sends each datagram at most once, in order. For a lawful backend and a socket that
    stops blocking after at most [k] attempts, [send_batch] returns (no panic, fuel [k + 1] is enough):
    [Ok m] means that over the whole call, waits and retries included, the kernel accepted exactly the
    first [m] datagrams; an error is never [WouldBlock] unless the readiness wait itself reported it,
    and then a proper prefix was accepted. The recommended batch size stays between 1 and 1024. *)
Theorem send_batch_exactly_once {L : Libc} {K : Kernel} {B : Backend} {BL : BackendLaws} {P : Profile}
    F cap d b bss k h fuel n s :
  send_ready d b k h → send_wf cap b → payloads h b bss → send_supported b →
  SendBatchRaw.len b ≠ 0%nat → (k < fuel)%nat → sock_inv d n s → n + 3 * Z.of_nat fuel < 2 ^ 64 →
  ∃ r s' evs strip, BingerUdp.send_batch F fuel s b h = Ret ((r, s'), h ++ evs) ∧
    BingerUdp.fd s' = d ∧ 1 ≤ BingerUdp.recommended_batch_size s' ≤ 1024 ∧
    match r with
    | Ok m => (m ≤ SendBatchRaw.len b)%nat ∧ accepted_all evs = take m (wires strip b bss)
    | Err e => (∃ j, (j < SendBatchRaw.len b)%nat ∧ accepted_all evs = take j (wires strip b bss)) ∧
               (kind e ≠ WouldBlock ∨ ∃ h, k_writable h d = Err e)
    end.
Proof.
  intros Hr Hwf Hp Hsup Hne Hk Hs Hn.
  destruct (wp_elim _ _ _ (send_batch_spec F cap d b bss k h Hr Hwf Hp Hsup Hne fuel n s Hk Hs Hn))
    as ([r s'] & h' & E & [n' [Hfd [Hls _]]] & evs & strip & -> & Hpost).
  exists r, s', evs, strip. split_and!; try done; apply (recommended_range n' _ Hls).
Qed.

(** [sendmmsg] would block once and then takes both datagrams. *)
Lemma linux_late_laws : @BackendLaws linux_le late_kernel (linux_backend tokio_only 1).
Proof.
  apply (@linux_laws linux_le late_kernel late_kernel_laws); [done|].
  intros h fd lens. eexists 0%nat, _, _. split; [lia|].
  eapply (retries_err (K := late_kernel)); [reflexivity|lia|done].
Qed.

Lemma late_send h : h ≠ [] →
  linux_try_send_batch (K := late_kernel) 3 two_entries h =
    Ret (Ok 2%nat, h ++ [EvSendmmsg 3 (wires false two_entries [[104; 101; 108; 108; 111]; [1; 2]]) 2]).
Proof.
  intros Hh. rewrite (@linux_send_offer_supported linux_le late_kernel 2 3 two_entries
    [[104; 101; 108; 108; 111]; [1; 2]]).
  - unfold sendmmsg_result, mbind, sys_sendmmsg; simpl. by destruct h.
  - apply two_entries_wf.
  - by repeat constructor.
  - done.
  - left. apply Nat.leb_le. reflexivity.
Qed.

Lemma send_batch_exactly_once_witness :
  ∃ r s' evs strip, BingerUdp.send_batch (K := late_kernel) (B := linux_backend (K := late_kernel) tokio_only 1)
        (P := true) tokio_only 2 sample_socket two_entries [] = Ret ((r, s'), [] ++ evs) ∧
    r = Ok 2%nat ∧
    accepted_all evs = take 2 (wires strip two_entries [[104; 101; 108; 108; 111]; [1; 2]]).
Proof.
  destruct (@send_batch_exactly_once linux_le late_kernel (linux_backend (K := late_kernel) tokio_only 1)
    linux_late_laws true tokio_only 2 3 two_entries [[104; 101; 108; 108; 111]; [1; 2]] 1 [] 2 0
    sample_socket) as (r & s' & evs & strip & E & _ & _ & Hr).
  - eapply send_ready_later; [reflexivity|]. intros evs.
    eapply send_ready_now; [apply late_send; by destruct evs|done].
  - apply two_entries_wf.
  - by repeat constructor.
  - left. apply Nat.leb_le. reflexivity.
  - done.
  - lia.
  - apply sample_socket_inv.
  - lia.
  - exists r, s', evs, strip. split; [exact E|].
    assert (Er : r = Ok 2%nat).
    { apply (f_equal ret_val) in E. vm_compute in E. congruence. }
    split; [exact Er|]. rewrite Er in Hr. apply Hr.
Defined.

(** C4: [recv_batch] waits until something arrives. For a lawful backend and a socket on which something
    arrives after at most [k] empty attempts, [recv_batch] returns: never with [Ok(0)] and, unless the
    readiness wait reports it, never with [WouldBlock]; [Ok m] is the new length of the batch, which is
    well-formed and keeps its capacity. *)
Theorem recv_batch_correct {L : Libc} {K : Kernel} {B : Backend} {BL : BackendLaws} {P : Profile}
    F bs d b k h fuel n s :
  recv_ready d k b h → recv_wf bs b → (k < fuel)%nat → sock_inv d n s → n + 3 * Z.of_nat fuel < 2 ^ 64 →
  ∃ r s' b' evs, BingerUdp.recv_batch F fuel s b h = Ret ((r, s', b'), h ++ evs) ∧
    recv_wf bs b' ∧ RecvBatchRaw.capacity b' = RecvBatchRaw.capacity b ∧
    match r with
    | Ok m => (0 < m ≤ RecvBatchRaw.capacity b)%nat ∧ length (packets b') = m
    | Err e => kind e ≠ WouldBlock ∨ ∃ h, k_readable h d = Err e
    end.
Proof.
  intros Hr Hwf Hk Hs Hn.
  destruct (wp_elim _ _ _ (recv_batch_spec F bs d k b h Hr Hwf fuel n s Hk Hs Hn))
    as ([[r s'] b'] & h' & E & _ & (evs & ->) & Hwf' & Hcap & Hpost).
  exists r, s', b', evs. split_and!; try done. simpl in *. destruct r as [m|e]; [|done].
  destruct Hpost as [Hm Hl]. split; [done|]. unfold packets. rewrite length_fmap, length_take, Hl.
  unfold RecvBatchRaw.capacity in *. lia.
Qed.

(** [recvfrom] finds nothing on the first call and a datagram on every later one. *)
Lemma late_recv h : h ≠ [] → ∃ b' h',
  fallback_try_recv_batch (K := late_kernel) 3 (RecvBatchRaw.with_capacity 1 8) h =
    Ret ((Ok 1%nat, b'), h').
Proof. intros Hh. destruct h as [|e h]; [done|]. eexists _, _. reflexivity. Qed.

Lemma recv_batch_correct_witness :
  ∃ r s' b' evs, BingerUdp.recv_batch (K := late_kernel) (B := fallback_backend (K := late_kernel))
        (P := true) tokio_only 2 sample_socket (RecvBatchRaw.with_capacity 1 8) []
      = Ret ((r, s', b'), [] ++ evs) ∧
    r = Ok 1%nat ∧ packets b' = [([7; 8; 9], localhost 9000)].
Proof.
  destruct (@recv_batch_correct linux_le late_kernel (fallback_backend (K := late_kernel))
    (@fallback_laws linux_le late_kernel late_kernel_laws) true tokio_only 8 3
    (RecvBatchRaw.with_capacity 1 8) 1 [] 2 0 sample_socket) as (r & s' & b' & evs & E & _).
  - eapply recv_ready_later; [reflexivity|]. intros evs.
    destruct (late_recv ([EvRecvfrom 3 8 (k_recvfrom (Kernel := late_kernel) [] 3 8)] ++ evs))
      as (b' & h' & Eb); [done|]. by eapply recv_ready_now; [exact Eb|].
  - apply with_capacity_recv_wf.
  - lia.
  - apply sample_socket_inv.
  - lia.
  - exists r, s', b', evs. split; [exact E|]. apply (f_equal ret_val) in E. vm_compute in E.
    injection E as <- _ <-. split; reflexivity.
Defined.

(** The batch [send_to] and [try_send_to] build. *)
Definition single_batch `{Alloc} (data : slice) (a : SocketAddr) : SendBatchRaw.t :=
  SendBatchRaw.Mk (MkVec [MkSendSlot (s_ptr data) (s_len data) (Some a)] (vec_alloc 1)) 1.

Lemma single_batch_ok {L : Libc} {K : Kernel} `{Alloc} data a bs h : stable_from h data bs →
  BingerUdp.single data a = Ret (single_batch data a) ∧
  send_wf (vec_alloc 1) (single_batch data a) ∧ payloads h (single_batch data a) [bs].
Proof.
  intros Hst. pose proof (vec_alloc_ge 1) as Hge. split_and!.
  - unfold BingerUdp.single, SendBatchRaw.push, vec_push; simpl.
    rewrite (proj2 (Nat.leb_gt _ _)), (proj2 (Nat.ltb_lt _ _)) by lia. done.
  - repeat split; simpl; lia.
  - constructor; [|constructor]. by destruct data.
Qed.

(** C35: [send_to] can report success for a datagram that was not sent. Whenever the backend answers
    [Ok(0)], as the portable one does when the socket would block, [send_to] returns the full length of
    the datagram although the kernel accepted nothing. *)
Theorem send_to_unsent {L : Libc} {K : Kernel} {B : Backend} {BL : BackendLaws} {P : Profile}
    `{Alloc} F d data a bs h h1 fuel n s :
  stable_from h data bs → sock_inv d n s → n < 2 ^ 64 - 1 →
  let b := single_batch data a in
  send_supported b → Backend.try_send_batch d b h = Ret (Ok 0%nat, h1) →
  ∃ s' evs, BingerUdp.send_to F (S fuel) s data a h = Ret ((Ok (s_len data), s'), h ++ evs) ∧
    accepted_all evs = [].
Proof.
  intros Hst Hs Hn b Hsup Hb.
  destruct (single_batch_ok data a bs h Hst) as (Hsingle & Hwf & Hp). fold b in Hsingle, Hwf, Hp.
  destruct (wp_elim _ _ _ (try_send_batch_spec _ d n s b [bs] h Hwf Hp Hsup Hs Hn))
    as ([r s'] & h' & E & _ & (evs & strip & -> & Hpost) & h2 & Eb & _). simpl in *.
  rewrite Hb in Eb. simplify_eq. exists s', evs. split; [|by apply Hpost].
  unfold BingerUdp.send_to. rewrite Hsingle.
  unfold mbind at 1, lift. erewrite mbind_Ret; [|cbn [BingerUdp.send_batch];
    by rewrite (mbind_Ret _ _ _ _ _ E)]. reflexivity.
Qed.

(** The socket is not connected and the datagram would block. *)
Definition refusing_kernel : @Kernel linux_le := sample_kernel [ARet (-1) 107; ARet (-1) 11].

Lemma send_to_unsent_witness :
  ∃ s' evs, BingerUdp.send_to (K := refusing_kernel) (B := fallback_backend (K := refusing_kernel))
        (P := true) tokio_only 1 sample_socket hello (localhost 9000) [] = Ret ((Ok 5%nat, s'), [] ++ evs) ∧
    accepted_all evs = [].
Proof.
  eapply (@send_to_unsent linux_le refusing_kernel (fallback_backend (K := refusing_kernel))
    (@fallback_laws linux_le refusing_kernel (script_kernel_laws _ _)) true exact_alloc tokio_only 3 hello
    (localhost 9000) [104; 101; 108; 108; 111] [] _ 0 0 sample_socket).
  - done.
  - apply sample_socket_inv.
  - lia.
  - done.
  - reflexivity.
Defined.

(** C25: what the send metrics count. On [Ok n] the packet counter grows by the number of datagrams the
    kernel accepted during the call, and the batch and call counters by one. On an error only the error
    counter grows, by one, and the would-block counter when it is a [WouldBlock]: datagrams that the
    kernel accepted before the error are not counted. All counters wrap at 2^64 and no other one
    changes. *)
Theorem send_metrics {L : Libc} {K : Kernel} {B : Backend} {BL : BackendLaws} {P : Profile}
    cap d n s b bss h m :
  send_wf cap b → payloads h b bss → send_supported b → sock_inv d n s → n < 2 ^ 64 - 1 →
  BingerUdp.metrics s = Some m →
  ∃ r s' evs m', BingerUdp.try_send_batch s b h = Ret ((r, s'), h ++ evs) ∧
    BingerUdp.metrics s' = Some m' ∧
    ∀ c, load m' c =
      match r, c with
      | Ok _, packets_sent => as_u64 (load m c + Z.of_nat (length (accepted_all evs)))
      | Ok _, (batches_sent | send_syscalls) => as_u64 (load m c + 1)
      | Err _, send_errors => as_u64 (load m c + 1)
      | Err e, send_would_block => if is_would_block e then as_u64 (load m c + 1) else load m c
      | _, _ => load m c
      end.
Proof.
  intros Hwf Hp Hsup Hs Hn Hm.
  destruct (wp_elim _ _ _ (try_send_batch_spec cap d n s b bss h Hwf Hp Hsup Hs Hn))
    as ([r s'] & h' & E & _ & (evs & strip & -> & Hpost) & h1 & Eb & _); simpl in *.
  pose proof E as E0. unfold BingerUdp.try_send_batch in E. destruct Hs as [Hfd _]. rewrite Hfd in E.
  rewrite (mbind_Ret _ _ _ _ _ Eb) in E. destruct r as [sent|e].
  - apply mbind_inv in E as (o & h2 & _ & E). injection E as E _. destruct Hpost as [Hle Ha].
    exists (Ok sent), s', evs, (BingerUdp.count_send sent m). split; [exact E0|].
    split; [rewrite <- E; simpl; by rewrite Hm|].
    rewrite Ha, length_take, (length_wires cap h), Nat.min_l by done.
    intros c. unfold BingerUdp.count_send, exec; simpl. unfold fetch_add. rewrite !load_store. by destruct c.
  - injection E as E _. exists (Err e), s', evs, (BingerUdp.count_send_error e m). split; [exact E0|].
    split; [rewrite <- E; simpl; by rewrite Hm|].
    intros c. unfold BingerUdp.count_send_error, exec.
    destruct (is_would_block e); simpl; unfold fetch_add; rewrite !load_store; by destruct c.
Qed.

Lemma send_metrics_witness :
  ∃ r s' evs m', BingerUdp.try_send_batch (K := blocking_kernel)
        (B := fallback_backend (K := blocking_kernel)) (P := true) sample_socket two_entries []
      = Ret ((r, s'), [] ++ evs) ∧
    BingerUdp.metrics s' = Some m' ∧ r = Ok 1%nat ∧ load m' packets_sent = 1.
Proof.
  destruct (@send_metrics linux_le blocking_kernel (fallback_backend (K := blocking_kernel))
    (@fallback_laws linux_le blocking_kernel (script_kernel_laws _ _)) true 2 3 0 sample_socket
    two_entries [[104; 101; 108; 108; 111]; [1; 2]] [] metrics_default)
    as (r & s' & evs & m' & E & Hm & Hc).
  - apply two_entries_wf.
  - apply two_entries_payloads.
  - done.
  - apply sample_socket_inv.
  - lia.
  - done.
  - exists r, s', evs, m'. split; [exact E|]. split; [exact Hm|].
    apply (f_equal ret_val) in E. vm_compute in E. injection E as <- <-. split; [done|].
    injection Hm as <-. reflexivity.
Defined.

(** C26: what the receive metrics count. On [Ok k] of a [try_recv_batch] the packet counter grows by [k],
    the number of datagrams that the batch now holds unless it is zero, and the batch and call counters
    grow by one (also for an attempt that found nothing). On an error only the error counter grows, by
    one, and the would-block counter when it is a [WouldBlock]: datagrams that were stored before the
    error are not counted. All counters wrap at 2^64 and no other one changes. *)
Theorem recv_metrics {L : Libc} {K : Kernel} {B : Backend} {BL : BackendLaws} {P : Profile}
    bs d n s b h m :
  recv_wf bs b → sock_inv d n s → n < 2 ^ 64 - 1 → BingerUdp.metrics s = Some m →
  ∃ r s' b' h' m', BingerUdp.try_recv_batch s b h = Ret ((r, s', b'), h') ∧
    BingerUdp.metrics s' = Some m' ∧
    (∀ k, r = Ok k → k = 0%nat ∨ length (packets b') = k) ∧
    ∀ c, load m' c =
      match r, c with
      | Ok k, packets_received => as_u64 (load m c + Z.of_nat k)
      | Ok _, (batches_received | recv_syscalls) => as_u64 (load m c + 1)
      | Err _, recv_errors => as_u64 (load m c + 1)
      | Err e, recv_would_block => if is_would_block e then as_u64 (load m c + 1) else load m c
      | _, _ => load m c
      end.
Proof.
  intros Hwf Hs Hn Hm.
  destruct (wp_elim _ _ _ (try_recv_batch_spec bs d n s b h Hwf Hs Hn))
    as ([[r s'] b'] & h' & E & _ & (_ & Hwf' & _ & Hpost) & h1 & Eb & _); simpl in *.
  assert (Hk : ∀ k, r = Ok k → k = 0%nat ∨ length (packets b') = k).
  { intros k ->. destruct Hpost as [_ Hl]. destruct k; [by left|right].
    rewrite (length_packets bs) by done. apply Hl. lia. }
  pose proof E as E0. unfold BingerUdp.try_recv_batch in E. destruct Hs as [Hfd _]. rewrite Hfd in E.
  rewrite (mbind_Ret _ _ _ _ _ Eb) in E. destruct r as [k|e].
  - apply mbind_inv in E as (o & h2 & _ & E). injection E as E _.
    exists (Ok k), s', b', h', (BingerUdp.count_recv k m). split; [exact E0|].
    split; [rewrite <- E; simpl; by rewrite Hm|]. split; [done|].
    intros c. unfold BingerUdp.count_recv, exec; simpl. unfold fetch_add. rewrite !load_store. by destruct c.
  - injection E as E _. exists (Err e), s', b', h', (BingerUdp.count_recv_error e m). split; [exact E0|].
    split; [rewrite <- E; simpl; by rewrite Hm|]. split; [done|].
    intros c. unfold BingerUdp.count_recv_error, exec.
    destruct (is_would_block e); simpl; unfold fetch_add; rewrite !load_store; by destruct c.
Qed.

Lemma recv_metrics_witness :
  ∃ r s' b' h' m', BingerUdp.try_recv_batch (K := receiving_kernel)
        (B := fallback_backend (K := receiving_kernel)) (P := true) sample_socket
        (RecvBatchRaw.with_capacity 4 8) [] = Ret ((r, s', b'), h') ∧
    BingerUdp.metrics s' = Some m' ∧ r = Ok 2%nat ∧ load m' packets_received = 2.
Proof.
  destruct (@recv_metrics linux_le receiving_kernel (fallback_backend (K := receiving_kernel))
    (@fallback_laws linux_le receiving_kernel (script_kernel_laws _ _)) true 8 3 0 sample_socket
    (RecvBatchRaw.with_capacity 4 8) [] metrics_default)
    as (r & s' & b' & h' & m' & E & Hm & _ & Hc).
  - apply with_capacity_recv_wf.
  - apply sample_socket_inv.
  - lia.
  - done.
  - exists r, s', b', h', m'. split; [exact E|]. split; [exact Hm|].
    apply (f_equal ret_val) in E. vm_compute in E. injection E as <- <- _. split; [done|].
    injection Hm as <-. reflexivity.
Defined.

(** The batch size is only reconsidered when an operation would block. A [send_batch] whose attempt
    does not end in [WouldBlock] leaves the recommended batch size as it is, so a socket that never
    blocks never grows its batches. *)
Theorem adaptive_needs_would_block {L : Libc} {K : Kernel} {B : Backend} {P : Profile}
    F fuel s b h r h1 r' s' h' :
  Backend.try_send_batch (BingerUdp.fd s) b h = Ret (r, h1) → (∀ e, r = Err e → kind e ≠ WouldBlock) →
  BingerUdp.send_batch F (S fuel) s b h = Ret ((r', s'), h') →
  r' = r ∧ BingerUdp.recommended_batch_size s' = BingerUdp.recommended_batch_size s.
Proof.
  intros Hb Hnb. cbn [BingerUdp.send_batch]. intros ([r1 s1] & h2 & E & Hk)%mbind_inv.
  unfold BingerUdp.try_send_batch in E. rewrite (mbind_Ret _ _ _ _ _ Hb) in E.
  destruct r as [m|e].
  - apply mbind_inv in E as (o & h3 & Ho & E). injection E as <- <- <-. simplify_eq.
    injection Hk as <- <- _. split; [done|].
    unfold BingerUdp.recommended_batch_size, BingerUdp.with_lock in *; simpl.
    destruct (BingerUdp.adaptive_send s) as [mx|]; [|by injection Ho as <- _].
    destruct (mx_poisoned mx) eqn:Ep; [injection Ho as <- _; by rewrite Ep|].
    apply mbind_inv in Ho as (st & h4 & Hst & Ho). injection Ho as <- _. simpl.
    unfold lift, record_event in Hst. destruct (add_u64 _ _); simplify_eq/=; done.
  - injection E as <- <- <-. unfold is_would_block in Hk.
    rewrite bool_decide_eq_false_2 in Hk by (by apply Hnb). injection Hk as <- <- _. done.
Qed.

Lemma adaptive_needs_would_block_witness :
  ∃ r s' h', BingerUdp.send_batch (K := accepting_kernel)
        (B := linux_backend (K := accepting_kernel) tokio_only 1) (P := true) tokio_only 1
        sample_socket two_entries [] = Ret ((r, s'), h') ∧
    r = Ok 2%nat ∧ BingerUdp.recommended_batch_size s' = 32.
Proof.
  eexists _, _, _. split; [reflexivity|].
  eapply (@adaptive_needs_would_block linux_le accepting_kernel
            (linux_backend (K := accepting_kernel) tokio_only 1) true tokio_only 0 sample_socket
            two_entries [] (Ok 2%nat)); [reflexivity|done|reflexivity].
Defined.

(** ** Construction *)

(** The socket options a history sets, and the ones a configuration asks for: sizes are truncated to
    [c_int]. *)
Definition options_set {L : Libc} (evs : list event) : list (Z * Z * Z) :=
  omap (λ ev, match ev with EvSetsockopt _ l o v _ => Some (l, o, v) | _ => None end) evs.
Definition options_of {L : Libc} (c : Config) : list (Z * Z * Z) :=
  from_option (λ n, [(SOL_SOCKET, SO_SNDBUF, as_i32 n)]) [] (send_buf_size c)
  ++ from_option (λ n, [(SOL_SOCKET, SO_RCVBUF, as_i32 n)]) [] (recv_os_buf_size c).

Section from_std.
Context {L : Libc} {K : Kernel}.

Definition not_close (ev : event) : Prop := match ev with EvClose _ => False | _ => True end.

Lemma set_buf_size_spec d o size h : ∃ r evs,
  BingerUdp.set_buf_size d o size h = Ret (r, h ++ evs) ∧ Forall not_close evs ∧
  options_set evs = from_option (λ n, [(SOL_SOCKET, o, as_i32 n)]) [] size.
Proof.
  unfold BingerUdp.set_buf_size. destruct size as [n|].
  - unfold raw_setsockopt, mbind, sys_setsockopt, last_os_error.
    destruct (_ <? 0); (eexists _, _; split; [reflexivity|]; by split; [repeat constructor|]).
  - exists (Ok tt), []. rewrite app_nil_r. done.
Qed.

Lemma new_adaptive_spec c h : ∃ o evs,
  BingerUdp.new_adaptive c h = Ret (o, h ++ evs) ∧ Forall not_close evs ∧ options_set evs = [] ∧
  lock_ok 0 o ∧
  match o with
  | Some mx => adaptive_batching c = true ∧ mx_poisoned mx = false ∧
               recommended_size (mx_val mx) = clamp (batch_size c) 1 1024
  | None => adaptive_batching c = false
  end.
Proof.
  unfold BingerUdp.new_adaptive. destruct (adaptive_batching c).
  - eexists _, _. split; [reflexivity|]. split; [by repeat constructor|]. split; [done|].
    split; [|done]. intros _. split; [apply clamp_range|simpl; lia].
  - eexists _, []. rewrite app_nil_r. done.
Qed.

Lemma register_spec F d h : f_tokio F && negb k_runtime = false → ∃ r evs,
  (if f_tokio F then sys_register d else mret (Ok tt)) h = Ret (r, h ++ evs) ∧ Forall not_close evs ∧
  options_set evs = [].
Proof.
  destruct (f_tokio F); intros Hrt.
  - unfold sys_register. destruct k_runtime; [|done].
    eexists _, _. split; [reflexivity|]. by split; [repeat constructor|].
  - exists (Ok tt), []. by rewrite app_nil_r.
Qed.

Lemma options_set_app e1 e2 : options_set (e1 ++ e2) = options_set e1 ++ options_set e2.
Proof. apply omap_app. Qed.

(** What [from_std] promises of its result and of the calls it made. *)
Definition from_std_post F d c (r : io_result BingerUdp.t) (evs : list event) : Prop :=
  match r with
  | Err _ => options_set evs `prefix_of` options_of c ∧
             ∃ evs', evs = evs' ++ [EvClose d] ∧ Forall not_close evs'
  | Ok s => options_set evs = options_of c ∧ Forall not_close evs ∧
            evs !! 0%nat = Some (EvNonblocking d (Ok tt)) ∧ sock_inv d 0 s ∧
            BingerUdp.metrics s = (if f_metrics F && metrics_enabled c then Some metrics_default else None) ∧
            BingerUdp.recommended_batch_size s =
              (if adaptive_batching c then clamp (batch_size c) 1 1024 else 32)
  end.

Lemma fail_closed_post F d c e h evs :
  Forall not_close evs → options_set evs `prefix_of` options_of c →
  wp (BingerUdp.fail_closed d e) (λ r h', ∃ evs', h' = h ++ evs' ∧ from_std_post F d c r evs') (h ++ evs).
Proof.
  intros Hn Ho. exists (evs ++ [EvClose d]). split; [by rewrite (assoc_L (++))|].
  rewrite <- (app_nil_r (options_set evs)) in Ho. simpl. rewrite options_set_app. split; [done|]. by exists evs.
Qed.

(** The part of [from_std] after the options. *)
Definition register_and_build F d c : IO (io_result BingerUdp.t) :=
  let! r := if f_tokio F then sys_register d else mret (Ok tt) in
  match r with
  | Err e => BingerUdp.fail_closed d e
  | Ok _ =>
      let m := if f_metrics F && metrics_enabled c then Some metrics_default else None in
      let! a_send := BingerUdp.new_adaptive c in
      let! a_recv := BingerUdp.new_adaptive c in
      mret (Ok (BingerUdp.Mk d m a_send a_recv))
  end.

(** Either an option fails, and the socket is closed, or all are set before the registration. *)
Lemma from_std_options F d c h :
  (∃ e evs, BingerUdp.from_std F d c h = Ret (Err e, h ++ evs) ∧ from_std_post F d c (Err e) evs) ∨
  ∃ evs, Forall not_close evs ∧ options_set evs = options_of c ∧
    evs !! 0%nat = Some (EvNonblocking d (Ok tt)) ∧
    BingerUdp.from_std F d c h = register_and_build F d c (h ++ evs).
Proof.
  assert (Hfail : ∀ e evs, Forall not_close evs → options_set evs `prefix_of` options_of c →
    ∃ evs', BingerUdp.fail_closed (A := BingerUdp.t) d e (h ++ evs) = Ret (Err e, h ++ evs') ∧
      from_std_post F d c (Err e) evs').
  { intros e evs Hn Ho. destruct (wp_elim _ _ _ (fail_closed_post F d c e h evs Hn Ho))
      as (r & h' & E & evs' & -> & Hpost). exists evs'. rewrite E. by injection E as <- _. }
  unfold BingerUdp.from_std. erewrite mbind_Ret by reflexivity.
  destruct (k_nonblocking h d) as [[]|e].
  2:{ left. exists e. apply Hfail; [by repeat constructor|apply prefix_nil]. }
  set (e0 := EvNonblocking d (Ok tt)).
  destruct (set_buf_size_spec d SO_SNDBUF (send_buf_size c) (h ++ [e0])) as (r1 & e1 & E1 & N1 & O1).
  rewrite (mbind_Ret _ _ _ _ _ E1), <- (assoc_L (++)).
  assert (N1' : Forall not_close ([e0] ++ e1)) by by constructor.
  destruct r1 as [[]|e].
  2:{ left. exists e. apply Hfail; [done|]. rewrite options_set_app, O1. by apply prefix_app_r. }
  destruct (set_buf_size_spec d SO_RCVBUF (recv_os_buf_size c) (h ++ [e0] ++ e1))
    as (r2 & e2 & E2 & N2 & O2).
  rewrite (mbind_Ret _ _ _ _ _ E2), <- (assoc_L (++)).
  assert (N2' : Forall not_close (([e0] ++ e1) ++ e2)) by (by apply Forall_app).
  assert (O2' : options_set (([e0] ++ e1) ++ e2) = options_of c)
    by (by rewrite !options_set_app, O1, O2).
  destruct r2 as [[]|e]; [|left; exists e; apply Hfail; [done|by rewrite O2']].
  right. by exists (([e0] ++ e1) ++ e2).
Qed.

Lemma register_and_build_wp F d c h evs : f_tokio F && negb k_runtime = false →
  Forall not_close evs → options_set evs = options_of c →
  evs !! 0%nat = Some (EvNonblocking d (Ok tt)) →
  wp (register_and_build F d c) (λ r h', ∃ evs', h' = h ++ evs' ∧ from_std_post F d c r evs') (h ++ evs).
Proof.
  intros Hrt N2 O2 H0. destruct (register_spec F d (h ++ evs) Hrt) as (r3 & e3 & E3 & N3 & O3).
  apply wp_bind. eapply wp_intro; [exact E3|]. rewrite <- (assoc_L (++)).
  assert (N3' : Forall not_close (evs ++ e3)) by (by apply Forall_app).
  assert (O3' : options_set (evs ++ e3) = options_of c)
    by (by rewrite options_set_app, O2, O3, app_nil_r).
  destruct r3 as [[]|e]; [|by apply fail_closed_post; [|by rewrite O3']].
  destruct (new_adaptive_spec c (h ++ evs ++ e3)) as (o4 & e4 & E4 & N4 & O4 & L4 & R4).
  apply wp_bind. eapply wp_intro; [exact E4|].
  destruct (new_adaptive_spec c ((h ++ evs ++ e3) ++ e4)) as (o5 & e5 & E5 & N5 & O5 & L5 & _).
  apply wp_bind. eapply wp_intro; [exact E5|]. apply wp_ret.
  exists ((evs ++ e3) ++ e4 ++ e5). split; [by rewrite <- !(assoc_L (++))|]. split_and!; try done.
  - by rewrite options_set_app, O3', options_set_app, O4, O5, !app_nil_r.
  - apply Forall_app. split; [done|]. by apply Forall_app.
  - by destruct evs.
  - unfold BingerUdp.recommended_batch_size; simpl. destruct o4 as [mx|]; [|by rewrite R4].
    destruct R4 as (-> & -> & ->). done.
Qed.
End from_std.

(** C21: construction. [from_std] panics only where tokio does: in a build with the tokio feature, outside
    a runtime, once the options are set; there it never returns a socket. Otherwise it succeeds with a
    socket on the given descriptor, in non-blocking mode, with exactly the configured options set in order
    (sizes truncated to 32 bits), fresh metrics when they are compiled in and enabled, and a batch size
    clamped to 1..1024 when adaptive (otherwise 32); or it fails having set a prefix of the options, and
    then it closes the descriptor as its last action. *)
Theorem from_std_spec {L : Libc} {K : Kernel} F d c h :
  (BingerUdp.from_std F d c h = Panic ∧ f_tokio F = true ∧ k_runtime = false) ∨
  ∃ r evs, BingerUdp.from_std F d c h = Ret (r, h ++ evs) ∧
    match r with
    | Err _ => options_set evs `prefix_of` options_of c ∧
               ∃ evs', evs = evs' ++ [EvClose d] ∧ Forall not_close evs'
    | Ok s => (f_tokio F = true → k_runtime = true) ∧
              options_set evs = options_of c ∧ Forall not_close evs ∧
              evs !! 0%nat = Some (EvNonblocking d (Ok tt)) ∧ sock_inv d 0 s ∧
              BingerUdp.metrics s = (if f_metrics F && metrics_enabled c then Some metrics_default else None) ∧
              BingerUdp.recommended_batch_size s =
                (if adaptive_batching c then clamp (batch_size c) 1 1024 else 32)
    end.
Proof.
  destruct (from_std_options F d c h) as [(e & evs & E & Hpost)|(evs & Hn & Ho & H0 & E)];
    [right; by exists (Err e), evs|]. rewrite E.
  destruct (f_tokio F && negb k_runtime) eqn:Hrt.
  - apply andb_true_iff in Hrt as [Ht Hk%negb_true_iff]. left. split; [|done].
    unfold register_and_build, mbind, sys_register. by rewrite Ht, Hk.
  - right. destruct (wp_elim _ _ _ (register_and_build_wp F d c h evs Hrt Hn Ho H0))
      as (r & h' & E' & evs' & -> & Hpost).
    exists r, evs'. split; [done|]. destruct r as [s|e]; [|done]. split; [|done].
    intros Ht. rewrite Ht in Hrt. by destruct k_runtime.
Qed.

(** [recv_from] copies the packet of its one-slot receive into the caller's buffer. *)
Lemma recv_from_batch {L : Libc} {K : Kernel} {B : Backend} {P : Profile} F fuel s buf h m s' b' h' :
  BingerUdp.recv_batch F fuel s (RecvBatchRaw.with_capacity 1 (length buf)) h = Ret ((Ok m, s', b'), h') →
  recv_wf (length buf) b' → RecvBatchRaw.capacity b' = 1%nat → RecvBatchRaw.len b' = 1%nat →
  ∃ data a, packets b' = [(data, a)] ∧ (length data ≤ length buf)%nat ∧
    BingerUdp.recv_from F fuel s buf h =
      Ret ((Ok (length data, a), s', data ++ drop (length data) buf), h').
Proof.
  intros E [Hall _] Hcap Hl. unfold BingerUdp.recv_from. rewrite (mbind_Ret _ _ _ _ _ E).
  destruct b' as [[|sl [|]] len]; try done. simpl in *. subst len.
  inversion_clear Hall as [|? ? Hok _]. pose proof Hok as (Hlen & Hrl & _).
  exists (slot_data sl), (addr sl). split; [done|].
  assert (Hd : (length (slot_data sl) ≤ length buf)%nat)
    by (unfold slot_data; rewrite length_take; lia).
  split; [done|]. unfold mbind, lift.
  rewrite (data_ok (length buf) _ 0 sl), (addr_ret _ 0 sl) by done. cbn.
  rewrite Nat.min_l, firstn_all by done. unfold blit. by rewrite take_ge.
Qed.

(** C24: [recv_from] delivers one datagram. On a socket on which something arrives after at most [k] empty
    attempts, [recv_from] returns the length and the source of the datagram a receive of one slot of
    the caller's buffer size produces; the caller's buffer starts with its bytes and is otherwise unchanged.
    On an error the buffer is untouched. *)
Theorem recv_from_correct {L : Libc} {K : Kernel} {B : Backend} {BL : BackendLaws} {P : Profile}
    F d buf k h fuel n s :
  let b := RecvBatchRaw.with_capacity 1 (length buf) in
  recv_ready d k b h → (k < fuel)%nat → sock_inv d n s → n + 3 * Z.of_nat fuel < 2 ^ 64 →
  ∃ r s' b' h', BingerUdp.recv_batch F fuel s b h = Ret ((r, s', b'), h') ∧
    match r with
    | Ok _ => ∃ data a, packets b' = [(data, a)] ∧ (length data ≤ length buf)%nat ∧
        BingerUdp.recv_from F fuel s buf h =
          Ret ((Ok (length data, a), s', data ++ drop (length data) buf), h')
    | Err e => BingerUdp.recv_from F fuel s buf h = Ret ((Err e, s', buf), h')
    end.
Proof.
  intros b Hr Hk Hs Hn.
  destruct (wp_elim _ _ _ (recv_batch_spec F (length buf) d k b h Hr (with_capacity_recv_wf 1 _)
    fuel n s Hk Hs Hn)) as ([[r s'] b'] & h' & E & _ & _ & Hwf & Hcap & Hpost).
  exists r, s', b', h'. split; [exact E|]. simpl in Hwf, Hcap, Hpost. destruct r as [m|e].
  - change (RecvBatchRaw.capacity b) with 1%nat in *. destruct Hpost as [Hm Hl].
    apply (recv_from_batch _ _ _ _ _ m); [exact E|done|done|lia].
  - unfold BingerUdp.recv_from. fold b. by rewrite (mbind_Ret _ _ _ _ _ E).
Qed.

Lemma recv_from_correct_witness :
  ∃ s' h', BingerUdp.recv_from (K := late_kernel) (B := fallback_backend (K := late_kernel)) (P := true)
      tokio_only 2 sample_socket [1; 2; 3; 4; 5; 6; 7; 8] [] =
    Ret ((Ok (3%nat, localhost 9000), s', [7; 8; 9; 4; 5; 6; 7; 8]), h').
Proof.
  destruct (@recv_from_correct linux_le late_kernel (fallback_backend (K := late_kernel))
    (@fallback_laws linux_le late_kernel late_kernel_laws) true tokio_only 3 [1; 2; 3; 4; 5; 6; 7; 8]
    1 [] 2 0 sample_socket) as (r & s' & b' & h' & E & Hr).
  - eapply recv_ready_later; [reflexivity|]. intros evs.
    destruct (late_recv ([EvRecvfrom 3 8 (k_recvfrom (Kernel := late_kernel) [] 3 8)] ++ evs))
      as (b' & h' & Eb); [done|]. by eapply recv_ready_now; [exact Eb|].
  - lia.
  - apply sample_socket_inv.
  - lia.
  - apply (f_equal ret_val) in E. vm_compute in E. injection E as <- _ <-.
    destruct Hr as (data & a & Hp & _ & Hr). vm_compute in Hp. injection Hp as <- <-. eauto.
Defined.

(** ** Capabilities *)

(** The reported capabilities against the backend that is compiled in. Without [miri-safe] the
    batched-call flags and the backend name tell which backend [platform/mod.rs] selected; the flags of
    the optional features are set exactly on Linux with the feature on. With [miri-safe] the portable
    backend is used on every target while the report stays the one of the target. *)
Theorem capabilities_backend os F s :
  let caps := BingerUdp.capabilities F os s in
  (f_miri_safe F = false →
     (supports_sendmmsg caps = true ↔ imp os F = imp_linux) ∧
     (supports_recvmmsg caps = true ↔ imp os F = imp_linux) ∧
     (supports_sendmsg_x caps = Some true ↔ imp os F = imp_macos) ∧
     (supports_wsa_send_msg caps = Some true ↔ imp os F = imp_windows) ∧
     (backend_name caps = backends os_other ↔ imp os F = imp_fallback)) ∧
  (supports_gso caps = true ↔ os = os_linux ∧ f_gso F = true) ∧
  (supports_gro caps = true ↔ os = os_linux ∧ f_gro F = true) ∧
  (f_miri_safe F = true → os ≠ os_other →
     imp os F = imp_fallback ∧ backend_name caps ≠ backends os_other).
Proof.
  destruct F as [tk gso gro bp pc me ts pk ms], os; unfold imp; simpl; destruct ms, gso, gro; intuition discriminate.
Qed.
