(* ===== verification/Network.v ===== *)
(** * End to end over a local network

    [Network] describes a host on which datagrams are neither lost nor reordered: what an open socket
    accepts is queued at the socket its destination names, and receives take from the front of the
    queue. Against this interface the whole stack is composed: a batch sent through one socket
    arrives, complete and in order, in the batch another socket receives. [loop_kernel] is an
    executable instance. *)
From S2P Require Import Prelude Libc UnixAbi Sockaddr Batch Backend Fallback LinuxSend LinuxRecv.
From S2P Require Import Adaptive Metrics Socket.
#[local] Open Scope Z_scope.

(** A queued datagram: its bytes and the address block of its sender. *)
Abbreviation datagram := (list Z * (storage * Z))%type.

Class Network {L : Libc} := {
  bound : Fd → storage * Z;              (** the local address of a socket *)
  owner : storage * Z → option Fd;       (** the socket that an address block names *)
  is_open : Fd → bool;                   (** a UDP socket with this descriptor exists *)
  (** the address block is a valid destination for the socket: well formed, of its address family, one
      there is a route to and that the process may send to *)
  reaches : Fd → storage * Z → bool;
}.

Section network.
Context {L : Libc} {N : Network}.

(** The calls that the queues below account for: segmented sends, the calls of macOS and Windows and
    closing a socket are left out. *)
Definition described (ev : event) : bool :=
  match ev with
  | EvSendmsg _ _ _ _ _ | EvSendmsgX _ _ _ | EvRecvmsgX _ _ _ _ | EvWSASendMsg _ _ _
  | EvWSARecvMsg _ _ _ | EvClose _ => false
  | _ => true
  end.

(** The address a socket is connected to. *)
Definition peer_step (fd : Fd) (p : option (storage * Z)) (ev : event) : option (storage * Z) :=
  match ev with
  | EvConnect d nm n r => if bool_decide (d = fd) && (r =? 0) then Some (nm, n) else p
  | _ => p
  end.
Definition peer (h : history) (fd : Fd) : option (storage * Z) := foldl (peer_step fd) None h.

(** Who made a call. *)
Definition caller (ev : event) : Fd :=
  match ev with EvSend fd _ _ | EvSendto fd _ _ _ _ | EvSendmmsg fd _ _ => fd | _ => 0 end.

(** A connected socket only takes datagrams of its peer. *)
Definition open_to (h : history) (fd from : Fd) : bool :=
  match peer h fd with Some nm => bool_decide (owner nm = Some from) | None => true end.

(** Where a message goes: to its name, or to the peer of the socket. *)
Definition destination (h : history) (from : Fd) (w : wire_msg) : option (storage * Z) :=
  match wm_name w with Some nm => Some nm | None => peer h from end.

(** The datagram [w] sent by [from], if it is for [fd]. *)
Definition arrival (h : history) (from fd : Fd) (w : wire_msg) : option datagram :=
  match destination h from w with
  | Some nm =>
      if bool_decide (owner nm = Some fd) && open_to h fd from then Some (wm_data w, bound from)
      else None
  | None => None
  end.

(** How many datagrams a call took from the queue of [fd]. *)
Definition consumed (fd : Fd) (ev : event) : nat :=
  match ev with
  | EvRecvfrom d _ o => if bool_decide (d = fd) && (0 <=? ro_ret o) then 1 else 0
  | EvRecvmmsg d _ _ outs => if bool_decide (d = fd) then length outs else 0
  | _ => 0
  end.

(** The queue of [fd]: what arrived and was not taken yet, in order. *)
Definition inbox_step (fd : Fd) (st : history * list datagram) (ev : event) : history * list datagram :=
  (st.1 ++ [ev],
   drop (consumed fd ev) st.2 ++ omap (arrival st.1 (caller ev) fd) (accepted ev)).
Definition inbox (h : history) (fd : Fd) : list datagram := (foldl (inbox_step fd) ([], []) h).2.

(** A datagram as [recvmmsg] hands it out into a buffer of [n] bytes: cut to the buffer. *)
Definition net_out (n : nat) (q : datagram) : mmsg_out :=
  let d := udp_bytes n q.1 in MkMmsgOut (Z.of_nat (length d)) d q.2.1 q.2.2 [].

(** A payload that fits into a UDP datagram over IPv4: 65535 bytes less the IP and UDP headers. *)
Definition MAX_UDP_PAYLOAD : Z := 65507.
Definition udp_size (d : list Z) : Prop := Z.of_nat (length d) ≤ MAX_UDP_PAYLOAD.

(** A message the socket can send: a legal size and a destination it reaches. *)
Definition sendable (h : history) (fd : Fd) (w : wire_msg) : Prop :=
  is_open fd ∧ udp_size (wm_data w) ∧ ∃ nm, destination h fd w = Some nm ∧ reaches fd nm.

(** The documented limit on the messages of one [sendmmsg] or [recvmmsg]. *)
Definition UIO_MAXIOV : nat := 1024.

Lemma inbox_fold fd h : (foldl (inbox_step fd) ([], []) h).1 = h.
Proof.
  induction h as [|ev h IH] using rev_ind; [done|]. rewrite foldl_app. simpl. by rewrite IH.
Qed.

Lemma inbox_snoc h ev fd :
  inbox (h ++ [ev]) fd =
    drop (consumed fd ev) (inbox h fd) ++ omap (arrival h (caller ev) fd) (accepted ev).
Proof. unfold inbox. rewrite foldl_app. simpl. by rewrite inbox_fold. Qed.

Lemma peer_snoc h ev fd : peer (h ++ [ev]) fd = peer_step fd (peer h fd) ev.
Proof. unfold peer. by rewrite foldl_app. Qed.
End network.

(** The kernel answers according to the queues. *)
Class NetworkLaws {L : Libc} {K : Kernel} {N : Network} : Prop := {
  (** receives on open sockets take the oldest datagrams, or fail with EAGAIN *)
  recvfrom_some : ∀ h fd n q rest, Forall described h → is_open fd → inbox h fd = q :: rest →
    let d := udp_bytes n q.1 in k_recvfrom h fd n = MkRecvOut (Z.of_nat (length d)) d q.2.1 q.2.2;
  recvfrom_none : ∀ h fd n, Forall described h → is_open fd → inbox h fd = [] →
    ro_ret (k_recvfrom h fd n) < 0 ∧
    k_errno (h ++ [EvRecvfrom fd n (k_recvfrom h fd n)]) = EAGAIN;
  recvmmsg_some : ∀ h fd lens, Forall described h → is_open fd → inbox h fd ≠ [] → lens ≠ [] →
    let outs := zip_with net_out (take UIO_MAXIOV lens) (inbox h fd) in
    k_recvmmsg h fd lens = (Z.of_nat (length outs), outs);
  (** sends of datagrams of a legal size to a destination that the socket reaches succeed *)
  net_sendmmsg : ∀ h fd msgs, Forall (sendable h fd) msgs →
    (length msgs ≤ UIO_MAXIOV)%nat → k_sendmmsg h fd msgs = Z.of_nat (length msgs);
  net_sendto : ∀ h fd d st n, sendable h fd (MkWire d (Some (st, n))) → 0 ≤ k_sendto h fd d st n;
  net_send_connected : ∀ h fd d, sendable h fd (MkWire d None) → 0 ≤ k_send h fd d;
  (** [getpeername] succeeds on connected sockets only *)
  net_getpeername : ∀ h fd, is_open fd → k_getpeername h fd = 0 ↔ is_Some (peer h fd);
}.

Section delivery.
Context {L : Libc} {K : Kernel} {N : Network} {NL : NetworkLaws} {KL : KernelLaws}.

(** ** Queues *)

(** Calls by which [fd] sends, or that do not matter to the queues. *)
Definition send_event (fd : Fd) (ev : event) : Prop :=
  described ev ∧ (∀ d, consumed d ev = 0%nat) ∧ (accepted ev ≠ [] → caller ev = fd) ∧
  ∀ d p, peer_step d p ev = p.
Definition sends_of (fd : Fd) (evs : list event) : Prop := Forall (send_event fd) evs.

Lemma arrival_ext h h' from fd w : peer h' from = peer h from → peer h' fd = peer h fd →
  arrival h' from fd w = arrival h from fd w.
Proof. intros H1 H2. unfold arrival, destination, open_to. by rewrite H1, H2. Qed.

Lemma inbox_sends h evs from fd : sends_of from evs →
  inbox (h ++ evs) fd = inbox h fd ++ omap (arrival h from fd) (accepted_all evs).
Proof.
  intros Hs. revert h. induction Hs as [|ev evs (_ & Hc & Hcall & Hp) Hs IH]; intros h.
  { unfold accepted_all; simpl. by rewrite !app_nil_r. }
  rewrite cons_middle, (assoc_L (++)), IH, inbox_snoc, Hc, drop_0, accepted_all_cons, omap_app.
  rewrite <- (assoc_L (++)). f_equal. f_equal.
  - destruct (accepted ev); [done|]. by rewrite Hcall.
  - apply list_omap_ext. apply Forall_Forall2_diag, Forall_true. intros w.
    apply arrival_ext; by rewrite peer_snoc, Hp.
Qed.

(** Calls that send nothing leave queues and connections alone. *)
Lemma silent_inbox h evs fd d : sends_of d evs → accepted_all evs = [] → inbox (h ++ evs) fd = inbox h fd.
Proof. intros Hs Ha. by rewrite (inbox_sends _ _ d), Ha, app_nil_r. Qed.

Lemma sends_peer h evs fd d : sends_of d evs → peer (h ++ evs) fd = peer h fd.
Proof.
  intros Hs. revert h. induction Hs as [|ev evs (_ & _ & _ & Hp) _ IH]; intros h; [by rewrite app_nil_r|].
  by rewrite cons_middle, (assoc_L (++)), IH, peer_snoc, Hp.
Qed.

Lemma quiet_sends fd ts : sends_of fd (EvNow <$> ts).
Proof. apply Forall_fmap, Forall_true. intros t. unfold compose, send_event. by split_and!. Qed.

Lemma quiet_inbox h h' fd : quiet h h' → inbox h' fd = inbox h fd.
Proof. intros [ts ->]. apply (silent_inbox _ _ _ fd); [apply quiet_sends|apply quiet_accepted]. Qed.

Lemma sends_described fd h evs : Forall described h → sends_of fd evs → Forall described (h ++ evs).
Proof. intros Hh Hs. apply Forall_app. split; [done|]. eapply Forall_impl, Hs. by intros ev [? _]. Qed.

(** ** Sending

    Both Unix backends hand all datagrams to the network. *)
Definition unix_backend (linux : bool) (F : features) (fuel : nat) : Backend :=
  if linux then linux_backend F fuel else fallback_backend.

(** Every entry has destination [o], every payload a legal size. *)
Definition all_for (o : option SocketAddr) (b : SendBatchRaw.t) (bss : list (list Z)) : Prop :=
  Forall (λ e, e.2 = o) (contents b) ∧ Forall udp_size bss.

(** How datagrams get from the open socket [fd] to [a], which it reaches: by their destination on an
    unconnected socket, without one on a socket connected to [a]. *)
Definition route (h : history) (fd : Fd) (o : option SocketAddr) (a : SocketAddr) : Prop :=
  is_open fd ∧ reaches fd (name_of a) ∧
  (o = Some a ∧ peer h fd = None ∨ o = None ∧ peer h fd = Some (name_of a)).

Lemma route_sendable h fd o a bs : route h fd o a → udp_size bs →
  sendable h fd (MkWire bs (name_of <$> o)).
Proof.
  intros (Hop & Hre & Hrt) Hbs. split; [done|]. split; [done|]. exists (name_of a). split; [|done].
  by destruct Hrt as [[-> _]|[-> ?]].
Qed.

Lemma route_ext h h' fd o a : peer h' fd = peer h fd → route h fd o a → route h' fd o a.
Proof. unfold route. by intros ->. Qed.

Lemma all_for_addressed o b bss : all_for o b bss → addressed_first (contents b) = true.
Proof.
  intros [Ha _]. destruct o as [a|]; induction Ha as [|[d o'] es Ho Hes IH]; simpl in *; subst; try done.
  clear IH. induction Hes as [|[d' o'] es Ho Hes IH]; [done|]. simpl in *. subst. done.
Qed.

(** What a backend offers for such a batch. *)
Definition wires_to (o : option SocketAddr) (bss : list (list Z)) : list wire_msg :=
  (λ bs, MkWire bs (name_of <$> o)) <$> bss.

Lemma wires_all_for strip o b bss : all_for o b bss → length (contents b) = length bss →
  (strip = true → o = None) → wires strip b bss = wires_to o bss.
Proof.
  intros [Ha _] Hl Hst. unfold wires, wires_to. revert bss Hl.
  induction Ha as [|[d o'] es Ho _ IH]; intros [|bs bss] Hl; simpl in *; try done. subst o'.
  rewrite IH by lia. unfold wire_of. destruct strip; [|done]. by rewrite Hst.
Qed.

Lemma contents_payloads cap h b bss : send_wf cap b → payloads h b bss → length (contents b) = length bss.
Proof. intros Hwf Hp. by rewrite (length_contents cap), (length_payloads cap h b bss). Qed.

Lemma linux_net_send fd cap o a b bss h : route h fd o a →
  send_wf cap b → payloads h b bss → all_for o b bss → SendBatchRaw.len b ≠ 0%nat →
  (SendBatchRaw.len b ≤ UIO_MAXIOV)%nat →
  ∃ evs, linux_try_send_batch fd b h = Ret (Ok (SendBatchRaw.len b), h ++ evs) ∧
    accepted_all evs = wires_to o bss ∧ sends_of fd evs.
Proof.
  intros Hrt Hwf Hp Ha Hne H32.
  rewrite (linux_send_offer_supported cap fd b bss)
    by (try done; right; by eapply all_for_addressed).
  pose proof (length_wires cap h false b bss Hwf Hp) as Hl.
  rewrite vlen_small, take_ge by (unfold UIO_MAXIOV in *; lia).
  rewrite (wires_all_for false o) in * by (done || by eapply contents_payloads).
  unfold sendmmsg_result, mbind, sys_sendmmsg. rewrite net_sendmmsg; [|unfold wires_to|lia].
  2:{ destruct Ha as [_ Hs]. apply Forall_fmap. eapply Forall_impl; [|exact Hs]. intros bs Hbs.
      by apply (route_sendable h fd o a). }
  rewrite Hl, (proj2 (Z.leb_le _ _)) by lia.
  rewrite Nat2Z.id. eexists. split; [done|]. unfold accepted_all; simpl.
  rewrite Nat2Z.id, take_ge, app_nil_r by lia. split; [done|]. repeat constructor; done.
Qed.

(** One call of the portable backend succeeds. *)
Lemma net_send_one fd o a d bs h : route h fd o a → stable_from h d bs → udp_size bs →
  wp (send_one fd (bool_decide (o = None)) d o)
    (λ r h', (∃ n, r = Ok n) ∧ ∃ ev, h' = h ++ [ev] ∧ send_event fd ev ∧
       accepted ev = [MkWire bs (name_of <$> o)]) h.
Proof.
  intros Hrt Hst%stable_from_now Hbs. pose proof (route_sendable h fd o a bs Hrt Hbs) as Hw.
  destruct Hrt as (_ & _ & [[-> _]|[-> _]]); unfold send_one; simpl in *.
  - unfold raw_sendto, name_of in *. destruct (encode_sockaddr a storage_zeroed) as [len st].
    apply wp_bind. eapply wp_intro; [unfold read_slice; by rewrite Hst|].
    apply wp_bind. eapply wp_intro; [done|]. pose proof (net_sendto h fd bs st len Hw) as Hr.
    rewrite (proj2 (Z.leb_le _ _)) by done. apply wp_ret. split; [eauto|]. eexists. split; [done|].
    split; [by split_and!|]. simpl. by rewrite (proj2 (Z.leb_le _ _)).
  - unfold raw_send. apply wp_bind. eapply wp_intro; [unfold read_slice; by rewrite Hst|].
    apply wp_bind. eapply wp_intro; [done|].
    pose proof (net_send_connected h fd bs Hw) as Hr.
    rewrite (proj2 (Z.leb_le _ _)) by done. apply wp_ret. split; [eauto|]. eexists. split; [done|].
    split; [by split_and!|]. simpl. by rewrite (proj2 (Z.leb_le _ _)).
Qed.

Lemma net_send_loop fd cap o a b bss n i h : route h fd o a →
  send_wf cap b → payloads h b bss → all_for o b bss → (i + n = SendBatchRaw.len b)%nat →
  wp (send_loop fd b (bool_decide (o = None)) n i i)
    (λ r h', r = Ok (i + n)%nat ∧ ∃ evs, h' = h ++ evs ∧
       accepted_all evs = drop i (wires_to o bss) ∧ sends_of fd evs) h.
Proof.
  intros Hrt Hwf Hp Hfor. revert i h Hrt Hp. induction n as [|n IH]; intros i h Hrt Hp Hn; cbn [send_loop].
  { apply wp_ret. split; [by rewrite Nat.add_0_r|]. exists []. rewrite app_nil_r, drop_ge; [by split_and!; [..|constructor]|].
    unfold wires_to. rewrite length_fmap, (length_payloads cap h b bss) by done. lia. }
  destruct (wires_lookup cap h false b bss i Hwf Hp) as (d & o' & bs & Hc & Hbs & Hst & _); [lia|].
  destruct Hfor as [Hall Hsz]. pose proof (Forall_lookup_1 _ _ _ _ Hall Hc) as Ho. simpl in Ho. subst o'.
  pose proof (Forall_lookup_1 _ _ _ _ Hsz Hbs) as Hbsz. simpl in Hbsz.
  apply wp_bind. eapply wp_intro; [by apply (entry_contents cap b i h d o bs Hwf Hc), stable_from_now|].
  apply wp_bind. eapply wp_mono; [by apply (net_send_one fd o a d bs h)|].
  intros r h1 [[m ->] (ev & -> & Hev & Hacc1)].
  eapply wp_mono; [apply IH; [|by apply payloads_app|lia]|].
  { eapply route_ext, Hrt. destruct Hev as (_ & _ & _ & Hpe). by rewrite peer_snoc, Hpe. }
  intros r h' [-> (evs & -> & Hacc & Hs)]. split; [f_equal; lia|].
  exists (ev :: evs). rewrite <- (assoc_L (++)). split; [done|]. split; [|by constructor].
  assert (Hw : wires_to o bss !! i = Some (MkWire bs (name_of <$> o)))
    by (unfold wires_to; by rewrite list_lookup_fmap, Hbs).
  by rewrite accepted_all_cons, Hacc, Hacc1, (drop_S _ _ _ Hw).
Qed.

Lemma net_send linux F fuel fd cap o a b bss h : route h fd o a →
  send_wf cap b → payloads h b bss → all_for o b bss → SendBatchRaw.len b ≠ 0%nat →
  (SendBatchRaw.len b ≤ UIO_MAXIOV)%nat →
  ∃ evs, try_send_batch (Backend := unix_backend linux F fuel) fd b h =
           Ret (Ok (SendBatchRaw.len b), h ++ evs) ∧
    accepted_all evs = wires_to o bss ∧ sends_of fd evs.
Proof.
  intros Hrt Hwf Hp Ha Hne H32. destruct linux; [by apply (linux_net_send fd cap o a)|]. simpl.
  unfold fallback_try_send_batch. rewrite (proj2 (Nat.eqb_neq _ _) Hne).
  erewrite (mbind_Ret (is_connected fd)) by done.
  assert (Hconn : (k_getpeername h fd =? 0) = bool_decide (o = None)).
  { destruct Hrt as (Hop & _ & Hrt). apply eq_true_iff_eq. rewrite Z.eqb_eq, bool_decide_eq_true, net_getpeername by done.
    by destruct Hrt as [[-> ->]|[-> ->]]; split. }
  rewrite Hconn. set (ev := EvGetpeername fd (k_getpeername h fd)).
  destruct (wp_elim _ _ _ (net_send_loop fd cap o a b bss (SendBatchRaw.len b) 0 (h ++ [ev])
    ltac:(eapply route_ext, Hrt; by rewrite peer_snoc) Hwf (payloads_app _ _ _ _ Hp) Ha eq_refl))
    as (r & h' & E & -> & evs & -> & Hacc & Hs).
  rewrite E. simpl. exists (ev :: evs). rewrite <- (assoc_L (++)). split; [done|].
  rewrite accepted_all_cons, Hacc, drop_0. split; [done|].
  constructor; [by split_and!|done].
Qed.

(** ** Receiving *)

(** A datagram as a packet in a slot of [bs] bytes. *)
Definition net_packet (bs : nat) (q : datagram) : list Z * SocketAddr :=
  (udp_bytes bs q.1, decode_sockaddr q.2.1 q.2.2).

(** Calls the queues account for that connect nothing. *)
Definition keeps_peers h h' : Prop := Forall described h' ∧ ∀ d, peer h' d = peer h d.

Lemma keeps_peers_trans h1 h2 h3 : keeps_peers h1 h2 → keeps_peers h2 h3 → keeps_peers h1 h3.
Proof. intros [_ H1] [? H2]. split; [done|]. intros d. by rewrite H2, H1. Qed.

Lemma keeps_peers_snoc h ev : Forall described h → described ev → (∀ d p, peer_step d p ev = p) →
  keeps_peers h (h ++ [ev]).
Proof.
  intros Hh Hev Hp. split; [by apply Forall_app; split; [|repeat constructor]|].
  intros d. by rewrite peer_snoc, Hp.
Qed.

Lemma sends_keep_peers fd h evs : Forall described h → sends_of fd evs → keeps_peers h (h ++ evs).
Proof.
  intros Hh Hs. split; [by apply (sends_described fd)|]. intros d. by apply (sends_peer _ _ d fd).
Qed.

(** What a receive into [n] slots of [bs] bytes does: the first [n] datagrams leave the queue. *)
Definition net_recv_post fd bs (n : nat) h (ps : list (list Z * SocketAddr)) h' : Prop :=
  ps = net_packet bs <$> take n (inbox h fd) ∧ inbox h' fd = drop n (inbox h fd) ∧ keeps_peers h h'.

Lemma inbox_recvfrom_some h fd n q rest : Forall described h → is_open fd → inbox h fd = q :: rest →
  inbox (h ++ [EvRecvfrom fd n (k_recvfrom h fd n)]) fd = rest.
Proof.
  intros Hh Hop Hq. rewrite inbox_snoc, Hq. unfold consumed. rewrite bool_decide_eq_true_2 by done.
  rewrite (recvfrom_some h fd n q rest Hh Hop Hq). simpl ro_ret.
  rewrite (proj2 (Z.leb_le _ _)) by lia. simpl. by rewrite drop_0, app_nil_r.
Qed.

Lemma inbox_recvfrom_none h fd n : inbox h fd = [] →
  inbox (h ++ [EvRecvfrom fd n (k_recvfrom h fd n)]) fd = [].
Proof. intros Hq. by rewrite inbox_snoc, Hq, drop_nil. Qed.

Lemma net_recv_loop fd bs b n i h : Forall described h → is_open fd → recv_wf bs b → (i + n = RecvBatchRaw.capacity b)%nat →
  wp (recv_loop fd b n i i)
    (λ rb h', (∃ m, rb.1 = Ok m) ∧ ∃ evs, h' = h ++ evs ∧
       net_recv_post fd bs n h (received recvfrom_packet evs) h') h.
Proof.
  unfold recv_loop. revert b i h. induction n as [|n IH]; intros b i h Hh Hop Hwf Hn; cbn [recv_each].
  { apply wp_ret. split; [eauto|]. exists []. rewrite app_nil_r. by split_and!. }
  pose proof Hwf as [Hall Hlen]. unfold RecvBatchRaw.capacity in Hn, Hlen.
  destruct (lookup_lt_is_Some_2 (RecvBatchRaw.slots b) i) as [s Hs]; [lia|].
  pose proof (Forall_lookup_1 _ _ _ _ Hall Hs) as Hok. pose proof Hok as (Hbs & _ & _).
  apply wp_bind. eapply wp_lift; [unfold RecvBatchRaw.buffer; by rewrite (oindex_Ret _ _ _ Hs)|].
  apply wp_bind. unfold raw_recvfrom. apply wp_bind. eapply wp_intro; [done|]. rewrite Hbs.
  destruct (inbox h fd) as [|q rest] eqn:Hq.
  - destruct (recvfrom_none h fd bs Hh Hop Hq) as [Hret Herr]. rewrite (proj2 (Z.leb_gt _ _)) by done.
    apply wp_bind. eapply wp_intro; [done|]. apply wp_ret. apply wp_bind.
    eapply wp_lift; [by apply update_lookup|]. rewrite Herr. unfold is_would_block; simpl.
    rewrite Z.eqb_refl. apply wp_ret. split; [eauto|]. eexists. split; [done|]. unfold net_recv_post.
    rewrite inbox_recvfrom_none, Hq by done. simpl. rewrite (proj2 (Z.leb_gt _ _)) by done.
    split; [done|]. split; [done|]. by apply keeps_peers_snoc.
  - pose proof (recvfrom_some h fd bs q rest Hh Hop Hq) as Ho. simpl in Ho.
    pose proof (inbox_recvfrom_some h fd bs q rest Hh Hop Hq) as Hin1.
    set (ev := EvRecvfrom _ _ _) in *.
    assert (Hev : recvfrom_packet ev = Some (net_packet bs q))
      by (unfold ev; rewrite Ho; simpl; by rewrite (proj2 (Z.leb_le _ _)) by lia).
    rewrite Ho. simpl ro_ret. simpl ro_data. simpl ro_name. simpl ro_namelen.
    rewrite (proj2 (Z.leb_le _ _)) by lia. apply wp_ret. apply wp_bind.
    eapply wp_lift; [by apply update_lookup|].
    set (d := udp_bytes bs q.1). pose proof (udp_bytes_le bs q.1). pose proof (udp_bytes_udp bs q.1).
    set (a := decode_sockaddr _ _).
    destruct (fill_slot_ok bs s d a Hok) as [Hok' _]; [unfold d; lia|done|].
    apply (store_packet b i s d a); [done|]. unfold RecvBatchRaw.set_len; simpl.
    eapply wp_mono; [apply IH|].
    + by apply Forall_app; split; [|repeat constructor].
    + done.
    + split; [by apply Forall_insert|]. unfold RecvBatchRaw.capacity; simpl. rewrite length_insert. lia.
    + unfold RecvBatchRaw.capacity; simpl. rewrite length_insert. lia.
    + intros rb h' [Hm (evs & -> & Hps & Hin & Hpe)]. rewrite Hin1 in Hps, Hin.
      split; [done|]. exists (ev :: evs). rewrite <- (assoc_L (++)) in *. split; [done|].
      split; [|split; [by rewrite Hq|by eapply keeps_peers_trans, Hpe; apply keeps_peers_snoc]].
      rewrite Hq. unfold received in *. cbn [omap list_omap].
      by rewrite Hev, Hps.
Qed.

(** The first [capacity] datagrams of a queue that is not empty arrive in the batch. *)
Definition net_received fd bs b h (rb : io_result nat * RecvBatchRaw.t) h' : Prop :=
  rb.1 = Ok (Nat.min (RecvBatchRaw.capacity b) (length (inbox h fd))) ∧ recv_wf bs rb.2 ∧
  RecvBatchRaw.capacity rb.2 = RecvBatchRaw.capacity b ∧
  net_recv_post fd bs (RecvBatchRaw.capacity b) h (packets rb.2) h'.

Lemma fallback_net_recv fd bs b h : Forall described h → is_open fd → recv_wf bs b → RecvBatchRaw.capacity b ≠ 0%nat → inbox h fd ≠ [] →
  wp (fallback_try_recv_batch fd b) (net_received fd bs b h) h.
Proof.
  intros Hh Hop Hwf Hcap Hq. unfold fallback_try_recv_batch.
  destruct (wp_elim _ _ _ (recv_loop_spec fd bs b (RecvBatchRaw.capacity b) 0 h Hwf eq_refl))
    as ([r b'] & h' & E & evs & m & -> & Hm & Hle & Hwf' & Hc & _ & Hpk & Hlen & Hr).
  eapply wp_intro; [exact E|].
  destruct (wp_elim _ _ _ (net_recv_loop fd bs b (RecvBatchRaw.capacity b) 0 h Hh Hop Hwf eq_refl))
    as (rb & h'' & E' & [m' Hm'] & evs' & -> & Hps & Hin & Hpe).
  rewrite E in E'. simplify_eq. simpl in *. subst r. destruct Hr as [-> _].
  assert (Hmin : length (received recvfrom_packet evs') =
                 Nat.min (RecvBatchRaw.capacity b) (length (inbox h fd)))
    by (by rewrite Hps, length_fmap, length_take).
  assert (length (inbox h fd) ≠ 0%nat) by (by intros ?%nil_length_inv).
  rewrite (proj2 (Nat.eqb_neq _ _)) in Hlen by lia.
  split; [by rewrite Hmin|]. split; [done|]. split; [done|]. split; [|done]. unfold packets; simpl.
  rewrite Hlen, <- Hps. by rewrite drop_0 in Hpk.
Qed.

Lemma net_out_ok bs q : msg_ok bs (net_out bs q).
Proof.
  unfold msg_ok, net_out; simpl. pose proof (udp_bytes_le bs q.1). pose proof (udp_bytes_udp bs q.1).
  by split_and!.
Qed.

Lemma zip_replicate {A B C} (f : A → B → C) n x l : zip_with f (replicate n x) l = f x <$> take n l.
Proof. revert l. induction n as [|n IH]; intros [|y l]; simpl; [done..|]. by rewrite IH. Qed.

Lemma linux_net_recv F fuel fd bs b h : Forall described h → is_open fd →
  recv_wf bs b → RecvBatchRaw.capacity b ≠ 0%nat → (RecvBatchRaw.capacity b ≤ UIO_MAXIOV)%nat →
  (0 < fuel)%nat → inbox h fd ≠ [] →
  wp (linux_try_recv_batch F fuel fd b) (net_received fd bs b h) h.
Proof.
  intros Hh Hop Hwf Hcap Hmax Hfuel Hq.
  assert (Hv : recv_vlen b = RecvBatchRaw.capacity b)
    by (unfold recv_vlen, UIO_MAXIOV in *; rewrite as_u32_small by lia; lia).
  set (n := RecvBatchRaw.capacity b) in *. set (outs := net_out bs <$> take n (inbox h fd)).
  assert (Hout : length outs = Nat.min n (length (inbox h fd)))
    by (unfold outs; by rewrite length_fmap, length_take).
  assert (Hk : k_recvmmsg h fd (replicate n bs) = (Z.of_nat (length outs), outs)).
  { rewrite recvmmsg_some; [|done|done|done|by destruct n].
    rewrite take_replicate, Nat.min_r, zip_replicate by lia. done. }
  set (ev := EvRecvmmsg fd (replicate n bs) (Z.of_nat (length outs)) outs).
  assert (Hr : retries (recv_call bs fd b) 0 h (Ok (Z.of_nat (length outs), outs)) (h ++ [ev])).
  { apply retries_ok; [|lia]. unfold recv_call, sys_recvmmsg. by rewrite Hv, Hk. }
  assert (Hplain : Forall (λ m, gro_size F m ≤ 0) outs).
  { apply Forall_fmap, Forall_true. intros q. unfold gro_size; simpl. lia. }
  assert (Hok : Forall (msg_ok bs) outs) by (apply Forall_fmap, Forall_true; apply net_out_ok).
  eapply wp_intro; [eapply (linux_recv_process F bs); [done|done|exact Hfuel|exact Hr|
                      apply process_deliver_plain; [done|rewrite Hout; fold n; lia]]|].
  destruct Hwf as [Hall Hlen].
  destruct (filled_slots_spec F bs _ _ Hall Hok) as (H1 & H2 & H3);
    [rewrite Hout; unfold n, RecvBatchRaw.capacity; lia|].
  split; [by rewrite Hout|]. split.
  { split; [done|]. unfold RecvBatchRaw.capacity; simpl. rewrite H2, Hout.
    unfold n, RecvBatchRaw.capacity. lia. }
  split; [exact H2|]. split_and!.
  - unfold packets; simpl. rewrite H3. unfold outs. by rewrite <- list_fmap_compose.
  - rewrite inbox_snoc. unfold ev; simpl. rewrite bool_decide_eq_true_2, Hout by done.
    rewrite app_nil_r. fold n. destruct (Nat.le_ge_cases n (length (inbox h fd))).
    + by rewrite Nat.min_l.
    + by rewrite Nat.min_r, !drop_ge by lia.
  - by apply keeps_peers_snoc.
Qed.

Lemma net_recv linux F fuel fd bs b h : Forall described h → is_open fd →
  recv_wf bs b → RecvBatchRaw.capacity b ≠ 0%nat → (RecvBatchRaw.capacity b ≤ UIO_MAXIOV)%nat →
  (0 < fuel)%nat → inbox h fd ≠ [] →
  wp (try_recv_batch (Backend := unix_backend linux F fuel) fd b) (net_received fd bs b h) h.
Proof. intros. destruct linux; [by apply linux_net_recv|by apply fallback_net_recv]. Qed.
End delivery.

(** ** Whole sockets

    An operation of the backend that succeeds at once ends the loops of the socket. *)
Section sockets.
Context {L : Libc} {K : Kernel} {B : Backend} {P : Profile}.

Lemma send_batch_now F fuel d n s b h m h1 :
  sock_inv d n s → n < 2 ^ 64 - 1 → try_send_batch d b h = Ret (Ok m, h1) →
  wp (BingerUdp.send_batch F (S fuel) s b)
    (λ rs h', rs.1 = Ok m ∧ sock_inv d (n + 1) rs.2 ∧ quiet h1 h') h.
Proof.
  intros [Hfd [Hs Hr]] Hn E. cbn [BingerUdp.send_batch]. apply wp_bind. unfold BingerUdp.try_send_batch.
  rewrite Hfd. apply wp_bind. eapply wp_intro; [exact E|]. apply wp_bind.
  eapply wp_mono; [apply (with_lock_spec n (n + 1)); [done|lia|]|].
  { intros. by apply record_event_quiet. }
  intros o h2 [Ho Hq]. do 2 apply wp_ret. split; [done|]. split; [|done].
  split; [done|]. split; [done|]. simpl. eapply lock_ok_mono; [|done]. lia.
Qed.

Lemma recv_batch_now F fuel d n s b h m b' h1 :
  sock_inv d n s → n < 2 ^ 64 - 1 → m ≠ 0%nat → try_recv_batch d b h = Ret ((Ok m, b'), h1) →
  wp (BingerUdp.recv_batch F (S fuel) s b)
    (λ rsb h', rsb.1.1 = Ok m ∧ rsb.2 = b' ∧ sock_inv d (n + 1) rsb.1.2 ∧ quiet h1 h') h.
Proof.
  intros [Hfd [Hs Hr]] Hn Hm E. cbn [BingerUdp.recv_batch]. apply wp_bind. unfold BingerUdp.try_recv_batch.
  rewrite Hfd. apply wp_bind. eapply wp_intro; [exact E|]. apply wp_bind.
  eapply wp_mono; [apply (with_lock_spec n (n + 1)); [done|lia|]|].
  { intros. by apply record_event_quiet. }
  intros o h2 [Ho Hq]. apply wp_ret. rewrite (proj2 (Nat.eqb_neq _ _) Hm). apply wp_ret.
  split; [done|]. split; [done|]. split; [|done]. split; [done|]. split; [|done].
  simpl. eapply lock_ok_mono; [|done]. lia.
Qed.
End sockets.

Section end_to_end.
Context {L : Libc} {K : Kernel} {N : Network} {NL : NetworkLaws} {KL : KernelLaws} {P : Profile}.

(** The datagrams [bss] as they are queued when socket [fd] sent them. *)
Definition from_socket (fd : Fd) (bss : list (list Z)) : list datagram := (λ d, (d, bound fd)) <$> bss.

Lemma wires_arrive h fd1 fd2 o a bss : route h fd1 o a →
  owner (name_of a) = Some fd2 → peer h fd2 = None →
  omap (arrival h fd1 fd2) (wires_to o bss) = from_socket fd1 bss.
Proof.
  intros Hrt Ho Hp. unfold wires_to, from_socket.
  assert (Hw : ∀ bs, arrival h fd1 fd2 (MkWire bs (name_of <$> o)) = Some (bs, bound fd1)).
  { intros bs. unfold arrival, destination, open_to. rewrite Hp. destruct Hrt as (_ & _ & [[-> _]|[-> ->]]); simpl;
      by rewrite bool_decide_eq_true_2. }
  induction bss as [|bs bss IH]; [done|]. rewrite !fmap_cons. cbn [omap list_omap]. rewrite Hw.
  f_equal. exact IH.
Qed.

Lemma from_socket_packets {LL : LibcLaws} bs fd a bss :
  bound fd = name_of a → addr_ok a → Forall udp_size bss →
  net_packet bs <$> from_socket fd bss = (λ d, (take bs d, a)) <$> bss.
Proof.
  intros Hb Ha Hs. unfold from_socket. rewrite <- list_fmap_compose.
  apply list_fmap_ext. intros i d Hd%(Forall_lookup_1 _ _ _ _ Hs). unfold net_packet; simpl. rewrite Hb. f_equal.
  - unfold udp_bytes, udp_size, MAX_UDP_PAYLOAD in *. rewrite (proj2 (Z.ltb_lt _ _)); [done|]. rewrite length_take. lia.
  - pose proof (decode_encode a storage_zeroed Ha) as Hd'. unfold name_of.
    by destruct (encode_sockaddr a storage_zeroed).
Qed.

(** A whole batch goes into the queue of the socket it is addressed to. *)
Lemma send_batch_inbox linux F fuel k d1 d2 n s cap o a b bss h :
  Forall described h → route h d1 o a → peer h d2 = None →
  sock_inv d1 n s → n < 2 ^ 64 - 1 → send_wf cap b → payloads h b bss → all_for o b bss →
  SendBatchRaw.len b ≠ 0%nat → (SendBatchRaw.len b ≤ UIO_MAXIOV)%nat → owner (name_of a) = Some d2 →
  wp (BingerUdp.send_batch (B := unix_backend linux F fuel) F (S k) s b)
    (λ rs h', rs.1 = Ok (SendBatchRaw.len b) ∧ sock_inv d1 (n + 1) rs.2 ∧ keeps_peers h h' ∧
       inbox h' d2 = inbox h d2 ++ from_socket d1 bss) h.
Proof.
  intros Hh Hrt Hp2 Hs Hn Hwf Hp Ha Hne Hmax Ho.
  destruct (net_send linux F fuel d1 cap o a b bss h Hrt Hwf Hp Ha Hne Hmax) as (evs & E & Hacc & Hev).
  eapply wp_mono; [by eapply (send_batch_now (B := unix_backend linux F fuel))|].
  intros [r s'] h' (Hr & Hs' & Hq). split; [done|]. split; [done|]. split.
  { eapply keeps_peers_trans; [by apply (sends_keep_peers d1)|]. destruct Hq as [ts ->].
    apply (sends_keep_peers d1); [by apply (sends_described d1)|apply quiet_sends]. }
  rewrite (quiet_inbox _ _ _ Hq), (inbox_sends _ _ d1), Hacc by done.
  by rewrite (wires_arrive h d1 d2 o a).
Qed.

(** The oldest datagrams of a queue come out as packets. *)
Lemma recv_batch_inbox linux F fuel k d n s bs b h : Forall described h → is_open d →
  sock_inv d n s → n < 2 ^ 64 - 1 → recv_wf bs b → RecvBatchRaw.capacity b ≠ 0%nat →
  (RecvBatchRaw.capacity b ≤ UIO_MAXIOV)%nat → (0 < fuel)%nat → inbox h d ≠ [] →
  wp (BingerUdp.recv_batch (B := unix_backend linux F fuel) F (S k) s b)
    (λ rsb h', rsb.1.1 = Ok (Nat.min (RecvBatchRaw.capacity b) (length (inbox h d))) ∧
       sock_inv d (n + 1) rsb.1.2 ∧ recv_wf bs rsb.2 ∧
       RecvBatchRaw.capacity rsb.2 = RecvBatchRaw.capacity b ∧
       net_recv_post d bs (RecvBatchRaw.capacity b) h (packets rsb.2) h') h.
Proof.
  intros Hh Hop Hs Hn Hwf Hc Hmax Hfuel Hq.
  destruct (wp_elim _ _ _ (net_recv linux F fuel d bs b h Hh Hop Hwf Hc Hmax Hfuel Hq))
    as ([r b'] & h1 & E & Hr & Hwf' & Hcap & Hps & Hin & Hpe). simpl in *. subst r.
  assert (length (inbox h d) ≠ 0%nat) by (by intros ?%nil_length_inv).
  eapply wp_mono; [eapply (recv_batch_now (B := unix_backend linux F fuel)); [done|done| |exact E]; lia|].
  intros [[r s'] b''] h' (Hr & Hb & Hs' & Hqu); simpl in *. subst.
  split; [done|]. split; [done|]. split; [done|]. split; [done|]. split; [done|].
  rewrite (quiet_inbox _ _ _ Hqu). split; [done|]. eapply keeps_peers_trans; [exact Hpe|].
  destruct Hqu as [ts ->]. apply (sends_keep_peers d); [by destruct Hpe|apply quiet_sends].
Qed.
End end_to_end.

(** C11: end to end. On a host that neither loses nor reorders, [send_batch] of a batch of legal datagrams
    to the address of another open socket, which the sender reaches, succeeds with the whole batch, and [recv_batch] on that socket then returns the
    datagrams that were already waiting followed by those of the batch, as far as the receive batch
    has slots: each once, in order, with its payload (cut to the slot size) and the sender's address.
    What does not fit stays queued. The entries carry the destination, or the sender is connected to it
    and they carry none; both sides can use the Linux or the portable backend. *)
Theorem send_batch_recv_batch {L : Libc} {LL : LibcLaws} {K : Kernel} {KL : KernelLaws} {N : Network}
    {NL : NetworkLaws} {P : Profile} linux1 linux2 F fuel k cap bs d1 d2 n1 n2 s1 s2 a1 a2 o b bss rb h :
  Forall described h → route h d1 o a2 → is_open d2 → peer h d2 = None →
  sock_inv d1 n1 s1 → n1 < 2 ^ 64 - 1 → sock_inv d2 n2 s2 → n2 < 2 ^ 64 - 1 →
  bound d1 = name_of a1 → addr_ok a1 → owner (name_of a2) = Some d2 →
  send_wf cap b → payloads h b bss → all_for o b bss → (0 < SendBatchRaw.len b ≤ UIO_MAXIOV)%nat →
  recv_wf bs rb → (0 < RecvBatchRaw.capacity rb ≤ UIO_MAXIOV)%nat → (0 < fuel)%nat →
  ∃ s1' h1 s2' rb' h2,
    BingerUdp.send_batch (B := unix_backend linux1 F fuel) F (S k) s1 b h =
      Ret ((Ok (SendBatchRaw.len b), s1'), h1) ∧
    BingerUdp.recv_batch (B := unix_backend linux2 F fuel) F (S k) s2 rb h1 =
      Ret ((Ok (RecvBatchRaw.len rb'), s2', rb'), h2) ∧
    packets rb' = take (RecvBatchRaw.capacity rb)
      ((net_packet bs <$> inbox h d2) ++ ((λ d, (take bs d, a1)) <$> bss)) ∧
    inbox h2 d2 = drop (RecvBatchRaw.capacity rb) (inbox h d2 ++ from_socket d1 bss).
Proof.
  intros Hh Hrt Hop2 Hp2 Hs1 Hn1 Hs2 Hn2 Hb Hok Ho Hwf Hp Ha [Hne Hmax] Hrwf [Hc Hcmax] Hfuel.
  destruct (wp_elim _ _ _ (send_batch_inbox linux1 F fuel k d1 d2 n1 s1 cap o a2 b bss h
    Hh Hrt Hp2 Hs1 Hn1 Hwf Hp Ha ltac:(lia) Hmax Ho)) as ([r1 s1'] & h1 & E1 & Hr1 & _ & [Hh1 _] & Hin1).
  simpl in Hr1. subst r1.
  assert (Hlb : length bss = SendBatchRaw.len b) by by eapply length_payloads.
  assert (Hq : inbox h1 d2 ≠ []).
  { rewrite Hin1. intros [_ Hz%fmap_nil_inv]%app_nil. subst bss. simpl in Hlb. lia. }
  destruct (wp_elim _ _ _ (recv_batch_inbox linux2 F fuel k d2 n2 s2 bs rb h1
    Hh1 Hop2 Hs2 Hn2 Hrwf ltac:(lia) Hcmax Hfuel Hq)) as ([[r2 s2'] rb'] & h2 & E2 & Hr2 & _ & Hwf2 & _ & Hps & Hin2 & _).
  simpl in *. rewrite Hin1 in Hps, Hin2. exists s1', h1, s2', rb', h2. split; [exact E1|].
  split_and!; [|rewrite Hps|exact Hin2].
  - rewrite E2, Hr2. do 4 f_equal. rewrite <- (length_packets bs rb') by done.
    by rewrite Hps, Hin1, length_fmap, length_take.
  - rewrite fmap_take, fmap_app. do 2 f_equal. by eapply from_socket_packets; [..|apply Ha].
Qed.

(** ** An executable host

    Sockets [binds] with their addresses and live buffers [mem]. A socket sends to the addresses of its
    own family; the calls that are not about datagrams succeed. *)
Section loop_kernel.
Context {L : Libc} (mem : memory) (binds : list (Fd * SocketAddr)).

Definition loop_network : Network := {|
  bound fd := name_of (default unspecified ((λ p, p.2.2) <$> list_find (λ p, p.1 = fd) binds));
  owner nm := (λ p, p.2.1) <$> list_find (λ p, p.2 = decode_sockaddr nm.1 nm.2) binds;
  is_open fd := bool_decide (fd ∈ binds.*1);
  reaches fd nm :=
    match (λ p, p.2.2) <$> list_find (λ p, p.1 = fd) binds, decode_sockaddr nm.1 nm.2 with
    | Some (V4 _), V4 _ => nm.2 =? SIZEOF_SOCKADDR_IN
    | Some (V6 _), V6 _ => nm.2 =? SIZEOF_SOCKADDR_IN6
    | _, _ => false
    end;
|}.
#[local] Existing Instance loop_network.

Definition loop_sendable (h : history) (fd : Fd) (w : wire_msg) : bool :=
  is_open fd && (Z.of_nat (length (wm_data w)) <=? MAX_UDP_PAYLOAD) &&
  match destination h fd w with Some nm => reaches fd nm | None => false end.
Fixpoint loop_prefix (h : history) (fd : Fd) (ws : list wire_msg) : nat :=
  match ws with w :: ws => if loop_sendable h fd w then S (loop_prefix h fd ws) else 0 | [] => 0 end.

Definition loop_send (h : history) (fd : Fd) (w : wire_msg) : Z :=
  if loop_sendable h fd w then Z.of_nat (length (wm_data w)) else -1.
Definition loop_inbox (h : history) (fd : Fd) : list datagram := if is_open fd then inbox h fd else [].
Definition loop_recvfrom (h : history) (fd : Fd) (n : nat) : recv_out :=
  match loop_inbox h fd with
  | q :: _ => let d := udp_bytes n q.1 in MkRecvOut (Z.of_nat (length d)) d q.2.1 q.2.2
  | [] => MkRecvOut (-1) [] storage_zeroed 0
  end.
Definition loop_recvmmsg (h : history) (fd : Fd) (lens : list nat) : Z * list mmsg_out :=
  let outs := zip_with net_out (take UIO_MAXIOV lens) (loop_inbox h fd) in
  if bool_decide (outs = []) then (-1, []) else (Z.of_nat (length outs), outs).
Definition loop_option (fd : Fd) (level name : Z) (v : Z) (ev : event) : Z :=
  match ev with
  | EvSetsockopt d l o x _ => if bool_decide ((d, l, o) = (fd, level, name)) then x else v
  | _ => v
  end.

Definition loop_kernel : Kernel := {|
  k_send h fd d := loop_send h fd (MkWire d None);
  k_sendto h fd d st n := loop_send h fd (MkWire d (Some (st, n)));
  k_sendmmsg h fd msgs :=
    let n := loop_prefix h fd (take UIO_MAXIOV msgs) in
    if (n =? 0)%nat && negb (bool_decide (msgs = [])) then -1 else Z.of_nat n;
  k_sendmsg _ _ _ _ _ := -1;
  k_recvfrom := loop_recvfrom;
  k_recvmmsg := loop_recvmmsg;
  k_getpeername h fd := match peer h fd with Some _ => 0 | None => -1 end;
  k_getsockname _ fd := (0, bound fd);
  k_connect _ _ _ _ := 0;
  k_setsockopt _ _ _ _ _ := 0;
  k_getsockopt h fd level name := (0, foldl (loop_option fd level name) 0 h);
  k_nonblocking _ _ := Ok tt;
  k_register _ _ := Ok tt;
  k_runtime := true;
  k_writable _ _ := Ok tt;
  k_readable _ _ := Ok tt;
  k_now h := Z.of_nat (length h);
  k_errno _ := EAGAIN;
  k_mem _ := mem;
|}.

#[local] Existing Instance loop_kernel.

Lemma loop_prefix_le h fd ws : (loop_prefix h fd ws ≤ length ws)%nat.
Proof. induction ws as [|w ws IH]; simpl; [lia|]. case_match; lia. Qed.

Lemma loop_sendable_spec h fd w : sendable h fd w → loop_sendable h fd w = true.
Proof.
  intros (Hop & Hs & nm & Hd & Hre). unfold loop_sendable. rewrite Hd.
  rewrite (proj2 (Z.leb_le _ _)) by done. apply andb_true_intro. split; [|by apply Is_true_true].
  apply andb_true_intro. split; [by apply Is_true_true|done].
Qed.

Lemma loop_prefix_all h fd ws : Forall (sendable h fd) ws → loop_prefix h fd ws = length ws.
Proof.
  induction 1 as [|w ws Hw _ IH]; [done|]. cbn [loop_prefix length].
  by rewrite loop_sendable_spec, IH.
Qed.

Lemma loop_kernel_laws : KernelLaws.
Proof.
  split; simpl; unfold loop_recvfrom, loop_recvmmsg.
  - intros h fd msgs. pose proof (loop_prefix_le h fd (take UIO_MAXIOV msgs)) as Hp.
    rewrite length_take in Hp. case_match; lia.
  - intros h fd n. by destruct (loop_inbox h fd).
  - intros h fd n. destruct (loop_inbox h fd); simpl; [lia|apply udp_bytes_le].
  - intros h fd n. destruct (loop_inbox h fd); simpl; [lia|apply udp_bytes_udp].
  - intros h fd lens ret outs. case_bool_decide; intros [= <- <-] ?; [lia|].
    split; [done|]. rewrite length_zip_with, length_take. lia.
  - intros h fd lens ret outs. case_bool_decide; intros [= <- <-] ?; [done|lia].
  - intros h fd lens ret outs i m n. case_bool_decide; intros [= _ <-]; [done|].
    intros (n' & q & -> & Hn' & _)%lookup_zip_with_Some Hn.
    apply lookup_take_Some in Hn' as [Hn' _]. simplify_eq. apply net_out_ok.
Qed.

Lemma loop_inbox_open h fd : is_open fd → loop_inbox h fd = inbox h fd.
Proof. intros Hop%Is_true_true. unfold loop_inbox. by rewrite Hop. Qed.

Lemma loop_network_laws : NetworkLaws.
Proof.
  split; cbn -[is_open]; unfold loop_recvfrom, loop_recvmmsg.
  - intros h fd n q rest _ Hop Hq. by rewrite loop_inbox_open, Hq.
  - intros h fd n _ Hop Hq. by rewrite loop_inbox_open, Hq.
  - intros h fd lens _ Hop Hq Hl. rewrite loop_inbox_open by done. rewrite bool_decide_eq_false_2; [done|].
    destruct lens, (inbox h fd); done.
  - intros h fd msgs Hw Hl. rewrite take_ge, loop_prefix_all by done.
    destruct msgs; [done|]. simpl. done.
  - intros h fd d st n Hw. unfold loop_send. rewrite loop_sendable_spec by done. simpl. lia.
  - intros h fd d Hw. unfold loop_send. rewrite loop_sendable_spec by done. simpl. lia.
  - intros h fd _. by destruct (peer h fd); split; [eauto|done|done|intros [? ?]].
Qed.
End loop_kernel.

(** Two sockets on the loopback address, and the buffers of [sample_mem]. *)
Definition pair_network : @Network linux_le := loop_network [(3, localhost 9000); (4, localhost 9001)].
Definition pair_kernel : @Kernel linux_le := loop_kernel sample_mem [(3, localhost 9000); (4, localhost 9001)].

Definition pair_socket (fd : Fd) : BingerUdp.t := BingerUdp.Mk fd None None None.

(** The batch "hello", [1; 2] without destinations. *)
Definition pair_batch : SendBatchRaw.t :=
  (SendBatchRaw.push (SendBatchRaw.push (SendBatchRaw.with_capacity 2) hello None).2 bytes12 None).2.

(** The first socket is connected to the second one. *)
Definition pair_connected : @history linux_le :=
  let nm := @name_of linux_le (localhost 9001) in [EvConnect 3 nm.1 nm.2 0].

Lemma send_batch_recv_batch_witness :
  ∃ s1' h1 s2' rb' h2,
    BingerUdp.send_batch (K := pair_kernel) (B := unix_backend (K := pair_kernel) true tokio_only 1)
      (P := true) tokio_only 1 (pair_socket 3) pair_batch pair_connected = Ret ((Ok 2%nat, s1'), h1) ∧
    BingerUdp.recv_batch (K := pair_kernel) (B := unix_backend (K := pair_kernel) false tokio_only 1)
      (P := true) tokio_only 1 (pair_socket 4) (RecvBatchRaw.with_capacity 4 16) h1 =
      Ret ((Ok (RecvBatchRaw.len rb'), s2', rb'), h2) ∧
    packets rb' = [([104; 101; 108; 108; 111], localhost 9000); ([1; 2], localhost 9000)].
Proof.
  destruct (@send_batch_recv_batch linux_le (unix_libc_laws Linux true) pair_kernel
    (loop_kernel_laws _ _) pair_network (loop_network_laws _ _) true true false tokio_only 1 0 2 16 3 4 0 0
    (pair_socket 3) (pair_socket 4) (localhost 9000) (localhost 9001) None pair_batch
    [[104; 101; 108; 108; 111]; [1; 2]] (RecvBatchRaw.with_capacity 4 16) pair_connected)
    as (s1' & h1 & s2' & rb' & h2 & E1 & E2 & Hp & _).
  - by repeat constructor.
  - split; [done|]. split; [done|]. by right.
  - done.
  - done.
  - by repeat split.
  - lia.
  - by repeat split.
  - lia.
  - reflexivity.
  - split_and!; [done|by repeat constructor|simpl; lia|simpl; lia].
  - reflexivity.
  - repeat split; simpl; lia.
  - repeat constructor.
  - repeat constructor; unfold udp_size, MAX_UDP_PAYLOAD; simpl; lia.
  - unfold UIO_MAXIOV; simpl; lia.
  - apply with_capacity_recv_wf.
  - change (RecvBatchRaw.capacity _) with 4%nat. unfold UIO_MAXIOV. lia.
  - lia.
  - exists s1', h1, s2', rb', h2. split; [exact E1|]. split; [exact E2|exact Hp].
Defined.
