(* ===== verification/Tests.v ===== *)
(** * The unit tests of the crate

    The [#[test]] functions of src/batch.rs, src/bufs.rs, src/metrics.rs and src/sockaddr/unix.rs as
    programs over the definitions that model the code under test. A failed assertion, an [unwrap] of an
    error and a panic of the code all end a test with [Panic]. Byte strings are static memory; the sockets
    of the address tests live on the host of [Network.v]. The formatting of debug strings is left out. *)
From Stdlib Require Import SpecFloat.
From stdpp Require Import strings.
From S2P Require Import Prelude Libc UnixAbi Sockaddr Batch Backend Fallback LinuxSend LinuxRecv.
From S2P Require Import F64 Metrics Bufs Socket Network.
#[local] Open Scope Z_scope.

(** ** Static byte strings *)
Definition bytes_of (s : string) : list Z :=
  (λ a, Z.of_N (Ascii.N_of_ascii a)) <$> String.list_ascii_of_string s.

(** One allocation per string; the [i]-th one has identifier [i]. *)
Definition static_mem (strs : list string) : memory :=
  list_to_map (imap (λ i s, (N.of_nat i, bytes_of s)) strs).
Definition static (strs : list string) (s : string) : slice :=
  match list_find (λ x, x = s) strs with
  | Some (i, _) => MkSlice (MkPtr (N.of_nat i) 0) (String.length s)
  | None => MkSlice (MkPtr (N.of_nat (length strs)) 0) (String.length s)
  end.

(** ** Assertions *)
Section assertions.
Context {L : Libc}.

Definition assert (b : bool) : IO unit := if b then mret tt else λ _, Panic.
Definition assert_eq {A} `{EqDecision A} (x y : A) : IO unit := assert (bool_decide (x = y)).
Definition unwrap {A E} (r : result A E) : IO A :=
  match r with Ok a => mret a | Err _ => λ _, Panic end.

(** [batch.push(..).unwrap()], and [unwrap_err()] compared with the expected error. *)
Definition pushed {B} (r : result unit BingerError * B) : IO B := let! _ := unwrap r.1 in mret r.2.
Definition batch_full {B} (r : result unit BingerError * B) (n : nat) : IO unit :=
  match r.1 with Err (BatchFull c) => assert_eq c n | _ => λ _, Panic end.

(** A test passes when it returns. *)
Definition passes (t : IO unit) : Prop := ∃ h, t [] = Ret (tt, h).
Definition passes_bool (t : IO unit) : bool := match t [] with Ret _ => true | _ => false end.
End assertions.

(** ** src/batch.rs *)
Module BatchTests.
Definition strs : list string :=
  ["hello"; "a"; "b"; "c"; "data"; "test data"; "no-destination"]%string.

Section tests.
Context {L : Libc} {K : Kernel}.

Abbreviation lit s := (static strs s%string).
Definition a8080 : SocketAddr := localhost 8080.

(** [assert_eq!(batch.entry(i).0, ..)] and the destination of the entry. *)
Definition entry_data (b : SendBatchRaw.t) (i : nat) : IO (list Z) :=
  let! '(d, _) := SendBatchRaw.entry b i in read_slice d.
Definition entry_addr (b : SendBatchRaw.t) (i : nat) : IO (option SocketAddr) :=
  let! '(_, a) := SendBatchRaw.entry b i in mret a.
Definition entry_is (b : SendBatchRaw.t) (i : nat) (s : string) : IO unit :=
  let! d := entry_data b i in assert_eq d (bytes_of s).

Definition send_batch_new_is_empty : IO unit :=
  let batch := SendBatch.new 4 in
  let! _ := assert_eq (SendBatch.len batch) 0%nat in
  let! _ := assert (SendBatch.is_empty batch) in
  assert_eq (SendBatch.capacity batch) 4%nat.

Definition send_batch_push_increments_len : IO unit :=
  let! batch := pushed (SendBatch.push (SendBatch.new 4) (lit "hello") a8080) in
  let! _ := assert_eq (SendBatch.len batch) 1%nat in
  assert (negb (SendBatch.is_empty batch)).

Definition send_batch_push_multiple : IO unit :=
  let! batch := pushed (SendBatch.push (SendBatch.new 4) (lit "a") a8080) in
  let! batch := pushed (SendBatch.push batch (lit "b") a8080) in
  let! batch := pushed (SendBatch.push batch (lit "c") a8080) in
  let! _ := assert_eq (SendBatch.len batch) 3%nat in
  let! _ := entry_is (SendBatch.raw batch) 0 "a" in
  let! _ := entry_is (SendBatch.raw batch) 1 "b" in
  entry_is (SendBatch.raw batch) 2 "c".

Definition send_batch_push_batch_full : IO unit :=
  let! batch := pushed (SendBatch.push (SendBatch.new 2) (lit "a") a8080) in
  let! batch := pushed (SendBatch.push batch (lit "b") a8080) in
  batch_full (SendBatch.push batch (lit "c") a8080) 2.

Definition send_batch_push_connected_addr_is_none : IO unit :=
  let! batch := pushed (SendBatch.push_connected (SendBatch.new 4) (lit "hello")) in
  let! _ := assert_eq (SendBatch.len batch) 1%nat in
  let! _ := entry_is (SendBatch.raw batch) 0 "hello" in
  let! a := entry_addr (SendBatch.raw batch) 0 in assert_eq a None.

Definition send_batch_clear_resets_len : IO unit :=
  let! batch := pushed (SendBatch.push (SendBatch.new 4) (lit "a") a8080) in
  let! batch := pushed (SendBatch.push batch (lit "b") a8080) in
  let! _ := assert_eq (SendBatch.len batch) 2%nat in
  let batch := SendBatch.clear batch in
  let! _ := assert_eq (SendBatch.len batch) 0%nat in
  assert (SendBatch.is_empty batch).

Definition send_batch_default_trait : IO unit :=
  let batch := SendBatch.new 4 in
  let! _ := assert_eq (SendBatch.len batch) 0%nat in
  let! _ := assert (SendBatch.is_empty batch) in
  assert_eq (SendBatch.capacity batch) 4%nat.

Definition send_batch_capacity_returns_const_generic : IO unit :=
  let! _ := assert_eq (SendBatch.capacity (SendBatch.new 16)) 16%nat in
  assert_eq (SendBatch.capacity (SendBatch.new 1)) 1%nat.

Definition send_batch_deref_to_raw : IO unit :=
  let! batch := pushed (SendBatch.push (SendBatch.new 4) (lit "data") a8080) in
  let! _ := entry_is (SendBatch.raw batch) 0 "data" in
  let! a := entry_addr (SendBatch.raw batch) 0 in assert_eq a (Some a8080).

(** [batch.data(i).is_empty()] *)
Definition data_empty (b : RecvBatchRaw.t) (i : nat) : IO unit :=
  let! d := lift (RecvBatchRaw.data b i) in assert_eq d [].
Definition data_is (b : RecvBatchRaw.t) (i : nat) (s : string) : IO unit :=
  let! d := lift (RecvBatchRaw.data b i) in assert_eq d (bytes_of s).
Definition addr_is (b : RecvBatchRaw.t) (i : nat) (a : SocketAddr) : IO unit :=
  let! x := lift (RecvBatchRaw.addr b i) in assert_eq x a.

(** [let (buf, slot_addr) = batch.buffer_mut(i); buf[..n].copy_from_slice(..); *slot_addr = addr;
    batch.set_recv_len(i, n);] *)
Definition copy_in (b : RecvBatchRaw.t) (i : nat) (s : string) : outcome RecvBatchRaw.t :=
  let? bf := RecvBatchRaw.buffer b i in
  if (String.length s <=? length bf)%nat then RecvBatchRaw.set_buffer b i (blit (bytes_of s) bf) else Panic.
Definition receive_into (b : RecvBatchRaw.t) (i : nat) (s : string) (a : SocketAddr) : outcome RecvBatchRaw.t :=
  let? b := copy_in b i s in
  let? b := RecvBatchRaw.set_addr b i a in
  RecvBatchRaw.set_recv_len b i (Z.of_nat (String.length s)).

Definition recv_batch_new_has_correct_capacity : IO unit :=
  let batch := RecvBatch.new 4 1024 in
  let! _ := assert_eq (RecvBatch.capacity batch) 4%nat in
  let! _ := assert_eq (RecvBatch.len batch) 0%nat in
  assert (RecvBatch.is_empty batch).

Definition recv_batch_data_returns_empty_slice_initial : IO unit :=
  let batch := RecvBatch.raw (RecvBatch.new 4 1024) in
  let! _ := data_empty batch 0 in
  let! _ := data_empty batch 1 in
  let! _ := data_empty batch 2 in
  data_empty batch 3.

Definition recv_batch_addr_returns_default_initial : IO unit :=
  let batch := RecvBatch.raw (RecvBatch.new 4 1024) in
  let! _ := addr_is batch 0 (V4 (MkV4 [0; 0; 0; 0] 0)) in
  addr_is batch 3 (V4 (MkV4 [0; 0; 0; 0] 0)).

Definition recv_batch_simulate_receive : IO unit :=
  let! batch := lift (receive_into (RecvBatch.raw (RecvBatch.new 4 64)) 0 "hello" (localhost 9000)) in
  let batch := RecvBatchRaw.set_len batch 1 in
  let! _ := assert_eq (RecvBatchRaw.len batch) 1%nat in
  let! _ := data_is batch 0 "hello" in
  addr_is batch 0 (localhost 9000).

Definition recv_batch_clear_resets_len_and_recv_data : IO unit :=
  let! batch := lift (receive_into (RecvBatch.raw (RecvBatch.new 4 64)) 0 "hello" (localhost 9000)) in
  let batch := RecvBatchRaw.clear (RecvBatchRaw.set_len batch 1) in
  let! _ := assert_eq (RecvBatchRaw.len batch) 0%nat in
  let! _ := assert (RecvBatchRaw.is_empty batch) in
  data_empty batch 0.

Definition recv_batch_iter_empty : IO unit :=
  let! items := lift (RecvBatch.iter (RecvBatch.new 4 64)) in assert_eq items [].

Definition recv_batch_iter_yields_correct_items : IO unit :=
  let! b := lift (receive_into (RecvBatch.raw (RecvBatch.new 4 64)) 0 "ab" (localhost 9001)) in
  let! b := lift (receive_into b 1 "cde" (localhost 9002)) in
  let batch := RecvBatch.Mk (N := 4) (RecvBatchRaw.set_len b 2) in
  let! items := lift (RecvBatch.iter batch) in
  let! _ := assert_eq (length items) 2%nat in
  let! x := lift (oindex items 0) in
  let! _ := assert_eq x (bytes_of "ab", localhost 9001) in
  let! x := lift (oindex items 1) in
  assert_eq x (bytes_of "cde", localhost 9002).

Definition recv_batch_capacity_returns_const_generic : IO unit :=
  let! _ := assert_eq (RecvBatch.capacity (RecvBatch.new 8 512)) 8%nat in
  assert_eq (RecvBatch.capacity (RecvBatch.new 2 512)) 2%nat.

Definition send_raw_with_capacity_creates_empty : IO unit :=
  let raw := SendBatchRaw.with_capacity 4 in
  let! _ := assert_eq (SendBatchRaw.len raw) 0%nat in
  assert (SendBatchRaw.is_empty raw).

Definition send_raw_push_with_addr : IO unit :=
  let a := V4 (MkV4 [10; 0; 0; 1] 1234) in
  let! raw := pushed (SendBatchRaw.push (SendBatchRaw.with_capacity 4) (lit "test data") (Some a)) in
  let! _ := assert_eq (SendBatchRaw.len raw) 1%nat in
  let! _ := entry_is raw 0 "test data" in
  let! x := entry_addr raw 0 in assert_eq x (Some a).

Definition send_raw_push_without_addr : IO unit :=
  let! raw := pushed (SendBatchRaw.push (SendBatchRaw.with_capacity 4) (lit "no-destination") None) in
  let! _ := entry_is raw 0 "no-destination" in
  let! x := entry_addr raw 0 in assert_eq x None.

Definition send_raw_batch_full : IO unit :=
  let! raw := pushed (SendBatchRaw.push (SendBatchRaw.with_capacity 2) (lit "a") (Some a8080)) in
  let! raw := pushed (SendBatchRaw.push raw (lit "b") (Some a8080)) in
  batch_full (SendBatchRaw.push raw (lit "c") (Some a8080)) 2.

Definition send_raw_clear_resets_len : IO unit :=
  let! raw := pushed (SendBatchRaw.push (SendBatchRaw.with_capacity 4) (lit "a") (Some a8080)) in
  let! raw := pushed (SendBatchRaw.push raw (lit "b") (Some a8080)) in
  let! _ := assert_eq (SendBatchRaw.len raw) 2%nat in
  let raw := SendBatchRaw.clear raw in
  let! _ := assert_eq (SendBatchRaw.len raw) 0%nat in
  assert (SendBatchRaw.is_empty raw).

Definition send_raw_after_clear_can_push_again : IO unit :=
  let! raw := pushed (SendBatchRaw.push (SendBatchRaw.with_capacity 2) (lit "a") (Some a8080)) in
  let! raw := pushed (SendBatchRaw.push raw (lit "b") (Some a8080)) in
  let! raw := pushed (SendBatchRaw.push (SendBatchRaw.clear raw) (lit "c") (Some a8080)) in
  let! _ := assert_eq (SendBatchRaw.len raw) 1%nat in
  entry_is raw 0 "c".

Definition recv_raw_with_capacity : IO unit :=
  let raw := RecvBatchRaw.with_capacity 3 128 in
  let! _ := assert_eq (RecvBatchRaw.capacity raw) 3%nat in
  let! _ := assert_eq (RecvBatchRaw.len raw) 0%nat in
  assert (RecvBatchRaw.is_empty raw).

Definition recv_raw_buffer_mut_returns_slice_and_addr_mut : IO unit :=
  let raw := RecvBatchRaw.with_capacity 2 64 in
  let new_addr := V4 (MkV4 [192; 168; 1; 1] 9999) in
  let! bf := lift (RecvBatchRaw.buffer raw 0) in
  let! _ := assert_eq (length bf) 64%nat in
  let! _ := addr_is raw 0 (V4 (MkV4 [0; 0; 0; 0] 0)) in
  let! raw := lift (RecvBatchRaw.set_addr raw 0 new_addr) in
  addr_is raw 0 new_addr.

Definition recv_raw_set_recv_len_and_data : IO unit :=
  let! raw := lift (copy_in (RecvBatchRaw.with_capacity 1 32) 0 "data") in
  let! raw := lift (RecvBatchRaw.set_recv_len raw 0 4) in
  let! _ := data_is raw 0 "data" in
  let! d := lift (RecvBatchRaw.data raw 0) in assert_eq (length d) 4%nat.

Definition recv_raw_set_len_updates_len : IO unit :=
  let raw := RecvBatchRaw.with_capacity 4 32 in
  let! _ := assert_eq (RecvBatchRaw.len raw) 0%nat in
  let raw := RecvBatchRaw.set_len raw 2 in
  let! _ := assert_eq (RecvBatchRaw.len raw) 2%nat in
  let! _ := assert (negb (RecvBatchRaw.is_empty raw)) in
  let raw := RecvBatchRaw.set_len raw 0 in
  let! _ := assert_eq (RecvBatchRaw.len raw) 0%nat in
  assert (RecvBatchRaw.is_empty raw).

Definition recv_raw_clear_resets_len_and_recv_len : IO unit :=
  let a := V4 (MkV4 [10; 0; 0; 1] 5555) in
  let! raw := lift (receive_into (RecvBatchRaw.with_capacity 2 32) 0 "foo" a) in
  let! raw := lift (receive_into raw 1 "bar" a) in
  let raw := RecvBatchRaw.clear (RecvBatchRaw.set_len raw 2) in
  let! _ := assert_eq (RecvBatchRaw.len raw) 0%nat in
  let! _ := assert (RecvBatchRaw.is_empty raw) in
  let! _ := data_empty raw 0 in
  data_empty raw 1.

Definition recv_raw_untouched_slot_data_is_empty : IO unit :=
  let raw := RecvBatchRaw.with_capacity 4 32 in
  let! _ := data_empty raw 0 in
  data_empty raw 3.

(** [ts.as_duration()] as seconds and nanoseconds. *)
Definition duration_is (ts : Timestamp) (secs nanos : Z) : IO unit :=
  let! dur := lift (as_duration ts) in
  let! _ := assert_eq dur.1 secs in
  assert_eq dur.2 nanos.
Definition timestamp_as_duration_basic : IO unit := duration_is (MkTimestamp 1 500000000) 1 500000000.
Definition timestamp_as_duration_zero : IO unit := duration_is (MkTimestamp 0 0) 0 0.
Definition timestamp_as_duration_large_values : IO unit :=
  duration_is (MkTimestamp 1000000 123456789) 1000000 123456789.

Definition all : list (IO unit) :=
  [send_batch_new_is_empty; send_batch_push_increments_len; send_batch_push_multiple;
   send_batch_push_batch_full; send_batch_push_connected_addr_is_none; send_batch_clear_resets_len;
   send_batch_default_trait; send_batch_capacity_returns_const_generic; send_batch_deref_to_raw;
   recv_batch_new_has_correct_capacity; recv_batch_data_returns_empty_slice_initial;
   recv_batch_addr_returns_default_initial; recv_batch_simulate_receive;
   recv_batch_clear_resets_len_and_recv_data; recv_batch_iter_empty;
   recv_batch_iter_yields_correct_items; recv_batch_capacity_returns_const_generic;
   send_raw_with_capacity_creates_empty; send_raw_push_with_addr; send_raw_push_without_addr;
   send_raw_batch_full; send_raw_clear_resets_len; send_raw_after_clear_can_push_again;
   recv_raw_with_capacity; recv_raw_buffer_mut_returns_slice_and_addr_mut;
   recv_raw_set_recv_len_and_data; recv_raw_set_len_updates_len; recv_raw_clear_resets_len_and_recv_len;
   recv_raw_untouched_slot_data_is_empty; timestamp_as_duration_basic; timestamp_as_duration_zero;
   timestamp_as_duration_large_values].
End tests.
End BatchTests.

(** ** src/metrics.rs *)
Module MetricsTests.
#[local] Open Scope prog_scope.
Section tests.
Context {L : Libc}.

(** [f64::EPSILON] and [(x - y).abs() < f64::EPSILON]. *)
Definition EPSILON : spec_float := S754_finite false (2 ^ 52) (-104).
Definition close_to (x y : spec_float) : IO unit :=
  assert (f64_lt (SFabs (SFsub 53 1024 x y)) EPSILON).
Definition counter_is (m : BingerMetrics) (c : counter) (n : Z) : IO unit := assert_eq (load m c) n.
Fixpoint counters_are (m : BingerMetrics) (cs : list (counter * Z)) : IO unit :=
  match cs with
  | [] => mret tt
  | (c, n) :: cs => let! _ := counter_is m c n in counters_are m cs
  end.

Definition default_all_zero : IO unit :=
  counters_are metrics_default
    [(packets_sent, 0); (packets_received, 0); (batches_sent, 0); (batches_received, 0);
     (send_syscalls, 0); (recv_syscalls, 0); (send_errors, 0); (recv_errors, 0);
     (send_would_block, 0); (recv_would_block, 0)].

Definition inc_counters : IO unit :=
  let m := exec (inc_packets_sent 10;; inc_packets_received 5;; inc_batches_sent;; inc_batches_received;;
                 inc_send_syscalls;; inc_recv_syscalls;; inc_send_errors;; inc_recv_errors;;
                 inc_send_would_block;; inc_recv_would_block) metrics_default in
  counters_are m
    [(packets_sent, 10); (packets_received, 5); (batches_sent, 1); (batches_received, 1);
     (send_syscalls, 1); (recv_syscalls, 1); (send_errors, 1); (recv_errors, 1);
     (send_would_block, 1); (recv_would_block, 1)].

Definition inc_accumulates : IO unit :=
  counter_is (exec (inc_packets_sent 3;; inc_packets_sent 7) metrics_default) packets_sent 10.

Definition snapshot_matches_counters : IO unit :=
  let m := exec (inc_packets_sent 32;; inc_batches_sent) metrics_default in
  let '(s, _) := run_prog snapshot m in
  let! _ := assert_eq (snap s packets_sent) 32 in
  let! _ := assert_eq (snap s batches_sent) 1 in
  assert_eq (snap s packets_received) 0.

Definition reset_clears_all : IO unit :=
  let m := exec (inc_packets_sent 100;; inc_send_syscalls) metrics_default in
  let '(_, m) := run_prog reset m in
  counters_are m [(packets_sent, 0); (send_syscalls, 0)].

Definition efficiency_ratio_no_syscalls : IO unit :=
  assert (f64_lt (SFabs (syscall_efficiency_ratio metrics_default)) EPSILON).

(** [n] datagrams in [k] calls have efficiency [n / k]. *)
Definition ratio_is (n : Z) (k : nat) (r : Z) : IO unit :=
  let m := Nat.iter k (exec inc_send_syscalls) (exec (inc_packets_sent n) metrics_default) in
  close_to (syscall_efficiency_ratio m) (as_f64 r).
Definition efficiency_ratio_perfect_batching : IO unit := ratio_is 32 1 32.
Definition efficiency_ratio_no_batching : IO unit := ratio_is 1 1 1.
Definition efficiency_ratio_mixed : IO unit := ratio_is 100 10 10.

Definition snapshot_efficiency_matches : IO unit :=
  let m := exec (inc_packets_sent 64;; inc_send_syscalls) metrics_default in
  close_to (syscall_efficiency (run_prog snapshot m).1) (as_f64 64).

Definition snapshot_debug_clone_copy : IO unit :=
  let s := (run_prog snapshot (exec (inc_packets_sent 1) metrics_default)).1 in
  assert_eq (snap s packets_sent) 1.

Definition all : list (IO unit) :=
  [default_all_zero; inc_counters; inc_accumulates; snapshot_matches_counters; reset_clears_all;
   efficiency_ratio_no_syscalls; efficiency_ratio_perfect_batching; efficiency_ratio_no_batching;
   efficiency_ratio_mixed; snapshot_efficiency_matches; snapshot_debug_clone_copy].
End tests.
End MetricsTests.

(** ** src/sockaddr/unix.rs

    [UdpSocket::bind("127.0.0.1:0")] gives one of two sockets, [recv] and [send], with ports that the
    system assigned. *)
Module SockaddrTests.
Definition strs : list string := ["hello udp"; "connected data"; "connect test"]%string.
Definition recv : Fd := 3.
Definition send : Fd := 4.
Definition binds : list (Fd * SocketAddr) := [(recv, localhost 40001); (send, localhost 40002)].

Section tests.
Context {L : Libc} {K : Kernel}.

Abbreviation lit s := (static strs s%string).

(** [UdpSocket::local_addr] *)
Definition std_local_addr (fd : Fd) : IO SocketAddr := let! r := raw_getsockname fd in unwrap r.

(** Encode into a zeroed block, decode, compare. *)
Definition encode_decode (a : SocketAddr) : IO unit :=
  let '(len, st) := encode_sockaddr a storage_zeroed in
  assert_eq a (decode_sockaddr st len).
Definition encode_decode_v4_loopback : IO unit := encode_decode (localhost 8080).
Definition encode_decode_v4_broadcast : IO unit := encode_decode (V4 (MkV4 [255; 255; 255; 255] 0)).
Definition encode_decode_v4_unspecified : IO unit := encode_decode (V4 (MkV4 [0; 0; 0; 0] 0)).
Definition encode_decode_v6_loopback : IO unit :=
  encode_decode (V6 (MkV6 (replicate 15 0 ++ [1]) 8080 0 0)).
Definition encode_decode_v6_unspecified : IO unit := encode_decode (V6 (MkV6 (replicate 16 0) 0 0 0)).
Definition encode_decode_v6_with_flowinfo_scope_id : IO unit :=
  encode_decode (V6 (MkV6 ([254; 128] ++ replicate 13 0 ++ [1]) 12345 11259375 42)).

Definition decode_zero_len_returns_v4_unspecified : IO unit :=
  assert_eq (decode_sockaddr storage_zeroed 0) unspecified.

(** The family field is set in a zeroed block. *)
Definition decode_unknown_family_returns_v4_unspecified : IO unit :=
  assert_eq (decode_sockaddr (write_sockaddr_in (MkSin 255 0 0) storage_zeroed) SIZEOF_STORAGE) unspecified.

(** [let mut buf = [0u8; 64]; let (n, src) = raw_recvfrom(recv, &mut buf).unwrap();]: the datagram and its source *)
Definition recv64 (fd : Fd) : IO (Z * list Z * SocketAddr) :=
  let! '(r, bf) := raw_recvfrom fd (replicate 64 0) in
  let! '(n, src) := unwrap r in
  mret (n, take (Z.to_nat n) bf, src).

Definition raw_sendto_recvfrom_roundtrip : IO unit :=
  let! recv_addr := std_local_addr recv in
  let! send_addr := std_local_addr send in
  let! r := raw_sendto send (lit "hello udp") recv_addr in
  let! n := unwrap r in
  let! _ := assert_eq n 9 in
  let! '(n, d, src) := recv64 recv in
  let! _ := assert_eq n 9 in
  let! _ := assert_eq d (bytes_of "hello udp") in
  assert_eq src send_addr.

Definition raw_sendto_recvfrom_empty_payload : IO unit :=
  let! recv_addr := std_local_addr recv in
  let! send_addr := std_local_addr send in
  let! r := raw_sendto send (lit "") recv_addr in
  let! n := unwrap r in
  let! _ := assert_eq n 0 in
  let! '(n, _, src) := recv64 recv in
  let! _ := assert_eq n 0 in
  assert_eq src send_addr.

Definition raw_send_connected_recvfrom : IO unit :=
  let! recv_addr := std_local_addr recv in
  let! send_addr := std_local_addr send in
  let! r := raw_connect send recv_addr in
  let! _ := unwrap r in
  let! r := raw_send send (lit "connected data") in
  let! n := unwrap r in
  let! _ := assert_eq n 14 in
  let! '(n, d, src) := recv64 recv in
  let! _ := assert_eq n 14 in
  let! _ := assert_eq d (bytes_of "connected data") in
  assert_eq src send_addr.

Definition raw_getsockname_returns_bound_addr : IO unit :=
  let! r := raw_getsockname recv in
  let! a := unwrap r in
  match a with
  | V4 a => let! _ := assert_eq (v4_ip a) [127; 0; 0; 1] in assert (0 <? v4_port a)
  | V6 _ => λ _, Panic
  end.

Definition raw_connect_to_peer : IO unit :=
  let! recv_addr := std_local_addr recv in
  let! r := raw_connect send recv_addr in
  let! _ := unwrap r in
  let! r := raw_send send (lit "connect test") in
  let! _ := unwrap r in
  let! '(_, d, _) := recv64 recv in
  assert_eq d (bytes_of "connect test").

Definition raw_setsockopt_getsockopt_ttl_roundtrip : IO unit :=
  let! r := raw_setsockopt recv IPPROTO_IP IP_TTL 128 in
  let! _ := unwrap r in
  let! r := raw_getsockopt recv IPPROTO_IP IP_TTL in
  let! val := unwrap r in
  assert_eq val 128.

Definition raw_setsockopt_getsockopt_rcvbuf_roundtrip : IO unit :=
  let! r := raw_setsockopt recv SOL_SOCKET SO_RCVBUF 65536 in
  let! _ := unwrap r in
  let! r := raw_getsockopt recv SOL_SOCKET SO_RCVBUF in
  let! val := unwrap r in
  assert (65536 <=? val).

Definition raw_setsockopt_u32_works : IO unit :=
  let! r := raw_setsockopt_u32 recv IPPROTO_IP IP_TTL 64 in
  let! _ := unwrap r in
  let! r := raw_getsockopt recv IPPROTO_IP IP_TTL in
  let! val := unwrap r in
  assert_eq val 64.

Definition all : list (IO unit) :=
  [encode_decode_v4_loopback; encode_decode_v4_broadcast; encode_decode_v4_unspecified;
   encode_decode_v6_loopback; encode_decode_v6_unspecified; encode_decode_v6_with_flowinfo_scope_id;
   decode_zero_len_returns_v4_unspecified; decode_unknown_family_returns_v4_unspecified;
   raw_sendto_recvfrom_roundtrip; raw_sendto_recvfrom_empty_payload; raw_send_connected_recvfrom;
   raw_getsockname_returns_bound_addr; raw_connect_to_peer; raw_setsockopt_getsockopt_ttl_roundtrip;
   raw_setsockopt_getsockopt_rcvbuf_roundtrip; raw_setsockopt_u32_works].
End tests.
End SockaddrTests.

(** ** src/bufs.rs

    These tests are stated and proved for every implementation of the queue and buffer crates that
    satisfies their laws. *)
Module BufsTests.
Section tests.
Context {B : BytesMut} {Q : ArrayQueue bytes_mut}.

Definition check (b : bool) : outcome unit := if b then Ret tt else Panic.
Definition available_is (hp : gmap N array_queue) (p : BufferPool) (n : nat) : outcome unit :=
  let? x := pool_available hp p in check (x =? n)%nat.
Definition capacity_is (hp : gmap N array_queue) (p : BufferPool) (n : nat) : outcome unit :=
  let? x := pool_capacity hp p in check (x =? n)%nat.

Definition new_pool_is_empty : outcome unit :=
  let? '(pool, hp) := pool_new ∅ 4 64 in
  let? _ := available_is hp pool 0 in
  capacity_is hp pool 4.

Definition get_returns_zeroed_buffer_when_empty : outcome unit :=
  let? '(pool, hp) := pool_new ∅ 4 64 in
  let? '(buf, hp) := pool_get hp pool in
  let? _ := check (length (bm_bytes buf) =? 64)%nat in
  check (forallb (λ b, b =? 0) (bm_bytes buf)).

Definition put_and_get_roundtrip : outcome unit :=
  let? '(pool, hp) := pool_new ∅ 4 64 in
  let? '(buf, hp) := pool_get hp pool in
  let? hp := pool_put hp pool (bm_extend buf (bytes_of "hello")) in
  let? _ := available_is hp pool 1 in
  let? '(buf2, hp) := pool_get hp pool in
  let? _ := check (length (bm_bytes buf2) =? 0)%nat in
  check (5 <=? bm_capacity buf2)%nat.

Definition put_does_not_exceed_capacity : outcome unit :=
  let? '(pool, hp) := pool_new ∅ 2 64 in
  let? '(b1, hp) := pool_get hp pool in
  let? '(b2, hp) := pool_get hp pool in
  let? '(b3, hp) := pool_get hp pool in
  let? hp := pool_put hp pool b1 in
  let? hp := pool_put hp pool b2 in
  let? hp := pool_put hp pool b3 in
  available_is hp pool 2.

Definition clone_shares_pool : outcome unit :=
  let? '(pool, hp) := pool_new ∅ 4 64 in
  let cloned := pool_clone pool in
  let? '(buf, hp) := pool_get hp pool in
  let? _ := check (length (bm_bytes buf) =? 64)%nat in
  let? _ := available_is hp cloned 0 in
  capacity_is hp cloned 4.

(** A thread of [concurrent_access]: the rounds left and the buffer between its [get] and [put]. *)
Record thread := MkThread { rounds : nat; held : option bytes_mut }.
Definition thread_step (hp : gmap N array_queue) (p : BufferPool) (th : thread)
    : outcome (thread * gmap N array_queue) :=
  match held th, rounds th with
  | Some b, n => let? hp := pool_put hp p b in Ret (MkThread n None, hp)
  | None, S n => let? '(b, hp) := pool_get hp p in Ret (MkThread n (Some b), hp)
  | None, O => Ret (th, hp)
  end.
(** The threads take turns as [sched] says. *)
Fixpoint run_threads (hp : gmap N array_queue) (p : BufferPool) (ths : list thread) (sched : list nat)
    : outcome (list thread * gmap N array_queue) :=
  match sched with
  | [] => Ret (ths, hp)
  | i :: sched =>
      match ths !! i with
      | Some th => let? '(th, hp) := thread_step hp p th in run_threads hp p (<[i := th]> ths) sched
      | None => run_threads hp p ths sched
      end
  end.
(** Eight threads of 100 rounds, interleaved by [sched]; what is left then runs thread by thread, so
    that all have finished when they are joined. *)
Definition concurrent_access (sched : list nat) : outcome unit :=
  let? '(pool, hp) := pool_new ∅ 16 64 in
  let? '(_, hp) := run_threads hp (pool_clone pool) (replicate 8 (MkThread 100 None))
                     (sched ++ concat ((λ i, replicate 200 i) <$> seq 0 8)) in
  let? n := pool_available hp pool in
  let? c := pool_capacity hp pool in
  check (n <=? c)%nat.

Context {BL : BytesMutLaws} {QL : ArrayQueueLaws}.

Lemma pool_new_spec cap size : (0 < cap)%nat →
  ∃ p hp, pool_new ∅ cap size = Ret (p, hp) ∧ buf_size p = size ∧ pool_at hp p cap [].
Proof.
  intros Hc. destruct (new_ok cap Hc) as (q & Hq & He & Hcap). unfold pool_new. rewrite Hq. simpl.
  eexists _, _. split; [done|]. split; [done|]. exists q. by rewrite lookup_insert_eq.
Qed.

Lemma pool_available_at hp p p' cap es : pool_at hp p cap es → same_pool p' p →
  pool_available hp p' = Ret (length es) ∧ pool_capacity hp p' = Ret cap.
Proof.
  intros (q & Hq & He & Hc) [Hp _]. unfold pool_available, pool_capacity, deref. rewrite Hp, Hq. simpl.
  by rewrite len_elems, He, Hc.
Qed.

(** A pool within its bound stays within its bound. *)
Definition bounded (hp : gmap N array_queue) (p : BufferPool) (cap : nat) : Prop :=
  ∃ es, pool_at hp p cap es ∧ (length es ≤ cap)%nat.

Lemma thread_step_bounded hp p cap th : bounded hp p cap →
  ∃ th' hp', thread_step hp (pool_clone p) th = Ret (th', hp') ∧ bounded hp' p cap.
Proof.
  intros (es & Hat & Hle). assert (Hs : same_pool (pool_clone p) p) by done. unfold thread_step.
  destruct (held th) as [b|]; [|destruct (rounds th)].
  - destruct (pool_put_spec hp p _ b cap es Hat Hs) as (hp' & -> & Hat'). simpl. eexists _, _.
    split; [done|]. eexists. split; [exact Hat'|]. destruct (Nat.ltb_spec (length es) cap); [|done].
    rewrite length_app. simpl. lia.
  - eexists _, _. split; [done|]. by exists es.
  - destruct (pool_get_spec hp p _ cap es Hat Hs) as (b & hp' & -> & _ & Hat'). simpl. eexists _, _.
    split; [done|]. eexists. split; [exact Hat'|]. destruct es; simpl in *; lia.
Qed.

Lemma run_threads_bounded p cap sched : ∀ hp ths, bounded hp p cap →
  ∃ ths' hp', run_threads hp (pool_clone p) ths sched = Ret (ths', hp') ∧ bounded hp' p cap.
Proof.
  induction sched as [|i sched IH]; intros hp ths Hb; simpl; [eauto|].
  destruct (ths !! i) as [th|]; [|by apply IH].
  destruct (thread_step_bounded hp p cap th Hb) as (th' & hp' & -> & Hb'). simpl. by apply IH.
Qed.

Lemma concurrent_access_ok sched : concurrent_access sched = Ret tt.
Proof.
  unfold concurrent_access. destruct (pool_new_spec 16 64) as (p & hp & -> & _ & Hat); [lia|].
  cbn [obind]. destruct (run_threads_bounded p 16 (sched ++ concat ((λ i, replicate 200 i) <$> seq 0 8))
    hp (replicate 8 (MkThread 100 None))) as (ths & hp' & -> & es & Hat' & Hle).
  { exists []. split; [done|simpl; lia]. }
  cbn [obind]. destruct (pool_available_at hp' p p 16 es Hat') as [-> ->]; [done|]. cbn [obind].
  unfold check. by rewrite (proj2 (Nat.leb_le _ _)).
Qed.

Ltac pool_get_step :=
  lazymatch goal with
  | Hat : pool_at ?hp ?p ?cap ?es |- context [pool_get ?hp ?p] =>
      let b := fresh "b" in let hp' := fresh "hp" in
      destruct (pool_get_spec hp p p cap es Hat) as (b & hp' & -> & -> & ?); [done|];
      clear Hat; cbn [obind tail] in *
  end.
Ltac pool_put_step :=
  lazymatch goal with
  | Hat : pool_at ?hp ?p ?cap ?es |- context [pool_put ?hp ?p ?b] =>
      let hp' := fresh "hp" in let H := fresh "Hat" in
      destruct (pool_put_spec hp p p b cap es Hat) as (hp' & -> & H); [done|];
      clear Hat; cbn in H; cbn [obind]
  end.
Ltac pool_state :=
  lazymatch goal with
  | Hat : pool_at ?hp ?p ?cap ?es |- _ =>
      unfold available_is, capacity_is;
      repeat first
        [ rewrite (proj1 (pool_available_at hp p p cap es Hat ltac:(done)))
        | rewrite (proj2 (pool_available_at hp p p cap es Hat ltac:(done)))
        | rewrite (proj1 (pool_available_at hp p (pool_clone p) cap es Hat ltac:(done)))
        | rewrite (proj2 (pool_available_at hp p (pool_clone p) cap es Hat ltac:(done))) ]; cbn [obind]
  end.
Ltac new_pool cap :=
  let Hs := fresh "Hs" in
  destruct (pool_new_spec cap 64) as (? & ? & -> & Hs & ?); [lia|]; cbn [obind].

(** The sequential tests. *)
Lemma sequential_ok :
  Forall (λ t, t = Ret tt)
    [new_pool_is_empty; get_returns_zeroed_buffer_when_empty; put_and_get_roundtrip;
     put_does_not_exceed_capacity; clone_shares_pool].
Proof.
  repeat apply Forall_cons_2; [..|constructor].
  - unfold new_pool_is_empty. new_pool 4%nat. by pool_state.
  - unfold get_returns_zeroed_buffer_when_empty. new_pool 4%nat. pool_get_step. by rewrite zeroed_bytes, Hs.
  - unfold put_and_get_roundtrip. new_pool 4%nat. pool_get_step. pool_put_step. pool_state. cbn [check obind length Nat.eqb].
    pool_get_step. rewrite clear_bytes, clear_capacity. unfold check. cbn [length Nat.eqb obind].
    rewrite (proj2 (Nat.leb_le 5 _)); [done|]. rewrite <- capacity_ge, extend_bytes, length_app. simpl. lia.
  - unfold put_does_not_exceed_capacity. new_pool 2%nat. do 3 pool_get_step. do 3 pool_put_step. by pool_state.
  - unfold clone_shares_pool. new_pool 4%nat. pool_get_step. rewrite zeroed_bytes, Hs, length_replicate.
    simpl. by pool_state.
Qed.
End tests.
End BufsTests.

(** ** All tests pass *)
Section all_tests.
Context (os : target_abi) (little : bool).
#[local] Instance test_libc : Libc := unix_libc os little.

Definition host (strs : list string) : Kernel := loop_kernel (static_mem strs) SockaddrTests.binds.
Definition unit_tests : list (IO unit) :=
  BatchTests.all (K := host BatchTests.strs) ++ MetricsTests.all ++
  SockaddrTests.all (K := host SockaddrTests.strs).
End all_tests.

Lemma passes_bool_sound {L : Libc} ts : forallb passes_bool ts = true → Forall passes ts.
Proof.
  induction ts as [|t ts IH]; simpl; [constructor|]. intros [Ht Hts]%andb_prop. constructor; [|by apply IH].
  unfold passes_bool in Ht. destruct (t []) as [[[] h]| | |] eqn:E; try done. by exists h.
Qed.

(** The unit tests of the crate pass. Every assertion of the tests of the batch containers, the metrics
    and the Unix address code holds, and nothing panics or reads freed memory, on the address layouts of
    Linux, macOS and Windows and on both byte orders. The tests of the buffer pool pass for every
    implementation of the queue and the buffers that keeps its documented promises, the one with eight
    concurrent threads under every interleaving of their operations. *)
Theorem unit_tests_pass os little {B : BytesMut} {Q : ArrayQueue bytes_mut} {BL : BytesMutLaws}
    {QL : ArrayQueueLaws} :
  Forall (passes (L := unix_libc os little)) (unit_tests os little) ∧
  Forall (λ t, t = Ret tt)
    [BufsTests.new_pool_is_empty; BufsTests.get_returns_zeroed_buffer_when_empty;
     BufsTests.put_and_get_roundtrip; BufsTests.put_does_not_exceed_capacity;
     BufsTests.clone_shares_pool] ∧
  ∀ sched, BufsTests.concurrent_access sched = Ret tt.
Proof.
  split; [|split; [apply BufsTests.sequential_ok|apply BufsTests.concurrent_access_ok]].
  apply passes_bool_sound. destruct os, little; vm_compute; reflexivity.
Qed.

(** Two threads alternate, a third one waits. *)
Lemma unit_tests_pass_witness :
  BufsTests.concurrent_access (B := list_bytes) [0; 1; 1; 0; 2]%nat = Ret tt.
Proof. apply (@unit_tests_pass Linux true list_bytes list_queue list_bytes_laws list_queue_laws). Defined.
