(* ===== verification/Examples.v ===== *)
(** * The examples of the crate

    The programs examples/basic.rs, batch.rs, config_builder.rs and select.rs over the socket of
    [Socket.v]. A program returns the lines it prints, as data. The sockets [UdpSocket::bind] returns are
    the descriptors of a host of [Network.v]; the strings the programs build live in its memory for the
    whole run. The programs are proved correct on every such host; a concrete one is at the end. *)
From stdpp Require Import strings pretty.
From S2P Require Import Prelude Libc UnixAbi Sockaddr Batch Backend Fallback LinuxSend LinuxRecv.
From S2P Require Import Adaptive Metrics Socket Network Tests.
#[local] Open Scope Z_scope.

(** What the programs print. *)
Inductive line :=
| SentBytes (n : nat) (dst : SocketAddr)              (** sent n bytes to dst *)
| ReceivedBytes (n : nat) (src : SocketAddr) (data : list Z)  (** received n bytes from src: data *)
| Sent (n : nat)                                      (** sent n packets *)
| Received (n : nat)                                  (** received n packets *)
| Packet (data : list Z) (src : SocketAddr)           (** a packet with its length and its source *)
| Data (data : list Z)                                (** a packet without its source *)
| PlatformBackend (name : string)                     (** Platform backend: name *)
| Supports (what : string) (on : bool)                (** supports what: on *)
| MaxBatch (n : Z)                                    (** max batch size: n *)
| ConfigIs (batch_size send_buf_size : Z)             (** Config: batch_size=.., send_buf_size=.. *)
| SocketBackend (name : string) (max : Z)             (** Socket backend: name (max batch max) *)
| Iteration (i n : nat)                               (** iteration i: sent n packets *)
| Drained (n : nat).                                  (** drained n remaining packets *)

(** [?] *)
Definition tbind {H A B} (m : M H (io_result A)) (k : A → M H (io_result B)) : M H (io_result B) :=
  let! r := m in match r with Ok a => k a | Err e => mret (Err e) end.
Notation "'let*' x := m 'in' k" := (tbind m (λ x, k)) (at level 10, x name, m at level 100, k at level 200).
Notation "'let*' ' p := m 'in' k" := (tbind m (λ x, match x with p => k end))
  (at level 10, p pattern, m at level 100, k at level 200).

Section examples.
Context {L : Libc} {K : Kernel} {B : Backend} {P : Profile} (F : features) (os : target_os) (fuel : nat).
Context (lit : string → slice).

(** The result first, so that [?] applies to it. *)
Definition first {A S} (m : IO (io_result A * S)) : IO (io_result (A * S)) :=
  let! '(r, s) := m in mret (match r with Ok a => Ok (a, s) | Err e => Err e end).
Definition first3 {A S T} (m : IO (io_result A * S * T)) : IO (io_result (A * S * T)) :=
  let! '(r, s, t) := m in mret (match r with Ok a => Ok (a, s, t) | Err e => Err e end).

(** [for msg in &msgs { batch.push(msg.as_bytes(), addr).unwrap(); }] *)
Fixpoint push_all {N} (b : SendBatch.t N) (msgs : list string) (a : SocketAddr) : IO (SendBatch.t N) :=
  match msgs with
  | [] => mret b
  | m :: msgs => let! b := pushed (SendBatch.push b (lit m) a) in push_all b msgs a
  end.

(** ** examples/basic.rs *)
Definition basic_main (fd1 fd2 : Fd) : IO (io_result (list line)) :=
  let* sender := BingerUdp.from_std F fd1 config_default in
  let* receiver := BingerUdp.from_std F fd2 config_default in
  let* recv_addr := BingerUdp.local_addr receiver in
  let* '(n, sender) := first (BingerUdp.send_to F fuel sender (lit "hello binger") recv_addr) in
  let* '((m, src), receiver, buf) := first3 (BingerUdp.recv_from F fuel receiver (replicate 2048 0)) in
  if (m <=? length buf)%nat then mret (Ok [SentBytes n recv_addr; ReceivedBytes m src (take m buf)])
  else λ _, Panic.

(** ** examples/batch.rs *)
Definition batch_msgs : list string := (λ i : nat, "packet-" +:+ pretty i)%string <$> seq 0 32.
Definition batch_main (fd1 fd2 : Fd) : IO (io_result (list line)) :=
  let* sender := BingerUdp.from_std F fd1 config_default in
  let* receiver := BingerUdp.from_std F fd2 config_default in
  let* recv_addr := BingerUdp.local_addr receiver in
  let! send_batch := push_all (SendBatch.new 32) batch_msgs recv_addr in
  let* '(sent, sender) := first (BingerUdp.send_batch F fuel sender (SendBatch.raw send_batch)) in
  let* '(n, receiver, rb) :=
    first3 (BingerUdp.recv_batch F fuel receiver (RecvBatch.raw (RecvBatch.new 32 2048))) in
  if (0 <? n)%nat then
    let! items := lift (RecvBatch.iter (RecvBatch.Mk (N := 32) rb)) in
    match head items, head (reverse items) with
    | Some (d, a), Some (d', _) => mret (Ok [Sent sent; Received n; Packet d a; Data d'])
    | _, _ => λ _, Panic
    end
  else mret (Ok [Sent sent; Received n]).

(** ** examples/config_builder.rs *)
Definition caps_lines (caps : PlatformCaps) : list line :=
  [PlatformBackend (backend_name caps);
   Supports "sendmmsg" (supports_sendmmsg caps); Supports "recvmmsg" (supports_recvmmsg caps);
   Supports "GSO" (supports_gso caps); Supports "GRO" (supports_gro caps);
   Supports "busy-poll" (supports_busy_poll caps); Supports "pacing" (supports_pacing caps);
   MaxBatch (max_batch_size caps)].
Definition config_builder_main (fd1 fd2 : Fd) : IO (io_result (list line)) :=
  let caps := platform_capabilities os F in
  let config := with_send_buf_size (with_batch_size config_default 16) 65536 in
  let* receiver := BingerUdp.from_std F fd2 config in
  let* recv_addr := BingerUdp.local_addr receiver in
  let* sender := BingerUdp.from_std F fd1 config_default in
  let sock_caps := BingerUdp.capabilities F os receiver in
  let! send_batch := push_all (SendBatch.new 1) ["custom-config-works"%string] recv_addr in
  let* '(sent, sender) := first (BingerUdp.send_batch F fuel sender (SendBatch.raw send_batch)) in
  let* '(n, receiver, rb) :=
    first3 (BingerUdp.recv_batch F fuel receiver (RecvBatch.raw (RecvBatch.new 1 2048))) in
  let out := caps_lines caps ++
    [ConfigIs 16 65536; SocketBackend (backend_name sock_caps) (max_batch_size sock_caps);
     Sent sent; Received n] in
  if (0 <? n)%nat then
    let! data := lift (RecvBatchRaw.data rb 0) in mret (Ok (out ++ [Data data]))
  else mret (Ok out).

(** ** examples/select.rs *)
Definition MAX_ITER : nat := 3.
Definition first_msgs : list string := (λ i : nat, "data-" +:+ pretty i)%string <$> seq 0 8.
Definition round_msgs (iteration : nat) : list string :=
  (λ i : nat, "data-" +:+ pretty i +:+ "-round" +:+ pretty iteration)%string <$> seq 0 8.

Record select_state := MkSel
  { sel_sender : BingerUdp.t; sel_receiver : BingerUdp.t; sel_send : SendBatch.t 8;
    sel_recv : RecvBatch.t 8; iteration : nat; waiting_for_recv : bool; out : list line }.

(** The [select!]: of the two guarded branches exactly one is enabled. *)
Definition select_branch (st : select_state) : IO (io_result select_state) :=
  if waiting_for_recv st then
    let! _ := BingerUdp.readable (sel_receiver st) in
    let* '(n, receiver, rb) :=
      first3 (BingerUdp.recv_batch F fuel (sel_receiver st) (RecvBatch.raw (sel_recv st))) in
    let! items := lift (RecvBatch.iter (RecvBatch.Mk (N := 8) rb)) in
    mret (Ok (MkSel (sel_sender st) receiver (sel_send st) (RecvBatch.clear (RecvBatch.Mk rb))
                (iteration st) false
                (out st ++ Received n :: ((λ p, Packet p.1 p.2) <$> items))))
  else
    let! _ := BingerUdp.writable (sel_sender st) in
    if SendBatch.is_empty (sel_send st) then mret (Ok st)
    else
      let* '(n, sender) :=
        first (BingerUdp.send_batch F fuel (sel_sender st) (SendBatch.raw (sel_send st))) in
      mret (Ok (MkSel sender (sel_receiver st) (SendBatch.clear (sel_send st)) (sel_recv st)
                  (S (iteration st)) true (out st ++ [Iteration (iteration st) n]))).

(** The end: after a sleep of 100 ms, which no call of the model observes, drain what is left. *)
Definition select_drain (st : select_state) : IO (io_result (list line)) :=
  let! r := BingerUdp.readable (sel_receiver st) in
  match r with
  | Ok _ =>
      let! '(r, _, _) := BingerUdp.recv_batch F fuel (sel_receiver st) (RecvBatch.raw (sel_recv st)) in
      mret (Ok (out st ++ match r with Ok n => [Drained n] | Err _ => [] end))
  | Err _ => mret (Ok (out st))
  end.

(** [loop { .. }], with [rounds] bounding its iterations. *)
Fixpoint select_loop (recv_addr : SocketAddr) (rounds : nat) (st : select_state) : IO (io_result (list line)) :=
  match rounds with
  | O => λ _, NoFuel
  | S rounds =>
      let* st := select_branch st in
      if (MAX_ITER <=? iteration st)%nat then select_drain st
      else if SendBatch.is_empty (sel_send st) && (iteration st <? MAX_ITER)%nat then
        let! b := push_all (sel_send st) (round_msgs (iteration st)) recv_addr in
        select_loop recv_addr rounds
          (MkSel (sel_sender st) (sel_receiver st) b (sel_recv st) (iteration st) (waiting_for_recv st) (out st))
      else select_loop recv_addr rounds st
  end.

Definition select_main (rounds : nat) (fd1 fd2 : Fd) : IO (io_result (list line)) :=
  let* sender := BingerUdp.from_std F fd1 config_default in
  let* receiver := BingerUdp.from_std F fd2 config_default in
  let* recv_addr := BingerUdp.local_addr receiver in
  let! send_batch := push_all (SendBatch.new 8) first_msgs recv_addr in
  select_loop recv_addr rounds
    (MkSel sender receiver send_batch (RecvBatch.new 8 2048) 0 false []).
End examples.

(** ** The examples on every lossless host *)

(** The Unix backend a build uses: [true] for the Linux one, [false] for the portable one. *)
Definition unix_build (os : target_os) (F : features) : option bool :=
  match imp os F with imp_linux => Some true | imp_fallback => Some false | _ => None end.

Section any_host.
Context {L : Libc} {LL : LibcLaws} {K : Kernel} {KL : KernelLaws} {N : Network} {NL : NetworkLaws}.
Context {P : Profile} (F : features) (lit : string → slice).

(** The program runs in a tokio runtime ([#[tokio::main]]); sockets can be made non-blocking and
    registered, and know their address. *)
Record host_ok : Prop := {
  host_runtime : k_runtime = true;
  host_nonblocking : ∀ h d, k_nonblocking h d = Ok tt;
  host_register : ∀ h d, k_register h d = Ok tt;
  host_getsockname : ∀ h d, k_getsockname h d = (0, bound d);
}.
(** The strings of the program stay in memory. *)
Definition lits_ok (msgs : list string) : Prop :=
  Forall (λ m, ∀ h, slice_bytes (k_mem h) (lit m) = Some (bytes_of m)) msgs.
(** The two sockets that a program gets from [UdpSocket::bind]: open, with addresses [a1] and [a2], the
    first one can send to the second. *)
Record bound_pair (d1 d2 : Fd) (a1 a2 : SocketAddr) : Prop := {
  pair_open1 : is_open d1;
  pair_open2 : is_open d2;
  pair_bound1 : bound d1 = name_of a1;
  pair_addr1 : addr_ok a1;
  pair_bound2 : bound d2 = name_of a2;
  pair_addr2 : addr_ok a2;
  pair_owner : owner (name_of a2) = Some d2;
  pair_reaches : reaches d1 (name_of a2);
}.
(** What has happened so far is described by the queues, the receiver's queue is [q] and neither socket
    is connected. *)
Record net_at (d1 d2 : Fd) (q : list datagram) (h : history) : Prop := {
  at_described : Forall described h;
  at_inbox : inbox h d2 = q;
  at_peer1 : peer h d1 = None;
  at_peer2 : peer h d2 = None;
}.

Context (HO : host_ok) (d1 d2 : Fd) (a1 a2 : SocketAddr) (HP : bound_pair d1 d2 a1 a2).

Lemma net_at_keeps q q' h h' : net_at d1 d2 q h → keeps_peers h h' → inbox h' d2 = q' → net_at d1 d2 q' h'.
Proof. intros [_ _ H1 H2] [Hh Hp] Hq. split; [done|done|by rewrite Hp..]. Qed.

Lemma net_at_silent d q h evs : net_at d1 d2 q h → sends_of d evs → accepted_all evs = [] →
  net_at d1 d2 q (h ++ evs).
Proof.
  intros Hn Hs Ha. eapply net_at_keeps; [exact Hn|by apply (sends_keep_peers d), Hs; apply Hn|].
  rewrite (silent_inbox _ _ _ d) by done. apply Hn.
Qed.

Lemma wp_tbind {A B} (m : IO (io_result A)) (k : A → IO (io_result B)) Q h :
  wp m (λ r h1, ∃ a, r = Ok a ∧ wp (k a) Q h1) h → wp (tbind m k) Q h.
Proof. intros Hm. apply wp_bind. eapply wp_mono; [exact Hm|]. by intros r h1 (a & -> & Hk). Qed.

(** ** Setup *)

(** A configuration without adaptive batching, metrics or receive buffer size. *)
Definition plain (c : Config) : Prop :=
  adaptive_batching c = false ∧ metrics_enabled c = false ∧ recv_os_buf_size c = None.

Lemma from_std_plain c d q h : plain c →
  (∀ h v, send_buf_size c ≠ None → 0 ≤ k_setsockopt h d SOL_SOCKET SO_SNDBUF v) → net_at d1 d2 q h →
  wp (BingerUdp.from_std F d c)
    (λ r h', r = Ok (BingerUdp.Mk d None None None) ∧ net_at d1 d2 q h') h.
Proof.
  intros (Ha & Hm & Hr) Hset Hn. unfold BingerUdp.from_std.
  apply wp_bind. eapply wp_intro; [reflexivity|]. rewrite host_nonblocking by done.
  apply (net_at_silent d _ _ [EvNonblocking d (Ok tt)]) in Hn; [|by repeat constructor|done].
  set (h1 := h ++ _) in *. clearbody h1. apply wp_bind.
  apply (wp_mono _ (λ r h', r = Ok tt ∧ net_at d1 d2 q h')).
  { unfold BingerUdp.set_buf_size. destruct (send_buf_size c) as [v|]; [|by apply wp_ret].
    unfold raw_setsockopt. apply wp_bind. eapply wp_intro; [reflexivity|].
    rewrite (proj2 (Z.ltb_ge _ _)) by by apply Hset. apply wp_ret. split; [done|].
    apply (net_at_silent d); [done|by repeat constructor|done]. }
  clear h Hset. intros r h2 [-> Hn2]. unfold BingerUdp.set_buf_size. rewrite Hr. apply wp_bind, wp_ret.
  apply wp_bind, (wp_mono _ (λ r h', r = Ok tt ∧ net_at d1 d2 q h')).
  { destruct (f_tokio F); [|by apply wp_ret]. unfold wp, sys_register.
    rewrite host_runtime, host_register by done. split; [done|].
    apply (net_at_silent d); [done|by repeat constructor|done]. }
  intros r h3 [-> Hn3]. unfold BingerUdp.new_adaptive. rewrite Ha, Hm, andb_false_r.
  do 2 apply wp_bind, wp_ret. by apply wp_ret.
Qed.

Lemma local_addr_bound q h : net_at d1 d2 q h →
  wp (BingerUdp.local_addr (BingerUdp.Mk d2 None None None)) (λ r h', r = Ok a2 ∧ net_at d1 d2 q h') h.
Proof.
  intros Hn. unfold BingerUdp.local_addr, raw_getsockname. apply wp_bind. eapply wp_intro; [reflexivity|].
  rewrite host_getsockname by done. simpl. rewrite (pair_bound2 _ _ _ _ HP).
  pose proof (decode_encode a2 storage_zeroed (pair_addr2 _ _ _ _ HP)) as Hd.
  unfold name_of. destruct (encode_sockaddr a2 storage_zeroed) as [len st]. simpl in *. rewrite Hd.
  apply wp_ret. split; [done|]. apply (net_at_silent d2); [done|by repeat constructor|done].
Qed.

(** The beginning of the examples with default configurations. *)
Lemma two_sockets {B} (k : BingerUdp.t → BingerUdp.t → SocketAddr → IO (io_result B)) Q h q :
  net_at d1 d2 q h →
  (∀ h1, net_at d1 d2 q h1 →
     wp (k (BingerUdp.Mk d1 None None None) (BingerUdp.Mk d2 None None None) a2) Q h1) →
  wp (let* sender := BingerUdp.from_std F d1 config_default in
      let* receiver := BingerUdp.from_std F d2 config_default in
      let* recv_addr := BingerUdp.local_addr receiver in k sender receiver recv_addr) Q h.
Proof.
  intros Hn Hk. apply wp_tbind. eapply wp_mono; [by apply (from_std_plain config_default d1 q)|].
  intros r h1 [-> Hn1]. eexists. split; [done|]. apply wp_tbind.
  eapply wp_mono; [by apply (from_std_plain config_default d2 q)|].
  intros r h2 [-> Hn2]. eexists. split; [done|]. apply wp_tbind.
  eapply wp_mono; [by apply (local_addr_bound q)|]. intros r h3 [-> Hn3]. eauto.
Qed.

(** ** Messages *)

(** The entries of a batch of strings for the receiver. *)
Definition entries (msgs : list string) : list (slice * option SocketAddr) := (λ m, (lit m, Some a2)) <$> msgs.
(** A batch of at most [cap] with these strings. *)
Definition holds (cap : nat) (b : SendBatchRaw.t) (msgs : list string) : Prop :=
  send_wf cap b ∧ contents b = entries msgs.
(** Strings that fit into receive slots of 2048 bytes. *)
Definition small (msgs : list string) : Prop := Forall (λ m, (length (bytes_of m) ≤ 2048)%nat) msgs.

Lemma small_udp msgs : small msgs → Forall udp_size (bytes_of <$> msgs).
Proof.
  intros Hs. apply Forall_fmap. eapply Forall_impl; [|exact Hs]. intros m Hm.
  unfold compose, udp_size, MAX_UDP_PAYLOAD. simpl in Hm. lia.
Qed.

Lemma push_all_holds {N'} msgs h : ∀ (b : SendBatch.t N') old, holds N' (SendBatch.raw b) old →
  (length old + length msgs ≤ N')%nat →
  wp (push_all lit b msgs a2) (λ b' h', h' = h ∧ holds N' (SendBatch.raw b') (old ++ msgs)) h.
Proof.
  induction msgs as [|m msgs IH]; intros b old Hold Hl; cbn [push_all].
  { apply wp_ret. by rewrite app_nil_r. }
  destruct Hold as [Hwf Hc]. simpl in Hl.
  assert (Hlen : SendBatchRaw.len (SendBatch.raw b) = length old)
    by (by rewrite <- (length_contents N'), Hc; unfold entries; rewrite ?length_fmap by done).
  destruct (push_contents N' (SendBatch.raw b) (lit m) (Some a2) Hwf) as (b1 & E & Hwf1 & Hc1); [lia|].
  apply wp_bind. eapply wp_intro; [unfold pushed, SendBatch.push; by rewrite E|].
  eapply wp_mono; [apply (IH (SendBatch.Mk b1) (old ++ [m]))|].
  - split; [done|]. simpl. unfold entries. by rewrite Hc1, Hc, fmap_app.
  - rewrite length_app; simpl. lia.
  - intros b' h' [-> Hb']. by rewrite <- (assoc_L (++)) in Hb'.
Qed.

Lemma holds_len cap b msgs : holds cap b msgs → SendBatchRaw.len b = length msgs.
Proof. intros [Hwf Hc]. by rewrite <- (length_contents cap), Hc; unfold entries; rewrite ?length_fmap by done. Qed.

Lemma holds_payloads cap b msgs h : lits_ok msgs → holds cap b msgs → payloads h b (bytes_of <$> msgs).
Proof.
  intros Hl [_ Hc]. unfold payloads. rewrite Hc. clear Hc. unfold entries.
  induction Hl as [|m msgs Hm _ IH]; constructor; [|exact IH]. intros evs. apply Hm.
Qed.

Context (linux : bool) (fuel k : nat) (Hfuel : (0 < fuel)%nat).

(** A batch of strings that is sent gets into the receiver's queue. *)
Lemma send_msgs cap n s b msgs q h : net_at d1 d2 q h → sock_inv d1 n s → n < 2 ^ 64 - 1 →
  holds cap b msgs → lits_ok msgs → small msgs → (0 < length msgs ≤ UIO_MAXIOV)%nat →
  wp (BingerUdp.send_batch (B := unix_backend linux F fuel) F (S k) s b)
    (λ rs h', rs.1 = Ok (length msgs) ∧ sock_inv d1 (n + 1) rs.2 ∧
       net_at d1 d2 (q ++ from_socket d1 (bytes_of <$> msgs)) h') h.
Proof.
  intros Hn Hs Hlt Hb Hl Hsm [Hpos Hmax]. pose proof (holds_len cap b msgs Hb) as Hlen.
  pose proof Hn as [Hh Hin Hp1 Hp2].
  eapply wp_mono; [apply (send_batch_inbox linux F fuel k d1 d2 n s cap (Some a2) a2 b (bytes_of <$> msgs))|].
  - done.
  - split; [apply HP|]. split; [apply HP|]. by left.
  - done.
  - done.
  - done.
  - apply Hb.
  - by apply (holds_payloads cap).
  - destruct Hb as [_ Hc]. split; [rewrite Hc; by apply Forall_fmap, Forall_true|by apply small_udp].
  - lia.
  - lia.
  - apply HP.
  - intros [r s'] h' (Hr & Hs' & Hk & Hq). rewrite Hlen in Hr. split; [done|]. split; [done|].
    eapply net_at_keeps; [exact Hn|exact Hk|]. by rewrite Hq, Hin.
Qed.

(** A receive with room for the whole queue takes all of it. *)
Lemma recv_msgs n s b msgs h : net_at d1 d2 (from_socket d1 (bytes_of <$> msgs)) h →
  sock_inv d2 n s → n < 2 ^ 64 - 1 → recv_wf 2048 b → small msgs →
  (0 < length msgs ≤ RecvBatchRaw.capacity b)%nat → (RecvBatchRaw.capacity b ≤ UIO_MAXIOV)%nat →
  wp (BingerUdp.recv_batch (B := unix_backend linux F fuel) F (S k) s b)
    (λ rsb h', rsb.1.1 = Ok (length msgs) ∧ sock_inv d2 (n + 1) rsb.1.2 ∧ recv_wf 2048 rsb.2 ∧
       RecvBatchRaw.capacity rsb.2 = RecvBatchRaw.capacity b ∧
       packets rsb.2 = (λ m, (bytes_of m, a1)) <$> msgs ∧ net_at d1 d2 [] h') h.
Proof.
  intros Hn Hs Hlt Hwf Hsm [Hpos HN] Hmax. pose proof Hn as [Hh Hin _ _].
  assert (Hq : length (inbox h d2) = length msgs)
    by (by rewrite Hin; unfold from_socket; rewrite !length_fmap).
  eapply wp_mono; [apply (recv_batch_inbox linux F fuel k d2 n s 2048 b)|].
  - done.
  - apply HP.
  - done.
  - done.
  - done.
  - lia.
  - done.
  - done.
  - intros Hz. rewrite Hz in Hq. simpl in Hq. lia.
  - intros [[r s'] b'] h' (Hr & Hs' & Hwf' & Hc & Hps & Hrest & Hk). simpl in *.
    rewrite Hq, Nat.min_r in Hr by lia. split; [done|]. split; [done|]. split; [done|]. split; [done|].
    rewrite take_ge, Hin in Hps by lia. rewrite drop_ge in Hrest by lia.
    split; [|by eapply net_at_keeps].
    rewrite Hps, (from_socket_packets 2048 d1 a1) by (apply HP || by apply small_udp).
    rewrite <- list_fmap_compose. apply list_fmap_ext. intros i m Hi%(Forall_lookup_1 _ _ _ _ Hsm). simpl.
    by rewrite take_ge.
Qed.

(** The same as the programs use them. *)
Lemma send_then {A} cap n s b msgs q (kk : nat * BingerUdp.t → IO (io_result A)) Q h :
  net_at d1 d2 q h → sock_inv d1 n s → n < 2 ^ 64 - 1 →
  holds cap b msgs → lits_ok msgs → small msgs → (0 < length msgs ≤ UIO_MAXIOV)%nat →
  (∀ h1 s', net_at d1 d2 (q ++ from_socket d1 (bytes_of <$> msgs)) h1 → sock_inv d1 (n + 1) s' →
     wp (kk (length msgs, s')) Q h1) →
  wp (tbind (first (BingerUdp.send_batch (B := unix_backend linux F fuel) F (S k) s b)) kk) Q h.
Proof.
  intros Hn Hs Hlt Hb Hl Hsm Hlen Hk. apply wp_tbind, wp_bind.
  eapply wp_mono; [by apply (send_msgs cap n s b msgs q)|].
  intros [r s'] h1 (Hr & Hs' & Hn'). simpl in *. subst r. apply wp_ret. eauto.
Qed.

Lemma recv_then {A} n s b msgs (kk : nat * BingerUdp.t * RecvBatchRaw.t → IO (io_result A)) Q h :
  net_at d1 d2 (from_socket d1 (bytes_of <$> msgs)) h →
  sock_inv d2 n s → n < 2 ^ 64 - 1 → recv_wf 2048 b → small msgs →
  (0 < length msgs ≤ RecvBatchRaw.capacity b)%nat → (RecvBatchRaw.capacity b ≤ UIO_MAXIOV)%nat →
  (∀ h1 s' b', net_at d1 d2 [] h1 → sock_inv d2 (n + 1) s' → recv_wf 2048 b' →
     RecvBatchRaw.capacity b' = RecvBatchRaw.capacity b →
     packets b' = (λ m, (bytes_of m, a1)) <$> msgs → wp (kk (length msgs, s', b')) Q h1) →
  wp (tbind (first3 (BingerUdp.recv_batch (B := unix_backend linux F fuel) F (S k) s b)) kk) Q h.
Proof.
  intros Hn Hs Hlt Hwf Hsm Hpos Hmax Hk. apply wp_tbind, wp_bind.
  eapply wp_mono; [by apply (recv_msgs n s b msgs)|].
  intros [[r s'] b'] h1 (Hr & Hs' & Hwf' & Hc & Hps & Hn'). simpl in *. subst r. apply wp_ret. eauto 10.
Qed.

Lemma slice_bytes_length m sl bs : slice_bytes m sl = Some bs → length bs = s_len sl.
Proof.
  unfold slice_bytes. destruct (Nat.eqb_spec (s_len sl) 0) as [->|]; [by intros [= <-]|].
  repeat case_match; intros; simplify_eq. reflect_bools. rewrite length_take, length_drop. lia.
Qed.

(** ** basic.rs *)
Definition basic_msg : string := "hello binger".

Lemma basic_send h : net_at d1 d2 [] h → lits_ok [basic_msg] →
  wp (BingerUdp.send_to (B := unix_backend linux F fuel) F (S k) (BingerUdp.Mk d1 None None None)
        (lit basic_msg) a2)
    (λ rs h', rs.1 = Ok 12%nat ∧ net_at d1 d2 (from_socket d1 [bytes_of basic_msg]) h') h.
Proof.
  intros Hn Hl. pose proof (Forall_inv Hl) as Hm. simpl in Hm.
  destruct (single_batch_ok (lit basic_msg) a2 (bytes_of basic_msg) h) as (E & Hwf & _);
    [intros evs; apply Hm|].
  unfold BingerUdp.send_to. apply wp_bind. eapply wp_lift; [exact E|]. apply wp_bind.
  eapply wp_mono; [apply (send_msgs 1 0 _ _ [basic_msg] []); [done|done|lia| |done|by repeat constructor|unfold UIO_MAXIOV; simpl; lia]|].
  { split; [exact Hwf|]. unfold entries, contents; simpl. by destruct (lit basic_msg). }
  intros [r s'] h' (Hr & _ & Hn'). simpl in *. subst r. apply wp_ret. simpl.
  rewrite <- (slice_bytes_length _ _ _ (Hm h)). done.
Qed.

Lemma basic_recv h : net_at d1 d2 (from_socket d1 [bytes_of basic_msg]) h →
  wp (BingerUdp.recv_from (B := unix_backend linux F fuel) F (S k) (BingerUdp.Mk d2 None None None)
        (replicate 2048 0))
    (λ rsb h', rsb.1.1 = Ok (12%nat, a1) ∧ (12 ≤ length rsb.2)%nat ∧ take 12 rsb.2 = bytes_of basic_msg) h.
Proof.
  intros Hn. set (buf := replicate 2048 0). assert (Hlen : length buf = 2048%nat) by apply length_replicate.
  clearbody buf.
  destruct (wp_elim _ _ _ (recv_msgs 0 (BingerUdp.Mk d2 None None None) (RecvBatchRaw.with_capacity 1 2048)
    [basic_msg] h Hn ltac:(done) ltac:(lia) (with_capacity_recv_wf 1 2048) ltac:(by repeat constructor; simpl; lia)
    ltac:(change (RecvBatchRaw.capacity _) with 1%nat; simpl; lia)
    ltac:(change (RecvBatchRaw.capacity _) with 1%nat; unfold UIO_MAXIOV; lia)))
    as ([[r s'] b'] & h' & E & Hr & _ & Hwf & Hcap & Hps & _). simpl in Hr, Hwf, Hcap, Hps. subst r.
  rewrite <- Hlen in E, Hwf.
  destruct (recv_from_batch F (S k) _ buf h _ s' b' h' E Hwf Hcap) as (data & a & Hp & _ & Er).
  { by rewrite <- (length_packets (length buf)), Hps. }
  rewrite Hps in Hp. injection Hp as <- <-. eapply wp_intro; [exact Er|].
  split; [done|]. cbn [fst snd]. split; [rewrite length_app; simpl; lia|]. by apply take_app_length'.
Qed.

Lemma basic_main_wp h : net_at d1 d2 [] h → lits_ok [basic_msg] →
  wp (basic_main (B := unix_backend linux F fuel) F (S k) lit d1 d2)
    (λ r _, r = Ok [SentBytes 12 a2; ReceivedBytes 12 a1 (bytes_of basic_msg)]) h.
Proof.
  intros Hn Hl. unfold basic_main. apply (two_sockets _ _ _ []); [done|]. clear h Hn. intros h Hn.
  apply wp_tbind, wp_bind. eapply wp_mono; [by apply basic_send|].
  intros [r s'] h1 [Hr Hn1]. simpl in Hr. subst r. apply wp_ret. eexists. split; [done|].
  apply wp_tbind, wp_bind. eapply wp_mono; [by apply basic_recv|].
  intros [[r s2] buf] h2 (Hr & Hl2 & Hd). cbn [fst snd] in *. subst r.
  apply wp_ret. eexists. split; [done|]. cbv beta iota.
  rewrite (proj2 (Nat.leb_le _ _)) by done. apply wp_ret. by rewrite Hd.
Qed.

(** ** batch.rs *)
Lemma batch_msgs_small : small batch_msgs.
Proof. repeat (apply Forall_cons_2; [vm_compute; lia|]). apply Forall_nil_2. Qed.

Lemma new_holds N' : holds N' (SendBatch.raw (SendBatch.new N')) [].
Proof. split; [exact (with_capacity_wf N')|done]. Qed.

Lemma batch_main_wp h : net_at d1 d2 [] h → lits_ok batch_msgs →
  wp (batch_main (B := unix_backend linux F fuel) F (S k) lit d1 d2)
    (λ r _, r = Ok [Sent 32; Received 32; Packet (bytes_of "packet-0") a1; Data (bytes_of "packet-31")]) h.
Proof.
  intros Hn Hl. unfold batch_main. apply (two_sockets _ _ _ []); [done|]. clear h Hn. intros h Hn.
  assert (Hlen : length batch_msgs = 32%nat) by done. pose proof batch_msgs_small as Hsm.
  apply wp_bind. eapply wp_mono; [by apply (push_all_holds _ _ _ []); [apply new_holds|rewrite Hlen; simpl; lia]|].
  intros b h' [-> Hb]. rewrite app_nil_l in Hb.
  apply (send_then 32 0 _ _ batch_msgs []); [done|done|lia|done|done|done|rewrite Hlen; unfold UIO_MAXIOV; lia|].
  intros h1 s1 Hn1 _. apply (recv_then 0 _ _ batch_msgs); [done|done|lia|apply with_capacity_recv_wf|done| | |].
  { rewrite Hlen. change (RecvBatchRaw.capacity _) with 32%nat. lia. }
  { change (RecvBatchRaw.capacity _) with 32%nat. unfold UIO_MAXIOV. lia. }
  intros h2 s2 b' _ _ Hwf _ Hps. rewrite Hlen. cbn [Nat.ltb Nat.leb].
  apply wp_bind. eapply wp_lift; [by apply (iter_ok 2048)|]. simpl RecvBatch.raw. rewrite Hps.
  apply wp_ret. vm_compute. reflexivity.
Qed.

(** ** config_builder.rs *)
Lemma data_of_packets bs b d a : recv_wf bs b → packets b = [(d, a)] → RecvBatchRaw.data b 0 = Ret d.
Proof.
  intros [Hall Hl] Hp. unfold packets in Hp. destruct b as [[|sl sls] [|len]]; try done. simpl in *.
  injection Hp as <- <- _. apply (data_ok bs); [by inversion_clear Hall|done].
Qed.

Definition config_msg : string := "custom-config-works".

Lemma config_builder_main_wp os h :
  (∀ h v, 0 ≤ k_setsockopt h d2 SOL_SOCKET SO_SNDBUF v) → net_at d1 d2 [] h → lits_ok [config_msg] →
  wp (config_builder_main (B := unix_backend linux F fuel) F os (S k) lit d1 d2)
    (λ r _, let caps := platform_capabilities os F in
       r = Ok (caps_lines caps ++ [ConfigIs 16 65536; SocketBackend (backend_name caps) (max_batch_size caps);
                 Sent 1; Received 1; Data (bytes_of config_msg)])) h.
Proof.
  intros Hset Hn Hl. unfold config_builder_main. apply wp_tbind.
  eapply wp_mono; [by apply (from_std_plain _ d2 [])|]. clear h Hn. intros r h [-> Hn]. eexists. split; [done|].
  apply wp_tbind. eapply wp_mono; [by apply (local_addr_bound [])|].
  clear h Hn. intros r h [-> Hn]. eexists. split; [done|].
  apply wp_tbind. eapply wp_mono; [by apply (from_std_plain config_default d1 [])|].
  clear h Hn. intros r h [-> Hn]. eexists. split; [done|].
  assert (Hsm : small [config_msg]) by (repeat constructor; vm_compute; lia).
  apply wp_bind. eapply wp_mono; [by apply (push_all_holds [config_msg] _ _ []); [apply new_holds|simpl; lia]|].
  intros b h' [-> Hb]. rewrite app_nil_l in Hb.
  apply (send_then 1 0 _ _ [config_msg] []); [done|done|lia|done|done|done|unfold UIO_MAXIOV; simpl; lia|].
  intros h1 s1 Hn1 _. apply (recv_then 0 _ _ [config_msg]); [done|done|lia|apply with_capacity_recv_wf|done| | |].
  1, 2: change (RecvBatchRaw.capacity _) with 1%nat; unfold UIO_MAXIOV; simpl; lia.
  intros h2 s2 b' _ _ Hwf Hcap Hps. cbn [length Nat.ltb Nat.leb].
  apply wp_bind. eapply wp_lift; [apply (data_of_packets 2048 b' _ a1); [done|exact Hps]|]. apply wp_ret. by rewrite <- (assoc_L (++)).
Qed.

(** ** select.rs *)

(** The loop between two iterations: [n] operations so far, the send batch holds [msgs], the receiver's
    queue is [q], [o] was printed. *)
Record sel_at (n : Z) (it : nat) (wait : bool) (msgs : list string) (q : list datagram) (o : list line)
    (st : select_state) (h : history) : Prop := {
  sel_iteration : iteration st = it;
  sel_waiting : waiting_for_recv st = wait;
  sel_out : out st = o;
  sel_sender_ok : sock_inv d1 n (sel_sender st);
  sel_receiver_ok : sock_inv d2 n (sel_receiver st);
  sel_holds : holds 8 (SendBatch.raw (sel_send st)) msgs;
  sel_recv_wf : recv_wf 2048 (RecvBatch.raw (sel_recv st));
  sel_recv_cap : RecvBatchRaw.capacity (RecvBatch.raw (sel_recv st)) = 8%nat;
  sel_net : net_at d1 d2 q h;
}.

Definition packet_lines (msgs : list string) : list line := (λ m, Packet (bytes_of m) a1) <$> msgs.

Lemma sock_inv_mono d n n' s : n ≤ n' → sock_inv d n s → sock_inv d n' s.
Proof. intros Hn (Hfd & H1 & H2). split; [done|]. by split; eapply lock_ok_mono. Qed.

(** The sending branch. *)
Lemma select_send n it msgs o st h : sel_at n it false msgs [] o st h → n < 2 ^ 64 - 1 →
  lits_ok msgs → small msgs → length msgs = 8%nat →
  wp (select_branch (B := unix_backend linux F fuel) F (S k) st)
    (λ r h', ∃ st', r = Ok st' ∧
       sel_at (n + 1) (S it) true [] (from_socket d1 (bytes_of <$> msgs)) (o ++ [Iteration it 8]) st' h') h.
Proof.
  intros [Hit Hw Ho Hs Hr Hb Hrw Hrc Hn] Hlt Hl Hsm Hlen. unfold select_branch. rewrite Hw.
  apply wp_bind. eapply wp_intro; [reflexivity|].
  apply (net_at_silent d1 _ _ [EvWritable (BingerUdp.fd (sel_sender st)) (k_writable h (BingerUdp.fd (sel_sender st)))])
    in Hn; [|by repeat constructor|done].
  unfold SendBatch.is_empty, SendBatch.len. rewrite (holds_len _ _ _ Hb), Hlen. cbn [Nat.eqb].
  eapply (send_then 8 n _ _ msgs []); [exact Hn|done|done|done|done|done|rewrite Hlen; unfold UIO_MAXIOV; lia|].
  intros h1 s' Hn1 Hs'. rewrite Hlen, Hit. apply wp_ret. eexists. split; [done|].
  split; simpl; [done|done|by rewrite Ho|done|by apply (sock_inv_mono _ n); [lia|]| |done|done|exact Hn1].
  destruct Hb as [(? & ? & _) _]. split; [|done]. split_and!; simpl; [done|done|lia].
Qed.

(** The receiving branch. *)
Lemma select_recv n it msgs' msgs o st h :
  sel_at n it true msgs' (from_socket d1 (bytes_of <$> msgs)) o st h → n < 2 ^ 64 - 1 →
  small msgs → length msgs = 8%nat →
  wp (select_branch (B := unix_backend linux F fuel) F (S k) st)
    (λ r h', ∃ st', r = Ok st' ∧
       sel_at (n + 1) it false msgs' [] (o ++ Received 8 :: packet_lines msgs) st' h') h.
Proof.
  intros [Hit Hw Ho Hs Hr Hb Hrw Hrc Hn] Hlt Hsm Hlen. unfold select_branch. rewrite Hw.
  apply wp_bind. eapply wp_intro; [reflexivity|].
  apply (net_at_silent d2 _ _ [EvReadable (BingerUdp.fd (sel_receiver st)) (k_readable h (BingerUdp.fd (sel_receiver st)))])
    in Hn; [|by repeat constructor|done].
  eapply (recv_then n _ _ msgs); [exact Hn|done|done|done|done|rewrite Hrc, Hlen; lia|rewrite Hrc; unfold UIO_MAXIOV; lia|].
  intros h1 s' b' Hn1 Hs' Hwf Hcap Hps. apply wp_bind. eapply wp_lift; [by apply (iter_ok 2048)|].
  apply wp_ret. eexists. split; [done|]. simpl RecvBatch.raw. rewrite Hps, Hlen, <- list_fmap_compose.
  split; simpl; [done|done|by rewrite Ho|by apply (sock_inv_mono _ n); [lia|]|done|done|by apply clear_wf| |done].
  unfold RecvBatchRaw.capacity in *. simpl. by rewrite length_fmap, Hcap.
Qed.

(** Draining. *)
Lemma select_drain_wp n it msgs o st h :
  sel_at n it true [] (from_socket d1 (bytes_of <$> msgs)) o st h → n < 2 ^ 64 - 1 →
  small msgs → length msgs = 8%nat → (∀ h, inbox h d2 ≠ [] → k_readable h d2 = Ok tt) →
  wp (select_drain (B := unix_backend linux F fuel) F (S k) st) (λ r _, r = Ok (o ++ [Drained 8])) h.
Proof.
  intros [Hit Hw Ho Hs Hr Hb Hrw Hrc Hn] Hlt Hsm Hlen Hready. unfold select_drain.
  apply wp_bind. eapply wp_intro; [reflexivity|].
  assert (Hrd : k_readable h (BingerUdp.fd (sel_receiver st)) = Ok tt).
  { destruct Hr as [-> _]. apply Hready. rewrite (at_inbox _ _ _ _ Hn). by destruct msgs. }
  rewrite Hrd. apply (net_at_silent d2 _ _ [EvReadable (BingerUdp.fd (sel_receiver st)) (Ok tt)])
    in Hn; [|by repeat constructor|done].
  apply wp_bind. eapply wp_mono;
    [eapply (recv_msgs n _ _ msgs); [exact Hn|done|done|done|done|rewrite Hrc, Hlen; lia|rewrite Hrc; unfold UIO_MAXIOV; lia]|].
  intros [[r s'] b'] h1 (Hr' & _). simpl in Hr'. subst r. apply wp_ret. by rewrite Ho, Hlen.
Qed.

(** One iteration of the loop: a send that is not the last refills the batch, ... *)
Lemma loop_send rounds n it msgs o st Q h : sel_at n it false msgs [] o st h → n < 2 ^ 64 - 1 →
  (S it < 3)%nat → lits_ok msgs → small msgs → length msgs = 8%nat →
  (∀ st' h', sel_at (n + 1) (S it) true (round_msgs (S it)) (from_socket d1 (bytes_of <$> msgs))
               (o ++ [Iteration it 8]) st' h' →
     wp (select_loop (B := unix_backend linux F fuel) F (S k) lit a2 rounds st') Q h') →
  wp (select_loop (B := unix_backend linux F fuel) F (S k) lit a2 (S rounds) st) Q h.
Proof.
  intros Hst Hlt Hit Hl Hsm Hlen Hk. cbn [select_loop]. apply wp_tbind.
  eapply wp_mono; [by apply (select_send n it msgs o)|]. intros r h1 (st1 & -> & Hst1). exists st1. split; [done|].
  pose proof Hst1 as [Hit1 Hw1 Ho1 Hs1 Hr1 Hb1 Hrw1 Hrc1 Hn1]. rewrite Hit1.
  rewrite (proj2 (Nat.leb_gt _ _)) by (unfold MAX_ITER; lia).
  unfold SendBatch.is_empty, SendBatch.len. rewrite (holds_len _ _ _ Hb1). cbn [length Nat.eqb].
  rewrite (proj2 (Nat.ltb_lt _ _)) by (unfold MAX_ITER; lia). cbn [andb].
  apply wp_bind. eapply wp_mono; [by apply (push_all_holds _ _ _ [])|]. intros b h' [-> Hb].
  apply Hk. by split.
Qed.

(** ... a receive goes on with the batch that waits, ... *)
Lemma loop_recv rounds n it msgs' msgs o st Q h :
  sel_at n it true msgs' (from_socket d1 (bytes_of <$> msgs)) o st h → n < 2 ^ 64 - 1 →
  (it < 3)%nat → msgs' ≠ [] → small msgs → length msgs = 8%nat →
  (∀ st' h', sel_at (n + 1) it false msgs' [] (o ++ Received 8 :: packet_lines msgs) st' h' →
     wp (select_loop (B := unix_backend linux F fuel) F (S k) lit a2 rounds st') Q h') →
  wp (select_loop (B := unix_backend linux F fuel) F (S k) lit a2 (S rounds) st) Q h.
Proof.
  intros Hst Hlt Hit Hne Hsm Hlen Hk. cbn [select_loop]. apply wp_tbind.
  eapply wp_mono; [by apply (select_recv n it msgs' msgs o)|]. intros r h1 (st1 & -> & Hst1). exists st1. split; [done|].
  rewrite (sel_iteration _ _ _ _ _ _ _ _ Hst1), (proj2 (Nat.leb_gt _ _)) by (unfold MAX_ITER; lia).
  unfold SendBatch.is_empty, SendBatch.len. rewrite (holds_len _ _ _ (sel_holds _ _ _ _ _ _ _ _ Hst1)).
  destruct msgs'; [done|]. by apply Hk.
Qed.

(** ... and the last send ends it. *)
Lemma loop_last rounds n msgs o st h : sel_at n 2 false msgs [] o st h → n < 2 ^ 64 - 2 →
  lits_ok msgs → small msgs → length msgs = 8%nat → (∀ h, inbox h d2 ≠ [] → k_readable h d2 = Ok tt) →
  wp (select_loop (B := unix_backend linux F fuel) F (S k) lit a2 (S rounds) st)
    (λ r _, r = Ok (o ++ [Iteration 2 8; Drained 8])) h.
Proof.
  intros Hst Hlt Hl Hsm Hlen Hready. cbn [select_loop]. apply wp_tbind.
  eapply wp_mono; [by apply (select_send n 2 msgs o); [done|lia|..]|].
  intros r h1 (st1 & -> & Hst1). exists st1. split; [done|].
  rewrite (sel_iteration _ _ _ _ _ _ _ _ Hst1). cbn [Nat.leb MAX_ITER].
  eapply wp_mono; [by apply (select_drain_wp (n + 1) 3 msgs); [exact Hst1|lia|..]|].
  intros r h2 ->. by rewrite <- (assoc_L (++)).
Qed.

Lemma first_msgs_small : small first_msgs.
Proof. repeat (apply Forall_cons_2; [vm_compute; lia|]). apply Forall_nil_2. Qed.
Lemma round_msgs_small i : i ∈ [1; 2]%nat → small (round_msgs i).
Proof.
  rewrite !elem_of_cons, elem_of_nil. intros [->|[->|[]]];
    repeat (apply Forall_cons_2; [vm_compute; lia|]); apply Forall_nil_2.
Qed.

Lemma select_main_wp rounds h : net_at d1 d2 [] h → (∀ h, inbox h d2 ≠ [] → k_readable h d2 = Ok tt) →
  lits_ok (first_msgs ++ round_msgs 1 ++ round_msgs 2) →
  wp (select_main (B := unix_backend linux F fuel) F (S k) lit (5 + rounds) d1 d2)
    (λ r _, r = Ok ([Iteration 0 8; Received 8] ++ packet_lines first_msgs
                    ++ [Iteration 1 8; Received 8] ++ packet_lines (round_msgs 1)
                    ++ [Iteration 2 8; Drained 8])) h.
Proof.
  intros Hn Hready [Hl0 [Hl1 Hl2]%Forall_app]%Forall_app. unfold select_main.
  apply (two_sockets _ _ _ []); [done|]. clear h Hn. intros h Hn.
  apply wp_bind. eapply wp_mono; [by apply (push_all_holds first_msgs _ _ []); [apply new_holds|vm_compute; lia]|].
  intros b h' [-> Hb]. rewrite app_nil_l in Hb.
  pose proof first_msgs_small as Hm0. pose proof (round_msgs_small 1 ltac:(set_solver)) as Hm1.
  pose proof (round_msgs_small 2 ltac:(set_solver)) as Hm2.
  eapply (loop_send _ 0 0 first_msgs []); [|lia|lia|done|done|done|].
  { split; try done. apply with_capacity_recv_wf. }
  intros st1 h1 H1. eapply (loop_recv _ _ 1 (round_msgs 1) first_msgs); [exact H1|lia|lia|done|done|done|].
  intros st2 h2 H2. eapply (loop_send _ _ 1 (round_msgs 1)); [exact H2|lia|lia|done|done|done|].
  intros st3 h3 H3. eapply (loop_recv _ _ 2 (round_msgs 2) (round_msgs 1)); [exact H3|lia|lia|done|done|done|].
  intros st4 h4 H4. eapply wp_mono; [eapply (loop_last _ _ (round_msgs 2)); [exact H4|lia|done..]|].
  intros r h5 ->. by rewrite <- !(assoc_L (++)).
Qed.
End any_host.

(** C13: the batch example works on every host. Whatever the host, as long as it neither loses nor reorders
    datagrams, lets sockets be made non-blocking and registered and the sender reach the receiver, and
    keeps the program's strings in memory, the program creates its sockets, sends the 32 packets as one
    batch and receives them as one batch; it prints the first and the last as sent, with the sender's
    address. Either Unix backend can be compiled in. *)
Theorem batch_main_any_host {L : Libc} {LL : LibcLaws} {K : Kernel} {KL : KernelLaws} {N : Network}
    {NL : NetworkLaws} {P : Profile} F lit linux fuel k d1 d2 a1 a2 h :
  host_ok → lits_ok lit batch_msgs → bound_pair d1 d2 a1 a2 → net_at d1 d2 [] h → (0 < fuel)%nat →
  ∃ h', batch_main (B := unix_backend linux F fuel) F (S k) lit d1 d2 h =
    Ret (Ok [Sent 32; Received 32; Packet (bytes_of "packet-0") a1; Data (bytes_of "packet-31")], h').
Proof.
  intros HO Hl HP Hn Hfuel.
  destruct (wp_elim _ _ _ (batch_main_wp F lit HO d1 d2 a1 a2 HP linux fuel k Hfuel h Hn Hl))
    as (r & h' & E & ->). eauto.
Qed.

(** C39: the single-packet and the configuration example work on every host, in the same sense, in every
    build that uses a Unix backend (Linux, or another target or [miri-safe] with the portable one).
    basic.rs sends its 12 bytes with [send_to] and [recv_from] returns them with the sender's address.
    config_builder.rs, where the host lets the send buffer size be set, prints the capabilities of the
    target (the batched calls and 1024 on Linux, the optional features when they are compiled in on
    Linux) and the configuration, and the socket with that configuration receives the packet. *)
Theorem basic_and_config_any_host {L : Libc} {LL : LibcLaws} {K : Kernel} {KL : KernelLaws} {N : Network}
    {NL : NetworkLaws} {P : Profile} os F lit linux fuel k d1 d2 a1 a2 h :
  unix_build os F = Some linux →
  host_ok → lits_ok lit ["hello binger"; "custom-config-works"]%string →
  (∀ h v, 0 ≤ k_setsockopt h d2 SOL_SOCKET SO_SNDBUF v) →
  bound_pair d1 d2 a1 a2 → net_at d1 d2 [] h → (0 < fuel)%nat →
  let B := unix_backend linux F fuel in
  (∃ h', basic_main (B := B) F (S k) lit d1 d2 h =
    Ret (Ok [SentBytes 12 a2; ReceivedBytes 12 a1 (bytes_of "hello binger")], h')) ∧
  ∃ h', config_builder_main (B := B) F os (S k) lit d1 d2 h =
    Ret (Ok [PlatformBackend (backends os);
             Supports "sendmmsg" (is_linux os); Supports "recvmmsg" (is_linux os);
             Supports "GSO" (is_linux os && f_gso F); Supports "GRO" (is_linux os && f_gro F);
             Supports "busy-poll" (is_linux os && f_busy_poll F);
             Supports "pacing" (is_linux os && f_pacing F);
             MaxBatch (if is_linux os then 1024 else 32);
             ConfigIs 16 65536;
             SocketBackend (backends os) (if is_linux os then 1024 else 32);
             Sent 1; Received 1; Data (bytes_of "custom-config-works")], h').
Proof.
  intros _ HO Hl Hset HP Hn Hfuel B. apply Forall_cons_1 in Hl as [Hl1 Hl2]. split.
  - destruct (wp_elim _ _ _ (basic_main_wp F lit HO d1 d2 a1 a2 HP linux fuel k Hfuel h Hn
      ltac:(by apply Forall_singleton))) as (r & h' & E & ->). eauto.
  - destruct (wp_elim _ _ _ (config_builder_main_wp F lit HO d1 d2 a1 a2 HP linux fuel k Hfuel os h Hset Hn Hl2))
      as (r & h' & E & ->). eauto.
Qed.

(** C40: the [select!] example works on every host, in the same sense, when readiness is reported for a
    socket with waiting datagrams: with a bound of five or more iterations the loop ends, after three
    batches of eight; the first two are received completely, in order and with the sender's address
    before the next one is sent, the third is drained. *)
Theorem select_main_any_host {L : Libc} {LL : LibcLaws} {K : Kernel} {KL : KernelLaws} {N : Network}
    {NL : NetworkLaws} {P : Profile} os F lit linux fuel k rounds d1 d2 a1 a2 h :
  unix_build os F = Some linux →
  host_ok → lits_ok lit (first_msgs ++ round_msgs 1 ++ round_msgs 2) →
  (∀ h, inbox h d2 ≠ [] → k_readable h d2 = Ok tt) →
  bound_pair d1 d2 a1 a2 → net_at d1 d2 [] h → (0 < fuel)%nat →
  let packet_lines := fmap (λ m, Packet (bytes_of m) a1) in
  ∃ h', select_main (B := unix_backend linux F fuel) F (S k) lit (5 + rounds) d1 d2 h =
    Ret (Ok ([Iteration 0 8; Received 8]
             ++ packet_lines ["data-0"; "data-1"; "data-2"; "data-3"; "data-4"; "data-5"; "data-6"; "data-7"]%string
             ++ [Iteration 1 8; Received 8]
             ++ packet_lines ["data-0-round1"; "data-1-round1"; "data-2-round1"; "data-3-round1";
                              "data-4-round1"; "data-5-round1"; "data-6-round1"; "data-7-round1"]%string
             ++ [Iteration 2 8; Drained 8]), h').
Proof.
  intros _ HO Hl Hready HP Hn Hfuel packet_lines.
  destruct (wp_elim _ _ _ (select_main_wp F lit HO d1 d2 a1 a2 HP linux fuel k Hfuel rounds h Hn Hready Hl))
    as (r & h' & E & ->). exists h'. rewrite E. reflexivity.
Qed.

(** ** A host of these theorems *)
Definition strs : list string :=
  ["hello binger"; "custom-config-works"]%string ++ batch_msgs ++ first_msgs ++ round_msgs 1 ++ round_msgs 2.
Definition run_libc : Libc := unix_libc Linux true.
Definition run_network : @Network run_libc := @loop_network run_libc SockaddrTests.binds.
Definition run_kernel : @Kernel run_libc := @loop_kernel run_libc (static_mem strs) SockaddrTests.binds.
(** The receiver's and the sender's address. *)
Definition recv_at : SocketAddr := localhost 40001.
Definition send_at : SocketAddr := localhost 40002.

Lemma run_host_ok : @host_ok run_libc run_kernel run_network.
Proof. by split. Qed.
Lemma run_lits_ok : @lits_ok run_libc run_kernel (static strs) strs.
Proof. repeat (apply Forall_cons_2; [intros h; vm_compute; reflexivity|]). apply Forall_nil_2. Qed.
Lemma run_pair : @bound_pair run_libc run_network 4 3 send_at recv_at.
Proof.
  split; try (vm_compute; reflexivity || exact I);
    (split_and!; [done|by repeat constructor|simpl; lia|simpl; lia]).
Qed.
Lemma run_net : @net_at run_libc run_network 4 3 [] [].
Proof. by split. Qed.

Lemma batch_main_any_host_witness :
  ∃ h', @batch_main run_libc run_kernel (@unix_backend run_libc run_kernel false tokio_only 1) true
          tokio_only 1 (static strs) 4 3 [] =
    Ret (Ok [Sent 32; Received 32; Packet (bytes_of "packet-0") send_at; Data (bytes_of "packet-31")], h').
Proof.
  apply (@batch_main_any_host run_libc (unix_libc_laws Linux true) run_kernel (loop_kernel_laws _ _)
    run_network (loop_network_laws _ _) true tokio_only (static strs) false 1 0 4 3 send_at recv_at []).
  - exact run_host_ok.
  - pose proof run_lits_ok as [_ [Hl _]%Forall_app]%(Forall_app _ ["hello binger"; "custom-config-works"]%string). exact Hl.
  - exact run_pair.
  - exact run_net.
  - lia.
Defined.

Lemma basic_and_config_any_host_witness :
  ∃ h', @basic_main run_libc run_kernel (@unix_backend run_libc run_kernel true tokio_only 1) true
          tokio_only 1 (static strs) 4 3 [] =
    Ret (Ok [SentBytes 12 recv_at; ReceivedBytes 12 send_at (bytes_of "hello binger")], h').
Proof.
  apply (@basic_and_config_any_host run_libc (unix_libc_laws Linux true) run_kernel (loop_kernel_laws _ _)
    run_network (loop_network_laws _ _) true os_linux tokio_only (static strs) true 1 0 4 3 send_at recv_at []).
  - reflexivity.
  - exact run_host_ok.
  - pose proof run_lits_ok as [Hl _]%(Forall_app _ ["hello binger"; "custom-config-works"]%string). exact Hl.
  - intros h v. vm_compute. discriminate.
  - exact run_pair.
  - exact run_net.
  - lia.
Defined.

Lemma select_main_any_host_witness :
  ∃ h' o, @select_main run_libc run_kernel (@unix_backend run_libc run_kernel false tokio_only 1) true
            tokio_only 1 (static strs) 5 4 3 [] = Ret (Ok o, h') ∧
          o !! 3%nat = Some (Packet (bytes_of "data-1") send_at) ∧ o !! 21%nat = Some (Drained 8).
Proof.
  destruct (@select_main_any_host run_libc (unix_libc_laws Linux true) run_kernel (loop_kernel_laws _ _)
    run_network (loop_network_laws _ _) true os_other tokio_only (static strs) false 1 0 0 4 3 send_at recv_at [])
    as (h' & E).
  - reflexivity.
  - exact run_host_ok.
  - pose proof run_lits_ok as [_ [_ Hl]%Forall_app]%(Forall_app _ ["hello binger"; "custom-config-works"]%string). exact Hl.
  - done.
  - exact run_pair.
  - exact run_net.
  - lia.
  - eexists h', _. split; [exact E|]. split; reflexivity.
Defined.
